(** * Verification of the BS and MERCURANA integrators

    A shallow embedding of [src/integrator_bs.c] (Gragg-Bulirsch-Stoer
    extrapolation with step and order control) and of
    [src/integrator_mercurana.c] (multi-shell hybrid symplectic scheme),
    followed by the properties established about them.

    Numbers.  C [double]s are modelled by exact arithmetic: rationals [Q]
    for the BS controller, so that the controller can be run on concrete
    inputs, and reals [R] for MERCURANA, whose statements are identities of
    real arithmetic.  Rounding, infinities and NaN have no counterpart; in
    particular [isnan(error)] is never true and [x / 0] evaluates to [0],
    where the code has an infinity or a NaN.  Where such a quotient decides
    what the code does, the case is written out in the definition: the
    stability check with a [scale] entry of zero ([stability_check_fails]),
    the step-size factor for an error of zero ([step_control]) and the
    switching function at the inner radius ([f]).  Statements that hold of
    the exact arithmetic only say so.
    The libm functions used by the BS controller ([sqrt], [pow], [log10])
    are an interface the development is parametric in.

    Arrays.  The per-ODE buffers of [length] components are lists read with
    [get] and written with [upd]; the arrays of [sequence_length] entries
    owned by the integrator are read and written through the checked
    accessors [rd] and [wr], which produce [Fault] outside the allocated
    length. *)

From Stdlib Require Import ZArith QArith Qabs Qround Qminmax.
From Stdlib Require Import List Bool Lia Psatz ZifyBool.
From Stdlib Require Import Reals.
Import ListNotations.

Set Implicit Arguments.

(** ** Results of fallible code *)

Inductive result (A : Type) : Type :=
| Ok (a : A)
| Exit (code : Z)
| Fault
| OutOfFuel.

Arguments Ok {A} a.
Arguments Exit {A} code.
Arguments Fault {A}.
Arguments OutOfFuel {A}.

Definition bind {A B : Type} (r : result A) (f : A -> result B) : result B :=
  match r with
  | Ok a => f a
  | Exit c => Exit c
  | Fault => Fault
  | OutOfFuel => OutOfFuel
  end.

Notation "x <- c ;; k" := (bind c (fun x => k))
  (at level 61, c at next level, right associativity).

(** ** Loops and arrays *)

(** [for (i = lo; i < hi; ++i) body]. *)
Fixpoint for_iter {S : Type} (cnt : nat) (i : Z) (body : Z -> S -> S) (s : S) : S :=
  match cnt with
  | O => s
  | Datatypes.S c => for_iter c (i + 1)%Z body (body i s)
  end.

Definition for_range {S : Type} (lo hi : Z) (body : Z -> S -> S) (s : S) : S :=
  for_iter (Z.to_nat (hi - lo)) lo body s.

Fixpoint upd_nat {A : Type} (i : nat) (v : A) (l : list A) : list A :=
  match l, i with
  | [], _ => []
  | _ :: t, O => v :: t
  | h :: t, Datatypes.S i' => h :: upd_nat i' v t
  end.

Definition getd {A : Type} (d : A) (l : list A) (i : Z) : A :=
  if (i <? 0)%Z then d else nth (Z.to_nat i) l d.

Definition upd {A : Type} (i : Z) (v : A) (l : list A) : list A :=
  if (i <? 0)%Z then l else upd_nat (Z.to_nat i) v l.

Definition in_bounds {A : Type} (l : list A) (i : Z) : bool :=
  (0 <=? i)%Z && (i <? Z.of_nat (List.length l))%Z.

Definition rd {A : Type} (d : A) (l : list A) (i : Z) : result A :=
  if in_bounds l i then Ok (getd d l i) else Fault.

Definition wr {A : Type} (l : list A) (i : Z) (v : A) : result (list A) :=
  if in_bounds l i then Ok (upd i v l) else Fault.

(** ** BS: data model *)

Local Open Scope Q_scope.

Definition get (l : list Q) (i : Z) : Q := getd 0 l i.

(** [MAX(a, b) ((a) > (b) ? (a) : (b))] and [MIN]. *)
Definition MAX (a b : Q) : Q := if Qlt_le_dec b a then a else b.
Definition MIN (a b : Q) : Q := if Qlt_le_dec a b then a else b.
Definition MAXZ (a b : Z) : Z := if (a >? b)%Z then a else b.
Definition MINZ (a b : Z) : Z := if (a <? b)%Z then a else b.

Definition fabs (x : Q) : Q := Qabs x.

(** The libm functions the controller calls. *)
Class LibM : Type := {
  libm_sqrt : Q -> Q;
  libm_pow : Q -> Q -> Q;
  libm_log10 : Q -> Q
}.

(** [struct reb_ode_state].  The callbacks are pure functions of their input
    vector and of the time: [ode_derivatives st y t] is the content of the
    output buffer after the call, [ode_getscale y_a y_b] the content of
    [scale]. *)
Record reb_ode_state : Type := {
  ode_length : Z;
  ode_y : list Q;
  ode_y1 : list Q;
  ode_y0Dot : list Q;
  ode_yDot : list Q;
  ode_yTmp : list Q;
  ode_C : list Q;
  ode_D : list (list Q);
  ode_scale : list Q;
  ode_derivatives : list Q -> Q -> list Q;
  ode_getscale : option (list Q -> list Q -> list Q)
}.

Definition set_y (st : reb_ode_state) (v : list Q) : reb_ode_state :=
  {| ode_length := ode_length st; ode_y := v; ode_y1 := ode_y1 st;
     ode_y0Dot := ode_y0Dot st; ode_yDot := ode_yDot st; ode_yTmp := ode_yTmp st;
     ode_C := ode_C st; ode_D := ode_D st; ode_scale := ode_scale st;
     ode_derivatives := ode_derivatives st; ode_getscale := ode_getscale st |}.

Definition set_y1 (st : reb_ode_state) (v : list Q) : reb_ode_state :=
  {| ode_length := ode_length st; ode_y := ode_y st; ode_y1 := v;
     ode_y0Dot := ode_y0Dot st; ode_yDot := ode_yDot st; ode_yTmp := ode_yTmp st;
     ode_C := ode_C st; ode_D := ode_D st; ode_scale := ode_scale st;
     ode_derivatives := ode_derivatives st; ode_getscale := ode_getscale st |}.

Definition set_y0Dot (st : reb_ode_state) (v : list Q) : reb_ode_state :=
  {| ode_length := ode_length st; ode_y := ode_y st; ode_y1 := ode_y1 st;
     ode_y0Dot := v; ode_yDot := ode_yDot st; ode_yTmp := ode_yTmp st;
     ode_C := ode_C st; ode_D := ode_D st; ode_scale := ode_scale st;
     ode_derivatives := ode_derivatives st; ode_getscale := ode_getscale st |}.

Definition set_yDot (st : reb_ode_state) (v : list Q) : reb_ode_state :=
  {| ode_length := ode_length st; ode_y := ode_y st; ode_y1 := ode_y1 st;
     ode_y0Dot := ode_y0Dot st; ode_yDot := v; ode_yTmp := ode_yTmp st;
     ode_C := ode_C st; ode_D := ode_D st; ode_scale := ode_scale st;
     ode_derivatives := ode_derivatives st; ode_getscale := ode_getscale st |}.

Definition set_yTmp (st : reb_ode_state) (v : list Q) : reb_ode_state :=
  {| ode_length := ode_length st; ode_y := ode_y st; ode_y1 := ode_y1 st;
     ode_y0Dot := ode_y0Dot st; ode_yDot := ode_yDot st; ode_yTmp := v;
     ode_C := ode_C st; ode_D := ode_D st; ode_scale := ode_scale st;
     ode_derivatives := ode_derivatives st; ode_getscale := ode_getscale st |}.

Definition set_C (st : reb_ode_state) (v : list Q) : reb_ode_state :=
  {| ode_length := ode_length st; ode_y := ode_y st; ode_y1 := ode_y1 st;
     ode_y0Dot := ode_y0Dot st; ode_yDot := ode_yDot st; ode_yTmp := ode_yTmp st;
     ode_C := v; ode_D := ode_D st; ode_scale := ode_scale st;
     ode_derivatives := ode_derivatives st; ode_getscale := ode_getscale st |}.

Definition set_D (st : reb_ode_state) (v : list (list Q)) : reb_ode_state :=
  {| ode_length := ode_length st; ode_y := ode_y st; ode_y1 := ode_y1 st;
     ode_y0Dot := ode_y0Dot st; ode_yDot := ode_yDot st; ode_yTmp := ode_yTmp st;
     ode_C := ode_C st; ode_D := v; ode_scale := ode_scale st;
     ode_derivatives := ode_derivatives st; ode_getscale := ode_getscale st |}.

Definition set_scale (st : reb_ode_state) (v : list Q) : reb_ode_state :=
  {| ode_length := ode_length st; ode_y := ode_y st; ode_y1 := ode_y1 st;
     ode_y0Dot := ode_y0Dot st; ode_yDot := ode_yDot st; ode_yTmp := ode_yTmp st;
     ode_C := ode_C st; ode_D := ode_D st; ode_scale := v;
     ode_derivatives := ode_derivatives st; ode_getscale := ode_getscale st |}.

(** [D[j][i]] and [D[j][i] = v]. *)
Definition getD (st : reb_ode_state) (j i : Z) : Q := get (getd [] (ode_D st) j) i.
Definition updD (st : reb_ode_state) (j i : Z) (v : Q) : reb_ode_state :=
  set_D st (upd j (upd i v (getd [] (ode_D st) j)) (ode_D st)).

(** [struct reb_simulation_integrator_bs]; [N] is the length of [states]. *)
Record reb_simulation_integrator_bs : Type := {
  states : list reb_ode_state;
  sequence : list Z;
  costPerStep : list Z;
  coeff : list Q;
  costPerTimeUnit : list Q;
  optimalStep : list Q;
  scalAbsoluteTolerance : Q;
  scalRelativeTolerance : Q;
  minStep : Q;
  maxStep : Q;
  method : Z;
  targetIter : Z;
  previousRejected : Z;
  firstOrLastStep : Z;
  dt_proposed : Q
}.

Definition set_states (ri : reb_simulation_integrator_bs) (v : list reb_ode_state) :=
  {| states := v; sequence := sequence ri; costPerStep := costPerStep ri;
     coeff := coeff ri; costPerTimeUnit := costPerTimeUnit ri;
     optimalStep := optimalStep ri;
     scalAbsoluteTolerance := scalAbsoluteTolerance ri;
     scalRelativeTolerance := scalRelativeTolerance ri;
     minStep := minStep ri; maxStep := maxStep ri; method := method ri;
     targetIter := targetIter ri; previousRejected := previousRejected ri;
     firstOrLastStep := firstOrLastStep ri; dt_proposed := dt_proposed ri |}.

Definition set_costPerTimeUnit (ri : reb_simulation_integrator_bs) (v : list Q) :=
  {| states := states ri; sequence := sequence ri; costPerStep := costPerStep ri;
     coeff := coeff ri; costPerTimeUnit := v;
     optimalStep := optimalStep ri;
     scalAbsoluteTolerance := scalAbsoluteTolerance ri;
     scalRelativeTolerance := scalRelativeTolerance ri;
     minStep := minStep ri; maxStep := maxStep ri; method := method ri;
     targetIter := targetIter ri; previousRejected := previousRejected ri;
     firstOrLastStep := firstOrLastStep ri; dt_proposed := dt_proposed ri |}.

Definition set_optimalStep (ri : reb_simulation_integrator_bs) (v : list Q) :=
  {| states := states ri; sequence := sequence ri; costPerStep := costPerStep ri;
     coeff := coeff ri; costPerTimeUnit := costPerTimeUnit ri;
     optimalStep := v;
     scalAbsoluteTolerance := scalAbsoluteTolerance ri;
     scalRelativeTolerance := scalRelativeTolerance ri;
     minStep := minStep ri; maxStep := maxStep ri; method := method ri;
     targetIter := targetIter ri; previousRejected := previousRejected ri;
     firstOrLastStep := firstOrLastStep ri; dt_proposed := dt_proposed ri |}.

Definition set_targetIter (ri : reb_simulation_integrator_bs) (v : Z) :=
  {| states := states ri; sequence := sequence ri; costPerStep := costPerStep ri;
     coeff := coeff ri; costPerTimeUnit := costPerTimeUnit ri;
     optimalStep := optimalStep ri;
     scalAbsoluteTolerance := scalAbsoluteTolerance ri;
     scalRelativeTolerance := scalRelativeTolerance ri;
     minStep := minStep ri; maxStep := maxStep ri; method := method ri;
     targetIter := v; previousRejected := previousRejected ri;
     firstOrLastStep := firstOrLastStep ri; dt_proposed := dt_proposed ri |}.

Definition set_previousRejected (ri : reb_simulation_integrator_bs) (v : Z) :=
  {| states := states ri; sequence := sequence ri; costPerStep := costPerStep ri;
     coeff := coeff ri; costPerTimeUnit := costPerTimeUnit ri;
     optimalStep := optimalStep ri;
     scalAbsoluteTolerance := scalAbsoluteTolerance ri;
     scalRelativeTolerance := scalRelativeTolerance ri;
     minStep := minStep ri; maxStep := maxStep ri; method := method ri;
     targetIter := targetIter ri; previousRejected := v;
     firstOrLastStep := firstOrLastStep ri; dt_proposed := dt_proposed ri |}.

Definition set_firstOrLastStep (ri : reb_simulation_integrator_bs) (v : Z) :=
  {| states := states ri; sequence := sequence ri; costPerStep := costPerStep ri;
     coeff := coeff ri; costPerTimeUnit := costPerTimeUnit ri;
     optimalStep := optimalStep ri;
     scalAbsoluteTolerance := scalAbsoluteTolerance ri;
     scalRelativeTolerance := scalRelativeTolerance ri;
     minStep := minStep ri; maxStep := maxStep ri; method := method ri;
     targetIter := targetIter ri; previousRejected := previousRejected ri;
     firstOrLastStep := v; dt_proposed := dt_proposed ri |}.

Definition set_dt_proposed (ri : reb_simulation_integrator_bs) (v : Q) :=
  {| states := states ri; sequence := sequence ri; costPerStep := costPerStep ri;
     coeff := coeff ri; costPerTimeUnit := costPerTimeUnit ri;
     optimalStep := optimalStep ri;
     scalAbsoluteTolerance := scalAbsoluteTolerance ri;
     scalRelativeTolerance := scalRelativeTolerance ri;
     minStep := minStep ri; maxStep := maxStep ri; method := method ri;
     targetIter := targetIter ri; previousRejected := previousRejected ri;
     firstOrLastStep := firstOrLastStep ri; dt_proposed := v |}.

(** ** BS: configuration constants *)

Definition maxOrder : Z := 18.
Definition sequence_length : Z := maxOrder / 2.
Definition stepControl1 : Q := 65 # 100.
Definition stepControl2 : Q := 94 # 100.
Definition stepControl3 : Q := 2 # 100.
Definition stepControl4 : Q := 4.
Definition orderControl1 : Q := 8 # 10.
Definition orderControl2 : Q := 9 # 10.
Definition stabilityReduction : Q := 5 # 10.
Definition maxIter : Z := 2.
Definition maxChecks : Z := 1.

(** ** BS: sub-step engines ([tryStep]) *)

(** [states[s].derivatives(&states[s], states[s].yDot, states[s].y1, t)]. *)
Definition eval_yDot (t : Q) (st : reb_ode_state) : reb_ode_state :=
  set_yDot st (ode_derivatives st (ode_y1 st) t).

(** Leapfrog, first substep: half drift from [y] into [y1]. *)
Definition leapfrog_first_drift (subStep : Q) (st : reb_ode_state) : reb_ode_state :=
  for_range 0 (ode_length st) (fun i st =>
    if (Z.rem i 6 <? 3)%Z
    then set_y1 st (upd i (get (ode_y st) i + (5 # 10) * subStep * get (ode_y st) (i + 3))
                          (ode_y1 st))
    else st) st.

(** Leapfrog, first substep: kick from [y] into [y1]. *)
Definition leapfrog_first_kick (subStep : Q) (st : reb_ode_state) : reb_ode_state :=
  for_range 0 (ode_length st) (fun i st =>
    if (Z.rem i 6 >? 2)%Z
    then set_y1 st (upd i (get (ode_y st) i + subStep * get (ode_yDot st) i) (ode_y1 st))
    else st) st.

(** Leapfrog, in-place drift of [y1] by [h]. *)
Definition leapfrog_drift (h : Q) (st : reb_ode_state) : reb_ode_state :=
  for_range 0 (ode_length st) (fun i st =>
    if (Z.rem i 6 <? 3)%Z
    then set_y1 st (upd i (get (ode_y1 st) i + h * get (ode_y1 st) (i + 3)) (ode_y1 st))
    else st) st.

(** Leapfrog, in-place kick of [y1]. *)
Definition leapfrog_kick (subStep : Q) (st : reb_ode_state) : reb_ode_state :=
  for_range 0 (ode_length st) (fun i st =>
    if (Z.rem i 6 >? 2)%Z
    then set_y1 st (upd i (get (ode_y1 st) i + subStep * get (ode_yDot st) i) (ode_y1 st))
    else st) st.

(** Leapfrog, the substeps [j = 1 .. n-1]; the state carries the time [t]. *)
Definition leapfrog_substep (subStep : Q) (ts : Q * list reb_ode_state)
  : Q * list reb_ode_state :=
  let t := fst ts + subStep in
  let states := map (leapfrog_drift subStep) (snd ts) in
  let states := map (eval_yDot t) states in
  let states := map (leapfrog_kick subStep) states in
  (t, states).

(** Midpoint, first substep: [y1[i] = y0[i] + subStep * y0Dot[i]]. *)
Definition midpoint_first (subStep : Q) (st : reb_ode_state) : reb_ode_state :=
  for_range 0 (ode_length st) (fun i st =>
    set_y1 st (upd i (get (ode_y st) i + subStep * get (ode_y0Dot st) i) (ode_y1 st))) st.

(** Midpoint: [yTmp[i] = y0[i]]. *)
Definition midpoint_copy (st : reb_ode_state) : reb_ode_state :=
  for_range 0 (ode_length st) (fun i st =>
    set_yTmp st (upd i (get (ode_y st) i) (ode_yTmp st))) st.

(** Midpoint, one inner substep on one state. *)
Definition midpoint_swap (subStep : Q) (st : reb_ode_state) : reb_ode_state :=
  for_range 0 (ode_length st) (fun i st =>
    let middle := get (ode_y1 st) i in
    let st := set_y1 st (upd i (get (ode_yTmp st) i + 2 * subStep * get (ode_yDot st) i)
                             (ode_y1 st)) in
    set_yTmp st (upd i middle (ode_yTmp st))) st.

(** The two norms of the stability check, accumulated over all states. *)
Definition initialNorm (states : list reb_ode_state) : Q :=
  fold_left (fun acc st =>
    for_range 0 (ode_length st) (fun l acc =>
      let ratio := get (ode_y0Dot st) l / get (ode_scale st) l in
      acc + ratio * ratio) acc) states 0.

Definition deltaNorm (states : list reb_ode_state) : Q :=
  fold_left (fun acc st =>
    for_range 0 (ode_length st) (fun l acc =>
      let ratio := (get (ode_yDot st) l - get (ode_y0Dot st) l) / get (ode_scale st) l in
      acc + ratio * ratio) acc) states 0.

(** Some component [l < length] of some state has a [scale] entry of zero.
    The ratios of the check divide by [scale[l]]: the code then adds an
    infinity or a NaN to both norms, where the division of [Q] gives [0]. *)
Definition scale_has_zero (states : list reb_ode_state) : bool :=
  existsb (fun st =>
    for_range 0 (ode_length st) (fun l found =>
      found || Qeq_bool (get (ode_scale st) l) 0) false) states.

(** [deltaNorm > 4 * MAX(1.0e-15, initialNorm)].  With a zero [scale] entry
    [initialNorm] is infinite or a NaN and so is the right-hand side, and the
    comparison of the code is false. *)
Definition stability_check_fails (states : list reb_ode_state) : bool :=
  if scale_has_zero states then false
  else if Qlt_le_dec (4 * MAX (1 # 1000000000000000) (initialNorm states))
                     (deltaNorm states)
  then true else false.

(** Midpoint: update and derivative evaluation of inner substep at time [t]. *)
Definition midpoint_advance (subStep t : Q) (states : list reb_ode_state)
  : list reb_ode_state :=
  map (eval_yDot t) (map (midpoint_swap subStep) states).

(** Midpoint, the substeps [j .. n-1] with the stability check.  The boolean is
    [false] when the check made [tryStep] return [0]. *)
Fixpoint midpoint_substeps (cnt : nat) (j k : Z) (subStep t : Q)
    (states : list reb_ode_state) : bool * list reb_ode_state :=
  match cnt with
  | O => (true, states)
  | Datatypes.S c =>
      let t := t + subStep in
      let states := midpoint_advance subStep t states in
      if (j <=? maxChecks)%Z && (k <? maxIter)%Z && stability_check_fails states
      then (false, states)
      else midpoint_substeps c (j + 1)%Z k subStep t states
  end.

(** Midpoint, correction of the last substep. *)
Definition midpoint_correction (subStep : Q) (st : reb_ode_state) : reb_ode_state :=
  for_range 0 (ode_length st) (fun i st =>
    set_y1 st (upd i ((5 # 10) * (get (ode_yTmp st) i + get (ode_y1 st) i
                                  + subStep * get (ode_yDot st) i))
                     (ode_y1 st))) st.

Definition tryStep (states : list reb_ode_state) (k n : Z) (t0 step : Q) (method : Z)
  : result (Z * list reb_ode_state) :=
  let subStep := step / inject_Z n in
  let t := t0 in
  match method with
  | 0%Z =>
      let states := map (leapfrog_first_drift subStep) states in
      let t := t + (5 # 10) * subStep in
      let states := map (eval_yDot t) states in
      let states := map (leapfrog_first_kick subStep) states in
      let ts := for_range 1 n (fun _ ts => leapfrog_substep subStep ts) (t, states) in
      let states := map (leapfrog_drift ((5 # 10) * subStep)) (snd ts) in
      Ok (1%Z, states)
  | 1%Z =>
      let t := t + subStep in
      let states := map (midpoint_first subStep) states in
      let states := map (eval_yDot t) states in
      let states := map midpoint_copy states in
      let r := midpoint_substeps (Z.to_nat (n - 1)) 1 k subStep t states in
      if fst r
      then Ok (1%Z, map (midpoint_correction subStep) (snd r))
      else Ok (0%Z, snd r)
  | _ => Exit 1
  end.

(** ** BS: extrapolator *)

Definition extrapolate (state : reb_ode_state) (coeff : list Q) (k : Z) : reb_ode_state :=
  let length := ode_length state in
  let state :=
    for_range 0 k (fun j state =>
      let xi := get coeff (k - j - 1) in
      let xim1 := get coeff k in
      let facC := xi / (xi - xim1) in
      let facD := xim1 / (xi - xim1) in
      for_range 0 length (fun i state =>
        let CD := get (ode_C state) i - getD state (k - j - 1) i in
        let state := set_C state (upd i (facC * CD) (ode_C state)) in
        updD state (k - j - 1) i (facD * CD)) state) state in
  let state :=
    for_range 0 length (fun i state =>
      set_y1 state (upd i (getD state 0 i) (ode_y1 state))) state in
  for_range 1 (k + 1) (fun j state =>
    for_range 0 length (fun i state =>
      set_y1 state (upd i (get (ode_y1 state) i + getD state j i) (ode_y1 state))) state)
    state.

(** ** BS: sequence arrays and scaling *)

Definition allocate_sequence_arrays (ri : reb_simulation_integrator_bs)
  : reb_simulation_integrator_bs :=
  let len := Z.to_nat sequence_length in
  let sequence :=
    for_range 0 sequence_length (fun k s => upd k (4 * k + 2)%Z s) (repeat 0%Z len) in
  let costPerStep := upd 0 (getd 0 sequence 0 + 1)%Z (repeat 0%Z len) in
  let costPerStep :=
    for_range 1 sequence_length (fun k c =>
      upd k (getd 0 c (k - 1) + getd 0 sequence k)%Z c) costPerStep in
  let costPerTimeUnit := upd 0 0 (repeat 0 len) in
  let coeff :=
    for_range 0 sequence_length (fun j c =>
      let r := 1 / inject_Z (getd 0%Z sequence j) in upd j (r * r) c) (repeat 0 len) in
  {| states := states ri; sequence := sequence; costPerStep := costPerStep;
     coeff := coeff; costPerTimeUnit := costPerTimeUnit;
     optimalStep := repeat 0 len;
     scalAbsoluteTolerance := scalAbsoluteTolerance ri;
     scalRelativeTolerance := scalRelativeTolerance ri;
     minStep := minStep ri; maxStep := maxStep ri; method := method ri;
     targetIter := targetIter ri; previousRejected := previousRejected ri;
     firstOrLastStep := firstOrLastStep ri; dt_proposed := dt_proposed ri |}.

Definition reb_integrator_bs_default_scale (state : reb_ode_state) (y1 y2 : list Q)
    (absTol relTol : Q) : reb_ode_state :=
  for_range 0 (ode_length state) (fun i state =>
    set_scale state
      (upd i (absTol + relTol * MAX (fabs (get y1 i)) (fabs (get y2 i))) (ode_scale state)))
    state.

(** ** BS: controller ([reb_integrator_bs_step]) *)

(** The local variables of [reb_integrator_bs_step] that live across the
    iterations of the convergence loop.  [lv_error] is [None] as long as
    [error] has not been assigned. *)
Record loop_vars : Type := {
  lv_ri : reb_simulation_integrator_bs;
  lv_k : Z;
  lv_dt : Q;
  lv_error : option Q;
  lv_reject : Z;
  lv_loop : Z
}.

Definition truthy (z : Z) : bool := negb (z =? 0)%Z.

Section BS_controller.

Context {libm : LibM}.

(** Initial order selection. *)
Definition initial_order_selection (ri : reb_simulation_integrator_bs)
  : reb_simulation_integrator_bs :=
  if (targetIter ri =? 0)%Z then
    let tol := scalRelativeTolerance ri in
    let log10R := libm_log10 (MAX (1 # 10000000000) tol) in
    set_targetIter ri
      (MAXZ 1 (MINZ (sequence_length - 2) (Qfloor ((5 # 10) - (6 # 10) * log10R))))
  else ri.

(** Initial scaling of one state, with [y] given twice. *)
Definition initial_scale (ri : reb_simulation_integrator_bs) (st : reb_ode_state)
  : reb_ode_state :=
  match ode_getscale st with
  | Some getscale => set_scale st (getscale (ode_y st) (ode_y st))
  | None =>
      reb_integrator_bs_default_scale st (ode_y st) (ode_y st)
        (scalRelativeTolerance ri) (scalAbsoluteTolerance ri)
  end.

(** Extrapolation of one state at column [k], followed by its rescaling. *)
Definition extrapolate_and_rescale (ri : reb_simulation_integrator_bs) (k : Z)
    (st : reb_ode_state) : reb_ode_state :=
  let st := extrapolate st (coeff ri) k in
  match ode_getscale st with
  | Some getscale => set_scale st (getscale (ode_y st) (ode_y1 st))
  | None =>
      reb_integrator_bs_default_scale st (ode_y st) (ode_y st)
        (scalRelativeTolerance ri) (scalAbsoluteTolerance ri)
  end.

(** First evaluation, at the beginning of the step (midpoint only). *)
Definition first_evaluation (ri : reb_simulation_integrator_bs) (t : Q)
    (sts : list reb_ode_state) : list reb_ode_state :=
  if (method ri =? 1)%Z
  then map (fun st => set_y0Dot st (ode_derivatives st (ode_y st) t)) sts
  else sts.

(** [C[i] = y1[i]; D[k][i] = y1[i]]. *)
Definition seed_tableau (k : Z) (st : reb_ode_state) : reb_ode_state :=
  for_range 0 (ode_length st) (fun i st =>
    let CD := get (ode_y1 st) i in
    let st := set_C st (upd i CD (ode_C st)) in
    updD st k i CD) st.

(** Error estimate at the end of the step. *)
Definition error_estimate (sts : list reb_ode_state) : Q :=
  let ec :=
    fold_left (fun (ec : Q * Z) st =>
      let length := ode_length st in
      let combined_length := (snd ec + length)%Z in
      let error :=
        for_range 0 length (fun j error =>
          let e := get (ode_C st) j / get (ode_scale st) j in
          MAX error (e * e)) (fst ec) in
      (error, combined_length)) sts (0, 0%Z) in
  libm_sqrt (fst ec / inject_Z (snd ec)).

(** The order reduction shared by the three rejecting branches:
    [if (targetIter > 1 && costPerTimeUnit[targetIter-1]
         < orderControl1 * costPerTimeUnit[targetIter]) --targetIter;
     dt = optimalStep[targetIter];] *)
Definition reject_lower_order (lv : loop_vars) : result loop_vars :=
  let ri := lv_ri lv in
  ri <- (if (targetIter ri >? 1)%Z then
           c1 <- rd 0 (costPerTimeUnit ri) (targetIter ri - 1) ;;
           c0 <- rd 0 (costPerTimeUnit ri) (targetIter ri) ;;
           if Qlt_le_dec c1 (orderControl1 * c0)
           then Ok (set_targetIter ri (targetIter ri - 1))
           else Ok ri
         else Ok ri) ;;
  dt <- rd 0 (optimalStep ri) (targetIter ri) ;;
  Ok {| lv_ri := ri; lv_k := lv_k lv; lv_dt := dt; lv_error := lv_error lv;
        lv_reject := lv_reject lv; lv_loop := lv_loop lv |}.

Definition set_reject (lv : loop_vars) (reject loop : Z) : loop_vars :=
  {| lv_ri := lv_ri lv; lv_k := lv_k lv; lv_dt := lv_dt lv; lv_error := lv_error lv;
     lv_reject := reject; lv_loop := loop |}.

Definition set_lv_ri (lv : loop_vars) (ri : reb_simulation_integrator_bs) : loop_vars :=
  {| lv_ri := ri; lv_k := lv_k lv; lv_dt := lv_dt lv; lv_error := lv_error lv;
     lv_reject := lv_reject lv; lv_loop := lv_loop lv |}.

Definition set_lv_dt (lv : loop_vars) (dt : Q) : loop_vars :=
  {| lv_ri := lv_ri lv; lv_k := lv_k lv; lv_dt := dt; lv_error := lv_error lv;
     lv_reject := lv_reject lv; lv_loop := lv_loop lv |}.

(** The [switch (k - ri_bs->targetIter)] of the convergence check. *)
Definition check_convergence (error : Q) (lv : loop_vars) : result loop_vars :=
  let ri := lv_ri lv in
  let k := lv_k lv in
  match (k - targetIter ri)%Z with
  | (-1)%Z =>
      if (targetIter ri >? 1)%Z && negb (truthy (previousRejected ri)) then
        if Qlt_le_dec 1 error then
          s1 <- rd 0%Z (sequence ri) (targetIter ri) ;;
          s2 <- rd 0%Z (sequence ri) (targetIter ri + 1) ;;
          s0 <- rd 0%Z (sequence ri) 0 ;;
          let ratio := (inject_Z s1 * inject_Z s2) / inject_Z (s0 * s0) in
          if Qlt_le_dec (ratio * ratio) error then
            reject_lower_order
              (set_lv_ri (set_reject lv 1 0) (set_targetIter ri k))
          else Ok lv
        else Ok (set_reject lv (lv_reject lv) 0)
      else Ok lv
  | 0%Z =>
      if Qlt_le_dec 1 error then
        s1 <- rd 0%Z (sequence ri) (k + 1) ;;
        s0 <- rd 0%Z (sequence ri) 0 ;;
        let ratio := inject_Z s1 / inject_Z s0 in
        if Qlt_le_dec (ratio * ratio) error then
          reject_lower_order (set_reject lv 1 0)
        else Ok lv
      else Ok (set_reject lv (lv_reject lv) 0)
  | 1%Z =>
      lv <- (if Qlt_le_dec 1 error
             then reject_lower_order (set_reject lv 1 (lv_loop lv))
             else Ok lv) ;;
      Ok (set_reject lv (lv_reject lv) 0)
  | _ =>
      if truthy (firstOrLastStep ri) && (if Qlt_le_dec 1 error then false else true)
      then Ok (set_reject lv (lv_reject lv) 0)
      else Ok lv
  end.

(** The optimal step size for column [k] and the convergence check.  When
    [pow(error / stepControl1, exp)] is [0] (an error of [0]) the quotient
    [stepControl2 / pow(...)] of the code is plus infinity, which
    [MIN(1. / power, fac)] caps to [1. / power]; the division of [Q] gives
    [0] there, so the case is written out. *)
Definition step_control (error : Q) (lv : loop_vars) : result loop_vars :=
  let ri := lv_ri lv in
  let k := lv_k lv in
  let dt := lv_dt lv in
  let exp := 1 / inject_Z (2 * k + 1) in
  let p := libm_pow (error / stepControl1) exp in
  let power := libm_pow stepControl3 exp in
  let fac := if Qeq_bool p 0 then 1 / power else MIN (1 / power) (stepControl2 / p) in
  let fac := MAX (power / stepControl4) fac in
  os <- wr (optimalStep ri) k (fabs (dt * fac)) ;;
  let ri := set_optimalStep ri os in
  cps <- rd 0%Z (costPerStep ri) k ;;
  osk <- rd 0 (optimalStep ri) k ;;
  cptu <- wr (costPerTimeUnit ri) k (inject_Z cps / osk) ;;
  let ri := set_costPerTimeUnit ri cptu in
  check_convergence error (set_lv_ri lv ri).

(** One pass through the body of the convergence loop. *)
Definition loop_body (t : Q) (lv : loop_vars) : result loop_vars :=
  let ri := lv_ri lv in
  let k := (lv_k lv + 1)%Z in
  let dt := lv_dt lv in
  n <- rd 0%Z (sequence ri) k ;;
  r <- tryStep (states ri) k n t dt (method ri) ;;
  let ri := set_states ri (snd r) in
  if negb (truthy (fst r)) then
    Ok {| lv_ri := ri; lv_k := k; lv_dt := fabs (dt * stabilityReduction);
          lv_error := lv_error lv; lv_reject := 1; lv_loop := 0 |}
  else
    if forallb (fun st => in_bounds (ode_D st) k) (states ri) then
      let ri := set_states ri (map (seed_tableau k) (states ri)) in
      if (k >? 0)%Z then
        let ri := set_states ri (map (extrapolate_and_rescale ri k) (states ri)) in
        let error := error_estimate (states ri) in
        if Qlt_le_dec (inject_Z (10 ^ 25)) error then
          Ok {| lv_ri := ri; lv_k := k; lv_dt := fabs (dt * stabilityReduction);
                lv_error := Some error; lv_reject := 1; lv_loop := 0 |}
        else
          step_control error
            {| lv_ri := ri; lv_k := k; lv_dt := dt; lv_error := Some error;
               lv_reject := lv_reject lv; lv_loop := lv_loop lv |}
      else
        Ok {| lv_ri := ri; lv_k := k; lv_dt := dt; lv_error := lv_error lv;
              lv_reject := lv_reject lv; lv_loop := lv_loop lv |}
    else Fault.

(** [for (int loop = 1; loop; ) { ... }]. *)
Fixpoint convergence_loop (fuel : nat) (t : Q) (lv : loop_vars) : result loop_vars :=
  match fuel with
  | O => OutOfFuel
  | Datatypes.S fuel' =>
      lv <- loop_body t lv ;;
      if truthy (lv_loop lv) then convergence_loop fuel' t lv else Ok lv
  end.

(** Choice of [optimalIter] after an accepted step. *)
Definition select_optimalIter (ri : reb_simulation_integrator_bs) (k : Z) : result Z :=
  if (k =? 1)%Z then
    Ok (if truthy (previousRejected ri) then 1%Z else 2%Z)
  else if (k <=? targetIter ri)%Z then
    ckm1 <- rd 0 (costPerTimeUnit ri) (k - 1) ;;
    ck <- rd 0 (costPerTimeUnit ri) k ;;
    if Qlt_le_dec ckm1 (orderControl1 * ck) then Ok (k - 1)%Z
    else if Qlt_le_dec ck (orderControl2 * ckm1)
         then Ok (MINZ (k + 1) (sequence_length - 2))
         else Ok k
  else
    optimalIter <-
      (if (k >? 2)%Z then
         ckm2 <- rd 0 (costPerTimeUnit ri) (k - 2) ;;
         ckm1 <- rd 0 (costPerTimeUnit ri) (k - 1) ;;
         if Qlt_le_dec ckm2 (orderControl1 * ckm1) then Ok (k - 2)%Z else Ok (k - 1)%Z
       else Ok (k - 1)%Z) ;;
    ck <- rd 0 (costPerTimeUnit ri) k ;;
    co <- rd 0 (costPerTimeUnit ri) optimalIter ;;
    if Qlt_le_dec ck (orderControl2 * co)
    then Ok (MINZ k (sequence_length - 2))
    else Ok optimalIter.

(** The commit of an accepted step: swap of [y] and [y1], new order and new
    step size. *)
Definition accept_step (lv : loop_vars) : result loop_vars :=
  let ri := lv_ri lv in
  let k := lv_k lv in
  let dt := lv_dt lv in
  let ri := set_states ri
              (map (fun st => let y_tmp := ode_y st in
                              set_y1 (set_y st (ode_y1 st)) y_tmp) (states ri)) in
  optimalIter <- select_optimalIter ri k ;;
  if truthy (previousRejected ri) then
    let ri := set_targetIter ri (MINZ optimalIter k) in
    os <- rd 0 (optimalStep ri) (targetIter ri) ;;
    Ok (set_lv_dt (set_lv_ri lv ri) (MIN (fabs dt) os))
  else
    dt <-
      (if (optimalIter <=? k)%Z then rd 0 (optimalStep ri) optimalIter
       else
         ok <- rd 0 (optimalStep ri) k ;;
         cpsk <- rd 0%Z (costPerStep ri) k ;;
         if (k <? targetIter ri)%Z then
           ck <- rd 0 (costPerTimeUnit ri) k ;;
           ckm1 <- rd 0 (costPerTimeUnit ri) (k - 1) ;;
           if Qlt_le_dec ck (orderControl2 * ckm1) then
             c <- rd 0%Z (costPerStep ri) (optimalIter + 1) ;;
             Ok (ok * inject_Z c / inject_Z cpsk)
           else
             c <- rd 0%Z (costPerStep ri) optimalIter ;;
             Ok (ok * inject_Z c / inject_Z cpsk)
         else
           c <- rd 0%Z (costPerStep ri) optimalIter ;;
           Ok (ok * inject_Z c / inject_Z cpsk)) ;;
    Ok (set_lv_dt (set_lv_ri lv (set_targetIter ri optimalIter)) dt).

(** Step-size limits, sign and bookkeeping; the return value is [!reject]. *)
Definition finish_step (forward : bool) (lv : loop_vars)
  : result (Z * reb_simulation_integrator_bs) :=
  let ri := lv_ri lv in
  let dt := fabs (lv_dt lv) in
  if Qlt_le_dec dt (minStep ri) then Exit 0
  else if (if Qlt_le_dec (maxStep ri) dt then true else false)
          && (if Qlt_le_dec 0 (maxStep ri) then true else false) then Exit 0
  else
    let dt := if negb forward then - dt else dt in
    let ri := set_dt_proposed ri dt in
    if truthy (lv_reject lv)
    then Ok (0%Z, set_previousRejected ri 1)
    else Ok (1%Z, set_firstOrLastStep (set_previousRejected ri 0) 0).

(** The state of the local variables on entry to the convergence loop. *)
Definition loop_entry (ri : reb_simulation_integrator_bs) (t dt : Q) : loop_vars :=
  let ri := initial_order_selection ri in
  let sts := map (initial_scale ri) (states ri) in
  let sts := first_evaluation ri t sts in
  {| lv_ri := set_states ri sts; lv_k := (-1)%Z; lv_dt := dt; lv_error := None;
     lv_reject := 0; lv_loop := 1 |}.

(** The fuel of the convergence loop: every pass reads [sequence[k]] for a new
    [k], so there are at most [length sequence + 1] of them. *)
Definition loop_fuel (ri : reb_simulation_integrator_bs) : nat :=
  Datatypes.S (List.length (sequence ri)).

Definition run_convergence_loop (ri : reb_simulation_integrator_bs) (t dt : Q)
  : result loop_vars :=
  convergence_loop (loop_fuel ri) t (loop_entry ri t dt).

Definition reb_integrator_bs_step (ri : reb_simulation_integrator_bs) (t dt : Q)
  : result (Z * reb_simulation_integrator_bs) :=
  let forward := if Qlt_le_dec dt 0 then false else true in
  lv <- run_convergence_loop ri t dt ;;
  lv <- (if negb (truthy (lv_reject lv)) then accept_step lv else Ok lv) ;;
  finish_step forward lv.

End BS_controller.

Local Close Scope Q_scope.

(** ** MERCURANA: data model *)

Local Open Scope R_scope.

(** [for (i = lo; i < hi; i++) body] over [nat] indices. *)
Fixpoint for_nat_iter {S : Type} (cnt i : nat) (body : nat -> S -> S) (s : S) : S :=
  match cnt with
  | O => s
  | Datatypes.S c => for_nat_iter c (Datatypes.S i) body (body i s)
  end.

Definition for_nat {S : Type} (lo hi : nat) (body : nat -> S -> S) (s : S) : S :=
  for_nat_iter (hi - lo) lo body s.

(** The same loop with a body that can leave the function: [inl s] is a
    [return] in state [s], [inr s] goes on. *)
Fixpoint for_ret_iter {S : Type} (cnt i : nat) (body : nat -> S -> S + S) (s : S) : S + S :=
  match cnt with
  | O => inr s
  | Datatypes.S c =>
      match body i s with
      | inl s' => inl s'
      | inr s' => for_ret_iter c (Datatypes.S i) body s'
      end
  end.

Definition for_ret {S : Type} (lo hi : nat) (body : nat -> S -> S + S) (s : S) : S + S :=
  for_ret_iter (hi - lo) lo body s.

(** The same loop with a body that can [break]: the boolean is [true] when
    the body left the loop. *)
Fixpoint for_break_iter {S : Type} (cnt i : nat) (body : nat -> S -> S * bool) (s : S) : S :=
  match cnt with
  | O => s
  | Datatypes.S c =>
      let sb := body i s in
      if snd sb then fst sb else for_break_iter c (Datatypes.S i) body (fst sb)
  end.

Definition for_break {S : Type} (lo hi : nat) (body : nat -> S -> S * bool) (s : S) : S :=
  for_break_iter (hi - lo) lo body s.

Definition Rltb (a b : R) : bool := if Rlt_dec a b then true else false.
Definition Rleb (a b : R) : bool := if Rle_dec a b then true else false.
Definition Reqb (a b : R) : bool := if Req_dec_T a b then true else false.
Definition RMIN (a b : R) : R := if Rgt_dec a b then b else a.
Definition nonzero (n : nat) : bool := negb (n =? 0)%nat.

Record reb_particle : Type := {
  p_x : R; p_y : R; p_z : R;
  p_vx : R; p_vy : R; p_vz : R;
  p_ax : R; p_ay : R; p_az : R;
  p_m : R
}.

Definition particle0 : reb_particle :=
  {| p_x := 0; p_y := 0; p_z := 0; p_vx := 0; p_vy := 0; p_vz := 0;
     p_ax := 0; p_ay := 0; p_az := 0; p_m := 0 |}.

Definition set_pos (p : reb_particle) (x y z : R) : reb_particle :=
  {| p_x := x; p_y := y; p_z := z; p_vx := p_vx p; p_vy := p_vy p; p_vz := p_vz p;
     p_ax := p_ax p; p_ay := p_ay p; p_az := p_az p; p_m := p_m p |}.

Definition set_vel (p : reb_particle) (vx vy vz : R) : reb_particle :=
  {| p_x := p_x p; p_y := p_y p; p_z := p_z p; p_vx := vx; p_vy := vy; p_vz := vz;
     p_ax := p_ax p; p_ay := p_ay p; p_az := p_az p; p_m := p_m p |}.

Definition set_acc (p : reb_particle) (ax ay az : R) : reb_particle :=
  {| p_x := p_x p; p_y := p_y p; p_z := p_z p; p_vx := p_vx p; p_vy := p_vy p;
     p_vz := p_vz p; p_ax := ax; p_ay := ay; p_az := az; p_m := p_m p |}.

Inductive REB_EOS_TYPE : Type :=
| REB_EOS_LF
| REB_EOS_LF4
| REB_EOS_LF6
| REB_EOS_LF8
| REB_EOS_LF4_2
| REB_EOS_LF8_6_4
| REB_EOS_PLF7_6_4
| REB_EOS_PMLF4
| REB_EOS_PMLF6.

(** [struct reb_simulation_integrator_mercurana].  [map[s]] and [dcrit[s]] are
    the rows of [rim_map] and [dcrit]; the switching function and its
    derivative are the function pointers [L] and [dLdr] (their simulation
    argument is unused by the callees and dropped). *)
Record reb_simulation_integrator_mercurana : Type := {
  phi0 : REB_EOS_TYPE;
  phi1 : REB_EOS_TYPE;
  rim_n : nat;
  whsplitting : nat;
  Nmaxshells : nat;
  Nmaxshellused : nat;
  dcrit : list (list R);
  rim_map : list (list nat);
  shellN : list nat;
  shellN_active : list nat;
  inshell : list nat;
  jerk : list reb_particle;
  rim_L : R -> R -> R -> R;
  rim_dLdr : R -> R -> R -> R
}.

Definition set_Nmaxshellused (rim : reb_simulation_integrator_mercurana) (v : nat) :=
  {| phi0 := phi0 rim; phi1 := phi1 rim; rim_n := rim_n rim;
     whsplitting := whsplitting rim; Nmaxshells := Nmaxshells rim;
     Nmaxshellused := v; dcrit := dcrit rim; rim_map := rim_map rim;
     shellN := shellN rim; shellN_active := shellN_active rim;
     inshell := inshell rim; jerk := jerk rim; rim_L := rim_L rim;
     rim_dLdr := rim_dLdr rim |}.

Definition set_map (rim : reb_simulation_integrator_mercurana) (v : list (list nat)) :=
  {| phi0 := phi0 rim; phi1 := phi1 rim; rim_n := rim_n rim;
     whsplitting := whsplitting rim; Nmaxshells := Nmaxshells rim;
     Nmaxshellused := Nmaxshellused rim; dcrit := dcrit rim; rim_map := v;
     shellN := shellN rim; shellN_active := shellN_active rim;
     inshell := inshell rim; jerk := jerk rim; rim_L := rim_L rim;
     rim_dLdr := rim_dLdr rim |}.

Definition set_shellN (rim : reb_simulation_integrator_mercurana) (v : list nat) :=
  {| phi0 := phi0 rim; phi1 := phi1 rim; rim_n := rim_n rim;
     whsplitting := whsplitting rim; Nmaxshells := Nmaxshells rim;
     Nmaxshellused := Nmaxshellused rim; dcrit := dcrit rim; rim_map := rim_map rim;
     shellN := v; shellN_active := shellN_active rim;
     inshell := inshell rim; jerk := jerk rim; rim_L := rim_L rim;
     rim_dLdr := rim_dLdr rim |}.

Definition set_shellN_active (rim : reb_simulation_integrator_mercurana) (v : list nat) :=
  {| phi0 := phi0 rim; phi1 := phi1 rim; rim_n := rim_n rim;
     whsplitting := whsplitting rim; Nmaxshells := Nmaxshells rim;
     Nmaxshellused := Nmaxshellused rim; dcrit := dcrit rim; rim_map := rim_map rim;
     shellN := shellN rim; shellN_active := v;
     inshell := inshell rim; jerk := jerk rim; rim_L := rim_L rim;
     rim_dLdr := rim_dLdr rim |}.

Definition set_inshell (rim : reb_simulation_integrator_mercurana) (v : list nat) :=
  {| phi0 := phi0 rim; phi1 := phi1 rim; rim_n := rim_n rim;
     whsplitting := whsplitting rim; Nmaxshells := Nmaxshells rim;
     Nmaxshellused := Nmaxshellused rim; dcrit := dcrit rim; rim_map := rim_map rim;
     shellN := shellN rim; shellN_active := shellN_active rim;
     inshell := v; jerk := jerk rim; rim_L := rim_L rim;
     rim_dLdr := rim_dLdr rim |}.

Definition set_jerk (rim : reb_simulation_integrator_mercurana) (v : list reb_particle) :=
  {| phi0 := phi0 rim; phi1 := phi1 rim; rim_n := rim_n rim;
     whsplitting := whsplitting rim; Nmaxshells := Nmaxshells rim;
     Nmaxshellused := Nmaxshellused rim; dcrit := dcrit rim; rim_map := rim_map rim;
     shellN := shellN rim; shellN_active := shellN_active rim;
     inshell := inshell rim; jerk := v; rim_L := rim_L rim;
     rim_dLdr := rim_dLdr rim |}.

(** The part of [struct reb_simulation] the integrator uses.  The global flag
    [reb_sigint] is kept with the simulation and is constant during a call. *)
Record reb_simulation : Type := {
  particles : list reb_particle;
  G : R;
  testparticle_type : nat;
  reb_sigint : bool;
  ri_mercurana : reb_simulation_integrator_mercurana
}.

Definition set_particles (r : reb_simulation) (v : list reb_particle) : reb_simulation :=
  {| particles := v; G := G r; testparticle_type := testparticle_type r;
     reb_sigint := reb_sigint r; ri_mercurana := ri_mercurana r |}.

Definition set_rim (r : reb_simulation) (v : reb_simulation_integrator_mercurana)
  : reb_simulation :=
  {| particles := particles r; G := G r; testparticle_type := testparticle_type r;
     reb_sigint := reb_sigint r; ri_mercurana := v |}.

(** Array reads: [particles[m]], [map[s][i]], [dcrit[s][m]], [shellN[s]]. *)
Definition particle_at (ps : list reb_particle) (m : nat) : reb_particle :=
  nth m ps particle0.
Definition map_row (rim : reb_simulation_integrator_mercurana) (s : nat) : list nat :=
  nth s (rim_map rim) [].
Definition dcrit_row (rim : reb_simulation_integrator_mercurana) (s : nat) : list R :=
  nth s (dcrit rim) [].
Definition shellN_at (rim : reb_simulation_integrator_mercurana) (s : nat) : nat :=
  nth s (shellN rim) 0%nat.
Definition shellN_active_at (rim : reb_simulation_integrator_mercurana) (s : nat) : nat :=
  nth s (shellN_active rim) 0%nat.

(** The particles of shell [s]: [map[s][0 .. shellN[s])]. *)
Definition shell_members (rim : reb_simulation_integrator_mercurana) (s : nat) : list nat :=
  firstn (shellN_at rim s) (map_row rim s).

(** ** MERCURANA: encounter predictor *)

(** [copysign(1., dt)]. *)
Definition copysign1 (dt : R) : R := if Rlt_dec dt 0 then -1 else 1.

(** The pair [( *rmin2_ab, *rmin2_abc )] written by [reb_mercurana_predict_rmin2]. *)
Definition reb_mercurana_predict_rmin2 (p1 p2 : reb_particle) (dt : R) : R * R :=
  let dts := copysign1 dt in
  let dt := Rabs dt in
  let dx1 := p_x p1 - p_x p2 in
  let dy1 := p_y p1 - p_y p2 in
  let dz1 := p_z p1 - p_z p2 in
  let r1 := dx1 * dx1 + dy1 * dy1 + dz1 * dz1 in
  let dvx1 := dts * (p_vx p1 - p_vx p2) in
  let dvy1 := dts * (p_vy p1 - p_vy p2) in
  let dvz1 := dts * (p_vz p1 - p_vz p2) in
  let dx2 := dx1 + dt * dvx1 in
  let dy2 := dy1 + dt * dvy1 in
  let dz2 := dz1 + dt * dvz1 in
  let r2 := dx2 * dx2 + dy2 * dy2 + dz2 * dz2 in
  let t_closest :=
    (dx1 * dvx1 + dy1 * dvy1 + dz1 * dvz1) / (dvx1 * dvx1 + dvy1 * dvy1 + dvz1 * dvz1) in
  let dx3 := dx1 + t_closest * dvx1 in
  let dy3 := dy1 + t_closest * dvy1 in
  let dz3 := dz1 + t_closest * dvz1 in
  let r3 := dx3 * dx3 + dy3 * dy3 + dz3 * dz3 in
  let rmin2_ab := RMIN r1 r2 in
  if Rleb 0 (t_closest / dt) && Rleb (t_closest / dt) 1
  then (rmin2_ab, RMIN rmin2_ab r3)
  else (rmin2_ab, rmin2_ab).

(** The test [rmin2_abc < dcritsum * dcritsum] for the particles [mi], [mj]. *)
Definition encounter (r : reb_simulation) (dcrit : list R) (dt : R) (mi mj : nat) : bool :=
  let rmin2_abc :=
    snd (reb_mercurana_predict_rmin2 (particle_at (particles r) mi)
                                     (particle_at (particles r) mj) dt) in
  let dcritsum := nth mi dcrit 0 + nth mj dcrit 0 in
  Rltb rmin2_abc (dcritsum * dcritsum).

(** [rim->inshell[mi] = 0; rim->map[shell+1][rim->shellN[shell+1]] = mi;
     rim->shellN[shell+1]++;] *)
Definition promote (shell mi : nat) (rim : reb_simulation_integrator_mercurana)
  : reb_simulation_integrator_mercurana :=
  let rim := set_inshell rim (upd_nat mi 0%nat (inshell rim)) in
  let rim :=
    set_map rim (upd_nat (shell + 1) (upd_nat (shellN_at rim (shell + 1)) mi
                                              (map_row rim (shell + 1)))
                         (rim_map rim)) in
  set_shellN rim (upd_nat (shell + 1) (shellN_at rim (shell + 1) + 1)%nat (shellN rim)).

Definition reb_mercurana_encounter_predict (r : reb_simulation) (dt : R) (shell : nat)
  : reb_simulation :=
  let rim := ri_mercurana r in
  let dcrit := dcrit_row rim shell in
  let N := shellN_at rim shell in
  let N_active := shellN_active_at rim shell in
  let map := map_row rim shell in
  if (shell =? 0)%nat && nonzero (whsplitting rim) then
    let rim :=
      for_nat 0 N (fun i rim =>
        let mi := nth i map 0%nat in
        let rim := set_inshell rim (upd_nat mi 0%nat (inshell rim)) in
        set_map rim (upd_nat (shell + 1) (upd_nat i mi (map_row rim (shell + 1)))
                             (rim_map rim))) rim in
    let rim := set_shellN rim (upd_nat (shell + 1) N (shellN rim)) in
    let rim := set_shellN_active rim (upd_nat (shell + 1) N_active (shellN_active rim)) in
    set_rim r rim
  else
    let rim :=
      for_nat 0 N (fun i rim =>
        let mi := nth i map 0%nat in
        set_inshell rim (upd_nat mi 1%nat (inshell rim))) rim in
    if (Nmaxshells rim <=? shell + 1)%nat then set_rim r rim
    else
      let rim := set_shellN rim (upd_nat (shell + 1) 0%nat (shellN rim)) in
      let rim := set_shellN_active rim (upd_nat (shell + 1) 0%nat (shellN_active rim)) in
      let rim :=
        for_nat 0 N_active (fun i rim =>
          let mi := nth i map 0%nat in
          for_break 0 N (fun j rim =>
            let mj := nth j map 0%nat in
            if (i =? j)%nat then (rim, false)
            else if encounter r dcrit dt mi mj then (promote shell mi rim, true)
            else (rim, false)) rim) rim in
      let rim :=
        set_shellN_active rim
          (upd_nat (shell + 1) (shellN_at rim (shell + 1)) (shellN_active rim)) in
      let rim :=
        for_nat N_active N (fun i rim =>
          let mi := nth i map 0%nat in
          for_break 0 N_active (fun j rim =>
            let mj := nth j map 0%nat in
            if encounter r dcrit dt mi mj then (promote shell mi rim, true)
            else (rim, false)) rim) rim in
      set_rim r rim.

(** ** MERCURANA: drift of the in-shell particles *)

(** The position loop of [reb_integrator_mercurana_drift_step]. *)
Definition drift_positions (r : reb_simulation) (a : R) (shell : nat) : reb_simulation :=
  let rim := ri_mercurana r in
  let map := map_row rim shell in
  let N := shellN_at rim shell in
  for_nat 0 N (fun i r =>
    let mi := nth i map 0%nat in
    if nonzero (nth mi (inshell rim) 0%nat) then
      let p := particle_at (particles r) mi in
      set_particles r
        (upd_nat mi (set_pos p (p_x p + a * p_vx p) (p_y p + a * p_vy p)
                               (p_z p + a * p_vz p)) (particles r))
    else r) r.

(** ** MERCURANA: shell force kernel *)

(** Sequencing of loops that can [return]. *)
Definition and_then {S : Type} (x : S + S) (f : S -> S + S) : S + S :=
  match x with
  | inl s => inl s
  | inr s => f s
  end.

Definition returned {S : Type} (x : S + S) : S :=
  match x with
  | inl s => s
  | inr s => s
  end.

(** Is the outer term subtracted?  [idx] is the loop index of the active
    particle of the pair ([i] in the active loops, [j] in the passive ones):
    [dcrit_o && ((!rim->whsplitting) || shell!=1 || idx!=0)]. *)
Definition outer_term (rim : reb_simulation_integrator_mercurana) (shell idx : nat) : bool :=
  (0 <? shell)%nat
  && (negb (nonzero (whsplitting rim)) || negb (shell =? 1)%nat || negb (idx =? 0)%nat).

(** Is there an inner shell?  [shell < rim->Nmaxshells - 1], i.e. [dcrit_i != NULL]. *)
Definition inner_term (rim : reb_simulation_integrator_mercurana) (shell : nat) : bool :=
  (shell <? Nmaxshells rim - 1)%nat.

Definition dc_sum (rim : reb_simulation_integrator_mercurana) (s mi mj : nat) : R :=
  nth mi (dcrit_row rim s) 0 + nth mj (dcrit_row rim s) 0.

(** The weight [Lsum] of the pair [(mi, mj)] at distance [dr] in [shell]. *)
Definition Lsum_of (rim : reb_simulation_integrator_mercurana) (shell idx : nat)
    (dr : R) (mi mj : nat) : R :=
  let dc_c := dc_sum rim shell mi mj in
  let Lsum := 0 in
  let Lsum :=
    if outer_term rim shell idx
    then let dc_o := dc_sum rim (shell - 1) mi mj in Lsum - rim_L rim dr dc_c dc_o
    else Lsum in
  if inner_term rim shell
  then let dc_i := dc_sum rim (shell + 1) mi mj in Lsum + rim_L rim dr dc_i dc_c
  else Lsum + 1.

(** The corresponding sum [dLdrsum] of the jerk loops. *)
Definition dLdrsum_of (rim : reb_simulation_integrator_mercurana) (shell idx : nat)
    (dr : R) (mi mj : nat) : R :=
  let dc_c := dc_sum rim shell mi mj in
  let dLdrsum := 0 in
  let dLdrsum :=
    if outer_term rim shell idx
    then let dc_o := dc_sum rim (shell - 1) mi mj in dLdrsum - rim_dLdr rim dr dc_c dc_o
    else dLdrsum in
  if inner_term rim shell
  then let dc_i := dc_sum rim (shell + 1) mi mj in dLdrsum + rim_dLdr rim dr dc_i dc_c
  else dLdrsum.

(** [particles[m].ax += dax; particles[m].ay += day; particles[m].az += daz]. *)
Definition add_acc (ps : list reb_particle) (m : nat) (dax day daz : R)
  : list reb_particle :=
  let p := particle_at ps m in
  upd_nat m (set_acc p (p_ax p + dax) (p_ay p + day) (p_az p + daz)) ps.

(** Body of the force loop over pairs of active particles. *)
Definition accel_active_pair (shell i j : nat) (r : reb_simulation) : reb_simulation :=
  let rim := ri_mercurana r in
  let map := map_row rim shell in
  let ps := particles r in
  let mi := nth i map 0%nat in
  let mj := nth j map 0%nat in
  let dx := p_x (particle_at ps mi) - p_x (particle_at ps mj) in
  let dy := p_y (particle_at ps mi) - p_y (particle_at ps mj) in
  let dz := p_z (particle_at ps mi) - p_z (particle_at ps mj) in
  let dr := sqrt (dx * dx + dy * dy + dz * dz) in
  let Lsum := Lsum_of rim shell i dr mi mj in
  let prefact := G r * Lsum / (dr * dr * dr) in
  let prefactj := - prefact * p_m (particle_at ps mj) in
  let prefacti := prefact * p_m (particle_at ps mi) in
  let ps := add_acc ps mi (prefactj * dx) (prefactj * dy) (prefactj * dz) in
  let ps := add_acc ps mj (prefacti * dx) (prefacti * dy) (prefacti * dz) in
  set_particles r ps.

(** Body of the force loop over a passive particle [i] and an active one [j]. *)
Definition accel_passive_pair (shell i j : nat) (r : reb_simulation) : reb_simulation :=
  let rim := ri_mercurana r in
  let map := map_row rim shell in
  let ps := particles r in
  let mi := nth i map 0%nat in
  let mj := nth j map 0%nat in
  let dx := p_x (particle_at ps mi) - p_x (particle_at ps mj) in
  let dy := p_y (particle_at ps mi) - p_y (particle_at ps mj) in
  let dz := p_z (particle_at ps mi) - p_z (particle_at ps mj) in
  let dr := sqrt (dx * dx + dy * dy + dz * dz) in
  let Lsum := Lsum_of rim shell j dr mi mj in
  let prefact := G r * Lsum / (dr * dr * dr) in
  let prefactj := - prefact * p_m (particle_at ps mj) in
  let prefacti := prefact * p_m (particle_at ps mi) in
  let ps := add_acc ps mi (prefactj * dx) (prefactj * dy) (prefactj * dz) in
  let ps :=
    if nonzero (testparticle_type r)
    then add_acc ps mj (prefacti * dx) (prefacti * dy) (prefacti * dz)
    else ps in
  set_particles r ps.

(** [jerk[i].ax += dax; jerk[i].ay += day; jerk[i].az += daz]. *)
Definition add_jerk (jk : list reb_particle) (i : nat) (dax day daz : R)
  : list reb_particle :=
  let p := particle_at jk i in
  upd_nat i (set_acc p (p_ax p + dax) (p_ay p + day) (p_az p + daz)) jk.

(** [jerk[i].ax -= dax; jerk[i].ay -= day; jerk[i].az -= daz]. *)
Definition sub_jerk (jk : list reb_particle) (i : nat) (dax day daz : R)
  : list reb_particle :=
  let p := particle_at jk i in
  upd_nat i (set_acc p (p_ax p - dax) (p_ay p - day) (p_az p - daz)) jk.

(** Body of the jerk loop over pairs of active particles. *)
Definition jerk_active_pair (shell i j : nat) (r : reb_simulation) : reb_simulation :=
  let rim := ri_mercurana r in
  let map := map_row rim shell in
  let ps := particles r in
  let mi := nth i map 0%nat in
  let mj := nth j map 0%nat in
  let dx := p_x (particle_at ps mj) - p_x (particle_at ps mi) in
  let dy := p_y (particle_at ps mj) - p_y (particle_at ps mi) in
  let dz := p_z (particle_at ps mj) - p_z (particle_at ps mi) in
  let dax := p_ax (particle_at ps mj) - p_ax (particle_at ps mi) in
  let day := p_ay (particle_at ps mj) - p_ay (particle_at ps mi) in
  let daz := p_az (particle_at ps mj) - p_az (particle_at ps mi) in
  let dr := sqrt (dx * dx + dy * dy + dz * dz) in
  let Lsum := Lsum_of rim shell i dr mi mj in
  let dLdrsum := dLdrsum_of rim shell i dr mi mj in
  let alphasum := dax * dx + day * dy + daz * dz in
  let prefact2 := 2 * G r / (dr * dr * dr) in
  let prefact2i := Lsum * prefact2 * p_m (particle_at ps mi) in
  let prefact2j := Lsum * prefact2 * p_m (particle_at ps mj) in
  let jk := jerk rim in
  let jk := sub_jerk jk j (dax * prefact2i) (day * prefact2i) (daz * prefact2i) in
  let jk := add_jerk jk i (dax * prefact2j) (day * prefact2j) (daz * prefact2j) in
  let prefact1 := alphasum * prefact2 / dr * (3 * Lsum / dr - dLdrsum) in
  let prefact1i := prefact1 * p_m (particle_at ps mi) in
  let prefact1j := prefact1 * p_m (particle_at ps mj) in
  let jk := add_jerk jk j (dx * prefact1i) (dy * prefact1i) (dz * prefact1i) in
  let jk := sub_jerk jk i (dx * prefact1j) (dy * prefact1j) (dz * prefact1j) in
  set_rim r (set_jerk rim jk).

(** Body of the jerk loop over a passive particle [i] and an active one [j]. *)
Definition jerk_passive_pair (shell i j : nat) (r : reb_simulation) : reb_simulation :=
  let rim := ri_mercurana r in
  let map := map_row rim shell in
  let ps := particles r in
  let mi := nth i map 0%nat in
  let mj := nth j map 0%nat in
  let dx := p_x (particle_at ps mj) - p_x (particle_at ps mi) in
  let dy := p_y (particle_at ps mj) - p_y (particle_at ps mi) in
  let dz := p_z (particle_at ps mj) - p_z (particle_at ps mi) in
  let dax := p_ax (particle_at ps mj) - p_ax (particle_at ps mi) in
  let day := p_ay (particle_at ps mj) - p_ay (particle_at ps mi) in
  let daz := p_az (particle_at ps mj) - p_az (particle_at ps mi) in
  let dr := sqrt (dx * dx + dy * dy + dz * dz) in
  let Lsum := Lsum_of rim shell j dr mi mj in
  let dLdrsum := dLdrsum_of rim shell j dr mi mj in
  let alphasum := dax * dx + day * dy + daz * dz in
  let prefact2 := 2 * G r / (dr * dr * dr) in
  let prefact2j := Lsum * prefact2 * p_m (particle_at ps mj) in
  let prefact1 := alphasum * prefact2 / dr * (3 * Lsum / dr - dLdrsum) in
  let prefact1j := prefact1 * p_m (particle_at ps mj) in
  let jk := jerk rim in
  let jk := add_jerk jk i (dax * prefact2j) (day * prefact2j) (daz * prefact2j) in
  let jk := sub_jerk jk i (dx * prefact1j) (dy * prefact1j) (dz * prefact1j) in
  let jk :=
    if nonzero (testparticle_type r) then
      let prefact1i := prefact1 * p_m (particle_at ps mi) in
      let prefact2i := Lsum * prefact2 * p_m (particle_at ps mi) in
      let jk := add_jerk jk j (dx * prefact1i) (dy * prefact1i) (dz * prefact1i) in
      sub_jerk jk j (dax * prefact2i) (day * prefact2i) (daz * prefact2i)
    else jk in
  set_rim r (set_jerk rim jk).

(** [particles[mi].ax = 0; ...] for the particles of the shell. *)
Definition zero_accelerations (shell : nat) (r : reb_simulation) : reb_simulation :=
  let rim := ri_mercurana r in
  for_nat 0 (shellN_at rim shell) (fun i r =>
    let mi := nth i (map_row rim shell) 0%nat in
    set_particles r (upd_nat mi (set_acc (particle_at (particles r) mi) 0 0 0)
                             (particles r))) r.

(** [jerk[j].ax = 0; ...] for [j < N]. *)
Definition zero_jerk (shell : nat) (r : reb_simulation) : reb_simulation :=
  let rim := ri_mercurana r in
  for_nat 0 (shellN_at rim shell) (fun j r =>
    let rim := ri_mercurana r in
    set_rim r (set_jerk rim (upd_nat j (set_acc (particle_at (jerk rim) j) 0 0 0)
                                     (jerk rim)))) r.

(** The velocity update, with the jerk term. *)
Definition kick_with_jerk (y v : R) (shell : nat) (r : reb_simulation) : reb_simulation :=
  let rim := ri_mercurana r in
  for_nat 0 (shellN_at rim shell) (fun i r =>
    let mi := nth i (map_row rim shell) 0%nat in
    let p := particle_at (particles r) mi in
    let jk := particle_at (jerk (ri_mercurana r)) i in
    set_particles r
      (upd_nat mi (set_vel p (p_vx p + (y * p_ax p + v * p_ax jk))
                             (p_vy p + (y * p_ay p + v * p_ay jk))
                             (p_vz p + (y * p_az p + v * p_az jk))) (particles r))) r.

(** The velocity update, no jerk used. *)
Definition kick_no_jerk (y : R) (shell : nat) (r : reb_simulation) : reb_simulation :=
  let rim := ri_mercurana r in
  for_nat 0 (shellN_at rim shell) (fun i r =>
    let mi := nth i (map_row rim shell) 0%nat in
    let p := particle_at (particles r) mi in
    set_particles r
      (upd_nat mi (set_vel p (p_vx p + y * p_ax p) (p_vy p + y * p_ay p)
                             (p_vz p + y * p_az p)) (particles r))) r.

(** An outer pair loop: [for (i = lo; i < hi; i++) { if (reb_sigint) return;
    for (j = jlo i; j < jhi; j++) body i j }]. *)
Definition pair_loop (lo hi : nat) (jlo : nat -> nat) (jhi : nat)
    (body : nat -> nat -> reb_simulation -> reb_simulation) (r : reb_simulation)
  : reb_simulation + reb_simulation :=
  for_ret lo hi (fun i r =>
    if reb_sigint r then inl r
    else inr (for_nat (jlo i) jhi (fun j r => body i j r) r)) r.

Definition mercurana_starti (rim : reb_simulation_integrator_mercurana) (shell : nat) : nat :=
  if nonzero (whsplitting rim) && (shell =? 0)%nat then 1%nat else 0%nat.

Definition reb_integrator_mercurana_interaction_step (r : reb_simulation) (y v : R)
    (shell : nat) : reb_simulation :=
  let rim := ri_mercurana r in
  let N := shellN_at rim shell in
  let N_active := shellN_active_at rim shell in
  let r := zero_accelerations shell r in
  let starti := mercurana_starti rim shell in
  returned
    (and_then (pair_loop starti N_active (fun i => (i + 1)%nat) N_active
                 (accel_active_pair shell) r) (fun r =>
     and_then (pair_loop N_active N (fun _ => starti) N_active
                 (accel_passive_pair shell) r) (fun r =>
     if negb (Reqb v 0) then
       let r := zero_jerk shell r in
       and_then (pair_loop starti N_active (fun i => (i + 1)%nat) N_active
                   (jerk_active_pair shell) r) (fun r =>
       and_then (pair_loop N_active N (fun _ => starti) N_active
                   (jerk_passive_pair shell) r) (fun r =>
       inr (kick_with_jerk y v shell r)))
     else inr (kick_no_jerk y shell r)))).

(** ** MERCURANA: composition scheduler *)

(** The coefficient tables of [integrator_eos.c]; [t i] is the entry [t[i]]. *)
Class EosTables : Type := {
  reb_eos_lf4_a : R;
  reb_eos_lf6_a : nat -> R;
  reb_eos_lf8_a : nat -> R;
  reb_eos_lf4_2_a : R;
  reb_eos_lf8_6_4_a : nat -> R;
  reb_eos_lf8_6_4_b : nat -> R;
  reb_eos_pmlf6_a : nat -> R;
  reb_eos_pmlf6_b : nat -> R;
  reb_eos_pmlf6_c : nat -> R;
  reb_eos_pmlf6_z : nat -> R;
  reb_eos_pmlf6_y : nat -> R;
  reb_eos_pmlf6_v : nat -> R;
  reb_eos_pmlf4_y : nat -> R;
  reb_eos_pmlf4_z : nat -> R;
  reb_eos_plf7_6_4_a : nat -> R;
  reb_eos_plf7_6_4_b : nat -> R;
  reb_eos_plf7_6_4_z : nat -> R;
  reb_eos_plf7_6_4_y : nat -> R
}.

(** [for (i = cnt - 1; i >= 0; i--) body]. *)
Fixpoint for_down {S : Type} (cnt : nat) (body : nat -> S -> S) (s : S) : S :=
  match cnt with
  | O => s
  | Datatypes.S c => for_down c body (body c s)
  end.

(** The three schedulers are written over the two operations they call, so
    that they can be run on the simulation and on a record of the calls. *)
Section Scheduler.

Context {eos : EosTables}.
Context {S : Type}.
Variable drift_step : S -> R -> nat -> S.
Variable interaction_step : S -> R -> R -> nat -> S.

Definition reb_integrator_mercurana_preprocessor (r : S) (dt : R) (shell : nat)
    (type : REB_EOS_TYPE) : S :=
  match type with
  | REB_EOS_PMLF6 =>
      for_nat 0 6 (fun i r =>
        let r := drift_step r (dt * reb_eos_pmlf6_z i) shell in
        interaction_step r (dt * reb_eos_pmlf6_y i) (dt * dt * dt * reb_eos_pmlf6_v i)
          shell) r
  | REB_EOS_PMLF4 =>
      for_nat 0 3 (fun i r =>
        let r := interaction_step r (dt * reb_eos_pmlf4_y i) 0 shell in
        drift_step r (dt * reb_eos_pmlf4_z i) shell) r
  | REB_EOS_PLF7_6_4 =>
      for_nat 0 6 (fun i r =>
        let r := drift_step r (dt * reb_eos_plf7_6_4_z i) shell in
        interaction_step r (dt * reb_eos_plf7_6_4_y i) 0 shell) r
  | _ => r
  end.

Definition reb_integrator_mercurana_postprocessor (r : S) (dt : R) (shell : nat)
    (type : REB_EOS_TYPE) : S :=
  match type with
  | REB_EOS_PMLF6 =>
      for_down 6 (fun i r =>
        let r := interaction_step r (- dt * reb_eos_pmlf6_y i)
                   (- dt * dt * dt * reb_eos_pmlf6_v i) shell in
        drift_step r (- dt * reb_eos_pmlf6_z i) shell) r
  | REB_EOS_PMLF4 =>
      for_down 3 (fun i r =>
        let r := drift_step r (- dt * reb_eos_pmlf4_z i) shell in
        interaction_step r (- dt * reb_eos_pmlf4_y i) 0 shell) r
  | REB_EOS_PLF7_6_4 =>
      for_down 6 (fun i r =>
        let r := interaction_step r (- dt * reb_eos_plf7_6_4_y i) 0 shell in
        drift_step r (- dt * reb_eos_plf7_6_4_z i) shell) r
  | _ => r
  end.

(** A straight-line sequence of calls, [D a] for a drift and [K y v] for an
    interaction, run from left to right. *)
Inductive call : Type :=
| D (a : R)
| K (y v : R).

Definition run_call (shell : nat) (r : S) (c : call) : S :=
  match c with
  | D a => drift_step r a shell
  | K y v => interaction_step r y v shell
  end.

Definition run_calls (shell : nat) (cs : list call) (r : S) : S :=
  fold_left (run_call shell) cs r.

Definition reb_integrator_mercurana_step (r : S) (dt : R) (shell : nat)
    (type : REB_EOS_TYPE) : S :=
  match type with
  | REB_EOS_LF =>
      run_calls shell [D (dt * 0.5); K dt 0; D (dt * 0.5)] r
  | REB_EOS_LF4 =>
      run_calls shell
        [D (dt * reb_eos_lf4_a); K (dt * 2 * reb_eos_lf4_a) 0;
         D (dt * (0.5 - reb_eos_lf4_a)); K (dt * (1 - 4 * reb_eos_lf4_a)) 0;
         D (dt * (0.5 - reb_eos_lf4_a)); K (dt * 2 * reb_eos_lf4_a) 0;
         D (dt * reb_eos_lf4_a)] r
  | REB_EOS_LF6 =>
      let a := reb_eos_lf6_a in
      run_calls shell
        [D (dt * a 0%nat * 0.5); K (dt * a 0%nat) 0;
         D (dt * (a 0%nat + a 1%nat) * 0.5); K (dt * a 1%nat) 0;
         D (dt * (a 1%nat + a 2%nat) * 0.5); K (dt * a 2%nat) 0;
         D (dt * (a 2%nat + a 3%nat) * 0.5); K (dt * a 3%nat) 0;
         D (dt * (a 3%nat + a 4%nat) * 0.5); K (dt * a 4%nat) 0;
         D (dt * (a 3%nat + a 4%nat) * 0.5); K (dt * a 3%nat) 0;
         D (dt * (a 2%nat + a 3%nat) * 0.5); K (dt * a 2%nat) 0;
         D (dt * (a 1%nat + a 2%nat) * 0.5); K (dt * a 1%nat) 0;
         D (dt * (a 0%nat + a 1%nat) * 0.5); K (dt * a 0%nat) 0;
         D (dt * a 0%nat * 0.5)] r
  | REB_EOS_LF8 =>
      let a := reb_eos_lf8_a in
      run_calls shell
        [D (dt * a 0%nat * 0.5); K (dt * a 0%nat) 0;
         D (dt * (a 0%nat + a 1%nat) * 0.5); K (dt * a 1%nat) 0;
         D (dt * (a 1%nat + a 2%nat) * 0.5); K (dt * a 2%nat) 0;
         D (dt * (a 2%nat + a 3%nat) * 0.5); K (dt * a 3%nat) 0;
         D (dt * (a 3%nat + a 4%nat) * 0.5); K (dt * a 4%nat) 0;
         D (dt * (a 4%nat + a 5%nat) * 0.5); K (dt * a 5%nat) 0;
         D (dt * (a 5%nat + a 6%nat) * 0.5); K (dt * a 6%nat) 0;
         D (dt * (a 6%nat + a 7%nat) * 0.5); K (dt * a 7%nat) 0;
         D (dt * (a 7%nat + a 8%nat) * 0.5); K (dt * a 8%nat) 0;
         D (dt * (a 7%nat + a 8%nat) * 0.5); K (dt * a 7%nat) 0;
         D (dt * (a 6%nat + a 7%nat) * 0.5); K (dt * a 6%nat) 0;
         D (dt * (a 5%nat + a 6%nat) * 0.5); K (dt * a 5%nat) 0;
         D (dt * (a 4%nat + a 5%nat) * 0.5); K (dt * a 4%nat) 0;
         D (dt * (a 3%nat + a 4%nat) * 0.5); K (dt * a 3%nat) 0;
         D (dt * (a 2%nat + a 3%nat) * 0.5); K (dt * a 2%nat) 0;
         D (dt * (a 1%nat + a 2%nat) * 0.5); K (dt * a 1%nat) 0;
         D (dt * (a 0%nat + a 1%nat) * 0.5); K (dt * a 0%nat) 0;
         D (dt * a 0%nat * 0.5)] r
  | REB_EOS_LF4_2 =>
      run_calls shell
        [D (dt * reb_eos_lf4_2_a); K (dt * 0.5) 0;
         D (dt * (1 - 2 * reb_eos_lf4_2_a)); K (dt * 0.5) 0;
         D (dt * reb_eos_lf4_2_a)] r
  | REB_EOS_LF8_6_4 =>
      let a := reb_eos_lf8_6_4_a in
      let b := reb_eos_lf8_6_4_b in
      run_calls shell
        [D (dt * a 0%nat); K (b 0%nat * dt) 0;
         D (a 1%nat * dt); K (b 1%nat * dt) 0;
         D (a 2%nat * dt); K (b 2%nat * dt) 0;
         D (a 3%nat * dt); K (b 3%nat * dt) 0;
         D (a 3%nat * dt); K (b 2%nat * dt) 0;
         D (a 2%nat * dt); K (b 1%nat * dt) 0;
         D (a 1%nat * dt); K (b 0%nat * dt) 0;
         D (dt * a 0%nat)] r
  | REB_EOS_PMLF4 =>
      run_calls shell [D (dt * 0.5); K dt (dt * dt * dt / 24); D (dt * 0.5)] r
  | REB_EOS_PMLF6 =>
      let a := reb_eos_pmlf6_a in
      let b := reb_eos_pmlf6_b in
      let c := reb_eos_pmlf6_c in
      run_calls shell
        [D (dt * a 0%nat); K (dt * b 0%nat) (dt * dt * dt * c 0%nat);
         D (dt * a 1%nat); K (dt * b 1%nat) (dt * dt * dt * c 1%nat);
         D (dt * a 1%nat); K (dt * b 0%nat) (dt * dt * dt * c 0%nat);
         D (dt * a 0%nat)] r
  | REB_EOS_PLF7_6_4 =>
      let a := reb_eos_plf7_6_4_a in
      let b := reb_eos_plf7_6_4_b in
      run_calls shell
        [D (dt * a 0%nat); K (b 0%nat * dt) 0;
         D (a 1%nat * dt); K (b 1%nat * dt) 0;
         D (a 1%nat * dt); K (b 0%nat * dt) 0;
         D (dt * a 0%nat)] r
  end.

End Scheduler.

(** The scheduler run on a record of calls: each operation appends itself. *)
Definition record_drift (tr : list call) (a : R) (shell : nat) : list call :=
  tr ++ [D a].
Definition record_interaction (tr : list call) (y v : R) (shell : nat) : list call :=
  tr ++ [K y v].

(** The calls made by the pre- and post-processor, in the order of execution. *)
Definition preprocessor_calls {eos : EosTables} (dt : R) (type : REB_EOS_TYPE) : list call :=
  reb_integrator_mercurana_preprocessor record_drift record_interaction [] dt 0 type.
Definition postprocessor_calls {eos : EosTables} (dt : R) (type : REB_EOS_TYPE) : list call :=
  reb_integrator_mercurana_postprocessor record_drift record_interaction [] dt 0 type.

(** A call with every coefficient negated. *)
Definition negate_call (c : call) : call :=
  match c with
  | D a => D (- a)
  | K y v => K (- y) (- v)
  end.

(** ** MERCURANA: drift step and recursion into the sub-shell *)

(** [depth] bounds the nesting of shells below [shell]; a call at [shell] with
    [Nmaxshells - shell <= depth] never reaches the [O] case, which is guarded
    by [shell + 1 < Nmaxshells]. *)
Fixpoint reb_integrator_mercurana_drift_step {eos : EosTables} (depth : nat)
    (r : reb_simulation) (a : R) (shell : nat) : reb_simulation :=
  let r := reb_mercurana_encounter_predict r a shell in
  let r := drift_positions r a shell in
  let rim := ri_mercurana r in
  if (shell + 1 <? Nmaxshells rim)%nat && (0 <? shellN_at rim (shell + 1))%nat then
    match depth with
    | O => r
    | Datatypes.S depth' =>
        let sub := reb_integrator_mercurana_drift_step depth' in
        let r := set_rim r (set_Nmaxshellused rim
                              (Nat.max (Nmaxshellused rim) (shell + 2))) in
        let as_ := a / INR (rim_n rim) in
        let r := reb_integrator_mercurana_preprocessor sub
                   reb_integrator_mercurana_interaction_step r as_ (shell + 1)
                   (phi1 rim) in
        let r := for_nat 0 (rim_n rim) (fun _ r =>
                   reb_integrator_mercurana_step sub
                     reb_integrator_mercurana_interaction_step r as_ (shell + 1)
                     (phi1 rim)) r in
        reb_integrator_mercurana_postprocessor sub
          reb_integrator_mercurana_interaction_step r as_ (shell + 1) (phi1 rim)
    end
  else r.


(** ** MERCURANA: Newton iteration for the cube root *)

(** [sqrt3]: [x = 1.; for (k = 0; k < 200; k++) { x2 = x*x; x += (a/x2-x)/3.; }]. *)
Definition sqrt3 (a : R) : R :=
  for_nat 0 200 (fun _ x => let x2 := x * x in x + (a / x2 - x) / 3) 1.

(** ** MERCURANA: the default switching function *)

(** [f]: [if (x<0) return 0; return exp(-1./x);].  At [x = 0] the quotient
    [-1./x] of the code is minus infinity and its [exp] is [0]; the division
    of [R] gives [0] there, so the case is written out. *)
Definition f (x : R) : R :=
  if Rlt_dec x 0 then 0
  else if Req_dec_T x 0 then 0
  else exp (- 1 / x).

(** [dfdy]: [if (x<0) return 0; return exp(-1./x)/(x*x);].  At [x = 0] the
    code divides [0] by [0] and has no number to return; [R] has none to
    stand for it, and what is proved of [dfdy] below is for [x > 0]. *)
Definition dfdy (x : R) : R := if Rlt_dec x 0 then 0 else exp (- 1 / x) / (x * x).

(** The two functions below divide by [ro - ri]; for [ro = ri] the code has an
    infinity or no number where [R] has [0], and what is proved of them is
    for [ri < ro]. *)
Definition reb_integrator_mercurana_L_infinity (d ri ro : R) : R :=
  let y := (d - ri) / (ro - ri) in
  if Rlt_dec y 0 then 0
  else if Rgt_dec y 1 then 1
  else f y / (f y + f (1 - y)).

Definition reb_integrator_mercurana_dLdr_infinity (d ri ro : R) : R :=
  let y := (d - ri) / (ro - ri) in
  let dydr := 1 / (ro - ri) in
  if Rlt_dec y 0 then 0
  else if Rgt_dec y 1 then 0
  else dydr * (dfdy y / (f y + f (1 - y))
               - f y / (f y + f (1 - y)) / (f y + f (1 - y)) * (dfdy y - dfdy (1 - y))).

(** ** MERCURANA: the integrator interface *)

(** The fields of [struct reb_simulation] and of [r->ri_mercurana] that only
    [part1], [part2], [synchronize] and [reset] use, kept beside the
    simulation.  [L_is_null] records [rim->L == NULL]; the contents of [rim_L]
    and [rim_dLdr] mean nothing while it is set.  [warnings] collects the
    calls of [reb_warning], latest first. *)
Inductive REB_GRAVITY : Type :=
| REB_GRAVITY_NONE
| REB_GRAVITY_BASIC
| REB_GRAVITY_OTHER.

Inductive REB_COLLISION : Type :=
| REB_COLLISION_NONE
| REB_COLLISION_DIRECT
| REB_COLLISION_OTHER.

(** The texts of the four warnings, in the order of the source. *)
Inductive mercurana_warning : Type :=
| WARN_variational_equations
| WARN_dcrit_not_synchronized
| WARN_direct_collision_search
| WARN_gravity_routine_ignored.

Record mercurana_sim : Type := {
  sim : reb_simulation;
  sim_t : R;
  sim_dt : R;
  sim_dt_last_done : R;
  sim_N_active : Z;
  var_config_N : nat;
  gravity : REB_GRAVITY;
  collision : REB_COLLISION;
  allocatedN : nat;
  recalculate_dcrit_this_timestep : nat;
  is_synchronized : nat;
  safe_mode : nat;
  dt_frac : R;
  L_is_null : bool;
  warnings : list mercurana_warning
}.

Definition set_sim (st : mercurana_sim) (v : reb_simulation) : mercurana_sim :=
  {| sim := v; sim_t := sim_t st; sim_dt := sim_dt st;
     sim_dt_last_done := sim_dt_last_done st; sim_N_active := sim_N_active st;
     var_config_N := var_config_N st; gravity := gravity st; collision := collision st;
     allocatedN := allocatedN st;
     recalculate_dcrit_this_timestep := recalculate_dcrit_this_timestep st;
     is_synchronized := is_synchronized st; safe_mode := safe_mode st;
     dt_frac := dt_frac st; L_is_null := L_is_null st; warnings := warnings st |}.

Definition set_time (st : mercurana_sim) (t dt_last_done : R) : mercurana_sim :=
  {| sim := sim st; sim_t := t; sim_dt := sim_dt st;
     sim_dt_last_done := dt_last_done; sim_N_active := sim_N_active st;
     var_config_N := var_config_N st; gravity := gravity st; collision := collision st;
     allocatedN := allocatedN st;
     recalculate_dcrit_this_timestep := recalculate_dcrit_this_timestep st;
     is_synchronized := is_synchronized st; safe_mode := safe_mode st;
     dt_frac := dt_frac st; L_is_null := L_is_null st; warnings := warnings st |}.

Definition set_gravity (st : mercurana_sim) (v : REB_GRAVITY) : mercurana_sim :=
  {| sim := sim st; sim_t := sim_t st; sim_dt := sim_dt st;
     sim_dt_last_done := sim_dt_last_done st; sim_N_active := sim_N_active st;
     var_config_N := var_config_N st; gravity := v; collision := collision st;
     allocatedN := allocatedN st;
     recalculate_dcrit_this_timestep := recalculate_dcrit_this_timestep st;
     is_synchronized := is_synchronized st; safe_mode := safe_mode st;
     dt_frac := dt_frac st; L_is_null := L_is_null st; warnings := warnings st |}.

Definition set_allocatedN (st : mercurana_sim) (v : nat) : mercurana_sim :=
  {| sim := sim st; sim_t := sim_t st; sim_dt := sim_dt st;
     sim_dt_last_done := sim_dt_last_done st; sim_N_active := sim_N_active st;
     var_config_N := var_config_N st; gravity := gravity st; collision := collision st;
     allocatedN := v;
     recalculate_dcrit_this_timestep := recalculate_dcrit_this_timestep st;
     is_synchronized := is_synchronized st; safe_mode := safe_mode st;
     dt_frac := dt_frac st; L_is_null := L_is_null st; warnings := warnings st |}.

Definition set_recalculate_dcrit_this_timestep (st : mercurana_sim) (v : nat)
  : mercurana_sim :=
  {| sim := sim st; sim_t := sim_t st; sim_dt := sim_dt st;
     sim_dt_last_done := sim_dt_last_done st; sim_N_active := sim_N_active st;
     var_config_N := var_config_N st; gravity := gravity st; collision := collision st;
     allocatedN := allocatedN st;
     recalculate_dcrit_this_timestep := v;
     is_synchronized := is_synchronized st; safe_mode := safe_mode st;
     dt_frac := dt_frac st; L_is_null := L_is_null st; warnings := warnings st |}.

Definition set_is_synchronized (st : mercurana_sim) (v : nat) : mercurana_sim :=
  {| sim := sim st; sim_t := sim_t st; sim_dt := sim_dt st;
     sim_dt_last_done := sim_dt_last_done st; sim_N_active := sim_N_active st;
     var_config_N := var_config_N st; gravity := gravity st; collision := collision st;
     allocatedN := allocatedN st;
     recalculate_dcrit_this_timestep := recalculate_dcrit_this_timestep st;
     is_synchronized := v; safe_mode := safe_mode st;
     dt_frac := dt_frac st; L_is_null := L_is_null st; warnings := warnings st |}.

Definition set_L_is_null (st : mercurana_sim) (v : bool) : mercurana_sim :=
  {| sim := sim st; sim_t := sim_t st; sim_dt := sim_dt st;
     sim_dt_last_done := sim_dt_last_done st; sim_N_active := sim_N_active st;
     var_config_N := var_config_N st; gravity := gravity st; collision := collision st;
     allocatedN := allocatedN st;
     recalculate_dcrit_this_timestep := recalculate_dcrit_this_timestep st;
     is_synchronized := is_synchronized st; safe_mode := safe_mode st;
     dt_frac := dt_frac st; L_is_null := v; warnings := warnings st |}.

(** [reb_warning(r, ...)]. *)
Definition reb_warning (st : mercurana_sim) (w : mercurana_warning) : mercurana_sim :=
  {| sim := sim st; sim_t := sim_t st; sim_dt := sim_dt st;
     sim_dt_last_done := sim_dt_last_done st; sim_N_active := sim_N_active st;
     var_config_N := var_config_N st; gravity := gravity st; collision := collision st;
     allocatedN := allocatedN st;
     recalculate_dcrit_this_timestep := recalculate_dcrit_this_timestep st;
     is_synchronized := is_synchronized st; safe_mode := safe_mode st;
     dt_frac := dt_frac st; L_is_null := L_is_null st; warnings := w :: warnings st |}.

Definition set_dcrit (rim : reb_simulation_integrator_mercurana) (v : list (list R)) :=
  {| phi0 := phi0 rim; phi1 := phi1 rim; rim_n := rim_n rim;
     whsplitting := whsplitting rim; Nmaxshells := Nmaxshells rim;
     Nmaxshellused := Nmaxshellused rim; dcrit := v; rim_map := rim_map rim;
     shellN := shellN rim; shellN_active := shellN_active rim;
     inshell := inshell rim; jerk := jerk rim; rim_L := rim_L rim;
     rim_dLdr := rim_dLdr rim |}.

(** [rim->L = ...; rim->dLdr = ...;] *)
Definition set_switching (rim : reb_simulation_integrator_mercurana)
    (L dLdr : R -> R -> R -> R) :=
  {| phi0 := phi0 rim; phi1 := phi1 rim; rim_n := rim_n rim;
     whsplitting := whsplitting rim; Nmaxshells := Nmaxshells rim;
     Nmaxshellused := Nmaxshellused rim; dcrit := dcrit rim; rim_map := rim_map rim;
     shellN := shellN rim; shellN_active := shellN_active rim;
     inshell := inshell rim; jerk := jerk rim; rim_L := L; rim_dLdr := dLdr |}.

(** What [malloc] and the grown part of [realloc] hand out: memory with
    contents of its own, given here per array and index. *)
Record fresh_memory : Type := {
  fresh_dcrit : nat -> nat -> R;
  fresh_map : nat -> nat -> nat;
  fresh_inshell : nat -> nat;
  fresh_jerk : nat -> reb_particle;
  fresh_shellN : nat -> nat;
  fresh_shellN_active : nat -> nat
}.

(** [realloc(old, n * sizeof ...)]: the first [n] entries, the old ones where
    there were any. *)
Definition realloc {A : Type} (fresh : nat -> A) (n : nat) (old : list A) : list A :=
  map (fun i => nth i old (fresh i)) (seq 0 n).

(** The allocation block of [reb_integrator_mercurana_part1]. *)
Definition mercurana_allocate (mem : fresh_memory) (N : nat)
    (rim : reb_simulation_integrator_mercurana) : reb_simulation_integrator_mercurana :=
  let rim := set_dcrit rim
               (map (fun s => map (fresh_dcrit mem s) (seq 0 N))
                    (seq 0 (Nmaxshells rim))) in
  let rim := set_map rim
               (map (fun s => map (fresh_map mem s) (seq 0 N))
                    (seq 0 (Nmaxshells rim))) in
  let rim := set_inshell rim (realloc (fresh_inshell mem) N (inshell rim)) in
  let rim := set_jerk rim (realloc (fresh_jerk mem) N (jerk rim)) in
  let rim := set_shellN rim (realloc (fresh_shellN mem) (Nmaxshells rim) (shellN rim)) in
  set_shellN_active rim
    (realloc (fresh_shellN_active mem) (Nmaxshells rim) (shellN_active rim)).

(** The loops of [part1] that fill [dcrit], clear the shell counts and set
    [map[0]] to the identity.  The state of the outer loop carries [dt_shell]. *)
Definition recalculate_dcrit (r : reb_simulation) (dt frac : R) : reb_simulation :=
  let N := List.length (particles r) in
  let rim := ri_mercurana r in
  let st :=
    for_nat 0 (Nmaxshells rim) (fun s (st : reb_simulation_integrator_mercurana * R) =>
      let rim := fst st in
      let dt_shell := snd st in
      let rim :=
        for_nat 0 N (fun i rim =>
          let T := dt_shell / (frac * 2 * PI) in
          let d := sqrt3 (T * T * G r * p_m (particle_at (particles r) i)) in
          set_dcrit rim (upd_nat s (upd_nat i d (dcrit_row rim s)) (dcrit rim))) rim in
      let longest_drift_step_in_shell := 0.5 in
      let dt_shell := dt_shell * longest_drift_step_in_shell in
      let dt_shell := dt_shell / INR (rim_n rim) in
      let rim := set_shellN rim (upd_nat s 0%nat (shellN rim)) in
      let rim := set_shellN_active rim (upd_nat s 0%nat (shellN_active rim)) in
      (rim, dt_shell)) (rim, dt) in
  let rim := fst st in
  let rim :=
    for_nat 0 N (fun i rim =>
      set_map rim (upd_nat 0 (upd_nat i i (map_row rim 0)) (rim_map rim))) rim in
  set_rim r rim.

(** [(unsigned int) n] for an [int] [n]. *)
Definition to_unsigned (n : Z) : nat := Z.to_nat (n mod 2 ^ 32)%Z.

(** The interface functions take the bound [depth] on the nesting of the
    shells that [reb_integrator_mercurana_drift_step] takes. *)
Section Interface.

Context {eos : EosTables}.
Variable depth : nat.

(** [if (rim->L == NULL) { rim->L = ...; rim->dLdr = ...; }] *)
Definition default_switching (st : mercurana_sim) : mercurana_sim :=
  if L_is_null st then
    let r := sim st in
    set_L_is_null
      (set_sim st (set_rim r (set_switching (ri_mercurana r)
                                reb_integrator_mercurana_L_infinity
                                reb_integrator_mercurana_dLdr_infinity)))
      false
  else st.

Definition reb_integrator_mercurana_synchronize (st : mercurana_sim) : mercurana_sim :=
  if (is_synchronized st =? 0)%nat then
    let st := set_gravity st REB_GRAVITY_NONE in
    let st := default_switching st in
    let r := sim st in
    let r := reb_integrator_mercurana_postprocessor (reb_integrator_mercurana_drift_step depth)
               reb_integrator_mercurana_interaction_step r (sim_dt st) 0
               (phi0 (ri_mercurana r)) in
    set_is_synchronized (set_sim st r) 1
  else st.

Definition reb_integrator_mercurana_part1 (mem : fresh_memory) (st : mercurana_sim)
  : mercurana_sim :=
  let st := if nonzero (var_config_N st)
            then reb_warning st WARN_variational_equations else st in
  let N := List.length (particles (sim st)) in
  let st :=
    if (allocatedN st <? N)%nat then
      let r := sim st in
      let st := set_sim st (set_rim r (mercurana_allocate mem N (ri_mercurana r))) in
      let st := set_allocatedN st N in
      set_recalculate_dcrit_this_timestep st 1
    else st in
  let st :=
    if nonzero (recalculate_dcrit_this_timestep st) then
      let st := set_recalculate_dcrit_this_timestep st 0 in
      let st :=
        if (is_synchronized st =? 0)%nat then
          reb_warning (reb_integrator_mercurana_synchronize st) WARN_dcrit_not_synchronized
        else st in
      set_sim st (recalculate_dcrit (sim st) (sim_dt st) (dt_frac st))
    else st in
  let st :=
    match collision st with
    | REB_COLLISION_NONE | REB_COLLISION_DIRECT => st
    | _ => reb_warning st WARN_direct_collision_search
    end in
  let st :=
    match gravity st with
    | REB_GRAVITY_BASIC | REB_GRAVITY_NONE => st
    | _ => reb_warning st WARN_gravity_routine_ignored
    end in
  let st := set_gravity st REB_GRAVITY_NONE in
  default_switching st.

Definition reb_integrator_mercurana_part2 (st : mercurana_sim) : mercurana_sim :=
  let r := sim st in
  let N := List.length (particles r) in
  let rim := ri_mercurana r in
  let rim := set_shellN rim (upd_nat 0 N (shellN rim)) in
  let rim :=
    set_shellN_active rim
      (upd_nat 0 (if (sim_N_active st =? -1)%Z then N else to_unsigned (sim_N_active st))
               (shellN_active rim)) in
  let r := set_rim r rim in
  let r :=
    if nonzero (is_synchronized st) then
      reb_integrator_mercurana_preprocessor (reb_integrator_mercurana_drift_step depth)
        reb_integrator_mercurana_interaction_step r (sim_dt st) 0 (phi0 (ri_mercurana r))
    else r in
  let r := reb_integrator_mercurana_step (reb_integrator_mercurana_drift_step depth)
             reb_integrator_mercurana_interaction_step r (sim_dt st) 0
             (phi0 (ri_mercurana r)) in
  let st := set_is_synchronized (set_sim st r) 0 in
  let st := if nonzero (safe_mode st) then reb_integrator_mercurana_synchronize st else st in
  set_time st (sim_t st + sim_dt st) (sim_dt st).

(** [reb_integrator_mercurana_reset]: the arrays are freed and the settings
    are the defaults. *)
Definition reb_integrator_mercurana_reset (st : mercurana_sim) : mercurana_sim :=
  let r := sim st in
  let rim := ri_mercurana r in
  let rim :=
    {| phi0 := REB_EOS_LF; phi1 := REB_EOS_LF; rim_n := 10;
       whsplitting := 1; Nmaxshells := 10; Nmaxshellused := 1;
       dcrit := []; rim_map := []; shellN := []; shellN_active := [];
       inshell := []; jerk := []; rim_L := rim_L rim; rim_dLdr := rim_dLdr rim |} in
  let st := set_sim st (set_rim r rim) in
  let st := set_allocatedN st 0 in
  let st := set_recalculate_dcrit_this_timestep st 0 in
  let st := set_is_synchronized st 1 in
  {| sim := sim st; sim_t := sim_t st; sim_dt := sim_dt st;
     sim_dt_last_done := sim_dt_last_done st; sim_N_active := sim_N_active st;
     var_config_N := var_config_N st; gravity := gravity st; collision := collision st;
     allocatedN := allocatedN st;
     recalculate_dcrit_this_timestep := recalculate_dcrit_this_timestep st;
     is_synchronized := is_synchronized st; safe_mode := 1;
     dt_frac := 0.1; L_is_null := true; warnings := warnings st |}.

End Interface.

(** ** Reference formulations used by the properties *)

Local Close Scope R_scope.
Local Open Scope Q_scope.

(** The factors of the extrapolation sweep for the tableau row [r] at column
    [k]: [facC = xi / (xi - xim1)] and [facD = xim1 / (xi - xim1)] with
    [xi = coeff[r]] and [xim1 = coeff[k]]. *)
Definition facC (coeff : list Q) (k r : Z) : Q :=
  let xi := get coeff r in
  let xim1 := get coeff k in
  xi / (xi - xim1).

Definition facD (coeff : list Q) (k r : Z) : Q :=
  let xi := get coeff r in
  let xim1 := get coeff k in
  xim1 / (xi - xim1).

(** The value of [C[i]] after the passes [0 .. j-1] of the sweep, from the
    initial [C[i] = c0] and the initial column [d r = D[r][i]]: pass [j] has
    [CD = C[i] - D[k-j-1][i]] and sets [C[i] = facC * CD]. *)
Fixpoint sweep_C (coeff : list Q) (k : Z) (c0 : Q) (d : Z -> Q) (j : nat) : Q :=
  match j with
  | O => c0
  | Datatypes.S j' =>
      let r := (k - Z.of_nat j' - 1)%Z in
      facC coeff k r * (sweep_C coeff k c0 d j' - d r)
  end.

(** The value that pass [j] writes to [D[k-j-1][i]]: [facD * CD]. *)
Definition sweep_D (coeff : list Q) (k : Z) (c0 : Q) (d : Z -> Q) (j : nat) : Q :=
  let r := (k - Z.of_nat j - 1)%Z in
  facD coeff k r * (sweep_C coeff k c0 d j - d r).

(** The sum of [d 0 .. d k], added up in this order. *)
Definition tableau_sum (d : Z -> Q) (k : Z) : Q :=
  for_range 1 (k + 1) (fun j acc => acc + d j) (d 0%Z).

(** The buffers of a state that [extrapolate] touches at column [k] have the
    allocated sizes: [length] components each, and rows [0 .. k] of [D]. *)
Definition buffers_ok (st : reb_ode_state) (k : Z) : Prop :=
  Z.of_nat (List.length (ode_C st)) = ode_length st /\
  Z.of_nat (List.length (ode_y1 st)) = ode_length st /\
  (k < Z.of_nat (List.length (ode_D st)))%Z /\
  forall j, (0 <= j <= k)%Z ->
    Z.of_nat (List.length (getd [] (ode_D st) j)) = ode_length st.

(** One pass of the sweep over the components, on the row [r] with the
    factors [a] and [b]. *)
Definition sweep_pass (len : Z) (a b : Q) (r : Z) (st : reb_ode_state) : reb_ode_state :=
  for_range 0 len (fun i st =>
    let CD := (get (ode_C st) i - getD st r i) in
    let st := set_C st (upd i (a * CD) (ode_C st)) in
    updD st r i (b * CD)) st.


(** The loops of [extrapolate] that build [y1]: the copy of row [0] and the
    addition of row [j]. *)
Definition copy_row0 (len : Z) (st : reb_ode_state) : reb_ode_state :=
  for_range 0 len (fun i st => set_y1 st (upd i (getD st 0 i) (ode_y1 st))) st.

Definition add_row (len : Z) (j : Z) (st : reb_ode_state) : reb_ode_state :=
  for_range 0 len (fun i st =>
    set_y1 st (upd i (get (ode_y1 st) i + getD st j i) (ode_y1 st))) st.


(** ** Inputs on which the controller is run *)

(** Rational approximations of the libm functions, good to a few digits:
    square and higher roots by bisection on integers, [log10] by the number
    of decimal digits.  [rational_pow x y] is meant for [0 <= x] and
    [y = 1 / q]. *)
Fixpoint iroot_bisect (fuel : nat) (q : positive) (n lo hi : Z) : Z :=
  match fuel with
  | O => lo
  | Datatypes.S f =>
      if (hi - lo <=? 1)%Z then lo
      else
        let mid := ((lo + hi) / 2)%Z in
        if (Z.pow_pos mid q <=? n)%Z then iroot_bisect f q n mid hi
        else iroot_bisect f q n lo mid
  end.

Definition rational_root (q : positive) (x : Q) : Q :=
  let scale := Z.pow_pos 1000000 q in
  let n := Qfloor (x * inject_Z scale) in
  inject_Z (iroot_bisect 2000 q n 0 (n + 2)) / 1000000.

Fixpoint decimal_digits (fuel : nat) (n : Z) : Z :=
  match fuel with
  | O => 0%Z
  | Datatypes.S f => if (n <? 10)%Z then 0%Z else (1 + decimal_digits f (n / 10))%Z
  end.

Definition rational_log10 (x : Q) : Q :=
  if Qlt_le_dec x 1
  then - inject_Z (decimal_digits 400 (Qfloor (1 / x)))
  else inject_Z (decimal_digits 400 (Qfloor x)).

Definition rational_libm : LibM :=
  {| libm_sqrt := rational_root 2;
     libm_pow := fun x y =>
       match Qnum (Qred (1 / y)) with
       | Zpos q => rational_root q x
       | _ => 1
       end;
     libm_log10 := rational_log10 |}.

(** A one-component ODE with the given right-hand side, its buffers allocated
    as by [reb_integrator_bs_add_ode] and [y = (1)]. *)
Definition scalar_ode (f : Q -> Q -> Q) : reb_ode_state :=
  {| ode_length := 1;
     ode_y := [1]; ode_y1 := [0]; ode_y0Dot := [0]; ode_yDot := [0];
     ode_yTmp := [0]; ode_C := [0];
     ode_D := repeat [0] (Z.to_nat sequence_length);
     ode_scale := [0];
     ode_derivatives := fun y t => [f (get y 0%Z) t];
     ode_getscale := None |}.

(** The integrator after [reb_integrator_bs_reset_struct] and
    [allocate_sequence_arrays], holding one ODE. *)
Definition fresh_integrator (st : reb_ode_state) : reb_simulation_integrator_bs :=
  allocate_sequence_arrays
    {| states := [st]; sequence := []; costPerStep := []; coeff := [];
       costPerTimeUnit := []; optimalStep := [];
       scalAbsoluteTolerance := 1 # 100000;
       scalRelativeTolerance := 1 # 100000;
       minStep := 1 # 100000000; maxStep := 10; method := 1;
       targetIter := 0; previousRejected := 0; firstOrLastStep := 1;
       dt_proposed := 0 |}.

(** [y' = 0], [y' = -y] and the stiff [y' = 10 y]. *)
Definition ode_constant : reb_ode_state := scalar_ode (fun _ _ => 0).
Definition ode_decay : reb_ode_state := scalar_ode (fun y _ => - y).
Definition ode_growth : reb_ode_state := scalar_ode (fun y _ => 10 * y).


(** The stiff ODE with the scale [(1)] and the derivative [y0Dot = (10)] of
    its initial value [y = (1)]. *)
Definition ode_growth_scaled : reb_ode_state :=
  set_y0Dot (set_scale ode_growth [1]) [10].

(** The scale that the specification gives for component [i]:
    [absTol + relTol * max(|y_a[i]|, |y_b[i]|)]. *)
Definition specified_scale (absTol relTol : Q) (y_a y_b : list Q) (i : Z) : Q :=
  absTol + relTol * Qmax (Qabs (get y_a i)) (Qabs (get y_b i)).

(** An integrator with distinct tolerances, [absTol = 1] and [relTol = 3],
    holding a one-component ODE with [y = (2)]. *)
Definition ode_two : reb_ode_state := set_y ode_constant [2].

Definition integrator_tol_1_3 : reb_simulation_integrator_bs :=
  allocate_sequence_arrays
    {| states := [ode_two]; sequence := []; costPerStep := []; coeff := [];
       costPerTimeUnit := []; optimalStep := [];
       scalAbsoluteTolerance := 1; scalRelativeTolerance := 3;
       minStep := 1 # 100000000; maxStep := 10; method := 1;
       targetIter := 0; previousRejected := 0; firstOrLastStep := 1;
       dt_proposed := 0 |}.

(** An integrator with [absTol = relTol = 1] and an ODE with [y = (1)] whose
    tableau holds the rows [D[0] = (2)] and [C = D[1] = (4)]. *)
Definition ode_tableau : reb_ode_state :=
  set_C (set_D ode_constant (upd 0 [2] (upd 1 [4] (ode_D ode_constant)))) [4].

Definition integrator_tol_1_1 : reb_simulation_integrator_bs :=
  allocate_sequence_arrays
    {| states := [ode_tableau]; sequence := []; costPerStep := []; coeff := [];
       costPerTimeUnit := []; optimalStep := [];
       scalAbsoluteTolerance := 1; scalRelativeTolerance := 1;
       minStep := 1 # 100000000; maxStep := 10; method := 1;
       targetIter := 0; previousRejected := 0; firstOrLastStep := 1;
       dt_proposed := 0 |}.

(** The indices [lo, lo + 1, ..] of [cnt] components. *)
Fixpoint index_range (lo : Z) (cnt : nat) : list Z :=
  match cnt with
  | O => []
  | Datatypes.S c => lo :: index_range (lo + 1)%Z c
  end.

Definition sum_Q (l : list Q) : Q := fold_right Qplus 0 l.

(** The two sums of the stability test as the specification writes them:
    [I] is the sum of [(y0Dot_i / scale_i)^2] and [Delta] the sum of
    [((yDot_i - y0Dot_i) / scale_i)^2], over all states and all the
    components [i] of each. *)
Definition specified_I (states : list reb_ode_state) : Q :=
  sum_Q (map (fun st =>
    sum_Q (map (fun i => (get (ode_y0Dot st) i / get (ode_scale st) i) ^ 2)
               (index_range 0 (Z.to_nat (ode_length st))))) states).

Definition specified_Delta (states : list reb_ode_state) : Q :=
  sum_Q (map (fun st =>
    sum_Q (map (fun i =>
             ((get (ode_yDot st) i - get (ode_y0Dot st) i) / get (ode_scale st) i) ^ 2)
               (index_range 0 (Z.to_nat (ode_length st))))) states).

(** No component of any state has a [scale] of zero, so that the quotients of
    the two sums are numbers. *)
Definition scales_nonzero (states : list reb_ode_state) : Prop :=
  forall st, In st states ->
    forall i, (0 <= i < ode_length st)%Z -> ~ get (ode_scale st) i == 0.

(** The midpoint rule without the stability check: the states after [cnt]
    further inner substeps, and the states right after the derivative
    evaluation of inner substep [j >= 1] of [tryStep]. *)
Fixpoint midpoint_iterate (cnt : nat) (subStep t : Q) (states : list reb_ode_state)
  : list reb_ode_state :=
  match cnt with
  | O => states
  | Datatypes.S c =>
      let t := t + subStep in
      midpoint_iterate c subStep t (midpoint_advance subStep t states)
  end.

Definition midpoint_at (states : list reb_ode_state) (n : Z) (t0 step : Q) (j : Z)
  : list reb_ode_state :=
  let subStep := step / inject_Z n in
  let t := t0 + subStep in
  let states := map (midpoint_first subStep) states in
  let states := map (eval_yDot t) states in
  let states := map midpoint_copy states in
  midpoint_iterate (Z.to_nat j) subStep t states.


(** What a step that is not committed leaves alone in an ODE state: the
    accepted solution [y], the dimension, the callbacks and the number of
    tableau rows. *)
Definition ode_fixed (st st' : reb_ode_state) : Prop :=
  ode_y st' = ode_y st /\
  ode_length st' = ode_length st /\
  ode_derivatives st' = ode_derivatives st /\
  ode_getscale st' = ode_getscale st /\
  List.length (ode_D st') = List.length (ode_D st).

Definition states_fixed (sts sts' : list reb_ode_state) : Prop :=
  Forall2 ode_fixed sts sts'.

(** What the convergence loop leaves alone in the integrator: everything but
    [targetIter], the contents of the scratch buffers of the states and the
    contents of [optimalStep] and [costPerTimeUnit]. *)
Definition ri_fixed (ri ri' : reb_simulation_integrator_bs) : Prop :=
  states_fixed (states ri) (states ri') /\
  sequence ri' = sequence ri /\
  costPerStep ri' = costPerStep ri /\
  coeff ri' = coeff ri /\
  scalAbsoluteTolerance ri' = scalAbsoluteTolerance ri /\
  scalRelativeTolerance ri' = scalRelativeTolerance ri /\
  minStep ri' = minStep ri /\
  maxStep ri' = maxStep ri /\
  method ri' = method ri /\
  firstOrLastStep ri' = firstOrLastStep ri /\
  previousRejected ri' = previousRejected ri /\
  List.length (costPerTimeUnit ri') = List.length (costPerTimeUnit ri) /\
  List.length (optimalStep ri') = List.length (optimalStep ri).

(** The arrays of the integrator and the tableaux of its states have
    [sequence_length] entries. *)
Definition arrays_allocated (ri : reb_simulation_integrator_bs) : Prop :=
  Z.of_nat (List.length (sequence ri)) = sequence_length /\
  Z.of_nat (List.length (costPerStep ri)) = sequence_length /\
  Z.of_nat (List.length (coeff ri)) = sequence_length /\
  Z.of_nat (List.length (costPerTimeUnit ri)) = sequence_length /\
  Z.of_nat (List.length (optimalStep ri)) = sequence_length /\
  Forall (fun st => Z.of_nat (List.length (ode_D st)) = sequence_length) (states ri).


(** [post Q r]: if [r] is a normal completion, its value satisfies [Q].
    [safe Q r]: moreover [r] is neither an array fault nor a loop that ran
    out of fuel. *)
Definition post {A : Type} (Q : A -> Prop) (r : result A) : Prop :=
  match r with
  | Ok a => Q a
  | _ => True
  end.

Definition safe {A : Type} (Q : A -> Prop) (r : result A) : Prop :=
  match r with
  | Ok a => Q a
  | Exit _ => True
  | Fault => False
  | OutOfFuel => False
  end.

(** The local variables other than [dt] and the integrator stay as they are. *)
Definition lv_fixed (lv lv' : loop_vars) : Prop :=
  ri_fixed (lv_ri lv) (lv_ri lv') /\ lv_k lv' = lv_k lv /\ lv_error lv' = lv_error lv.


(** The direction of a step, as [reb_integrator_bs_step] records it in
    [forward = (dt >= 0.)]. *)
Definition forward (dt : Q) : bool := if Qlt_le_dec dt 0 then false else true.

(** The value returned by a call, if it returns. *)
Definition returned_value {A : Type} (r : result (Z * A)) : option Z :=
  match r with
  | Ok (ret, _) => Some ret
  | _ => None
  end.

Local Close Scope Q_scope.

Local Open Scope R_scope.

(** ** Reference formulations for MERCURANA *)

(** [sum_below f n] is the sum of [f 0 .. f (n-1)]. *)
Fixpoint sum_below (f : nat -> R) (n : nat) : R :=
  match n with
  | O => 0
  | Datatypes.S n' => sum_below f n' + f n'
  end.

(** The weight with which the force of a pair enters the kick of [shell].
    [idx] is the loop index of the active particle of the pair; the pair loops
    of [reb_integrator_mercurana_interaction_step] start at [starti], so under
    WH splitting the pairs of index [0] are not visited in shell [0]. *)
Definition pair_weight (rim : reb_simulation_integrator_mercurana) (shell idx : nat)
    (dr : R) (mi mj : nat) : R :=
  if (idx <? mercurana_starti rim shell)%nat then 0
  else Lsum_of rim shell idx dr mi mj.

Local Close Scope R_scope.

Local Open Scope R_scope.

(** A particle after a drift of duration [a]. *)
Definition drifted (a : R) (p : reb_particle) : reb_particle :=
  set_pos p (p_x p + a * p_vx p) (p_y p + a * p_vy p) (p_z p + a * p_vz p).

(** The arrays that [reb_mercurana_encounter_predict] uses at [shell] are
    allocated as by [reb_integrator_mercurana_part1], the shell lists its
    particles once, and WH splitting has a shell [1] to forward to. *)
Definition shell_ok (r : reb_simulation) (shell : nat) : Prop :=
  let rim := ri_mercurana r in
  let N := shellN_at rim shell in
  (shell < Nmaxshells rim)%nat /\
  List.length (rim_map rim) = Nmaxshells rim /\
  List.length (shellN rim) = Nmaxshells rim /\
  (N <= List.length (map_row rim shell))%nat /\
  (shellN_active_at rim shell <= N)%nat /\
  ((shell + 1 < Nmaxshells rim)%nat ->
   (N <= List.length (map_row rim (shell + 1)))%nat) /\
  (forall m, In m (shell_members rim shell) ->
     (m < List.length (inshell rim))%nat /\ (m < List.length (particles r))%nat) /\
  NoDup (shell_members rim shell) /\
  (nonzero (whsplitting rim) = true -> shell = 0%nat -> (1 < Nmaxshells rim)%nat).

(** A linear ramp as switching function. *)
Definition ramp (d ri ro : R) : R := Rmin 1 (Rmax 0 ((d - ri) / (ro - ri))).

Definition particle_rest (x m : R) : reb_particle :=
  {| p_x := x; p_y := 0; p_z := 0; p_vx := 0; p_vy := 0; p_vz := 0;
     p_ax := 0; p_ay := 0; p_az := 0; p_m := m |}.

(** A star and a planet, three shells, shell [0] holding both bodies; with
    and without WH splitting. *)
Definition two_body_rim (wh : nat) : reb_simulation_integrator_mercurana :=
  {| phi0 := REB_EOS_LF; phi1 := REB_EOS_LF; rim_n := 10%nat; whsplitting := wh;
     Nmaxshells := 3%nat; Nmaxshellused := 1%nat;
     dcrit := [[4; 2]; [2; 1]; [1; 1]];
     rim_map := [[0; 1]; [0; 0]; [0; 0]]%nat;
     shellN := [2; 0; 0]%nat; shellN_active := [2; 0; 0]%nat;
     inshell := [0; 0]%nat; jerk := [particle0; particle0];
     rim_L := ramp; rim_dLdr := fun _ _ _ => 0 |}.

Definition two_body (wh : nat) : reb_simulation :=
  {| particles := [particle_rest 0 1; particle_rest 1 1];
     G := 1; testparticle_type := 0%nat; reb_sigint := false;
     ri_mercurana := two_body_rim wh |}.

Local Close Scope R_scope.

(** What the predictor at [shell] leaves alone in the integrator. *)
Definition predict_frame (shell : nat) (rim0 rim : reb_simulation_integrator_mercurana)
  : Prop :=
  Nmaxshells rim = Nmaxshells rim0 /\
  whsplitting rim = whsplitting rim0 /\
  List.length (rim_map rim) = List.length (rim_map rim0) /\
  List.length (shellN rim) = List.length (shellN rim0) /\
  List.length (inshell rim) = List.length (inshell rim0) /\
  map_row rim shell = map_row rim0 shell /\
  shellN_at rim shell = shellN_at rim0 shell /\
  List.length (map_row rim (shell + 1)) = List.length (map_row rim0 (shell + 1)).

(** The sub-shell while the predictor runs, after the entries [0 .. i-1] of
    [map[shell]] have been tested: it holds some of them, each once, and
    these are the particles of the shell that are no longer in-shell. *)
Definition promoted_ok (shell : nat) (map_s : list nat) (N i : nat)
    (rim : reb_simulation_integrator_mercurana) : Prop :=
  let sub := shell_members rim (shell + 1) in
  (shellN_at rim (shell + 1) <= i)%nat /\
  incl sub (firstn i map_s) /\
  NoDup sub /\
  forall m, In m (firstn N map_s) ->
    (In m sub -> nth m (inshell rim) 0%nat = 0%nat) /\
    (~ In m sub -> nth m (inshell rim) 0%nat = 1%nat).

Local Open Scope R_scope.

(** The three components of a vector quantity of a particle. *)
Inductive axis : Type := AX | AY | AZ.

Definition pick (a : axis) (x y z : R) : R :=
  match a with
  | AX => x
  | AY => y
  | AZ => z
  end.

Definition acc_of (a : axis) (p : reb_particle) : R := pick a (p_ax p) (p_ay p) (p_az p).
Definition vel_of (a : axis) (p : reb_particle) : R := pick a (p_vx p) (p_vy p) (p_vz p).

(** The particle at position [i] of the shell. *)
Definition shell_particle (r : reb_simulation) (shell i : nat) : reb_particle :=
  particle_at (particles r) (nth i (map_row (ri_mercurana r) shell) 0%nat).

(** Mass-weighted sums over the particles of a shell: the momentum
    [sum m v], the total force [sum m a] and the sum of the jerks
    [sum m jerk[i]]. *)
Definition shell_sum (f : reb_particle -> R) (r : reb_simulation) (shell : nat) : R :=
  sum_below (fun i => p_m (shell_particle r shell i) * f (shell_particle r shell i))
            (shellN_at (ri_mercurana r) shell).

Definition momentum (a : axis) (r : reb_simulation) (shell : nat) : R :=
  shell_sum (vel_of a) r shell.

Definition total_force (a : axis) (r : reb_simulation) (shell : nat) : R :=
  shell_sum (acc_of a) r shell.

Definition total_jerk (a : axis) (r : reb_simulation) (shell : nat) : R :=
  sum_below (fun i => p_m (shell_particle r shell i)
                      * acc_of a (particle_at (jerk (ri_mercurana r)) i))
            (shellN_at (ri_mercurana r) shell).

(** The arrays of a shell are allocated and list its particles once. *)
Definition shell_wf (r : reb_simulation) (shell : nat) : Prop :=
  let rim := ri_mercurana r in
  let N := shellN_at rim shell in
  (N <= List.length (map_row rim shell))%nat /\
  (N <= List.length (jerk rim))%nat /\
  NoDup (shell_members rim shell) /\
  forall m, In m (shell_members rim shell) -> (m < List.length (particles r))%nat.

(** A shell all of whose particles are active. *)
Definition active_shell_ok (r : reb_simulation) (shell : nat) : Prop :=
  shellN_active_at (ri_mercurana r) shell = shellN_at (ri_mercurana r) shell /\
  shell_wf r shell.

(** What the kernel leaves alone until it updates the velocities: the
    integrator apart from the jerk buffer, and the mass and velocity of every
    particle. *)
Definition before_kick (r0 r : reb_simulation) : Prop :=
  rim_map (ri_mercurana r) = rim_map (ri_mercurana r0) /\
  shellN (ri_mercurana r) = shellN (ri_mercurana r0) /\
  shellN_active (ri_mercurana r) = shellN_active (ri_mercurana r0) /\
  whsplitting (ri_mercurana r) = whsplitting (ri_mercurana r0) /\
  reb_sigint r = reb_sigint r0 /\
  List.length (jerk (ri_mercurana r)) = List.length (jerk (ri_mercurana r0)) /\
  List.length (particles r) = List.length (particles r0) /\
  forall m, p_m (particle_at (particles r) m) = p_m (particle_at (particles r0) m) /\
            forall a, vel_of a (particle_at (particles r) m)
                      = vel_of a (particle_at (particles r0) m).

Local Close Scope R_scope.

(** ** Reference formulations for the further properties *)

Local Open Scope R_scope.

(** The squared distance of two particles, now and after both have moved
    freely for the (signed) time [dt]. *)
Definition dist2 (p1 p2 : reb_particle) : R :=
  (p_x p1 - p_x p2) * (p_x p1 - p_x p2)
  + (p_y p1 - p_y p2) * (p_y p1 - p_y p2)
  + (p_z p1 - p_z p2) * (p_z p1 - p_z p2).

Definition dist2_after (p1 p2 : reb_particle) (dt : R) : R :=
  dist2 (drifted dt p1) (drifted dt p2).

Local Close Scope R_scope.

Local Open Scope R_scope.

(** The linear momentum of all particles. *)
Definition total_momentum (a : axis) (r : reb_simulation) : R :=
  sum_below (fun m => p_m (particle_at (particles r) m)
                      * vel_of a (particle_at (particles r) m))
            (List.length (particles r)).

(** What the force kernel leaves alone: the integrator but for the contents
    of the jerk buffer, the constants of the simulation, and the mass and
    position of every particle. *)
Definition kernel_frame (r0 r : reb_simulation) : Prop :=
  set_jerk (ri_mercurana r) (jerk (ri_mercurana r0)) = ri_mercurana r0 /\
  List.length (jerk (ri_mercurana r)) = List.length (jerk (ri_mercurana r0)) /\
  G r = G r0 /\ testparticle_type r = testparticle_type r0 /\
  reb_sigint r = reb_sigint r0 /\
  List.length (particles r) = List.length (particles r0) /\
  forall m,
    p_m (particle_at (particles r) m) = p_m (particle_at (particles r0) m) /\
    p_x (particle_at (particles r) m) = p_x (particle_at (particles r0) m) /\
    p_y (particle_at (particles r) m) = p_y (particle_at (particles r0) m) /\
    p_z (particle_at (particles r) m) = p_z (particle_at (particles r0) m).

(** Moreover only particles of [shell] are written. *)
Definition shell_touch (shell : nat) (r0 r : reb_simulation) : Prop :=
  kernel_frame r0 r /\
  forall m, ~ In m (shell_members (ri_mercurana r0) shell) ->
            particle_at (particles r) m = particle_at (particles r0) m.

Local Close Scope R_scope.

(** What the encounter predictor at [shell] leaves alone in the integrator:
    everything but [inshell] and the entries [shell + 1] of [map], [shellN]
    and [shellN_active]; no array changes its size. *)
Definition predict_touch (shell : nat) (rim0 rim : reb_simulation_integrator_mercurana)
  : Prop :=
  set_inshell (set_shellN_active (set_shellN (set_map rim (rim_map rim0)) (shellN rim0))
                                 (shellN_active rim0)) (inshell rim0) = rim0 /\
  List.length (rim_map rim) = List.length (rim_map rim0) /\
  List.length (shellN rim) = List.length (shellN rim0) /\
  List.length (shellN_active rim) = List.length (shellN_active rim0) /\
  List.length (inshell rim) = List.length (inshell rim0) /\
  (forall s, List.length (map_row rim s) = List.length (map_row rim0 s)) /\
  (forall s, s <> (shell + 1)%nat ->
     map_row rim s = map_row rim0 s /\ shellN_at rim s = shellN_at rim0 s /\
     shellN_active_at rim s = shellN_active_at rim0 s).

(** The arrays of the integrator as [reb_integrator_mercurana_part1]
    allocates them for the particles of the simulation: [Nmaxshells] rows of
    [map] with room for every particle, [Nmaxshells] shell counts, and one
    entry of [inshell] and [jerk] per particle.  WH splitting needs a
    shell [1]. *)
Definition mercurana_allocated (r : reb_simulation) : Prop :=
  let rim := ri_mercurana r in
  let n := List.length (particles r) in
  List.length (rim_map rim) = Nmaxshells rim /\
  List.length (shellN rim) = Nmaxshells rim /\
  List.length (shellN_active rim) = Nmaxshells rim /\
  (n <= List.length (inshell rim))%nat /\
  (n <= List.length (jerk rim))%nat /\
  (forall s, (s < Nmaxshells rim)%nat -> (n <= List.length (map_row rim s))%nat) /\
  (nonzero (whsplitting rim) = true -> (1 < Nmaxshells rim)%nat).

(** Shell [s] exists, lists particles of the simulation, each once, and all
    of them are active. *)
Definition shell_all_active (r : reb_simulation) (s : nat) : Prop :=
  let rim := ri_mercurana r in
  (s < Nmaxshells rim)%nat /\
  (shellN_at rim s <= List.length (particles r))%nat /\
  shellN_active_at rim s = shellN_at rim s /\
  NoDup (shell_members rim s) /\
  forall m, In m (shell_members rim s) -> (m < List.length (particles r))%nat.

(** What the work at shell [s] and below it leaves alone: the sizes of all
    arrays, the lists and counts of the shells [0 .. s], the number of
    shells, the WH flag and the masses. *)
Definition level_frame (s : nat) (r0 r : reb_simulation) : Prop :=
  let rim0 := ri_mercurana r0 in
  let rim := ri_mercurana r in
  Nmaxshells rim = Nmaxshells rim0 /\
  whsplitting rim = whsplitting rim0 /\
  List.length (rim_map rim) = List.length (rim_map rim0) /\
  List.length (shellN rim) = List.length (shellN rim0) /\
  List.length (shellN_active rim) = List.length (shellN_active rim0) /\
  List.length (inshell rim) = List.length (inshell rim0) /\
  List.length (jerk rim) = List.length (jerk rim0) /\
  List.length (particles r) = List.length (particles r0) /\
  (forall s', List.length (map_row rim s') = List.length (map_row rim0 s')) /\
  (forall s', (s' <= s)%nat ->
     map_row rim s' = map_row rim0 s' /\ shellN_at rim s' = shellN_at rim0 s' /\
     shellN_active_at rim s' = shellN_active_at rim0 s') /\
  forall m, p_m (particle_at (particles r) m) = p_m (particle_at (particles r0) m).

Local Open Scope R_scope.

(** Coefficient tables for runs of the schemes that use none. *)
Definition unused_tables : EosTables :=
  {| reb_eos_lf4_a := 0; reb_eos_lf6_a := fun _ => 0; reb_eos_lf8_a := fun _ => 0;
     reb_eos_lf4_2_a := 0; reb_eos_lf8_6_4_a := fun _ => 0;
     reb_eos_lf8_6_4_b := fun _ => 0; reb_eos_pmlf6_a := fun _ => 0;
     reb_eos_pmlf6_b := fun _ => 0; reb_eos_pmlf6_c := fun _ => 0;
     reb_eos_pmlf6_z := fun _ => 0; reb_eos_pmlf6_y := fun _ => 0;
     reb_eos_pmlf6_v := fun _ => 0; reb_eos_pmlf4_y := fun _ => 0;
     reb_eos_pmlf4_z := fun _ => 0; reb_eos_plf7_6_4_a := fun _ => 0;
     reb_eos_plf7_6_4_b := fun _ => 0; reb_eos_plf7_6_4_z := fun _ => 0;
     reb_eos_plf7_6_4_y := fun _ => 0 |}.

Local Close Scope R_scope.

(** The entries [optimalStep[1..k]], which the passes of the convergence loop
    up to column [k] have written, are not negative. *)
Definition steps_written (lv : loop_vars) : Prop :=
  forall i : Z, (1 <= i <= lv_k lv)%Z ->
    (0 <= getd 0 (optimalStep (lv_ri lv)) i)%Q.

Local Open Scope R_scope.

(** The time step of shell [s]: half the one of the shell above it, divided by
    the number [n] of sub-steps. *)
Fixpoint shell_dt (dt : R) (n : nat) (s : nat) : R :=
  match s with
  | O => dt
  | Datatypes.S s' => shell_dt dt n s' * 0.5 / INR n
  end.

(** The critical radius of particle [i] in shell [s]: the cube root, as
    [sqrt3] finds it, of [T^2 G m] for the time scale [T] of the shell. *)
Definition critical_radius (r : reb_simulation) (dt frac : R) (s i : nat) : R :=
  let T := shell_dt dt (rim_n (ri_mercurana r)) s / (frac * 2 * PI) in
  sqrt3 (T * T * G r * p_m (particle_at (particles r) i)).

(** The tables of the integrator have the sizes that [part1] allocates for
    [N] particles. *)
Definition tables_sized (N : nat) (rim : reb_simulation_integrator_mercurana) : Prop :=
  List.length (dcrit rim) = Nmaxshells rim /\
  List.length (rim_map rim) = Nmaxshells rim /\
  List.length (shellN rim) = Nmaxshells rim /\
  List.length (shellN_active rim) = Nmaxshells rim /\
  List.length (inshell rim) = N /\
  List.length (jerk rim) = N /\
  (forall s, (s < Nmaxshells rim)%nat -> List.length (dcrit_row rim s) = N) /\
  (forall s, (s < Nmaxshells rim)%nat -> List.length (map_row rim s) = N).

(** The settings of the integrator, which no step changes. *)
Definition same_settings (rim0 rim : reb_simulation_integrator_mercurana) : Prop :=
  phi0 rim = phi0 rim0 /\ phi1 rim = phi1 rim0 /\ rim_n rim = rim_n rim0 /\
  whsplitting rim = whsplitting rim0 /\ Nmaxshells rim = Nmaxshells rim0.

Local Close Scope R_scope.

(** Memory whose fresh contents are all zero, and the two bodies of
    [two_body] as a simulation at time [0] with the time step [1], all
    particles active, synchronized and with a switching function set. *)
Definition zero_memory : fresh_memory :=
  {| fresh_dcrit := fun _ _ => 0%R; fresh_map := fun _ _ => 0%nat;
     fresh_inshell := fun _ => 0%nat; fresh_jerk := fun _ => particle0;
     fresh_shellN := fun _ => 0%nat; fresh_shellN_active := fun _ => 0%nat |}.

Definition two_body_run : mercurana_sim :=
  {| sim := two_body 0; sim_t := 0%R; sim_dt := 1%R; sim_dt_last_done := 0%R;
     sim_N_active := (-1)%Z; var_config_N := 0%nat;
     gravity := REB_GRAVITY_BASIC; collision := REB_COLLISION_NONE;
     allocatedN := 2%nat; recalculate_dcrit_this_timestep := 0%nat;
     is_synchronized := 1%nat; safe_mode := 1%nat; dt_frac := (1 / 10)%R;
     L_is_null := false; warnings := [] |}.
(** * Properties *)

Local Close Scope R_scope.
Local Open Scope Z_scope.

(** ** Loops and arrays *)

Lemma for_iter_inv (S : Type) (P : Z -> S -> Prop) (body : Z -> S -> S) :
  forall (cnt : nat) (lo : Z) (s : S),
    P lo s ->
    (forall i s', lo <= i < lo + Z.of_nat cnt -> P i s' -> P (i + 1) (body i s')) ->
    P (lo + Z.of_nat cnt) (for_iter cnt lo body s).
Proof.
  induction cnt as [|cnt IH]; intros lo s H0 Hstep; simpl for_iter.
  - replace (lo + Z.of_nat 0) with lo by lia. exact H0.
  - replace (lo + Z.of_nat (Datatypes.S cnt)) with ((lo + 1) + Z.of_nat cnt) by lia.
    apply IH.
    + apply Hstep; [lia | exact H0].
    + intros i s' Hi HP. apply Hstep; [lia | exact HP].
Qed.

Lemma for_range_inv (S : Type) (P : Z -> S -> Prop) (body : Z -> S -> S)
    (lo hi : Z) (s : S) :
  lo <= hi ->
  P lo s ->
  (forall i s', lo <= i < hi -> P i s' -> P (i + 1) (body i s')) ->
  P hi (for_range lo hi body s).
Proof.
  intros Hle H0 Hstep. unfold for_range.
  replace hi with (lo + Z.of_nat (Z.to_nat (hi - lo))) at 1 by lia.
  apply for_iter_inv; [exact H0|].
  intros i s' Hi. apply Hstep. lia.
Qed.

Lemma for_range_empty (S : Type) (body : Z -> S -> S) (lo hi : Z) (s : S) :
  hi <= lo -> for_range lo hi body s = s.
Proof.
  intros H. unfold for_range. replace (Z.to_nat (hi - lo)) with O by lia. reflexivity.
Qed.

(** An invariant that does not depend on the index. *)
Lemma for_range_preserves (S : Type) (P : S -> Prop) (body : Z -> S -> S)
    (lo hi : Z) (s : S) :
  P s -> (forall i s', P s' -> P (body i s')) -> P (for_range lo hi body s).
Proof.
  intros H0 Hstep. unfold for_range.
  generalize (Z.to_nat (hi - lo)) as cnt. intros cnt. revert lo s H0.
  induction cnt as [|cnt IH]; intros lo s H0; simpl; auto.
Qed.

Lemma upd_nat_length (A : Type) (i : nat) (v : A) (l : list A) :
  List.length (upd_nat i v l) = List.length l.
Proof.
  revert i. induction l as [|h t IH]; intros [|i]; simpl; auto.
Qed.

Lemma upd_nat_nth_same (A : Type) (d : A) (i : nat) (v : A) (l : list A) :
  (i < List.length l)%nat -> nth i (upd_nat i v l) d = v.
Proof.
  revert i. induction l as [|h t IH]; intros [|i] H; simpl in *; try lia; auto.
  apply IH. lia.
Qed.

Lemma upd_nat_nth_other (A : Type) (d : A) (i j : nat) (v : A) (l : list A) :
  i <> j -> nth j (upd_nat i v l) d = nth j l d.
Proof.
  revert i j. induction l as [|h t IH]; intros [|i] [|j] H; simpl; auto; try lia.
Qed.

Lemma upd_nat_out (A : Type) (i : nat) (v : A) (l : list A) :
  (List.length l <= i)%nat -> upd_nat i v l = l.
Proof.
  revert i. induction l as [|h t IH]; intros [|i] H; simpl in *; auto; try lia.
  f_equal. apply IH. lia.
Qed.

Lemma upd_length (A : Type) (i : Z) (v : A) (l : list A) :
  List.length (upd i v l) = List.length l.
Proof.
  unfold upd. destruct (i <? 0); auto using upd_nat_length.
Qed.

Lemma getd_upd_same (A : Type) (d : A) (i : Z) (v : A) (l : list A) :
  0 <= i < Z.of_nat (List.length l) -> getd d (upd i v l) i = v.
Proof.
  intros H. unfold getd, upd. destruct (i <? 0) eqn:E; [lia|].
  apply upd_nat_nth_same. lia.
Qed.

Lemma getd_upd_other (A : Type) (d : A) (i j : Z) (v : A) (l : list A) :
  i <> j -> getd d (upd i v l) j = getd d l j.
Proof.
  intros H. unfold getd, upd.
  destruct (j <? 0) eqn:Ej; [reflexivity|].
  destruct (i <? 0) eqn:Ei; [reflexivity|].
  apply upd_nat_nth_other. lia.
Qed.

Lemma get_upd_same (i : Z) (v : Q) (l : list Q) :
  0 <= i < Z.of_nat (List.length l) -> get (upd i v l) i = v.
Proof. apply getd_upd_same. Qed.

Lemma get_upd_other (i j : Z) (v : Q) (l : list Q) :
  i <> j -> get (upd i v l) j = get l j.
Proof. apply getd_upd_other. Qed.

(** ** BS: the extrapolator *)

Lemma upd_out (A : Type) (i : Z) (v : A) (l : list A) :
  ~ (0 <= i < Z.of_nat (List.length l)) -> upd i v l = l.
Proof.
  intros H. unfold upd. destruct (i <? 0) eqn:E; [reflexivity|].
  apply upd_nat_out. lia.
Qed.

Lemma getD_updD_same (st : reb_ode_state) (r i : Z) (v : Q) :
  0 <= r < Z.of_nat (List.length (ode_D st)) ->
  0 <= i < Z.of_nat (List.length (getd [] (ode_D st) r)) ->
  getD (updD st r i v) r i = v.
Proof.
  intros Hr Hi. unfold getD, updD. simpl.
  rewrite getd_upd_same by exact Hr. apply get_upd_same. exact Hi.
Qed.

Lemma getD_updD_other (st : reb_ode_state) (r i r' i' : Z) (v : Q) :
  r' <> r \/ i' <> i -> getD (updD st r i v) r' i' = getD st r' i'.
Proof.
  intros H. unfold getD, updD. simpl.
  destruct (Z.eq_dec r' r) as [->|Hne].
  - destruct H as [H|H]; [congruence|].
    destruct (Z_lt_dec r 0) as [Hneg|Hpos].
    { rewrite upd_out by lia. reflexivity. }
    destruct (Z_lt_dec r (Z.of_nat (List.length (ode_D st)))) as [Hin|Hout].
    + rewrite getd_upd_same by lia. apply get_upd_other. congruence.
    + rewrite upd_out by lia. reflexivity.
  - rewrite getd_upd_other by congruence. reflexivity.
Qed.

Lemma row_length_updD (st : reb_ode_state) (r i r' : Z) (v : Q) :
  List.length (getd [] (ode_D (updD st r i v)) r') = List.length (getd [] (ode_D st) r').
Proof.
  unfold updD. simpl.
  destruct (Z.eq_dec r' r) as [->|Hne].
  - destruct (Z_lt_dec r 0) as [Hneg|Hpos].
    { rewrite upd_out by lia. reflexivity. }
    destruct (Z_lt_dec r (Z.of_nat (List.length (ode_D st)))) as [Hin|Hout].
    + rewrite getd_upd_same by lia. apply upd_length.
    + rewrite upd_out by lia. reflexivity.
  - rewrite getd_upd_other by congruence. reflexivity.
Qed.

Lemma buffers_ok_set_C (st : reb_ode_state) (k i : Z) (v : Q) :
  buffers_ok st k -> buffers_ok (set_C st (upd i v (ode_C st))) k.
Proof.
  intros (HC & Hy & HD & Hrow). unfold buffers_ok. simpl.
  rewrite upd_length. auto.
Qed.

Lemma buffers_ok_set_y1 (st : reb_ode_state) (k i : Z) (v : Q) :
  buffers_ok st k -> buffers_ok (set_y1 st (upd i v (ode_y1 st))) k.
Proof.
  intros (HC & Hy & HD & Hrow). unfold buffers_ok. simpl.
  rewrite upd_length. auto.
Qed.

Lemma buffers_ok_updD (st : reb_ode_state) (k r i : Z) (v : Q) :
  buffers_ok st k -> buffers_ok (updD st r i v) k.
Proof.
  intros (HC & Hy & HD & Hrow). unfold buffers_ok.
  repeat split; try assumption.
  - unfold updD. simpl. rewrite upd_length. exact HD.
  - intros j Hj. rewrite row_length_updD. apply Hrow. exact Hj.
Qed.

Lemma sweep_pass_spec (k : Z) (a b : Q) (r : Z) (st : reb_ode_state) :
  buffers_ok st k -> 0 <= r <= k ->
  let st' := sweep_pass (ode_length st) a b r st in
  buffers_ok st' k /\
  ode_length st' = ode_length st /\
  ode_y1 st' = ode_y1 st /\
  (forall i, 0 <= i < ode_length st ->
     get (ode_C st') i = (a * (get (ode_C st) i - getD st r i))%Q /\
     getD st' r i = (b * (get (ode_C st) i - getD st r i))%Q) /\
  (forall r' i, r' <> r -> getD st' r' i = getD st r' i).
Proof.
  intros Hok Hr st'. subst st'. unfold sweep_pass.
  assert (Hlen : 0 <= ode_length st) by (destruct Hok as (HC & _); lia).
  pose (P := fun (n : Z) (s : reb_ode_state) =>
    buffers_ok s k /\ ode_length s = ode_length st /\ ode_y1 s = ode_y1 st /\
    (forall i, 0 <= i < n ->
       get (ode_C s) i = (a * (get (ode_C st) i - getD st r i))%Q /\
       getD s r i = (b * (get (ode_C st) i - getD st r i))%Q) /\
    (forall i, n <= i -> get (ode_C s) i = get (ode_C st) i /\ getD s r i = getD st r i) /\
    (forall r' i, r' <> r -> getD s r' i = getD st r' i)).
  assert (HP : P (ode_length st) (for_range 0 (ode_length st) (fun i st0 =>
     let CD := (get (ode_C st0) i - getD st0 r i)%Q in
     let st1 := set_C st0 (upd i (a * CD)%Q (ode_C st0)) in
     updD st1 r i (b * CD)%Q) st)).
  { apply for_range_inv; [exact Hlen| |].
    - unfold P. split; [exact Hok|]. split; [reflexivity|]. split; [reflexivity|].
      split; [intros; lia|]. split; intros; auto.
    - intros i s Hi (Hoks & Hl & Hy1 & Hdone & Htodo & Hother).
      destruct (Htodo i ltac:(lia)) as [HCi HDi].
      pose proof Hoks as (HCs & Hys & HDs & Hrows).
      unfold P. cbv zeta.
      split; [apply buffers_ok_updD, buffers_ok_set_C; exact Hoks|].
      split; [exact Hl|]. split; [exact Hy1|].
      split; [|split].
      + intros i' Hi'. destruct (Z.eq_dec i' i) as [->|Hne].
        * split.
          -- unfold updD. simpl. rewrite get_upd_same by lia.
             unfold getD in *. simpl. rewrite HCi, HDi. reflexivity.
          -- rewrite getD_updD_same.
             ++ unfold getD in *. simpl. rewrite HCi, HDi. reflexivity.
             ++ simpl. lia.
             ++ simpl. rewrite (Hrows r Hr). lia.
        * destruct (Hdone i' ltac:(lia)) as [H1 H2]. split.
          -- unfold updD. simpl. rewrite get_upd_other by congruence. exact H1.
          -- rewrite getD_updD_other by (right; exact Hne). exact H2.
      + intros i' Hi'. destruct (Htodo i' ltac:(lia)) as [H1 H2]. split.
        * unfold updD. simpl. rewrite get_upd_other by lia. exact H1.
        * rewrite getD_updD_other by (right; lia). exact H2.
      + intros r' i' Hne. rewrite getD_updD_other by (left; exact Hne).
        apply Hother. exact Hne. }
  destruct HP as (H1 & H2 & H3 & H4 & _ & H6).
  split; [exact H1|]. split; [exact H2|]. split; [exact H3|]. split; [exact H4|exact H6].
Qed.

Lemma for_iter_snoc (S : Type) (body : Z -> S -> S) :
  forall (cnt : nat) (lo : Z) (s : S),
    for_iter (Datatypes.S cnt) lo body s
    = body (lo + Z.of_nat cnt) (for_iter cnt lo body s).
Proof.
  induction cnt as [|cnt IH]; intros lo s.
  - simpl. replace (lo + 0) with lo by lia. reflexivity.
  - change (for_iter (Datatypes.S (Datatypes.S cnt)) lo body s)
      with (for_iter (Datatypes.S cnt) (lo + 1) body (body lo s)).
    rewrite IH. simpl for_iter.
    replace (lo + 1 + Z.of_nat cnt) with (lo + Z.of_nat (Datatypes.S cnt)) by lia.
    reflexivity.
Qed.

Lemma for_range_snoc (S : Type) (body : Z -> S -> S) (lo hi : Z) (s : S) :
  lo <= hi -> for_range lo (hi + 1) body s = body hi (for_range lo hi body s).
Proof.
  intros H. unfold for_range.
  replace (Z.to_nat (hi + 1 - lo)) with (Datatypes.S (Z.to_nat (hi - lo))) by lia.
  rewrite for_iter_snoc. f_equal. lia.
Qed.

Lemma extrapolate_unfold (st : reb_ode_state) (coeff : list Q) (k : Z) :
  extrapolate st coeff k
  = for_range 1 (k + 1) (fun j s => add_row (ode_length st) j s)
      (copy_row0 (ode_length st)
         (for_range 0 k (fun j s =>
            sweep_pass (ode_length st) (facC coeff k (k - j - 1))
              (facD coeff k (k - j - 1)) (k - j - 1) s) st)).
Proof. reflexivity. Qed.

Lemma sweep_spec (st : reb_ode_state) (coeff : list Q) (k : Z) :
  0 <= k -> buffers_ok st k ->
  let st' := for_range 0 k (fun j s =>
               sweep_pass (ode_length st) (facC coeff k (k - j - 1))
                 (facD coeff k (k - j - 1)) (k - j - 1) s) st in
  buffers_ok st' k /\
  ode_length st' = ode_length st /\
  (forall i, 0 <= i < ode_length st ->
     get (ode_C st') i
     = sweep_C coeff k (get (ode_C st) i) (fun r => getD st r i) (Z.to_nat k) /\
     (forall j, 0 <= j < k ->
        getD st' (k - j - 1) i
        = sweep_D coeff k (get (ode_C st) i) (fun r => getD st r i) (Z.to_nat j))) /\
  (forall i, getD st' k i = getD st k i).
Proof.
  intros Hk Hok st'. subst st'.
  pose (P := fun (n : Z) (s : reb_ode_state) =>
    buffers_ok s k /\ ode_length s = ode_length st /\
    (forall i, 0 <= i < ode_length st ->
       get (ode_C s) i
       = sweep_C coeff k (get (ode_C st) i) (fun r => getD st r i) (Z.to_nat n) /\
       (forall j, 0 <= j < n ->
          getD s (k - j - 1) i
          = sweep_D coeff k (get (ode_C st) i) (fun r => getD st r i) (Z.to_nat j))) /\
    (forall r i, r < k - n \/ k <= r -> getD s r i = getD st r i)).
  assert (HP : P k (for_range 0 k (fun j s =>
               sweep_pass (ode_length st) (facC coeff k (k - j - 1))
                 (facD coeff k (k - j - 1)) (k - j - 1) s) st)).
  { apply for_range_inv; [exact Hk| |].
    - unfold P. split; [exact Hok|]. split; [reflexivity|]. split.
      + intros i Hi. split; [reflexivity|]. intros; lia.
      + reflexivity.
    - intros n s Hn (Hoks & Hl & Hdone & Hrest).
      pose proof (@sweep_pass_spec k (facC coeff k (k - n - 1)) (facD coeff k (k - n - 1))
                    (k - n - 1) s Hoks ltac:(lia)) as Hpass.
      cbv zeta in Hpass. rewrite Hl in Hpass.
      destruct Hpass as (Hok' & Hl' & _ & Hrow & Hother).
      unfold P. split; [exact Hok'|]. split; [exact Hl'|]. split.
      + intros i Hi. destruct (Hrow i Hi) as [HC HD].
        destruct (Hdone i Hi) as [HCs HDs].
        assert (Hu : getD s (k - n - 1) i = getD st (k - n - 1) i)
          by (apply Hrest; left; lia).
        split.
        * rewrite HC, HCs, Hu.
          replace (Z.to_nat (n + 1)) with (Datatypes.S (Z.to_nat n)) by lia.
          simpl sweep_C. rewrite Z2Nat.id by lia. reflexivity.
        * intros j Hj. destruct (Z.eq_dec j n) as [->|Hne].
          -- rewrite HD, HCs, Hu. unfold sweep_D. rewrite Z2Nat.id by lia. reflexivity.
          -- rewrite Hother by lia. apply HDs. lia.
      + intros r i Hri. rewrite Hother by lia. apply Hrest. lia. }
  destruct HP as (H1 & H2 & H3 & H4).
  split; [exact H1|]. split; [exact H2|]. split; [exact H3|].
  intros i. apply H4. right. lia.
Qed.

Lemma copy_row0_spec (k : Z) (len : Z) (st : reb_ode_state) :
  buffers_ok st k -> len = ode_length st -> 0 <= k ->
  let st' := copy_row0 len st in
  buffers_ok st' k /\ ode_length st' = ode_length st /\
  ode_D st' = ode_D st /\ ode_C st' = ode_C st /\
  (forall i, 0 <= i < len -> get (ode_y1 st') i = getD st 0 i).
Proof.
  intros Hok -> Hk st'. subst st'. unfold copy_row0.
  assert (Hlen : 0 <= ode_length st) by (destruct Hok as (HC & _); lia).
  pose (P := fun (n : Z) (s : reb_ode_state) =>
    buffers_ok s k /\ ode_length s = ode_length st /\
    ode_D s = ode_D st /\ ode_C s = ode_C st /\
    (forall i, 0 <= i < n -> get (ode_y1 s) i = getD st 0 i)).
  apply (@for_range_inv _ P); [exact Hlen| |].
  - unfold P. repeat (split; [solve [auto]|]). intros; lia.
  - intros i s Hi (Hoks & Hl & HD & HC & Hdone).
    unfold P. split; [apply buffers_ok_set_y1; exact Hoks|].
    simpl. repeat (split; [solve [auto]|]).
    intros i' Hi'. destruct (Z.eq_dec i' i) as [->|Hne].
    + rewrite get_upd_same by (destruct Hoks as (_ & Hy & _); lia).
      unfold getD. rewrite HD. reflexivity.
    + rewrite get_upd_other by congruence. apply Hdone. lia.
Qed.

Lemma add_row_spec (k : Z) (len j : Z) (st : reb_ode_state) :
  buffers_ok st k -> len = ode_length st ->
  let st' := add_row len j st in
  buffers_ok st' k /\ ode_length st' = ode_length st /\
  ode_D st' = ode_D st /\ ode_C st' = ode_C st /\
  (forall i, 0 <= i < len -> get (ode_y1 st') i = (get (ode_y1 st) i + getD st j i)%Q).
Proof.
  intros Hok -> st'. subst st'. unfold add_row.
  assert (Hlen : 0 <= ode_length st) by (destruct Hok as (HC & _); lia).
  pose (P := fun (n : Z) (s : reb_ode_state) =>
    buffers_ok s k /\ ode_length s = ode_length st /\
    ode_D s = ode_D st /\ ode_C s = ode_C st /\
    (forall i, 0 <= i < n -> get (ode_y1 s) i = (get (ode_y1 st) i + getD st j i)%Q) /\
    (forall i, n <= i -> get (ode_y1 s) i = get (ode_y1 st) i)).
  assert (HP : P (ode_length st) (for_range 0 (ode_length st) (fun i s =>
      set_y1 s (upd i (get (ode_y1 s) i + getD s j i)%Q (ode_y1 s))) st)).
  { apply for_range_inv; [exact Hlen| |].
    - unfold P. repeat (split; [solve [auto]|]). split; [intros; lia|auto].
    - intros i s Hi (Hoks & Hl & HD & HC & Hdone & Htodo).
      unfold P. split; [apply buffers_ok_set_y1; exact Hoks|].
      simpl. repeat (split; [solve [auto]|]). split.
      + intros i' Hi'. destruct (Z.eq_dec i' i) as [->|Hne].
        * rewrite get_upd_same by (destruct Hoks as (_ & Hy & _); lia).
          rewrite Htodo by lia. unfold getD. rewrite HD. reflexivity.
        * rewrite get_upd_other by congruence. apply Hdone. lia.
      + intros i' Hi'. rewrite get_upd_other by lia. apply Htodo. lia. }
  destruct HP as (H1 & H2 & H3 & H4 & H5 & _). auto.
Qed.

(** C7. [extrapolate(state, coeff, k)] carries out, for [j = 0 .. k-1], the
    update [CD = C[i] - D[k-j-1][i]; C[i] = facC * CD; D[k-j-1][i] = facD * CD]
    with [xi = coeff[k-j-1]] and [xim1 = coeff[k]] on every component
    [i < length] (so row [k-j-1] ends as [sweep_D] and [C] as [sweep_C], row
    [k] being left alone), and on exit [y1[i]] is the sum of the post-sweep
    [D[0][i] .. D[k][i]]. *)
Theorem extrapolate_sweep_and_sum :
  forall (st : reb_ode_state) (coeff : list Q) (k : Z),
    0 <= k -> buffers_ok st k ->
    forall i, 0 <= i < ode_length st ->
      let st' := extrapolate st coeff k in
      let c0 := get (ode_C st) i in
      let d := fun r => getD st r i in
      (forall j, 0 <= j < k ->
         getD st' (k - j - 1) i = sweep_D coeff k c0 d (Z.to_nat j)) /\
      get (ode_C st') i = sweep_C coeff k c0 d (Z.to_nat k) /\
      getD st' k i = getD st k i /\
      get (ode_y1 st') i = tableau_sum (fun j => getD st' j i) k.
Proof.
  intros st coeff k Hk Hok i Hi st' c0 d. subst st' c0 d.
  rewrite extrapolate_unfold.
  pose proof (@sweep_spec st coeff k Hk Hok) as Hsweep. cbv zeta in Hsweep.
  set (s1 := for_range 0 k _ st) in *.
  destruct Hsweep as (Hok1 & Hl1 & Hrows & Hk1).
  pose proof (@copy_row0_spec k (ode_length st) s1 Hok1 (eq_sym Hl1) Hk) as Hcopy.
  cbv zeta in Hcopy.
  set (s2 := copy_row0 (ode_length st) s1) in *.
  destruct Hcopy as (Hok2 & Hl2 & HD2 & HC2 & Hy2).
  pose (P := fun (n : Z) (s : reb_ode_state) =>
    buffers_ok s k /\ ode_length s = ode_length st /\
    ode_D s = ode_D s1 /\ ode_C s = ode_C s1 /\
    (forall i, 0 <= i < ode_length st ->
       get (ode_y1 s) i
       = for_range 1 n (fun j acc => (acc + getD s1 j i)%Q) (getD s1 0 i))).
  assert (HP : P (k + 1)
                 (for_range 1 (k + 1) (fun j s => add_row (ode_length st) j s) s2)).
  { apply for_range_inv; [lia| |].
    - unfold P. split; [exact Hok2|]. split; [congruence|].
      split; [exact HD2|]. split; [exact HC2|].
      intros i' Hi'. rewrite for_range_empty by lia. apply Hy2. exact Hi'.
    - intros n s Hn (Hoks & Hl & HD & HC & Hy).
      pose proof (@add_row_spec k (ode_length st) n s Hoks (eq_sym Hl)) as Hadd.
      cbv zeta in Hadd. destruct Hadd as (Hok' & Hl' & HD' & HC' & Hy').
      unfold P. split; [exact Hok'|]. split; [congruence|].
      split; [congruence|]. split; [congruence|].
      intros i' Hi'. rewrite Hy' by exact Hi'. rewrite Hy by exact Hi'.
      rewrite for_range_snoc by lia. unfold getD. rewrite HD. reflexivity. }
  set (s3 := for_range 1 (k + 1) _ s2) in *.
  destruct HP as (Hok3 & Hl3 & HD3 & HC3 & Hy3).
  assert (HgetD : forall r c, getD s3 r c = getD s1 r c)
    by (intros; unfold getD; rewrite HD3; reflexivity).
  destruct (Hrows i Hi) as [HCi HDi].
  split; [|split; [|split]].
  - intros j Hj. rewrite HgetD. apply HDi. exact Hj.
  - rewrite HC3. exact HCi.
  - rewrite HgetD. apply Hk1.
  - rewrite Hy3 by exact Hi. unfold tableau_sum, getD. rewrite HD3. reflexivity.
Qed.

Lemma ode_tableau_buffers_ok : buffers_ok ode_tableau 1.
Proof.
  unfold buffers_ok. repeat split; try reflexivity.
  intros j Hj. assert (Hc : j = 0 \/ j = 1) by lia.
  destruct Hc as [-> | ->]; reflexivity.
Qed.

Lemma extrapolate_sweep_and_sum_witness :
  let st' := extrapolate ode_tableau (coeff integrator_tol_1_1) 1 in
  (forall j, 0 <= j < 1 ->
     getD st' (1 - j - 1) 0
     = sweep_D (coeff integrator_tol_1_1) 1 (get (ode_C ode_tableau) 0)
         (fun r => getD ode_tableau r 0) (Z.to_nat j)) /\
  get (ode_C st') 0
  = sweep_C (coeff integrator_tol_1_1) 1 (get (ode_C ode_tableau) 0)
      (fun r => getD ode_tableau r 0) (Z.to_nat 1) /\
  getD st' 1 0 = getD ode_tableau 1 0 /\
  get (ode_y1 st') 0 = tableau_sum (fun j => getD st' j 0) 1.
Proof.
  apply (@extrapolate_sweep_and_sum ode_tableau (coeff integrator_tol_1_1) 1).
  - lia.
  - exact ode_tableau_buffers_ok.
  - simpl. lia.
Defined.

(** ** BS: the default scaling *)

Lemma default_scale_spec (st : reb_ode_state) (y1 y2 : list Q) (absTol relTol : Q) :
  Z.of_nat (List.length (ode_scale st)) = ode_length st ->
  forall i, 0 <= i < ode_length st ->
    get (ode_scale (reb_integrator_bs_default_scale st y1 y2 absTol relTol)) i
    = (absTol + relTol * MAX (fabs (get y1 i)) (fabs (get y2 i)))%Q.
Proof.
  intros Hlen. unfold reb_integrator_bs_default_scale.
  pose (P := fun (n : Z) (s : reb_ode_state) =>
    List.length (ode_scale s) = List.length (ode_scale st) /\
    forall i, 0 <= i < n ->
      get (ode_scale s) i
      = (absTol + relTol * MAX (fabs (get y1 i)) (fabs (get y2 i)))%Q).
  assert (HP : P (ode_length st) (for_range 0 (ode_length st) (fun i s =>
     set_scale s (upd i (absTol + relTol * MAX (fabs (get y1 i)) (fabs (get y2 i)))%Q
                      (ode_scale s))) st)).
  { apply for_range_inv; [lia| |].
    - split; [reflexivity|]. intros; lia.
    - intros i s Hi [Hl Hdone]. split.
      + simpl. rewrite upd_length. exact Hl.
      + intros i' Hi'. simpl. destruct (Z.eq_dec i' i) as [->|Hne].
        * apply get_upd_same. lia.
        * rewrite get_upd_other by congruence. apply Hdone. lia. }
  intros i Hi. apply HP. exact Hi.
Qed.

(** What both call sites in [reb_integrator_bs_step] compute for a state
    without [getscale]: the two tolerances are passed in the opposite order
    of the parameters, and [y] is passed twice also after the extrapolation. *)
Lemma initial_scale_as_coded (ri : reb_simulation_integrator_bs) (st : reb_ode_state) :
  ode_getscale st = None ->
  Z.of_nat (List.length (ode_scale st)) = ode_length st ->
  forall i, 0 <= i < ode_length st ->
    get (ode_scale (initial_scale ri st)) i
    = (scalRelativeTolerance ri
       + scalAbsoluteTolerance ri * MAX (fabs (get (ode_y st) i)) (fabs (get (ode_y st) i)))%Q.
Proof.
  intros Hg Hlen i Hi. unfold initial_scale. rewrite Hg.
  apply default_scale_spec; assumption.
Qed.

(** C1, on two inputs.  With [absTol = 1], [relTol = 3] and [y = (2)] the
    initial evaluation stores [3 + 1 * 2 = 5] where the specification has
    [1 + 3 * 2 = 7]; with both tolerances [1], [y = (1)] and an
    extrapolated [y1 = (17/4)] the re-evaluation stores [1 + 1 * 1 = 2] where
    the specification, taking [y1] as second vector, has [1 + 17/4 = 21/4]. *)
Theorem default_scale_call_sites_diverge :
  (get (ode_scale (initial_scale integrator_tol_1_3 ode_two)) 0 == 5
   /\ specified_scale (scalAbsoluteTolerance integrator_tol_1_3)
        (scalRelativeTolerance integrator_tol_1_3) (ode_y ode_two) (ode_y ode_two) 0
      == 7)%Q
  /\
  (let st' := extrapolate_and_rescale integrator_tol_1_1 1 ode_tableau in
   get (ode_y1 st') 0 == 17 # 4
   /\ get (ode_scale st') 0 == 2
   /\ specified_scale (scalAbsoluteTolerance integrator_tol_1_1)
        (scalRelativeTolerance integrator_tol_1_1) (ode_y st') (ode_y1 st') 0
      == 21 # 4)%Q.
Proof.
  split; [split | cbv zeta; split; [|split]]; vm_compute; reflexivity.
Qed.

(** ** BS: the stability check of the midpoint rule *)

(** The loops of the two norms add up the terms of the specified sums. *)
Lemma for_iter_sum (g : Z -> Q) :
  forall (cnt : nat) (lo : Z) (acc : Q),
    (for_iter cnt lo (fun l acc => acc + g l) acc
     == acc + sum_Q (map g (index_range lo cnt)))%Q.
Proof.
  induction cnt as [|cnt IH]; intros lo acc; simpl.
  - ring.
  - rewrite IH. ring.
Qed.

Lemma norm_sum (g : reb_ode_state -> Z -> Q) :
  forall (sts : list reb_ode_state) (acc : Q),
    (fold_left (fun acc st =>
       for_range 0 (ode_length st) (fun l acc => acc + g st l) acc) sts acc
     == acc + sum_Q (map (fun st =>
                       sum_Q (map (g st) (index_range 0 (Z.to_nat (ode_length st)))))
                     sts))%Q.
Proof.
  induction sts as [|st sts IH]; intros acc; simpl.
  - ring.
  - rewrite IH. unfold for_range. rewrite Z.sub_0_r, for_iter_sum. ring.
Qed.

Lemma initialNorm_specified (states : list reb_ode_state) :
  (initialNorm states == specified_I states)%Q.
Proof.
  unfold initialNorm, specified_I.
  rewrite (norm_sum (fun st l =>
             get (ode_y0Dot st) l / get (ode_scale st) l
             * (get (ode_y0Dot st) l / get (ode_scale st) l))%Q states 0).
  rewrite Qplus_0_l. reflexivity.
Qed.

Lemma deltaNorm_specified (states : list reb_ode_state) :
  (deltaNorm states == specified_Delta states)%Q.
Proof.
  unfold deltaNorm, specified_Delta.
  rewrite (norm_sum (fun st l =>
             (get (ode_yDot st) l - get (ode_y0Dot st) l) / get (ode_scale st) l
             * ((get (ode_yDot st) l - get (ode_y0Dot st) l) / get (ode_scale st) l))%Q
             states 0).
  rewrite Qplus_0_l. reflexivity.
Qed.

Lemma MAX_Qmax (a b : Q) : (MAX a b == Qmax a b)%Q.
Proof.
  unfold MAX. destruct (Qlt_le_dec b a) as [H|H].
  - symmetry. apply Q.max_l. apply Qlt_le_weak. exact H.
  - symmetry. apply Q.max_r. exact H.
Qed.

(** The search for a zero [scale] entry finds one exactly when there is one. *)
Lemma scale_has_zero_false (sts : list reb_ode_state) :
  scale_has_zero sts = false <-> scales_nonzero sts.
Proof.
  unfold scale_has_zero, scales_nonzero.
  assert (Hst : forall st,
    for_range 0 (ode_length st) (fun l found =>
      found || Qeq_bool (get (ode_scale st) l) 0) false = false
    <-> forall i, 0 <= i < ode_length st -> ~ (get (ode_scale st) i == 0)%Q).
  { intros st. destruct (Z_le_gt_dec 0 (ode_length st)) as [Hn|Hn].
    - apply (@for_range_inv _ (fun i b =>
               b = false <-> forall l, 0 <= l < i -> ~ (get (ode_scale st) l == 0)%Q));
        [exact Hn| |].
      + split; [intros _ l Hl; lia|reflexivity].
      + intros i b Hi [I1 I2]. split.
        * intros Hb. apply orb_false_elim in Hb. destruct Hb as [Hb Hq].
          intros l Hl. destruct (Z.eq_dec l i) as [->|Hne].
          -- intros E. apply Qeq_bool_iff in E. congruence.
          -- apply (I1 Hb). lia.
        * intros Hall. apply orb_false_intro.
          -- apply I2. intros l Hl. apply Hall. lia.
          -- destruct (Qeq_bool (get (ode_scale st) i) 0) eqn:E; [|reflexivity].
             exfalso. apply (Hall i ltac:(lia)). apply Qeq_bool_iff. exact E.
    - rewrite for_range_empty by lia. split; [intros _ i Hi; lia|reflexivity]. }
  induction sts as [|st sts IH]; simpl.
  - split; [intros _ st []|reflexivity].
  - split.
    + intros H. apply orb_false_elim in H. destruct H as [H1 H2].
      intros st' [<-|Hin]; [apply Hst; exact H1|apply IH; assumption].
    + intros H. apply orb_false_intro.
      * apply Hst. apply H. left. reflexivity.
      * apply IH. intros st' Hin. apply H. right. exact Hin.
Qed.

Lemma stability_check_fails_iff (sts : list reb_ode_state) :
  stability_check_fails sts = true
  <-> scales_nonzero sts /\
      (4 * Qmax (1 # 1000000000000000) (specified_I sts) < specified_Delta sts)%Q.
Proof.
  unfold stability_check_fails. rewrite <- scale_has_zero_false.
  rewrite <- initialNorm_specified, <- deltaNorm_specified, <- MAX_Qmax.
  destruct (scale_has_zero sts).
  - split; [discriminate|]. intros [H _]. discriminate H.
  - destruct (Qlt_le_dec _ _) as [Hlt|Hle]; split; intros H; auto; try discriminate.
    exfalso. destruct H as [_ H]. apply (Qlt_not_le _ _ H). exact Hle.
Qed.

(** The sub-steps of the midpoint rule write neither [scale] nor [length]. *)
Lemma scale_kept_for_range (body : Z -> reb_ode_state -> reb_ode_state)
    (lo hi : Z) (st : reb_ode_state) :
  (forall i s, (ode_scale (body i s), ode_length (body i s)) = (ode_scale s, ode_length s)) ->
  (ode_scale (for_range lo hi body st), ode_length (for_range lo hi body st))
  = (ode_scale st, ode_length st).
Proof.
  intros Hbody.
  apply for_range_preserves
    with (P := fun s => (ode_scale s, ode_length s) = (ode_scale st, ode_length st)).
  - reflexivity.
  - intros i s Hs. rewrite Hbody. exact Hs.
Qed.

Lemma scales_nonzero_map (g : reb_ode_state -> reb_ode_state)
    (sts : list reb_ode_state) :
  (forall st, (ode_scale (g st), ode_length (g st)) = (ode_scale st, ode_length st)) ->
  (scales_nonzero (map g sts) <-> scales_nonzero sts).
Proof.
  intros Hg. unfold scales_nonzero. split.
  - intros H st Hin i Hi. specialize (Hg st). injection Hg as E1 E2.
    rewrite <- E1. apply (H (g st)); [apply in_map; exact Hin|]. rewrite E2. exact Hi.
  - intros H st' Hin i Hi. apply in_map_iff in Hin. destruct Hin as (st & <- & Hin).
    specialize (Hg st). injection Hg as E1 E2.
    rewrite E1. apply (H st Hin). rewrite <- E2. exact Hi.
Qed.

Lemma scales_nonzero_midpoint_iterate (subStep : Q) :
  forall (cnt : nat) (t : Q) (sts : list reb_ode_state),
    scales_nonzero (midpoint_iterate cnt subStep t sts) <-> scales_nonzero sts.
Proof.
  induction cnt as [|cnt IH]; intros t sts; simpl; [reflexivity|].
  rewrite IH. unfold midpoint_advance.
  rewrite scales_nonzero_map by (intros st; reflexivity).
  apply scales_nonzero_map. intros st. unfold midpoint_swap.
  apply scale_kept_for_range. intros i s. reflexivity.
Qed.

Lemma scales_nonzero_midpoint_at (states : list reb_ode_state) (n : Z) (t0 step : Q)
      (j : Z) :
  scales_nonzero (midpoint_at states n t0 step j) <-> scales_nonzero states.
Proof.
  unfold midpoint_at. rewrite scales_nonzero_midpoint_iterate.
  rewrite scales_nonzero_map
    by (intros st; unfold midpoint_copy; apply scale_kept_for_range; reflexivity).
  rewrite scales_nonzero_map by (intros st; reflexivity).
  apply scales_nonzero_map. intros st. unfold midpoint_first.
  apply scale_kept_for_range. reflexivity.
Qed.

Lemma midpoint_substeps_rejects (k : Z) (subStep : Q) :
  forall (cnt : nat) (j : Z) (t : Q) (sts : list reb_ode_state),
    fst (midpoint_substeps cnt j k subStep t sts) = false
    <-> exists m : nat,
          (m < cnt)%nat /\ j + Z.of_nat m <= maxChecks /\ k < maxIter /\
          stability_check_fails (midpoint_iterate (Datatypes.S m) subStep t sts) = true.
Proof.
  induction cnt as [|cnt IH]; intros j t sts.
  - simpl. split; [discriminate|]. intros (m & Hm & _). lia.
  - simpl midpoint_substeps.
    destruct ((j <=? maxChecks) && (k <? maxIter)
              && stability_check_fails
                   (midpoint_advance subStep (t + subStep)%Q sts)) eqn:Hc.
    + simpl. split; [intros _|reflexivity].
      apply andb_prop in Hc. destruct Hc as [Hc Hfail].
      apply andb_prop in Hc. destruct Hc as [Hj Hk].
      exists O. simpl. repeat split; try lia; try exact Hfail.
    + rewrite IH. split.
      * intros (m & Hm & Hj & Hk & Hfail).
        exists (Datatypes.S m). repeat split; try lia; try exact Hfail.
      * intros (m & Hm & Hj & Hk & Hfail). destruct m as [|m].
        -- exfalso. simpl in Hfail. rewrite Hfail in Hc.
           assert (Hj' : (j <=? maxChecks) = true) by (apply Z.leb_le; lia).
           assert (Hk' : (k <? maxIter) = true) by (apply Z.ltb_lt; lia).
           rewrite Hj', Hk' in Hc. discriminate.
        -- exists m. repeat split; try lia; try exact Hfail.
Qed.

(** C6. For [method = 1], [tryStep] returns [0] or [1].  It returns [0]
    exactly when no [scale] entry is zero and at some checked inner substep
    [j] (with [1 <= j < n], [j <= maxChecks] and [k < maxIter]) the sums
    [I] of [(y0Dot/scale)^2] and [Delta] of [((yDot - y0Dot)/scale)^2], taken
    over all states and components on the states of that substep, satisfy
    [Delta > 4 * max(1e-15, I)]; in every other case it returns [1].  The sums
    are those of exact rational arithmetic; with a zero [scale] entry they are
    no numbers, the comparison of the code is false and [tryStep] returns
    [1]. *)
Theorem tryStep_midpoint_returns_0_iff :
  forall (states : list reb_ode_state) (k n : Z) (t0 step : Q),
    let rejected :=
      scales_nonzero states /\
      exists j, 1 <= j < n /\ j <= maxChecks /\ k < maxIter /\
        (4 * Qmax (1 # 1000000000000000) (specified_I (midpoint_at states n t0 step j))
         < specified_Delta (midpoint_at states n t0 step j))%Q in
    (exists ret states',
        tryStep states k n t0 step 1 = Ok (ret, states') /\ (ret = 0 \/ ret = 1)) /\
    ((exists states', tryStep states k n t0 step 1 = Ok (0, states')) <-> rejected) /\
    ((exists states', tryStep states k n t0 step 1 = Ok (1, states')) <-> ~ rejected).
Proof.
  intros states k n t0 step rejected.
  unfold tryStep.
  set (subStep := (step / inject_Z n)%Q).
  set (t := (t0 + subStep)%Q).
  set (sts := map midpoint_copy
                (map (eval_yDot t) (map (midpoint_first subStep) states))).
  pose proof (midpoint_substeps_rejects k subStep (Z.to_nat (n - 1)) 1 t sts) as Hrej.
  destruct (midpoint_substeps (Z.to_nat (n - 1)) 1 k subStep t sts) as [b sts'] eqn:Hrun.
  simpl fst in *. simpl snd in *.
  assert (Hat : forall m : nat,
             midpoint_at states n t0 step (1 + Z.of_nat m)
             = midpoint_iterate (Datatypes.S m) subStep t sts).
  { intros m. unfold midpoint_at. fold subStep. fold t. fold sts.
    replace (Z.to_nat (1 + Z.of_nat m)) with (Datatypes.S m) by lia. reflexivity. }
  assert (Hb : b = false <-> rejected).
  { rewrite Hrej. unfold rejected. split.
    - intros (m & Hm & Hj & Hk & Hfail).
      rewrite <- Hat in Hfail. apply stability_check_fails_iff in Hfail.
      destruct Hfail as [Hnz Hlt].
      split; [apply (scales_nonzero_midpoint_at states n t0 step (1 + Z.of_nat m)); exact Hnz|].
      exists (1 + Z.of_nat m). repeat split; try lia. exact Hlt.
    - intros (Hnz & j & Hj & Hjc & Hk & Hlt).
      exists (Z.to_nat (j - 1)). repeat split; try lia.
      rewrite <- Hat. replace (1 + Z.of_nat (Z.to_nat (j - 1))) with j by lia.
      apply stability_check_fails_iff. split; [|exact Hlt].
      apply scales_nonzero_midpoint_at. exact Hnz. }
  split; [|split].
  - destruct b; eexists; eexists; split; try reflexivity; auto.
  - rewrite <- Hb. destruct b; split.
    + intros [states' Heq]. discriminate Heq.
    + intros Heq. discriminate Heq.
    + intros _. reflexivity.
    + intros _. eexists. reflexivity.
  - rewrite <- Hb. destruct b; split.
    + intros _. discriminate.
    + intros _. eexists. reflexivity.
    + intros [states' Heq]. discriminate Heq.
    + intros H. exfalso. apply H. reflexivity.
Qed.

(** ** BS: what the convergence loop leaves alone *)

Lemma ode_fixed_refl (st : reb_ode_state) : ode_fixed st st.
Proof. unfold ode_fixed. auto. Qed.

Lemma ode_fixed_trans (a b c : reb_ode_state) :
  ode_fixed a b -> ode_fixed b c -> ode_fixed a c.
Proof.
  unfold ode_fixed. intros (H1 & H2 & H3 & H4 & H5) (G1 & G2 & G3 & G4 & G5).
  repeat split; congruence.
Qed.

Lemma states_fixed_refl (sts : list reb_ode_state) : states_fixed sts sts.
Proof. induction sts; constructor; auto using ode_fixed_refl. Qed.

Lemma states_fixed_trans (a b c : list reb_ode_state) :
  states_fixed a b -> states_fixed b c -> states_fixed a c.
Proof.
  unfold states_fixed. intros Hab. revert c.
  induction Hab as [|x y l l' Hxy Hl IH]; intros c Hbc; inversion Hbc; subst.
  - constructor.
  - constructor; [eapply ode_fixed_trans; eauto | auto].
Qed.

Lemma states_fixed_map (f : reb_ode_state -> reb_ode_state) (sts : list reb_ode_state) :
  (forall st, ode_fixed st (f st)) -> states_fixed sts (map f sts).
Proof.
  intros Hf. induction sts; simpl; constructor; auto.
Qed.

Lemma states_fixed_map_after (f : reb_ode_state -> reb_ode_state)
    (sts0 sts : list reb_ode_state) :
  (forall st, ode_fixed st (f st)) -> states_fixed sts0 sts ->
  states_fixed sts0 (map f sts).
Proof.
  intros Hf H. eapply states_fixed_trans; [exact H|]. apply states_fixed_map. exact Hf.
Qed.

(** A loop over the components whose body keeps the state fixed keeps it
    fixed. *)
Lemma ode_fixed_for_range (body : Z -> reb_ode_state -> reb_ode_state)
    (lo hi : Z) (st : reb_ode_state) :
  (forall i s, ode_fixed s (body i s)) -> ode_fixed st (for_range lo hi body st).
Proof.
  intros Hbody. apply for_range_preserves with (P := ode_fixed st).
  - apply ode_fixed_refl.
  - intros i s Hs. eapply ode_fixed_trans; [exact Hs | apply Hbody].
Qed.

Lemma ode_fixed_updD (st : reb_ode_state) (j i : Z) (v : Q) :
  ode_fixed st (updD st j i v).
Proof.
  unfold ode_fixed, updD. simpl. rewrite upd_length. auto.
Qed.

Ltac ode_fixed_body :=
  intros; cbv zeta;
  repeat match goal with
  | |- ode_fixed _ (if ?c then _ else _) => destruct c
  end;
  try apply ode_fixed_refl;
  try (eapply ode_fixed_trans; [|apply ode_fixed_updD]);
  unfold ode_fixed; simpl; auto.

Lemma ode_fixed_eval_yDot t st : ode_fixed st (eval_yDot t st).
Proof. unfold eval_yDot, ode_fixed. simpl. auto. Qed.

Lemma ode_fixed_leapfrog_first_drift h st : ode_fixed st (leapfrog_first_drift h st).
Proof. apply ode_fixed_for_range. ode_fixed_body. Qed.

Lemma ode_fixed_leapfrog_first_kick h st : ode_fixed st (leapfrog_first_kick h st).
Proof. apply ode_fixed_for_range. ode_fixed_body. Qed.

Lemma ode_fixed_leapfrog_drift h st : ode_fixed st (leapfrog_drift h st).
Proof. apply ode_fixed_for_range. ode_fixed_body. Qed.

Lemma ode_fixed_leapfrog_kick h st : ode_fixed st (leapfrog_kick h st).
Proof. apply ode_fixed_for_range. ode_fixed_body. Qed.

Lemma ode_fixed_midpoint_first h st : ode_fixed st (midpoint_first h st).
Proof. apply ode_fixed_for_range. ode_fixed_body. Qed.

Lemma ode_fixed_midpoint_copy st : ode_fixed st (midpoint_copy st).
Proof. apply ode_fixed_for_range. ode_fixed_body. Qed.

Lemma ode_fixed_midpoint_swap h st : ode_fixed st (midpoint_swap h st).
Proof. apply ode_fixed_for_range. ode_fixed_body. Qed.

Lemma ode_fixed_midpoint_correction h st : ode_fixed st (midpoint_correction h st).
Proof. apply ode_fixed_for_range. ode_fixed_body. Qed.

Lemma ode_fixed_seed_tableau k st : ode_fixed st (seed_tableau k st).
Proof. apply ode_fixed_for_range. ode_fixed_body. Qed.

Lemma ode_fixed_default_scale st y1 y2 a b :
  ode_fixed st (reb_integrator_bs_default_scale st y1 y2 a b).
Proof. apply ode_fixed_for_range. ode_fixed_body. Qed.

Lemma ode_fixed_for_range_after (body : Z -> reb_ode_state -> reb_ode_state)
    (lo hi : Z) (st0 st : reb_ode_state) :
  (forall i s, ode_fixed s (body i s)) -> ode_fixed st0 st ->
  ode_fixed st0 (for_range lo hi body st).
Proof.
  intros Hbody H0. eapply ode_fixed_trans; [exact H0|].
  apply ode_fixed_for_range. exact Hbody.
Qed.

Lemma ode_fixed_extrapolate st coeff k : ode_fixed st (extrapolate st coeff k).
Proof.
  rewrite extrapolate_unfold.
  apply ode_fixed_for_range_after.
  { intros j s. unfold add_row. apply ode_fixed_for_range. ode_fixed_body. }
  unfold copy_row0. apply ode_fixed_for_range_after.
  { ode_fixed_body. }
  apply ode_fixed_for_range_after; [|apply ode_fixed_refl].
  intros j s. unfold sweep_pass. apply ode_fixed_for_range. ode_fixed_body.
Qed.

Lemma ode_fixed_initial_scale ri st : ode_fixed st (initial_scale ri st).
Proof.
  unfold initial_scale. destruct (ode_getscale st).
  - unfold ode_fixed. simpl. auto.
  - apply ode_fixed_default_scale.
Qed.

Lemma ode_fixed_extrapolate_and_rescale ri k st :
  ode_fixed st (extrapolate_and_rescale ri k st).
Proof.
  unfold extrapolate_and_rescale.
  eapply ode_fixed_trans; [apply ode_fixed_extrapolate|].
  destruct (ode_getscale _).
  - unfold ode_fixed. simpl. auto.
  - apply ode_fixed_default_scale.
Qed.

Lemma states_fixed_midpoint_substeps (k : Z) (h : Q) :
  forall (cnt : nat) (j : Z) (t : Q) (sts0 sts : list reb_ode_state),
    states_fixed sts0 sts ->
    states_fixed sts0 (snd (midpoint_substeps cnt j k h t sts)).
Proof.
  induction cnt as [|cnt IH]; intros j t sts0 sts H; simpl; [exact H|].
  assert (Hadv : states_fixed sts0 (midpoint_advance h (t + h)%Q sts)).
  { unfold midpoint_advance.
    apply states_fixed_map_after; [apply ode_fixed_eval_yDot|].
    apply states_fixed_map_after; [apply ode_fixed_midpoint_swap|]. exact H. }
  destruct (_ && _); simpl; auto.
Qed.

Lemma tryStep_fixed (sts : list reb_ode_state) (k n : Z) (t0 step : Q) (m : Z)
    (ret : Z) (sts' : list reb_ode_state) :
  tryStep sts k n t0 step m = Ok (ret, sts') -> states_fixed sts sts'.
Proof.
  unfold tryStep. intros H.
  destruct m as [|[p|p|]|p]; try discriminate.
  - inversion H; subst; clear H.
    apply states_fixed_map_after; [apply ode_fixed_leapfrog_drift|].
    apply for_range_preserves with (P := fun ts => states_fixed sts (snd ts)).
    + simpl.
      apply states_fixed_map_after; [apply ode_fixed_leapfrog_first_kick|].
      apply states_fixed_map_after; [apply ode_fixed_eval_yDot|].
      apply states_fixed_map. apply ode_fixed_leapfrog_first_drift.
    + intros i ts Hts. unfold leapfrog_substep. simpl.
      apply states_fixed_map_after; [apply ode_fixed_leapfrog_kick|].
      apply states_fixed_map_after; [apply ode_fixed_eval_yDot|].
      apply states_fixed_map_after; [apply ode_fixed_leapfrog_drift|]. exact Hts.
  - match type of H with
    | context [midpoint_substeps ?c ?j ?k ?h ?t ?s] =>
        pose proof (@states_fixed_midpoint_substeps k h c j t sts s) as Hsub;
        destruct (midpoint_substeps c j k h t s) as [b s'] eqn:Hrun
    end.
    simpl in H, Hsub.
    assert (Hs' : states_fixed sts s').
    { apply Hsub.
      apply states_fixed_map_after; [apply ode_fixed_midpoint_copy|].
      apply states_fixed_map_after; [apply ode_fixed_eval_yDot|].
      apply states_fixed_map. apply ode_fixed_midpoint_first. }
    destruct b; inversion H; subst; clear H; [|exact Hs'].
    apply states_fixed_map_after; [apply ode_fixed_midpoint_correction|]. exact Hs'.
Qed.

(** ** Reasoning about fallible code *)

Lemma post_elim (A : Type) (Q : A -> Prop) (r : result A) (a : A) :
  post Q r -> r = Ok a -> Q a.
Proof. intros H ->. exact H. Qed.

Lemma post_bind (A B : Type) (Q : B -> Prop) (r : result A) (f : A -> result B) :
  post (fun a => post Q (f a)) r -> post Q (bind r f).
Proof. destruct r; simpl; auto. Qed.

Lemma post_mono (A : Type) (P Q : A -> Prop) (r : result A) :
  post P r -> (forall a, P a -> Q a) -> post Q r.
Proof. destruct r; simpl; auto. Qed.

Lemma post_rd (A : Type) (Q : A -> Prop) (d : A) (l : list A) (i : Z) :
  (0 <= i < Z.of_nat (List.length l) -> Q (getd d l i)) -> post Q (rd d l i).
Proof.
  intros H. unfold rd, in_bounds.
  destruct (0 <=? i) eqn:E1; simpl; [|exact I].
  destruct (i <? Z.of_nat (List.length l)) eqn:E2; simpl; [|exact I].
  apply H. lia.
Qed.

Lemma post_wr (A : Type) (Q : list A -> Prop) (l : list A) (i : Z) (v : A) :
  (0 <= i < Z.of_nat (List.length l) -> Q (upd i v l)) -> post Q (wr l i v).
Proof.
  intros H. unfold wr, in_bounds.
  destruct (0 <=? i) eqn:E1; simpl; [|exact I].
  destruct (i <? Z.of_nat (List.length l)) eqn:E2; simpl; [|exact I].
  apply H. lia.
Qed.

Lemma safe_post (A : Type) (Q : A -> Prop) (r : result A) : safe Q r -> post Q r.
Proof. destruct r; simpl; auto. Qed.

Lemma safe_bind (A B : Type) (Q : B -> Prop) (r : result A) (f : A -> result B) :
  safe (fun a => safe Q (f a)) r -> safe Q (bind r f).
Proof. destruct r; simpl; auto. Qed.

Lemma safe_mono (A : Type) (P Q : A -> Prop) (r : result A) :
  safe P r -> (forall a, P a -> Q a) -> safe Q r.
Proof. destruct r; simpl; auto. Qed.

Lemma safe_rd (A : Type) (Q : A -> Prop) (d : A) (l : list A) (i : Z) :
  0 <= i < Z.of_nat (List.length l) -> Q (getd d l i) -> safe Q (rd d l i).
Proof.
  intros Hi H. unfold rd, in_bounds.
  replace (0 <=? i) with true by (symmetry; apply Z.leb_le; lia).
  replace (i <? Z.of_nat (List.length l)) with true by (symmetry; apply Z.ltb_lt; lia).
  exact H.
Qed.

Lemma safe_wr (A : Type) (Q : list A -> Prop) (l : list A) (i : Z) (v : A) :
  0 <= i < Z.of_nat (List.length l) -> Q (upd i v l) -> safe Q (wr l i v).
Proof.
  intros Hi H. unfold wr, in_bounds.
  replace (0 <=? i) with true by (symmetry; apply Z.leb_le; lia).
  replace (i <? Z.of_nat (List.length l)) with true by (symmetry; apply Z.ltb_lt; lia).
  exact H.
Qed.

(** One step of a weakest-precondition computation for [post]. *)
Ltac post_step :=
  match goal with
  | |- post _ (bind _ _) => apply post_bind
  | |- post _ (rd _ _ _) => apply post_rd; intros ?
  | |- post _ (wr _ _ _) => apply post_wr; intros ?
  | |- post ?Q (Ok ?a) => change (Q a); cbv beta
  | |- post _ (Exit _) => exact I
  | |- post _ Fault => exact I
  | |- post _ OutOfFuel => exact I
  | |- post _ (if ?c then _ else _) => destruct c eqn:?
  | |- post _ (match ?x with _ => _ end) => destruct x eqn:?
  | |- post _ (let _ := _ in _) => cbv zeta
  end.

Lemma ri_fixed_refl (ri : reb_simulation_integrator_bs) : ri_fixed ri ri.
Proof. unfold ri_fixed. repeat split; auto using states_fixed_refl. Qed.

Lemma ri_fixed_trans (a b c : reb_simulation_integrator_bs) :
  ri_fixed a b -> ri_fixed b c -> ri_fixed a c.
Proof.
  unfold ri_fixed.
  intros (H1 & H2 & H3 & H4 & H5 & H6 & H7 & H8 & H9 & H10 & H11 & H12 & H13)
         (G1 & G2 & G3 & G4 & G5 & G6 & G7 & G8 & G9 & G10 & G11 & G12 & G13).
  split; [eapply states_fixed_trans; eauto|].
  repeat split; congruence.
Qed.

Lemma ri_fixed_set_targetIter ri v : ri_fixed ri (set_targetIter ri v).
Proof. unfold ri_fixed. simpl. repeat split; auto using states_fixed_refl. Qed.

Lemma ri_fixed_set_optimalStep ri i v :
  ri_fixed ri (set_optimalStep ri (upd i v (optimalStep ri))).
Proof.
  unfold ri_fixed. simpl. rewrite upd_length. repeat split; auto using states_fixed_refl.
Qed.

Lemma ri_fixed_set_costPerTimeUnit ri i v :
  ri_fixed ri (set_costPerTimeUnit ri (upd i v (costPerTimeUnit ri))).
Proof.
  unfold ri_fixed. simpl. rewrite upd_length. repeat split; auto using states_fixed_refl.
Qed.

Lemma ri_fixed_set_states ri sts :
  states_fixed (states ri) sts -> ri_fixed ri (set_states ri sts).
Proof. intros H. unfold ri_fixed. simpl. repeat split; auto. Qed.


(** ** BS: the convergence loop *)

Section BS_loop.

Context {libm : LibM}.

Lemma lv_fixed_refl lv : lv_fixed lv lv.
Proof. unfold lv_fixed. auto using ri_fixed_refl. Qed.

Lemma truthy_0 : truthy 0 = false.
Proof. reflexivity. Qed.

Lemma truthy_1 : truthy 1 = true.
Proof. reflexivity. Qed.

Ltac solve_ri_fixed :=
  unfold ri_fixed; simpl; rewrite ?upd_length;
  repeat split; auto using states_fixed_refl.

Ltac solve_lv_fixed :=
  unfold lv_fixed; simpl; split; [solve_ri_fixed | auto].

Lemma check_convergence_post (error : Q) (lv : loop_vars) :
  lv_reject lv = 0 -> truthy (lv_loop lv) = true ->
  post (fun lv' =>
          lv_fixed lv lv' /\
          (truthy (lv_loop lv') = true -> lv_reject lv' = 0) /\
          (truthy (lv_loop lv') = false -> truthy (lv_reject lv') = false ->
           (error <= 1)%Q))
       (check_convergence error lv).
Proof.
  intros Hrej Hloop. unfold check_convergence, reject_lower_order.
  repeat post_step; simpl.
  all: split; [solve_lv_fixed|].
  all: split; intros; simpl in *; try congruence; try discriminate; auto.
  all: apply andb_prop in Heqb; destruct Heqb as [_ Hle];
    destruct (Qlt_le_dec 1 error); [discriminate | assumption].
Qed.

Lemma lv_fixed_trans a b c : lv_fixed a b -> lv_fixed b c -> lv_fixed a c.
Proof.
  unfold lv_fixed. intros (H1 & H2 & H3) (G1 & G2 & G3).
  split; [eapply ri_fixed_trans; eauto|]. split; congruence.
Qed.

Lemma step_control_post (error : Q) (lv : loop_vars) :
  lv_reject lv = 0 -> truthy (lv_loop lv) = true ->
  post (fun lv' =>
          lv_fixed lv lv' /\
          (truthy (lv_loop lv') = true -> lv_reject lv' = 0) /\
          (truthy (lv_loop lv') = false -> truthy (lv_reject lv') = false ->
           (error <= 1)%Q))
       (step_control error lv).
Proof.
  intros Hrej Hloop. unfold step_control.
  repeat post_step.
  eapply post_mono; [apply check_convergence_post; assumption|].
  intros lv' (Hfix & Hgo & Hstop). split; [|auto].
  eapply lv_fixed_trans; [|exact Hfix]. solve_lv_fixed.
Qed.

Lemma loop_body_post (t : Q) (lv : loop_vars) :
  lv_reject lv = 0 -> truthy (lv_loop lv) = true ->
  post (fun lv' =>
          ri_fixed (lv_ri lv) (lv_ri lv') /\
          (truthy (lv_loop lv') = true -> lv_reject lv' = 0) /\
          (truthy (lv_loop lv') = false -> truthy (lv_reject lv') = false ->
           exists e, lv_error lv' = Some e /\ (e <= 1)%Q))
       (loop_body t lv).
Proof.
  intros Hrej Hloop. unfold loop_body.
  apply post_bind, post_rd. intros Hk. apply post_bind.
  destruct (tryStep _ _ _ _ _ _) as [[ret sts']| | |] eqn:Htry; try exact I.
  apply tryStep_fixed in Htry. cbv beta. simpl fst. simpl snd.
  assert (Hseed : states_fixed (states (lv_ri lv)) (map (seed_tableau (lv_k lv + 1)) sts'))
    by (apply states_fixed_map_after; [apply ode_fixed_seed_tableau | exact Htry]).
  repeat post_step; simpl.
  - split; [solve_ri_fixed|]. split; intros; discriminate.
  - split; [|split; intros; discriminate].
    unfold ri_fixed. simpl. repeat split; auto.
    apply states_fixed_map_after; [apply ode_fixed_extrapolate_and_rescale | exact Hseed].
  - eapply post_mono; [apply step_control_post; simpl; assumption|].
    intros lv' (Hfix & Hgo & Hstop). destruct Hfix as (Hri & Hk' & He). simpl in *.
    split; [|split; [exact Hgo|]].
    + eapply ri_fixed_trans; [|exact Hri].
      unfold ri_fixed. simpl. repeat split; auto.
      apply states_fixed_map_after; [apply ode_fixed_extrapolate_and_rescale | exact Hseed].
    + intros Hl Hr. eexists. split; [exact He | apply Hstop; assumption].
  - split; [unfold ri_fixed; simpl; repeat split; auto|].
    split; [intros; assumption|]. intros Hl. congruence.
Qed.

Lemma convergence_loop_post (t : Q) :
  forall (fuel : nat) (lv : loop_vars),
    lv_reject lv = 0 -> truthy (lv_loop lv) = true ->
    post (fun lv' =>
            ri_fixed (lv_ri lv) (lv_ri lv') /\
            (truthy (lv_reject lv') = false ->
             exists e, lv_error lv' = Some e /\ (e <= 1)%Q))
         (convergence_loop fuel t lv).
Proof.
  induction fuel as [|fuel IH]; intros lv Hrej Hloop; simpl; [exact I|].
  apply post_bind.
  eapply post_mono; [apply loop_body_post; assumption|].
  intros lv' (Hfix & Hgo & Hstop). cbv beta.
  destruct (truthy (lv_loop lv')) eqn:Hl.
  - eapply post_mono; [apply IH; auto|].
    intros lv'' (Hfix' & Hacc). split; [|exact Hacc].
    eapply ri_fixed_trans; eassumption.
  - simpl. split; [exact Hfix|]. intros Hr. apply Hstop; auto.
Qed.

Lemma loop_entry_fixed (ri : reb_simulation_integrator_bs) (t dt : Q) :
  ri_fixed ri (lv_ri (loop_entry ri t dt)).
Proof.
  unfold loop_entry. simpl.
  assert (H0 : ri_fixed ri (initial_order_selection ri)).
  { unfold initial_order_selection. destruct (_ =? _); solve_ri_fixed. }
  eapply ri_fixed_trans; [exact H0|].
  apply ri_fixed_set_states.
  unfold first_evaluation. destruct (_ =? _).
  - apply states_fixed_map_after.
    + intros st. unfold ode_fixed. simpl. auto.
    + apply states_fixed_map. apply ode_fixed_initial_scale.
  - apply states_fixed_map. apply ode_fixed_initial_scale.
Qed.

End BS_loop.

(** ** BS: rejected and accepted steps *)

Section BS_step.

Context {libm : LibM}.

Lemma accept_step_post (lv : loop_vars) :
  post (fun lv' =>
          lv_reject lv' = lv_reject lv /\
          minStep (lv_ri lv') = minStep (lv_ri lv) /\
          maxStep (lv_ri lv') = maxStep (lv_ri lv))
       (accept_step lv).
Proof.
  unfold accept_step. apply post_bind.
  destruct (select_optimalIter _ _); try exact I. cbv beta.
  repeat post_step; simpl; auto.
Qed.

Lemma loop_entry_ready (ri : reb_simulation_integrator_bs) (t dt : Q) :
  lv_reject (loop_entry ri t dt) = 0 /\ truthy (lv_loop (loop_entry ri t dt)) = true.
Proof. split; reflexivity. Qed.

Lemma run_convergence_loop_post (ri : reb_simulation_integrator_bs) (t dt : Q) :
  post (fun lv =>
          ri_fixed ri (lv_ri lv) /\
          (truthy (lv_reject lv) = false ->
           exists e, lv_error lv = Some e /\ (e <= 1)%Q))
       (run_convergence_loop ri t dt).
Proof.
  unfold run_convergence_loop.
  eapply post_mono; [apply convergence_loop_post; apply loop_entry_ready|].
  intros lv (Hfix & Hacc). split; [|exact Hacc].
  eapply ri_fixed_trans; [apply loop_entry_fixed | exact Hfix].
Qed.

Lemma rejected_step_post (ri : reb_simulation_integrator_bs) (t dt : Q) :
  post (fun p : Z * reb_simulation_integrator_bs =>
          fst p = 0 ->
          Forall2 (fun st st' => ode_y st' = ode_y st) (states ri) (states (snd p)) /\
          states_fixed (states ri) (states (snd p)) /\
          firstOrLastStep (snd p) = firstOrLastStep ri /\
          previousRejected (snd p) = 1 /\
          sequence (snd p) = sequence ri /\ costPerStep (snd p) = costPerStep ri /\
          coeff (snd p) = coeff ri /\
          scalAbsoluteTolerance (snd p) = scalAbsoluteTolerance ri /\
          scalRelativeTolerance (snd p) = scalRelativeTolerance ri /\
          minStep (snd p) = minStep ri /\ maxStep (snd p) = maxStep ri /\
          method (snd p) = method ri)
       (reb_integrator_bs_step ri t dt).
Proof.
  unfold reb_integrator_bs_step. apply post_bind.
  eapply post_mono; [apply run_convergence_loop_post|].
  intros lv (Hfix & _). cbv beta. apply post_bind.
  destruct (truthy (lv_reject lv)) eqn:Hrej; simpl negb; cbv iota.
  - change (post ?Q (Ok ?a)) with (Q a). cbv beta.
    unfold finish_step. rewrite Hrej.
    repeat post_step. intros _.
    destruct Hfix as (H1 & H2 & H3 & H4 & H5 & H6 & H7 & H8 & H9 & H10 & H11 & H12 & H13).
    simpl. repeat split; auto.
    clear - H1. unfold states_fixed in H1.
    induction H1 as [|x y l l' Hxy Hl IH]; constructor; auto. apply Hxy.
  - eapply post_mono; [apply accept_step_post|].
    intros lv2 (Hr & _). cbv beta. unfold finish_step. rewrite Hr, Hrej.
    repeat post_step. intros Hret. discriminate Hret.
Qed.

(** C3. If [reb_integrator_bs_step] returns [0], every ODE state holds in [y]
    the values it held on entry (and keeps its dimension and callbacks), the
    flag [firstOrLastStep] and the configuration are unchanged, and
    [previousRejected] is set; what may differ is [targetIter], [dt_proposed]
    and the contents of the scratch buffers. *)
Theorem rejected_step_keeps_accepted_state :
  forall (ri : reb_simulation_integrator_bs) (t dt : Q)
         (ri' : reb_simulation_integrator_bs),
    reb_integrator_bs_step ri t dt = Ok (0, ri') ->
    Forall2 (fun st st' => ode_y st' = ode_y st) (states ri) (states ri') /\
    states_fixed (states ri) (states ri') /\
    firstOrLastStep ri' = firstOrLastStep ri /\
    previousRejected ri' = 1 /\
    sequence ri' = sequence ri /\ costPerStep ri' = costPerStep ri /\
    coeff ri' = coeff ri /\
    scalAbsoluteTolerance ri' = scalAbsoluteTolerance ri /\
    scalRelativeTolerance ri' = scalRelativeTolerance ri /\
    minStep ri' = minStep ri /\ maxStep ri' = maxStep ri /\ method ri' = method ri.
Proof.
  intros ri t dt ri' Hstep.
  exact (post_elim _ (rejected_step_post ri t dt) Hstep eq_refl).
Qed.

Lemma finish_step_post (fwd : bool) (lv : loop_vars) :
  post (fun p : Z * reb_simulation_integrator_bs =>
          (minStep (lv_ri lv) <= Qabs (dt_proposed (snd p)))%Q /\
          ((0 < maxStep (lv_ri lv))%Q ->
           (Qabs (dt_proposed (snd p)) <= maxStep (lv_ri lv))%Q) /\
          (fwd = true -> (0 <= dt_proposed (snd p))%Q) /\
          (fwd = false -> (dt_proposed (snd p) <= 0)%Q) /\
          (fst p = 1 -> truthy (lv_reject lv) = false) /\
          (fst p = 0 \/ fst p = 1))
       (finish_step fwd lv).
Proof.
  unfold finish_step, fabs.
  destruct (Qlt_le_dec (Qabs (lv_dt lv)) (minStep (lv_ri lv))) as [Hlt|Hmin];
    [exact I|].
  destruct ((if Qlt_le_dec (maxStep (lv_ri lv)) (Qabs (lv_dt lv)) then true else false)
            && (if Qlt_le_dec 0 (maxStep (lv_ri lv)) then true else false)) eqn:Hmax;
    [exact I|].
  pose proof (Qabs_nonneg (lv_dt lv)) as Hnn.
  assert (Habs : (Qabs (if negb fwd then - Qabs (lv_dt lv) else Qabs (lv_dt lv))
                  == Qabs (lv_dt lv))%Q).
  { destruct fwd; unfold negb.
    - apply Qabs_pos. exact Hnn.
    - rewrite Qabs_opp. apply Qabs_pos. exact Hnn. }
  assert (Hbounds :
    (minStep (lv_ri lv)
     <= Qabs (if negb fwd then - Qabs (lv_dt lv) else Qabs (lv_dt lv)))%Q /\
    ((0 < maxStep (lv_ri lv))%Q ->
     (Qabs (if negb fwd then - Qabs (lv_dt lv) else Qabs (lv_dt lv))
      <= maxStep (lv_ri lv))%Q) /\
    (fwd = true ->
     (0 <= (if negb fwd then - Qabs (lv_dt lv) else Qabs (lv_dt lv)))%Q) /\
    (fwd = false ->
     ((if negb fwd then - Qabs (lv_dt lv) else Qabs (lv_dt lv)) <= 0)%Q)).
  { split; [rewrite Habs; exact Hmin|]. split; [|split].
    - intros Hpos. rewrite Habs.
      destruct (Qlt_le_dec (maxStep (lv_ri lv)) (Qabs (lv_dt lv))) as [Hgt|Hle];
        [|exact Hle].
      destruct (Qlt_le_dec 0 (maxStep (lv_ri lv))) as [Hp|Hnp]; [discriminate Hmax|].
      exfalso. apply (Qlt_not_le _ _ Hpos). exact Hnp.
    - intros ->. unfold negb. exact Hnn.
    - intros ->. unfold negb. lra. }
  destruct Hbounds as (B1 & B2 & B3 & B4).
  destruct (truthy (lv_reject lv)) eqn:Hrej; simpl;
    (split; [exact B1|]; split; [exact B2|]; split; [exact B3|]; split; [exact B4|]);
    split; auto; intros; discriminate.
Qed.

(** C2. Whenever [reb_integrator_bs_step] returns, [minStep <= |dt_proposed|],
    [|dt_proposed| <= maxStep] if [maxStep > 0], [dt_proposed] points in the
    direction of the argument [dt] (for a positive [minStep] it has the same
    sign, in the sense of the test [dt >= 0.] that the step itself uses), and a
    return value of [1] implies that the last error computed by the
    convergence loop is at most [1]. *)
Theorem step_control_invariants :
  forall (ri : reb_simulation_integrator_bs) (t dt : Q) (ret : Z)
         (ri' : reb_simulation_integrator_bs),
    reb_integrator_bs_step ri t dt = Ok (ret, ri') ->
    (minStep ri <= Qabs (dt_proposed ri'))%Q /\
    ((0 < maxStep ri)%Q -> (Qabs (dt_proposed ri') <= maxStep ri)%Q) /\
    ((0 <= dt)%Q -> (0 <= dt_proposed ri')%Q) /\
    ((dt < 0)%Q -> (dt_proposed ri' <= 0)%Q) /\
    ((0 < minStep ri)%Q -> forward (dt_proposed ri') = forward dt) /\
    (ret = 1 ->
     exists lv e,
       run_convergence_loop ri t dt = Ok lv /\ lv_error lv = Some e /\ (e <= 1)%Q) /\
    (ret = 0 \/ ret = 1).
Proof.
  intros ri t dt ret ri' Hstep. unfold reb_integrator_bs_step in Hstep.
  destruct (run_convergence_loop ri t dt) as [lv| | |] eqn:Hloop;
    simpl in Hstep; try discriminate.
  pose proof (post_elim _ (run_convergence_loop_post ri t dt) Hloop) as (Hfix & Hacc).
  assert (Hcfg : forall lv2,
            minStep (lv_ri lv2) = minStep (lv_ri lv) ->
            maxStep (lv_ri lv2) = maxStep (lv_ri lv) ->
            finish_step (forward dt) lv2 = Ok (ret, ri') ->
            (minStep ri <= Qabs (dt_proposed ri'))%Q /\
            ((0 < maxStep ri)%Q -> (Qabs (dt_proposed ri') <= maxStep ri)%Q) /\
            ((0 <= dt)%Q -> (0 <= dt_proposed ri')%Q) /\
            ((dt < 0)%Q -> (dt_proposed ri' <= 0)%Q) /\
            ((0 < minStep ri)%Q -> forward (dt_proposed ri') = forward dt) /\
            (ret = 1 -> truthy (lv_reject lv2) = false) /\
            (ret = 0 \/ ret = 1)).
  { intros lv2 Hmin Hmax Hfin.
    pose proof (post_elim _ (finish_step_post (forward dt) lv2) Hfin)
      as (B1 & B2 & B3 & B4 & B5 & B6).
    simpl in B1, B2, B3, B4, B5, B6.
    destruct Hfix as (_ & _ & _ & _ & _ & _ & Hm & HM & _).
    rewrite Hmin, Hm in B1. rewrite Hmax, HM in B2.
    assert (Hf1 : (0 <= dt)%Q -> forward dt = true).
    { intros H. unfold forward. destruct (Qlt_le_dec dt 0); [lra|reflexivity]. }
    assert (Hf2 : (dt < 0)%Q -> forward dt = false).
    { intros H. unfold forward. destruct (Qlt_le_dec dt 0); [reflexivity|lra]. }
    split; [exact B1|]. split; [exact B2|]. split; [auto|]. split; [auto|].
    split; [|split; [exact B5 | exact B6]].
    intros Hpos.
    assert (Hnz : (0 < Qabs (dt_proposed ri'))%Q) by lra.
    destruct (forward dt) eqn:Hfw.
    - specialize (B3 eq_refl). unfold forward.
      destruct (Qlt_le_dec (dt_proposed ri') 0); [lra|reflexivity].
    - specialize (B4 eq_refl). unfold forward.
      destruct (Qlt_le_dec (dt_proposed ri') 0) as [Hl|Hl]; [reflexivity|].
      exfalso. assert (Hz : (dt_proposed ri' == 0)%Q) by lra.
      rewrite Hz in Hnz. simpl in Hnz. lra. }
  change (if Qlt_le_dec dt 0 then false else true) with (forward dt) in Hstep.
  destruct (truthy (lv_reject lv)) eqn:Hrej; simpl in Hstep.
  - destruct (Hcfg lv eq_refl eq_refl Hstep) as (C1 & C2 & C3 & C4 & C5 & C6 & C7).
    repeat (split; [assumption|]). split; [|exact C7].
    intros Hret. specialize (C6 Hret). congruence.
  - destruct (accept_step lv) as [lv2| | |] eqn:Hacc2; simpl in Hstep; try discriminate.
    pose proof (post_elim _ (accept_step_post lv) Hacc2) as (Hr & Hm & HM).
    destruct (Hcfg lv2 Hm HM Hstep) as (C1 & C2 & C3 & C4 & C5 & C6 & C7).
    repeat (split; [assumption|]). split; [|exact C7].
    intros _. destruct (Hacc eq_refl) as (e & He & Hle).
    exists lv, e. auto.
Qed.

End BS_step.

(** ** BS: array bounds and the range of [targetIter] *)

Lemma sequence_length_eq : sequence_length = 9.
Proof. reflexivity. Qed.

Ltac bounds :=
  simpl; rewrite ?upd_length;
  repeat match goal with
  | H : arrays_allocated _ |- _ =>
      let H1 := fresh "Hlen" in
      destruct H as (H1 & ? & ? & ? & ? & ?)
  end;
  rewrite ?sequence_length_eq in *; simpl in *; lia.

Ltac safe_step :=
  match goal with
  | |- safe _ (bind _ _) => apply safe_bind
  | |- safe _ (rd _ _ _) => apply safe_rd; [bounds|]
  | |- safe _ (wr _ _ _) => apply safe_wr; [bounds|]
  | |- safe ?Q (Ok ?a) => change (Q a); cbv beta
  | |- safe _ (Exit _) => exact I
  | |- safe _ (if ?c then _ else _) => destruct c eqn:?
  | |- safe _ (match ?x with _ => _ end) => destruct x eqn:?
  end.

Section BS_bounds.

Context {libm : LibM}.

Lemma check_convergence_safe (error : Q) (lv : loop_vars) :
  arrays_allocated (lv_ri lv) ->
  1 <= targetIter (lv_ri lv) <= sequence_length - 2 ->
  1 <= lv_k lv <= targetIter (lv_ri lv) + 1 ->
  safe (fun lv' =>
          lv_k lv' = lv_k lv /\
          arrays_allocated (lv_ri lv') /\
          1 <= targetIter (lv_ri lv') <= sequence_length - 2 /\
          (truthy (lv_loop lv') = true ->
           lv_k lv <= targetIter (lv_ri lv) /\ lv_reject lv' = lv_reject lv) /\
          (truthy (lv_reject lv') = false \/ truthy (lv_loop lv') = true ->
           targetIter (lv_ri lv') = targetIter (lv_ri lv)))
       (check_convergence error lv).
Proof.
  intros Halloc HT Hk. unfold check_convergence, reject_lower_order.
  rewrite sequence_length_eq in HT.
  repeat safe_step.
  all: split; [reflexivity|]; split; [exact Halloc|].
  all: simpl in *; rewrite ?sequence_length_eq, ?truthy_0, ?truthy_1.
  all: (split; [lia|]).
  all: split.
  all: try (intros Htr; discriminate Htr).
  all: try (intros [Htr|Htr]; try discriminate Htr; reflexivity).
  all: try (intros Htr; split; [lia | reflexivity]).
Qed.

Lemma arrays_allocated_fixed (ri ri' : reb_simulation_integrator_bs) :
  arrays_allocated ri -> ri_fixed ri ri' -> arrays_allocated ri'.
Proof.
  intros (A1 & A2 & A3 & A4 & A5 & A6)
         (H1 & H2 & H3 & H4 & _ & _ & _ & _ & _ & _ & _ & H12 & H13).
  unfold arrays_allocated. rewrite H2, H3, H4, H12, H13.
  repeat (split; [assumption|]).
  clear - A6 H1. unfold states_fixed in H1.
  induction H1 as [|x y l l' Hxy Hl IH]; [constructor|].
  inversion A6; subst. constructor; [|auto].
  destruct Hxy as (_ & _ & _ & _ & HD). congruence.
Qed.

Lemma forallb_in_bounds_D (sts : list reb_ode_state) (k : Z) :
  Forall (fun st => Z.of_nat (List.length (ode_D st)) = sequence_length) sts ->
  0 <= k < sequence_length ->
  forallb (fun st => in_bounds (ode_D st) k) sts = true.
Proof.
  intros HF Hk. induction HF as [|st l Hst Hl IH]; [reflexivity|].
  simpl. rewrite IH. unfold in_bounds. rewrite Hst.
  rewrite sequence_length_eq in *. lia.
Qed.

Lemma tryStep_safe (sts : list reb_ode_state) (k n : Z) (t0 step : Q) (m : Z) :
  safe (fun p => states_fixed sts (snd p)) (tryStep sts k n t0 step m).
Proof.
  destruct (tryStep sts k n t0 step m) as [[ret sts']| | |] eqn:H; simpl.
  - eapply tryStep_fixed. exact H.
  - exact I.
  - unfold tryStep in H. destruct m as [|[p|p|]|p]; try discriminate H.
    destruct (fst _); discriminate H.
  - unfold tryStep in H. destruct m as [|[p|p|]|p]; try discriminate H.
    destruct (fst _); discriminate H.
Qed.

Lemma step_control_safe (error : Q) (lv : loop_vars) :
  arrays_allocated (lv_ri lv) ->
  1 <= targetIter (lv_ri lv) <= sequence_length - 2 ->
  1 <= lv_k lv <= targetIter (lv_ri lv) + 1 ->
  safe (fun lv' =>
          lv_k lv' = lv_k lv /\
          arrays_allocated (lv_ri lv') /\
          1 <= targetIter (lv_ri lv') <= sequence_length - 2 /\
          (truthy (lv_loop lv') = true ->
           lv_k lv <= targetIter (lv_ri lv) /\ lv_reject lv' = lv_reject lv) /\
          (truthy (lv_reject lv') = false \/ truthy (lv_loop lv') = true ->
           targetIter (lv_ri lv') = targetIter (lv_ri lv)))
       (step_control error lv).
Proof.
  intros Halloc HT Hk. unfold step_control.
  pose proof Halloc as Halloc'.
  do 2 safe_step. cbv beta. do 2 safe_step. cbv beta. do 2 safe_step. cbv beta.
  do 2 safe_step. cbv beta.
  eapply safe_mono.
  - apply check_convergence_safe; simpl; try assumption.
    destruct Halloc' as (A1 & A2 & A3 & A4 & A5 & A6).
    unfold arrays_allocated. simpl. rewrite ?upd_length. auto.
  - simpl. intros lv' Hpost. exact Hpost.
Qed.

Lemma loop_body_safe (t : Q) (lv : loop_vars) :
  arrays_allocated (lv_ri lv) ->
  1 <= targetIter (lv_ri lv) <= sequence_length - 2 ->
  -1 <= lv_k lv <= targetIter (lv_ri lv) ->
  truthy (lv_loop lv) = true ->
  safe (fun lv' =>
          lv_k lv' = lv_k lv + 1 /\
          arrays_allocated (lv_ri lv') /\
          1 <= targetIter (lv_ri lv') <= sequence_length - 2 /\
          (truthy (lv_loop lv') = true ->
           lv_k lv' <= targetIter (lv_ri lv) /\ lv_reject lv' = lv_reject lv) /\
          (truthy (lv_reject lv') = false \/ truthy (lv_loop lv') = true ->
           targetIter (lv_ri lv') = targetIter (lv_ri lv)) /\
          (truthy (lv_loop lv') = false -> truthy (lv_reject lv') = false ->
           1 <= lv_k lv'))
       (loop_body t lv).
Proof.
  intros Halloc HT Hk Hloop. unfold loop_body.
  pose proof Halloc as (A1 & A2 & A3 & A4 & A5 & A6).
  rewrite sequence_length_eq in *.
  apply safe_bind, safe_rd; [lia|]. apply safe_bind.
  eapply safe_mono; [apply tryStep_safe|].
  intros [ret sts'] Hfix. simpl in Hfix. cbv beta. simpl fst. simpl snd.
  assert (Hall1 : arrays_allocated (set_states (lv_ri lv) sts')).
  { eapply arrays_allocated_fixed; [exact Halloc|].
    apply ri_fixed_set_states. exact Hfix. }
  assert (Hseed : states_fixed (states (lv_ri lv)) (map (seed_tableau (lv_k lv + 1)) sts'))
    by (apply states_fixed_map_after; [apply ode_fixed_seed_tableau | exact Hfix]).
  assert (Hall2 : arrays_allocated
                    (set_states (lv_ri lv) (map (seed_tableau (lv_k lv + 1)) sts'))).
  { eapply arrays_allocated_fixed; [exact Halloc|].
    apply ri_fixed_set_states. exact Hseed. }
  destruct (negb (truthy ret)).
  { simpl. rewrite ?sequence_length_eq.
    split; [reflexivity|]. split; [exact Hall1|]. split; [lia|].
    split; [intros Htr; discriminate Htr|].
    split; [intros [Htr|Htr]; discriminate Htr|]. intros _ Htr. discriminate Htr. }
  rewrite forallb_in_bounds_D;
    [| destruct Hall1 as (_ & _ & _ & _ & _ & HD); exact HD
     | rewrite ?sequence_length_eq; lia].
  destruct (lv_k lv + 1 >? 0) eqn:Hpos.
  2:{ simpl. rewrite ?sequence_length_eq.
      split; [reflexivity|]. split; [exact Hall2|]. split; [lia|].
      split; [intros _; split; [lia|reflexivity]|].
      split; [reflexivity|]. intros Htr. congruence. }
  match goal with
  | |- safe _ (if ?c then _ else _) => destruct c
  end.
  { simpl. rewrite ?sequence_length_eq.
    split; [reflexivity|]. split; [|split; [lia|]].
    - eapply arrays_allocated_fixed; [exact Halloc|].
      unfold ri_fixed. simpl. split; [|repeat split; reflexivity].
      apply states_fixed_map_after;
        [apply ode_fixed_extrapolate_and_rescale | exact Hseed].
    - split; [intros Htr; discriminate Htr|].
      split; [intros [Htr|Htr]; discriminate Htr|]. intros _ Htr. discriminate Htr. }
  eapply safe_mono.
  - apply step_control_safe; simpl.
    + eapply arrays_allocated_fixed; [exact Halloc|].
      unfold ri_fixed. simpl. split; [|repeat split; reflexivity].
      apply states_fixed_map_after;
        [apply ode_fixed_extrapolate_and_rescale | exact Hseed].
    + rewrite ?sequence_length_eq. lia.
    + lia.
  - simpl. intros lv' (P1 & P2 & P3 & P4 & P5).
    split; [exact P1|]. split; [exact P2|]. split; [exact P3|].
    split; [intros Htr; destruct (P4 Htr); split; [lia|assumption]|].
    split; [exact P5|]. intros _ _. lia.
Qed.

Lemma convergence_loop_safe (t : Q) (T : Z) :
  1 <= T <= sequence_length - 2 ->
  forall (fuel : nat) (lv : loop_vars),
    arrays_allocated (lv_ri lv) ->
    targetIter (lv_ri lv) = T ->
    -1 <= lv_k lv <= T ->
    truthy (lv_loop lv) = true ->
    T + 1 - lv_k lv <= Z.of_nat fuel ->
    safe (fun lv' =>
            0 <= lv_k lv' <= T + 1 /\
            arrays_allocated (lv_ri lv') /\
            1 <= targetIter (lv_ri lv') <= sequence_length - 2 /\
            (truthy (lv_reject lv') = false ->
             targetIter (lv_ri lv') = T /\ 1 <= lv_k lv'))
         (convergence_loop fuel t lv).
Proof.
  intros HT. induction fuel as [|fuel IH]; intros lv Halloc HTi Hk Hloop Hfuel.
  - exfalso. simpl in Hfuel. lia.
  - simpl. apply safe_bind.
    eapply safe_mono; [apply loop_body_safe; try assumption; rewrite HTi; assumption|].
    intros lv' (P1 & P2 & P3 & P4 & P5 & P6). cbv beta.
    destruct (truthy (lv_loop lv')) eqn:Hl.
    + destruct (P4 eq_refl) as [Hk' Hr'].
      apply IH; try assumption.
      * rewrite P5 by (right; reflexivity). exact HTi.
      * lia.
      * lia.
    + simpl. split; [lia|]. split; [exact P2|]. split; [exact P3|].
      intros Hr. split; [|apply P6; auto].
      rewrite P5 by (left; exact Hr). exact HTi.
Qed.

Lemma MINZ_range (a b lo hi : Z) :
  lo <= a -> lo <= b -> b <= hi -> lo <= MINZ a b <= hi.
Proof. unfold MINZ. destruct (a <? b) eqn:E; lia. Qed.

Lemma MINZ_le_l (a b : Z) : MINZ a b <= a.
Proof. unfold MINZ. destruct (a <? b) eqn:E; lia. Qed.

Lemma select_optimalIter_safe (ri : reb_simulation_integrator_bs) (k : Z) :
  arrays_allocated ri ->
  1 <= targetIter ri <= sequence_length - 2 ->
  1 <= k <= targetIter ri + 1 ->
  safe (fun optimalIter => 1 <= optimalIter <= sequence_length - 2)
       (select_optimalIter ri k).
Proof.
  intros Halloc HT Hk. unfold select_optimalIter.
  rewrite sequence_length_eq in *.
  repeat safe_step; try lia.
  all: try (apply MINZ_range; lia).
  destruct (truthy _); lia.
Qed.

Lemma arrays_allocated_swap (ri : reb_simulation_integrator_bs) :
  arrays_allocated ri ->
  arrays_allocated
    (set_states ri
       (map (fun st => let y_tmp := ode_y st in set_y1 (set_y st (ode_y1 st)) y_tmp)
            (states ri))).
Proof.
  intros (A1 & A2 & A3 & A4 & A5 & A6). unfold arrays_allocated. simpl.
  repeat (split; [assumption|]).
  induction A6; simpl; constructor; auto.
Qed.

Lemma accept_step_safe (lv : loop_vars) :
  arrays_allocated (lv_ri lv) ->
  1 <= targetIter (lv_ri lv) <= sequence_length - 2 ->
  1 <= lv_k lv <= targetIter (lv_ri lv) + 1 ->
  safe (fun lv' =>
          1 <= targetIter (lv_ri lv') <= sequence_length - 2 /\
          arrays_allocated (lv_ri lv'))
       (accept_step lv).
Proof.
  intros Halloc HT Hk. unfold accept_step.
  pose proof (arrays_allocated_swap Halloc) as Hswap.
  cbv zeta. apply safe_bind.
  eapply safe_mono; [apply select_optimalIter_safe; simpl; assumption|].
  intros optimalIter Hopt. cbv beta.
  rewrite sequence_length_eq in *.
  pose proof (MINZ_le_l optimalIter (lv_k lv)) as Hmin.
  pose proof (@MINZ_range optimalIter (lv_k lv) 1 8 ltac:(lia) ltac:(lia) ltac:(lia))
    as Hmin'.
  repeat safe_step; simpl; (split; [lia | exact Hswap]).
Qed.

Lemma finish_step_safe (fwd : bool) (lv : loop_vars) :
  1 <= targetIter (lv_ri lv) <= sequence_length - 2 ->
  arrays_allocated (lv_ri lv) ->
  safe (fun p : Z * reb_simulation_integrator_bs =>
          1 <= targetIter (snd p) <= sequence_length - 2 /\ arrays_allocated (snd p))
       (finish_step fwd lv).
Proof.
  intros HT Halloc. unfold finish_step.
  repeat safe_step; simpl; (split; [exact HT | exact Halloc]).
Qed.

Lemma initial_order_selection_range (ri : reb_simulation_integrator_bs) :
  targetIter ri = 0 \/ 1 <= targetIter ri <= sequence_length - 2 ->
  1 <= targetIter (initial_order_selection ri) <= sequence_length - 2.
Proof.
  intros H. unfold initial_order_selection.
  destruct (targetIter ri =? 0) eqn:E; [|lia].
  simpl. rewrite ?sequence_length_eq. unfold MAXZ, MINZ.
  repeat match goal with
  | |- context [if ?c then _ else _] => destruct c eqn:?
  end; lia.
Qed.

(** C9. With the arrays allocated ([sequence_length = 9] entries) and
    [targetIter] either still [0] or within [1 .. sequence_length - 2], the
    order [T] in force after the initial order selection is within
    [1 .. sequence_length - 2]; the convergence loop ends (it neither runs
    on nor leaves an array) at a column [k <= T + 1 <= sequence_length - 1];
    and the whole step performs no access outside the arrays and leaves
    [targetIter] within [1 .. sequence_length - 2], the arrays keeping their
    sizes. *)
Theorem bs_step_stays_in_bounds :
  forall (ri : reb_simulation_integrator_bs) (t dt : Q),
    arrays_allocated ri ->
    targetIter ri = 0 \/ 1 <= targetIter ri <= sequence_length - 2 ->
    let T := targetIter (initial_order_selection ri) in
    1 <= T <= sequence_length - 2 /\
    safe (fun lv =>
            0 <= lv_k lv <= T + 1 /\ T + 1 <= sequence_length - 1 /\
            1 <= targetIter (lv_ri lv) <= sequence_length - 2)
         (run_convergence_loop ri t dt) /\
    safe (fun p : Z * reb_simulation_integrator_bs =>
            1 <= targetIter (snd p) <= sequence_length - 2 /\
            arrays_allocated (snd p))
         (reb_integrator_bs_step ri t dt).
Proof.
  intros ri t dt Halloc Hpre T.
  pose proof (initial_order_selection_range ri Hpre) as HT. fold T in HT.
  assert (Hentry : arrays_allocated (lv_ri (loop_entry ri t dt)))
    by (eapply arrays_allocated_fixed; [exact Halloc | apply loop_entry_fixed]).
  assert (Hfuel : Z.of_nat (loop_fuel ri) = 10).
  { unfold loop_fuel. destruct Halloc as (A1 & _).
    rewrite sequence_length_eq in A1. lia. }
  assert (Hloop :
    safe (fun lv' =>
            0 <= lv_k lv' <= T + 1 /\
            arrays_allocated (lv_ri lv') /\
            1 <= targetIter (lv_ri lv') <= sequence_length - 2 /\
            (truthy (lv_reject lv') = false ->
             targetIter (lv_ri lv') = T /\ 1 <= lv_k lv'))
         (run_convergence_loop ri t dt)).
  { assert (HTi : targetIter (lv_ri (loop_entry ri t dt)) = T) by reflexivity.
    assert (Hk0 : lv_k (loop_entry ri t dt) = -1) by reflexivity.
    clearbody T. unfold run_convergence_loop.
    apply convergence_loop_safe; try assumption; try reflexivity.
    - rewrite Hk0. lia.
    - rewrite Hk0, Hfuel. rewrite sequence_length_eq in HT. lia. }
  split; [exact HT|]. split.
  - eapply safe_mono; [exact Hloop|].
    intros lv (P1 & _ & P3 & _). rewrite sequence_length_eq in *. lia.
  - unfold reb_integrator_bs_step. apply safe_bind.
    eapply safe_mono; [exact Hloop|].
    intros lv (P1 & P2 & P3 & P4). cbv beta. apply safe_bind.
    destruct (truthy (lv_reject lv)) eqn:Hrej; simpl negb; cbv iota.
    + change (safe ?Q (Ok ?a)) with (Q a). cbv beta.
      apply finish_step_safe; assumption.
    + destruct (P4 eq_refl) as [HTi Hk1].
      eapply safe_mono; [apply accept_step_safe; try assumption; lia|].
      intros lv2 (Q1 & Q2). cbv beta. apply finish_step_safe; assumption.
Qed.

End BS_bounds.

Lemma rejected_step_keeps_accepted_state_witness :
  exists ri',
    @reb_integrator_bs_step rational_libm (fresh_integrator ode_growth) 0 1 = Ok (0, ri')
    /\ Forall2 (fun st st' => ode_y st' = ode_y st)
         (states (fresh_integrator ode_growth)) (states ri')
    /\ firstOrLastStep ri' = firstOrLastStep (fresh_integrator ode_growth).
Proof.
  assert (Hret : returned_value
                   (@reb_integrator_bs_step rational_libm (fresh_integrator ode_growth) 0 1)
                 = Some 0) by (vm_compute; reflexivity).
  destruct (@reb_integrator_bs_step rational_libm (fresh_integrator ode_growth) 0 1)
    as [[ret ri']| | |] eqn:Hstep; simpl in Hret; try discriminate Hret.
  assert (Hz : ret = 0) by congruence. subst ret.
  exists ri'. split; [reflexivity|].
  destruct (@rejected_step_keeps_accepted_state rational_libm _ _ _ _ Hstep)
    as (Hy & _ & Hf & _).
  split; assumption.
Defined.

Lemma step_control_invariants_witness :
  exists ri',
    @reb_integrator_bs_step rational_libm (fresh_integrator ode_decay) 0 (1 # 10)
    = Ok (1, ri')
    /\ (minStep (fresh_integrator ode_decay) <= Qabs (dt_proposed ri'))%Q
    /\ (Qabs (dt_proposed ri') <= maxStep (fresh_integrator ode_decay))%Q
    /\ forward (dt_proposed ri') = forward (1 # 10)
    /\ exists lv e,
         @run_convergence_loop rational_libm (fresh_integrator ode_decay) 0 (1 # 10) = Ok lv
         /\ lv_error lv = Some e /\ (e <= 1)%Q.
Proof.
  assert (Hret : returned_value
                   (@reb_integrator_bs_step rational_libm (fresh_integrator ode_decay) 0
                      (1 # 10))
                 = Some 1) by (vm_compute; reflexivity).
  destruct (@reb_integrator_bs_step rational_libm (fresh_integrator ode_decay) 0 (1 # 10))
    as [[ret ri']| | |] eqn:Hstep; simpl in Hret; try discriminate Hret.
  assert (Hz : ret = 1) by congruence. subst ret.
  exists ri'. split; [reflexivity|].
  destruct (@step_control_invariants rational_libm _ _ _ _ _ Hstep)
    as (H1 & H2 & _ & _ & H5 & H6 & _).
  split; [exact H1|]. split; [apply H2; reflexivity|].
  split; [apply H5; reflexivity|]. apply H6. reflexivity.
Defined.

Lemma fresh_integrator_allocated (st : reb_ode_state) :
  Z.of_nat (List.length (ode_D st)) = sequence_length ->
  arrays_allocated (fresh_integrator st).
Proof.
  intros HD. unfold arrays_allocated. simpl.
  repeat (split; [reflexivity|]). repeat constructor. exact HD.
Qed.

Lemma bs_step_stays_in_bounds_witness :
  let ri := fresh_integrator ode_decay in
  let T := targetIter (@initial_order_selection rational_libm ri) in
  1 <= T <= sequence_length - 2 /\
  safe (fun lv =>
          0 <= lv_k lv <= T + 1 /\ T + 1 <= sequence_length - 1 /\
          1 <= targetIter (lv_ri lv) <= sequence_length - 2)
       (@run_convergence_loop rational_libm ri 0 (1 # 10)) /\
  safe (fun p : Z * reb_simulation_integrator_bs =>
          1 <= targetIter (snd p) <= sequence_length - 2 /\
          arrays_allocated (snd p))
       (@reb_integrator_bs_step rational_libm ri 0 (1 # 10)).
Proof.
  apply (@bs_step_stays_in_bounds rational_libm (fresh_integrator ode_decay) 0 (1 # 10)).
  - apply fresh_integrator_allocated. reflexivity.
  - left. reflexivity.
Defined.

Lemma tryStep_midpoint_returns_0_iff_witness :
  (exists states', tryStep [ode_growth_scaled] 0 2 0 1 1 = Ok (0, states')) /\
  scales_nonzero [ode_growth_scaled] /\
  exists j, 1 <= j < 2 /\ j <= maxChecks /\ 0 < maxIter /\
    (4 * Qmax (1 # 1000000000000000)
           (specified_I (midpoint_at [ode_growth_scaled] 2 0 1 j))
     < specified_Delta (midpoint_at [ode_growth_scaled] 2 0 1 j))%Q.
Proof.
  destruct (tryStep_midpoint_returns_0_iff [ode_growth_scaled] 0 2 0 1) as (_ & H0 & _).
  assert (Hret : exists states', tryStep [ode_growth_scaled] 0 2 0 1 1 = Ok (0, states'))
    by (eexists; vm_compute; reflexivity).
  split; [exact Hret|]. apply H0. exact Hret.
Defined.

(** ** MERCURANA: pre- and post-processor *)

Local Open Scope R_scope.

Section Processors.

Context {eos : EosTables}.

(** Running a scheduler is running the calls it makes, whatever the two
    operations are. *)
Lemma preprocessor_runs_its_calls (S : Type) (drift_step : S -> R -> nat -> S)
    (interaction_step : S -> R -> R -> nat -> S) (r : S) (dt : R) (shell : nat)
    (type : REB_EOS_TYPE) :
  reb_integrator_mercurana_preprocessor drift_step interaction_step r dt shell type
  = run_calls drift_step interaction_step shell (preprocessor_calls dt type) r.
Proof. destruct type; reflexivity. Qed.

Lemma postprocessor_runs_its_calls (S : Type) (drift_step : S -> R -> nat -> S)
    (interaction_step : S -> R -> R -> nat -> S) (r : S) (dt : R) (shell : nat)
    (type : REB_EOS_TYPE) :
  reb_integrator_mercurana_postprocessor drift_step interaction_step r dt shell type
  = run_calls drift_step interaction_step shell (postprocessor_calls dt type) r.
Proof. destruct type; reflexivity. Qed.

(** C8. For every scheme the calls of the post-processor are the calls of
    the pre-processor in reverse order, each with its coefficients negated;
    both schedulers execute exactly these calls; for PMLF6, PMLF4 and
    PLF7_6_4 there are 12, 6 and 12 of them, and for every other scheme
    there is none. *)
Theorem postprocessor_reverses_preprocessor :
  forall (dt : R) (type : REB_EOS_TYPE),
    postprocessor_calls dt type = rev (map negate_call (preprocessor_calls dt type)) /\
    (forall (S : Type) (drift_step : S -> R -> nat -> S)
            (interaction_step : S -> R -> R -> nat -> S) (r : S) (shell : nat),
        reb_integrator_mercurana_preprocessor drift_step interaction_step r dt shell type
        = run_calls drift_step interaction_step shell (preprocessor_calls dt type) r /\
        reb_integrator_mercurana_postprocessor drift_step interaction_step r dt shell type
        = run_calls drift_step interaction_step shell
            (rev (map negate_call (preprocessor_calls dt type))) r) /\
    (type = REB_EOS_PMLF6 -> List.length (preprocessor_calls dt type) = 12%nat) /\
    (type = REB_EOS_PMLF4 -> List.length (preprocessor_calls dt type) = 6%nat) /\
    (type = REB_EOS_PLF7_6_4 -> List.length (preprocessor_calls dt type) = 12%nat) /\
    (type <> REB_EOS_PMLF6 -> type <> REB_EOS_PMLF4 -> type <> REB_EOS_PLF7_6_4 ->
     preprocessor_calls dt type = [] /\ postprocessor_calls dt type = [] /\
     forall (S : Type) (drift_step : S -> R -> nat -> S)
            (interaction_step : S -> R -> R -> nat -> S) (r : S) (shell : nat),
       reb_integrator_mercurana_preprocessor drift_step interaction_step r dt shell type = r /\
       reb_integrator_mercurana_postprocessor drift_step interaction_step r dt shell type = r).
Proof.
  intros dt type.
  assert (Hrev : postprocessor_calls dt type
                 = rev (map negate_call (preprocessor_calls dt type))).
  { destruct type; try reflexivity;
      unfold postprocessor_calls, preprocessor_calls,
        reb_integrator_mercurana_postprocessor, reb_integrator_mercurana_preprocessor,
        record_drift, record_interaction; simpl;
      repeat match goal with
      | |- _ :: _ = _ :: _ => apply f_equal2
      end; try reflexivity; f_equal; ring. }
  split; [exact Hrev|]. split.
  - intros S drift_step interaction_step r shell. split.
    + apply preprocessor_runs_its_calls.
    + rewrite <- Hrev. apply postprocessor_runs_its_calls.
  - split; [intros ->; reflexivity|]. split; [intros ->; reflexivity|].
    split; [intros ->; reflexivity|].
    intros H1 H2 H3. destruct type; try congruence; repeat split; reflexivity.
Qed.

End Processors.

(** ** MERCURANA: the switching weights of a pair add up to one *)

Lemma sum_below_ext (f g : nat -> R) (n : nat) :
  (forall s, (s < n)%nat -> f s = g s) -> sum_below f n = sum_below g n.
Proof.
  induction n as [|n IH]; intros H; simpl; [reflexivity|].
  rewrite IH by (intros; apply H; lia). rewrite H by lia. reflexivity.
Qed.

(** The weights of the shells [1 .. n-1], all of the regular form, sum to the
    inner term of shell [n-1] minus the inner term of shell [0]. *)
Lemma regular_weights_telescope (rim : reb_simulation_integrator_mercurana)
    (dr : R) (mi mj : nat) (w : nat -> R) (n0 : nat) :
  (forall s, (n0 < s)%nat -> (s < Nmaxshells rim - 1)%nat ->
     w s = - rim_L rim dr (dc_sum rim s mi mj) (dc_sum rim (s - 1) mi mj)
           + rim_L rim dr (dc_sum rim (s + 1) mi mj) (dc_sum rim s mi mj)) ->
  forall n, (n0 < n)%nat -> (n < Nmaxshells rim)%nat ->
    sum_below w n - sum_below w (Datatypes.S n0)
    = rim_L rim dr (dc_sum rim n mi mj) (dc_sum rim (n - 1) mi mj)
      - rim_L rim dr (dc_sum rim (n0 + 1) mi mj) (dc_sum rim n0 mi mj).
Proof.
  intros Hw. induction n as [|n IH]; intros Hn0 Hn; [lia|].
  destruct (Nat.eq_dec n n0) as [->|Hne].
  - replace (Datatypes.S n0 - 1)%nat with n0 by lia.
    replace (n0 + 1)%nat with (Datatypes.S n0) by lia. ring.
  - simpl sum_below at 1.
    replace (sum_below w n + w n - sum_below w (Datatypes.S n0))
      with ((sum_below w n - sum_below w (Datatypes.S n0)) + w n) by ring.
    rewrite IH by lia. rewrite Hw by lia.
    replace (Datatypes.S n - 1)%nat with n by lia.
    replace (n + 1)%nat with (Datatypes.S n) by lia. ring.
Qed.

Lemma pair_weight_regular (rim : reb_simulation_integrator_mercurana) (idx : nat)
    (dr : R) (mi mj : nat) (s : nat) :
  (0 < s)%nat -> (s < Nmaxshells rim - 1)%nat ->
  nonzero (whsplitting rim) = false \/ idx <> 0%nat \/ (1 < s)%nat ->
  pair_weight rim s idx dr mi mj
  = - rim_L rim dr (dc_sum rim s mi mj) (dc_sum rim (s - 1) mi mj)
    + rim_L rim dr (dc_sum rim (s + 1) mi mj) (dc_sum rim s mi mj).
Proof.
  intros Hs Hin Hreg.
  unfold pair_weight, mercurana_starti, Lsum_of, outer_term, inner_term.
  replace (s =? 0)%nat with false by (symmetry; apply Nat.eqb_neq; lia).
  rewrite andb_false_r. simpl (idx <? 0)%nat. cbv iota.
  replace (0 <? s)%nat with true by (symmetry; apply Nat.ltb_lt; lia).
  replace (s <? Nmaxshells rim - 1)%nat with true by (symmetry; apply Nat.ltb_lt; lia).
  assert (Hout : negb (nonzero (whsplitting rim)) || negb (s =? 1)%nat
                 || negb (idx =? 0)%nat = true).
  { destruct Hreg as [H|[H|H]].
    - rewrite H. reflexivity.
    - replace (idx =? 0)%nat with false by (symmetry; apply Nat.eqb_neq; lia).
      simpl. apply orb_true_r.
    - replace (s =? 1)%nat with false by (symmetry; apply Nat.eqb_neq; lia).
      simpl. rewrite orb_true_r. reflexivity. }
  rewrite Hout. simpl. ring.
Qed.

Lemma pair_weight_innermost (rim : reb_simulation_integrator_mercurana) (idx : nat)
    (dr : R) (mi mj : nat) (s : nat) :
  (0 < s)%nat -> s = (Nmaxshells rim - 1)%nat ->
  nonzero (whsplitting rim) = false \/ idx <> 0%nat \/ (1 < s)%nat ->
  pair_weight rim s idx dr mi mj
  = - rim_L rim dr (dc_sum rim s mi mj) (dc_sum rim (s - 1) mi mj) + 1.
Proof.
  intros Hs Hin Hreg.
  unfold pair_weight, mercurana_starti, Lsum_of, outer_term, inner_term.
  replace (s =? 0)%nat with false by (symmetry; apply Nat.eqb_neq; lia).
  rewrite andb_false_r. simpl (idx <? 0)%nat. cbv iota.
  replace (0 <? s)%nat with true by (symmetry; apply Nat.ltb_lt; lia).
  replace (s <? Nmaxshells rim - 1)%nat with false by (symmetry; apply Nat.ltb_ge; lia).
  assert (Hout : negb (nonzero (whsplitting rim)) || negb (s =? 1)%nat
                 || negb (idx =? 0)%nat = true).
  { destruct Hreg as [H|[H|H]].
    - rewrite H. reflexivity.
    - replace (idx =? 0)%nat with false by (symmetry; apply Nat.eqb_neq; lia).
      simpl. apply orb_true_r.
    - replace (s =? 1)%nat with false by (symmetry; apply Nat.eqb_neq; lia).
      simpl. rewrite orb_true_r. reflexivity. }
  rewrite Hout. simpl. ring.
Qed.

(** The weights of the shells above the first shell [n0] in which the pair
    has the regular form. *)
Lemma weights_above (rim : reb_simulation_integrator_mercurana) (idx : nat)
    (dr : R) (mi mj : nat) (n0 : nat) :
  (Datatypes.S n0 < Nmaxshells rim)%nat ->
  nonzero (whsplitting rim) = false \/ idx <> 0%nat \/ (1 <= n0)%nat ->
  sum_below (fun s => pair_weight rim s idx dr mi mj) (Nmaxshells rim)
  - sum_below (fun s => pair_weight rim s idx dr mi mj) (Datatypes.S n0)
  = 1 - rim_L rim dr (dc_sum rim (n0 + 1) mi mj) (dc_sum rim n0 mi mj).
Proof.
  intros HN Hreg.
  set (w := fun s => pair_weight rim s idx dr mi mj).
  destruct (Nmaxshells rim) as [|n] eqn:EN; [lia|].
  simpl sum_below at 1.
  assert (Hlast : w n = - rim_L rim dr (dc_sum rim n mi mj) (dc_sum rim (n - 1) mi mj) + 1).
  { apply pair_weight_innermost; [lia | rewrite EN; lia |].
    destruct Hreg as [H|[H|H]]; auto. right. right. lia. }
  assert (Htel : sum_below w n - sum_below w (Datatypes.S n0)
                 = rim_L rim dr (dc_sum rim n mi mj) (dc_sum rim (n - 1) mi mj)
                   - rim_L rim dr (dc_sum rim (n0 + 1) mi mj) (dc_sum rim n0 mi mj)).
  { apply regular_weights_telescope; [|lia|rewrite EN; lia].
    intros s Hs1 Hs2. apply pair_weight_regular; [lia|exact Hs2|].
    destruct Hreg as [H|[H|H]]; auto. right. right. lia. }
  replace (sum_below w n + w n - sum_below w (Datatypes.S n0))
    with ((sum_below w n - sum_below w (Datatypes.S n0)) + w n) by ring.
  rewrite Htel, Hlast. ring.
Qed.

(** C5. For every distance [dr], every table [dcrit] and every switching
    function [L], the weights with which a pair enters the kicks of the shells
    [0 .. Nmaxshells - 1] add up to [1]; under WH splitting, where the pairs
    of index [0] skip shell [0] and subtract nothing in shell [1], this needs
    shell [1] to exist. *)
Theorem switching_weights_sum_to_one :
  forall (rim : reb_simulation_integrator_mercurana) (idx : nat) (dr : R) (mi mj : nat),
    (1 <= Nmaxshells rim)%nat ->
    (nonzero (whsplitting rim) = true -> (2 <= Nmaxshells rim)%nat) ->
    sum_below (fun s => pair_weight rim s idx dr mi mj) (Nmaxshells rim) = 1.
Proof.
  intros rim idx dr mi mj HN Hwh.
  set (w := fun s => pair_weight rim s idx dr mi mj).
  destruct (nonzero (whsplitting rim)) eqn:Enz;
    [destruct (Nat.eq_dec idx 0) as [Hidx|Hidx]|].
  - (* WH splitting, pair with the central body *)
    specialize (Hwh eq_refl).
    assert (Hw0 : w 0%nat = 0).
    { unfold w, pair_weight, mercurana_starti. rewrite Enz, Hidx. reflexivity. }
    destruct (Nat.eq_dec (Nmaxshells rim) 2) as [E2|E2].
    + rewrite E2. simpl sum_below. fold w. rewrite Hw0.
      unfold w, pair_weight, mercurana_starti, Lsum_of, outer_term, inner_term.
      rewrite Enz, Hidx, E2. simpl. ring.
    + pose proof (@weights_above rim idx dr mi mj 1%nat ltac:(lia)
                    ltac:(right; right; lia)) as Hab.
      fold w in Hab. simpl sum_below at 2 in Hab. rewrite Hw0 in Hab.
      assert (Hw1 : w 1%nat
                    = rim_L rim dr (dc_sum rim 2 mi mj) (dc_sum rim 1 mi mj)).
      { unfold w, pair_weight, mercurana_starti, Lsum_of, outer_term, inner_term.
        rewrite Enz, Hidx.
        replace (1 <? Nmaxshells rim - 1)%nat with true
          by (symmetry; apply Nat.ltb_lt; lia).
        simpl. ring. }
      rewrite Hw1 in Hab. simpl (1 + 1)%nat in Hab. lra.
  - (* WH splitting, pair of two other bodies *)
    specialize (Hwh eq_refl).
    pose proof (@weights_above rim idx dr mi mj 0%nat ltac:(lia)
                  ltac:(right; left; exact Hidx)) as Hab.
    fold w in Hab. simpl sum_below at 2 in Hab.
    assert (Hw0 : w 0%nat = rim_L rim dr (dc_sum rim 1 mi mj) (dc_sum rim 0 mi mj)).
    { unfold w, pair_weight, mercurana_starti, Lsum_of, outer_term, inner_term.
      rewrite Enz. simpl.
      replace (idx <? 1)%nat with false by (symmetry; apply Nat.ltb_ge; lia).
      replace (0 <? Nmaxshells rim - 1)%nat with true
        by (symmetry; apply Nat.ltb_lt; lia).
      ring. }
    rewrite Hw0 in Hab. simpl (0 + 1)%nat in Hab. lra.
  - (* no WH splitting *)
    destruct (Nat.eq_dec (Nmaxshells rim) 1) as [E1|E1].
    + rewrite E1. simpl sum_below.
      unfold w, pair_weight, mercurana_starti, Lsum_of, outer_term, inner_term.
      rewrite Enz, E1. simpl. ring.
    + pose proof (@weights_above rim idx dr mi mj 0%nat ltac:(lia)
                    ltac:(left; exact Enz)) as Hab.
      fold w in Hab. simpl sum_below at 2 in Hab.
      assert (Hw0 : w 0%nat = rim_L rim dr (dc_sum rim 1 mi mj) (dc_sum rim 0 mi mj)).
      { unfold w, pair_weight, mercurana_starti, Lsum_of, outer_term, inner_term.
        rewrite Enz. simpl.
        replace (0 <? Nmaxshells rim - 1)%nat with true
          by (symmetry; apply Nat.ltb_lt; lia).
        ring. }
      rewrite Hw0 in Hab. simpl (0 + 1)%nat in Hab. lra.
Qed.

Lemma switching_weights_sum_to_one_witness :
  sum_below (fun s => pair_weight (two_body_rim 1) s 0 1 0 1)
             (Nmaxshells (two_body_rim 1)) = 1.
Proof.
  apply (@switching_weights_sum_to_one (two_body_rim 1) 0%nat 1 0%nat 1%nat).
  - simpl. lia.
  - intros _. simpl. lia.
Defined.

(** ** MERCURANA: loops and arrays over [nat] *)

Local Close Scope R_scope.

Lemma for_nat_iter_inv (S : Type) (P : nat -> S -> Prop) (body : nat -> S -> S) :
  forall (cnt lo : nat) (s : S),
    P lo s ->
    (forall i s', (lo <= i < lo + cnt)%nat -> P i s' -> P (Datatypes.S i) (body i s')) ->
    P (lo + cnt)%nat (for_nat_iter cnt lo body s).
Proof.
  induction cnt as [|cnt IH]; intros lo s H0 Hstep; simpl.
  - replace (lo + 0)%nat with lo by lia. exact H0.
  - replace (lo + Datatypes.S cnt)%nat with (Datatypes.S lo + cnt)%nat by lia.
    apply IH.
    + apply Hstep; [lia | exact H0].
    + intros i s' Hi HP. apply Hstep; [lia | exact HP].
Qed.

Lemma for_nat_inv (S : Type) (P : nat -> S -> Prop) (body : nat -> S -> S)
    (lo hi : nat) (s : S) :
  (lo <= hi)%nat ->
  P lo s ->
  (forall i s', (lo <= i < hi)%nat -> P i s' -> P (Datatypes.S i) (body i s')) ->
  P hi (for_nat lo hi body s).
Proof.
  intros Hle H0 Hstep. unfold for_nat.
  replace hi with (lo + (hi - lo))%nat at 1 by lia.
  apply for_nat_iter_inv; [exact H0|].
  intros i s' Hi. apply Hstep. lia.
Qed.

Lemma for_nat_preserves (S : Type) (P : S -> Prop) (body : nat -> S -> S)
    (lo hi : nat) (s : S) :
  P s -> (forall i s', P s' -> P (body i s')) -> P (for_nat lo hi body s).
Proof.
  intros H0 Hstep. unfold for_nat. generalize (hi - lo)%nat as cnt.
  intros cnt. revert lo s H0.
  induction cnt as [|cnt IH]; intros lo s H0; simpl; auto.
Qed.

(** A loop with [break] whose body either goes on without a change or
    applies [f] and breaks. *)
Lemma for_break_once (S : Type) (f : S -> S) (body : nat -> S -> S * bool) :
  (forall j s, body j s = (s, false) \/ body j s = (f s, true)) ->
  forall (cnt i : nat) (s : S),
    for_break_iter cnt i body s = s \/ for_break_iter cnt i body s = f s.
Proof.
  intros Hbody. induction cnt as [|cnt IH]; intros i s; simpl; [left; reflexivity|].
  destruct (Hbody i s) as [H|H]; rewrite H; simpl; auto.
Qed.

Lemma firstn_upd_nat_snoc (A : Type) (cnt : nat) (v : A) (l : list A) :
  (cnt < List.length l)%nat ->
  firstn (Datatypes.S cnt) (upd_nat cnt v l) = firstn cnt l ++ [v].
Proof.
  revert cnt. induction l as [|h t IH]; intros [|cnt] H; simpl in *; try lia.
  - reflexivity.
  - f_equal. apply IH. lia.
Qed.

Lemma firstn_upd_nat_ge (A : Type) (n i : nat) (v : A) (l : list A) :
  (n <= i)%nat -> firstn n (upd_nat i v l) = firstn n l.
Proof.
  revert n i. induction l as [|h t IH]; intros [|n] [|i] H; simpl; auto; try lia.
  f_equal. apply IH. lia.
Qed.

Lemma firstn_S_nth (A : Type) (d : A) (i : nat) (l : list A) :
  (i < List.length l)%nat -> firstn (Datatypes.S i) l = firstn i l ++ [nth i l d].
Proof.
  revert i. induction l as [|h t IH]; intros [|i] H; simpl in *; try lia.
  - reflexivity.
  - f_equal. apply IH. lia.
Qed.

Lemma NoDup_firstn_nth (i : nat) (l : list nat) :
  (i < List.length l)%nat -> NoDup (firstn (Datatypes.S i) l) ->
  ~ In (nth i l 0%nat) (firstn i l).
Proof.
  intros Hi Hnd. rewrite (firstn_S_nth 0%nat) in Hnd by exact Hi.
  apply NoDup_remove_2 in Hnd. rewrite app_nil_r in Hnd. exact Hnd.
Qed.

Lemma NoDup_firstn_le (n m : nat) (l : list nat) :
  (n <= m)%nat -> NoDup (firstn m l) -> NoDup (firstn n l).
Proof.
  intros Hle Hnd.
  replace n with (Nat.min n m) by lia.
  rewrite <- firstn_firstn.
  rewrite <- (firstn_skipn n (firstn m l)) in Hnd.
  apply NoDup_app_remove_r in Hnd. exact Hnd.
Qed.

Lemma In_firstn_In (A : Type) (n : nat) (x : A) (l : list A) :
  In x (firstn n l) -> In x l.
Proof.
  intros Hin. rewrite <- (firstn_skipn n l). apply in_or_app. left. exact Hin.
Qed.

Lemma In_firstn_le (n m : nat) (x : nat) (l : list nat) :
  (n <= m)%nat -> In x (firstn n l) -> In x (firstn m l).
Proof.
  intros Hle Hin.
  replace n with (Nat.min n m) in Hin by lia.
  rewrite <- firstn_firstn in Hin.
  eapply In_firstn_In. exact Hin.
Qed.

(** ** MERCURANA: the encounter predictor *)

Lemma predict_frame_refl shell rim : predict_frame shell rim rim.
Proof. unfold predict_frame. repeat split; reflexivity. Qed.

Lemma predict_frame_trans shell a b c :
  predict_frame shell a b -> predict_frame shell b c -> predict_frame shell a c.
Proof.
  unfold predict_frame.
  intros (H1 & H2 & H3 & H4 & H5 & H6 & H7 & H8) (G1 & G2 & G3 & G4 & G5 & G6 & G7 & G8).
  repeat split; congruence.
Qed.

Lemma map_row_upd_same (rim : reb_simulation_integrator_mercurana) (s : nat)
    (row : list nat) :
  (s < List.length (rim_map rim))%nat ->
  map_row (set_map rim (upd_nat s row (rim_map rim))) s = row.
Proof. intros H. unfold map_row. simpl. apply upd_nat_nth_same. exact H. Qed.

Lemma map_row_upd_other (rim : reb_simulation_integrator_mercurana) (s s' : nat)
    (row : list nat) :
  s <> s' -> map_row (set_map rim (upd_nat s row (rim_map rim))) s' = map_row rim s'.
Proof. intros H. unfold map_row. simpl. apply upd_nat_nth_other. exact H. Qed.

Lemma promote_frame (shell mi : nat) (rim : reb_simulation_integrator_mercurana) :
  predict_frame shell rim (promote shell mi rim).
Proof.
  unfold predict_frame, promote, shellN_at, map_row. simpl.
  rewrite !upd_nat_length.
  rewrite !upd_nat_nth_other by lia.
  repeat split; try reflexivity.
  destruct (Nat.lt_ge_cases (shell + 1) (List.length (rim_map rim))) as [Hlt|Hge].
  - rewrite upd_nat_nth_same by exact Hlt. apply upd_nat_length.
  - rewrite upd_nat_out by exact Hge. reflexivity.
Qed.

Lemma promote_members (shell mi : nat) (rim : reb_simulation_integrator_mercurana) :
  (shell + 1 < List.length (rim_map rim))%nat ->
  (shell + 1 < List.length (shellN rim))%nat ->
  (shellN_at rim (shell + 1) < List.length (map_row rim (shell + 1)))%nat ->
  shell_members (promote shell mi rim) (shell + 1)
  = shell_members rim (shell + 1) ++ [mi]
  /\ shellN_at (promote shell mi rim) (shell + 1)
     = Datatypes.S (shellN_at rim (shell + 1)).
Proof.
  intros Hmap HN Hcnt.
  unfold shell_members, promote, shellN_at, map_row in *. simpl.
  rewrite !upd_nat_nth_same by assumption.
  replace (nth (shell + 1) (shellN rim) 0 + 1)%nat
    with (Datatypes.S (nth (shell + 1) (shellN rim) 0%nat)) by lia.
  split; [|reflexivity].
  apply firstn_upd_nat_snoc. exact Hcnt.
Qed.

Lemma promoted_ok_skip (shell : nat) (map_s : list nat) (N i : nat)
    (rim : reb_simulation_integrator_mercurana) :
  promoted_ok shell map_s N i rim -> promoted_ok shell map_s N (Datatypes.S i) rim.
Proof.
  unfold promoted_ok. intros (H1 & H2 & H3 & H4).
  split; [lia|]. split; [|split; assumption].
  intros m Hm. eapply In_firstn_le; [|apply H2; exact Hm]. lia.
Qed.

Lemma promoted_ok_promote (shell : nat) (map_s : list nat) (N i : nat)
    (rim : reb_simulation_integrator_mercurana) :
  (i < N)%nat -> (N <= List.length map_s)%nat ->
  NoDup (firstn N map_s) ->
  (shell + 1 < List.length (rim_map rim))%nat ->
  (shell + 1 < List.length (shellN rim))%nat ->
  (N <= List.length (map_row rim (shell + 1)))%nat ->
  (forall m, In m (firstn N map_s) -> (m < List.length (inshell rim))%nat) ->
  promoted_ok shell map_s N i rim ->
  promoted_ok shell map_s N (Datatypes.S i) (promote shell (nth i map_s 0%nat) rim).
Proof.
  intros Hi HN Hnd Hmap HsN Hrow Hin (H1 & H2 & H3 & H4).
  destruct (@promote_members shell (nth i map_s 0%nat) rim Hmap HsN ltac:(lia))
    as [Hmem Hcnt].
  assert (Hpre : firstn (Datatypes.S i) map_s = firstn i map_s ++ [nth i map_s 0%nat])
    by (apply firstn_S_nth; lia).
  assert (Hfresh : ~ In (nth i map_s 0%nat) (firstn i map_s)).
  { apply NoDup_firstn_nth; [lia|]. eapply NoDup_firstn_le; [|exact Hnd]. lia. }
  assert (HmiN : In (nth i map_s 0%nat) (firstn N map_s)).
  { eapply In_firstn_le with (n := Datatypes.S i); [lia|].
    rewrite Hpre. apply in_or_app. right. left. reflexivity. }
  unfold promoted_ok. cbv zeta. rewrite Hmem, Hcnt.
  split; [lia|]. split; [|split].
  - intros m Hm. rewrite Hpre. apply in_app_or in Hm. apply in_or_app.
    destruct Hm as [Hm|Hm]; [left; apply H2; exact Hm | right; exact Hm].
  - apply NoDup_app; [exact H3 | repeat constructor; auto |].
    intros x Hx [Hx'|[]]. subst x. apply Hfresh. apply H2. exact Hx.
  - intros m Hm. unfold promote. simpl.
    destruct (Nat.eq_dec m (nth i map_s 0%nat)) as [->|Hne].
    + split.
      * intros _. apply upd_nat_nth_same. apply Hin. exact HmiN.
      * intros Hn. exfalso. apply Hn. apply in_or_app. right. left. reflexivity.
    + rewrite upd_nat_nth_other by congruence.
      destruct (H4 m Hm) as [Ha Hb]. split.
      * intros Hs. apply in_app_or in Hs. destruct Hs as [Hs|[Hs|[]]]; [auto|congruence].
      * intros Hn. apply Hb. intros Hs. apply Hn. apply in_or_app. left. exact Hs.
Qed.

(** The loop that puts the particles of the shell in-shell. *)
Lemma mark_inshell_spec (map_s : list nat) (N : nat)
    (rim : reb_simulation_integrator_mercurana) :
  (forall m, In m (firstn N map_s) -> (m < List.length (inshell rim))%nat) ->
  (N <= List.length map_s)%nat ->
  let rim' := for_nat 0 N (fun i rim =>
                let mi := nth i map_s 0%nat in
                set_inshell rim (upd_nat mi 1%nat (inshell rim))) rim in
  rim_map rim' = rim_map rim /\ shellN rim' = shellN rim /\
  shellN_active rim' = shellN_active rim /\
  Nmaxshells rim' = Nmaxshells rim /\ whsplitting rim' = whsplitting rim /\
  List.length (inshell rim') = List.length (inshell rim) /\
  forall m, In m (firstn N map_s) -> nth m (inshell rim') 0%nat = 1%nat.
Proof.
  intros Hin HN rim'. subst rim'.
  pose (P := fun (i : nat) (s : reb_simulation_integrator_mercurana) =>
    rim_map s = rim_map rim /\ shellN s = shellN rim /\
    shellN_active s = shellN_active rim /\
    Nmaxshells s = Nmaxshells rim /\ whsplitting s = whsplitting rim /\
    List.length (inshell s) = List.length (inshell rim) /\
    forall m, In m (firstn i map_s) -> nth m (inshell s) 0%nat = 1%nat).
  apply (@for_nat_inv _ P); [lia| |].
  - unfold P. repeat (split; [reflexivity|]).
    intros m Hm. simpl in Hm. contradiction.
  - intros i s Hi (H1 & H2 & H3 & H4 & H5 & H6 & H7). unfold P.
    cbn -[firstn nth upd_nat]. rewrite upd_nat_length. repeat (split; [assumption|]).
    intros m Hm. rewrite (firstn_S_nth 0%nat) in Hm by lia.
    destruct (Nat.eq_dec m (nth i map_s 0%nat)) as [->|Hne].
    + apply upd_nat_nth_same. rewrite H6. apply Hin.
      eapply In_firstn_le with (n := Datatypes.S i); [lia|].
      rewrite (firstn_S_nth 0%nat) by lia. apply in_or_app. right. left. reflexivity.
    + rewrite upd_nat_nth_other by congruence. apply H7.
      apply in_app_or in Hm. destruct Hm as [Hm|[Hm|[]]]; [exact Hm | congruence].
Qed.

(** A loop over the entries [lo .. hi-1] that promotes some of them. *)
Lemma promote_loop_spec (shell : nat) (map_s : list nat) (N lo hi : nat)
    (rim0 rim : reb_simulation_integrator_mercurana)
    (body : nat -> reb_simulation_integrator_mercurana
            -> reb_simulation_integrator_mercurana) :
  (forall i s, body i s = s \/ body i s = promote shell (nth i map_s 0%nat) s) ->
  (lo <= hi)%nat -> (hi <= N)%nat -> (N <= List.length map_s)%nat ->
  NoDup (firstn N map_s) ->
  (shell + 1 < List.length (rim_map rim0))%nat ->
  (shell + 1 < List.length (shellN rim0))%nat ->
  (N <= List.length (map_row rim0 (shell + 1)))%nat ->
  (forall m, In m (firstn N map_s) -> (m < List.length (inshell rim0))%nat) ->
  predict_frame shell rim0 rim ->
  promoted_ok shell map_s N lo rim ->
  predict_frame shell rim0 (for_nat lo hi body rim) /\
  promoted_ok shell map_s N hi (for_nat lo hi body rim).
Proof.
  intros Hbody Hle HhiN HN Hnd Hmap HsN Hrow Hin Hfr Hok.
  apply (@for_nat_inv _ (fun i s =>
           predict_frame shell rim0 s /\ promoted_ok shell map_s N i s));
    [exact Hle | split; assumption |].
  intros i s Hi [Hf Hp].
  destruct (Hbody i s) as [He|He]; rewrite He.
  - split; [exact Hf | apply promoted_ok_skip; exact Hp].
  - pose proof Hf as (F1 & F2 & F3 & F4 & F5 & F6 & F7 & F8).
    split.
    + eapply predict_frame_trans; [exact Hf | apply promote_frame].
    + apply promoted_ok_promote; try assumption; try lia.
      intros m Hm. rewrite F5. apply Hin. exact Hm.
Qed.

Lemma encounter_loop_body_active (r : reb_simulation) (dcrit : list R) (dt : R)
    (shell N : nat) (map_s : list nat) (i : nat)
    (s : reb_simulation_integrator_mercurana) :
  let mi := nth i map_s 0%nat in
  let body := fun (j : nat) (rim : reb_simulation_integrator_mercurana) =>
    let mj := nth j map_s 0%nat in
    if (i =? j)%nat then (rim, false)
    else if encounter r dcrit dt mi mj then (promote shell mi rim, true)
    else (rim, false) in
  for_break 0 N body s = s \/ for_break 0 N body s = promote shell mi s.
Proof.
  intros mi body. unfold for_break. apply for_break_once.
  intros j s'. unfold body. cbv zeta.
  destruct (i =? j)%nat; [left; reflexivity|].
  destruct (encounter r dcrit dt mi (nth j map_s 0%nat)); [right|left]; reflexivity.
Qed.

Lemma encounter_loop_body_passive (r : reb_simulation) (dcrit : list R) (dt : R)
    (shell N : nat) (map_s : list nat) (i : nat)
    (s : reb_simulation_integrator_mercurana) :
  let mi := nth i map_s 0%nat in
  let body := fun (j : nat) (rim : reb_simulation_integrator_mercurana) =>
    let mj := nth j map_s 0%nat in
    if encounter r dcrit dt mi mj then (promote shell mi rim, true)
    else (rim, false) in
  for_break 0 N body s = s \/ for_break 0 N body s = promote shell mi s.
Proof.
  intros mi body. unfold for_break. apply for_break_once.
  intros j s'. unfold body. cbv zeta.
  destruct (encounter r dcrit dt mi (nth j map_s 0%nat)); [right|left]; reflexivity.
Qed.

(** The loop of the WH-splitting case: every particle of the shell leaves
    the shell and is copied to the sub-shell. *)
Lemma wh_forward_spec (shell : nat) (map_s : list nat) (N : nat)
    (rim : reb_simulation_integrator_mercurana) :
  (shell + 1 < List.length (rim_map rim))%nat ->
  (N <= List.length (map_row rim (shell + 1)))%nat ->
  (N <= List.length map_s)%nat ->
  (forall m, In m (firstn N map_s) -> (m < List.length (inshell rim))%nat) ->
  let rim' := for_nat 0 N (fun i rim =>
                let mi := nth i map_s 0%nat in
                let rim := set_inshell rim (upd_nat mi 0%nat (inshell rim)) in
                set_map rim (upd_nat (shell + 1)
                                     (upd_nat i mi (map_row rim (shell + 1)))
                                     (rim_map rim))) rim in
  shellN rim' = shellN rim /\ shellN_active rim' = shellN_active rim /\
  map_row rim' shell = map_row rim shell /\
  firstn N (map_row rim' (shell + 1)) = firstn N map_s /\
  forall m, In m (firstn N map_s) -> nth m (inshell rim') 0%nat = 0%nat.
Proof.
  intros Hmap Hrow HN Hin rim'. subst rim'.
  pose (P := fun (i : nat) (s : reb_simulation_integrator_mercurana) =>
    shellN s = shellN rim /\ shellN_active s = shellN_active rim /\
    map_row s shell = map_row rim shell /\
    List.length (rim_map s) = List.length (rim_map rim) /\
    List.length (map_row s (shell + 1)) = List.length (map_row rim (shell + 1)) /\
    List.length (inshell s) = List.length (inshell rim) /\
    firstn i (map_row s (shell + 1)) = firstn i map_s /\
    forall m, In m (firstn i map_s) -> nth m (inshell s) 0%nat = 0%nat).
  assert (HP : P N (for_nat 0 N (fun i rim =>
                let mi := nth i map_s 0%nat in
                let rim := set_inshell rim (upd_nat mi 0%nat (inshell rim)) in
                set_map rim (upd_nat (shell + 1)
                                     (upd_nat i mi (map_row rim (shell + 1)))
                                     (rim_map rim))) rim)).
  { apply for_nat_inv; [lia| |].
    - unfold P. repeat (split; [reflexivity|]).
      intros m Hm. simpl in Hm. contradiction.
    - intros i s Hi (H1 & H2 & H3 & H4 & H5 & H6 & H7 & H8). unfold P. cbv zeta.
      set (s1 := set_inshell s (upd_nat (nth i map_s 0%nat) 0%nat (inshell s))).
      assert (Hrow1 : map_row s1 (shell + 1) = map_row s (shell + 1)) by reflexivity.
      assert (Hmap1 : rim_map s1 = rim_map s) by reflexivity.
      split; [exact H1|]. split; [exact H2|].
      split; [rewrite map_row_upd_other by lia; exact H3|].
      split; [cbn -[upd_nat]; rewrite upd_nat_length; exact H4|].
      rewrite map_row_upd_same by (rewrite Hmap1, H4; exact Hmap).
      rewrite Hrow1.
      split; [rewrite upd_nat_length; exact H5|].
      split; [cbn -[upd_nat]; rewrite upd_nat_length; exact H6|].
      split.
      + rewrite firstn_upd_nat_snoc by lia.
        rewrite (firstn_S_nth 0%nat map_s) by lia. rewrite H7. reflexivity.
      + intros m Hm. cbn -[upd_nat nth firstn].
        rewrite (firstn_S_nth 0%nat) in Hm by lia.
        destruct (Nat.eq_dec m (nth i map_s 0%nat)) as [->|Hne].
        * apply upd_nat_nth_same. rewrite H6. apply Hin.
          eapply In_firstn_le with (n := Datatypes.S i); [lia|].
          rewrite (firstn_S_nth 0%nat) by lia.
          apply in_or_app. right. left. reflexivity.
        * rewrite upd_nat_nth_other by congruence. apply H8.
          apply in_app_or in Hm. destruct Hm as [Hm|[Hm|[]]]; [exact Hm | congruence]. }
  destruct HP as (H1 & H2 & H3 & _ & _ & _ & H7 & H8). auto.
Qed.

Lemma shellN_at_upd_same (rim : reb_simulation_integrator_mercurana) (s v : nat) :
  (s < List.length (shellN rim))%nat ->
  shellN_at (set_shellN rim (upd_nat s v (shellN rim))) s = v.
Proof. intros H. unfold shellN_at. simpl. apply upd_nat_nth_same. exact H. Qed.

Lemma shellN_at_upd_other (rim : reb_simulation_integrator_mercurana) (s s' v : nat) :
  s <> s' -> shellN_at (set_shellN rim (upd_nat s v (shellN rim))) s' = shellN_at rim s'.
Proof. intros H. unfold shellN_at. simpl. apply upd_nat_nth_other. exact H. Qed.

Lemma encounter_predict_spec (r : reb_simulation) (dt : R) (shell : nat) :
  shell_ok r shell ->
  let r' := reb_mercurana_encounter_predict r dt shell in
  let rim := ri_mercurana r in
  let rim' := ri_mercurana r' in
  let sub := shell_members rim' (shell + 1) in
  particles r' = particles r /\
  map_row rim' shell = map_row rim shell /\
  shellN_at rim' shell = shellN_at rim shell /\
  incl sub (shell_members rim shell) /\
  NoDup sub /\
  forall m, In m (shell_members rim shell) ->
    (In m sub -> nth m (inshell rim') 0%nat = 0%nat) /\
    (~ In m sub -> nth m (inshell rim') 0%nat = 1%nat).
Proof.
  intros (Hsh & Hlmap & HlN & HN & Hact & Hrow & Hin & Hnd & Hwh).
  cbv zeta in Hsh, Hlmap, HlN, HN, Hact, Hrow, Hin, Hnd, Hwh.
  unfold shell_members in Hin, Hnd.
  set (rim := ri_mercurana r) in *.
  set (N := shellN_at rim shell) in *.
  set (map_s := map_row rim shell) in *.
  assert (Hin1 : forall m, In m (firstn N map_s) -> (m < List.length (inshell rim))%nat)
    by (intros m Hm; apply Hin; exact Hm).
  unfold reb_mercurana_encounter_predict. fold rim. fold N. fold map_s.
  destruct ((shell =? 0)%nat && nonzero (whsplitting rim)) eqn:Ewh.
  - (* WH splitting at shell 0 *)
    apply andb_prop in Ewh. destruct Ewh as [E0 Enz].
    apply Nat.eqb_eq in E0.
    specialize (Hwh Enz E0).
    pose proof (@wh_forward_spec shell map_s N rim ltac:(lia) ltac:(apply Hrow; lia)
                  HN Hin1) as Hloop.
    cbv zeta in Hloop. cbv zeta.
    set (rim1 := for_nat 0 N _ rim) in *.
    destruct Hloop as (L1 & L2 & L3 & L4 & L5).
    set (rimf := set_shellN_active _ _).
    change (ri_mercurana (set_rim r rimf)) with rimf.
    change (particles (set_rim r rimf)) with (particles r).
    assert (Hsub : shell_members rimf (shell + 1) = firstn N map_s).
    { unfold shell_members.
      change (map_row rimf (shell + 1)) with (map_row rim1 (shell + 1)).
      change (shellN_at rimf (shell + 1))
        with (shellN_at (set_shellN rim1 (upd_nat (shell + 1) N (shellN rim1)))
                (shell + 1)).
      rewrite shellN_at_upd_same by (rewrite L1; lia). exact L4. }
    split; [reflexivity|].
    split; [exact L3|].
    split.
    { change (shellN_at rimf shell)
        with (shellN_at (set_shellN rim1 (upd_nat (shell + 1) N (shellN rim1))) shell).
      rewrite shellN_at_upd_other by lia.
      unfold shellN_at. rewrite L1. reflexivity. }
    rewrite Hsub. unfold shell_members. fold rim. fold N. fold map_s.
    split; [apply incl_refl|]. split; [exact Hnd|].
    intros m Hm. split; [intros _; apply L5; exact Hm | intros Hn; contradiction].
  - (* no WH splitting at this shell *)
    pose proof (@mark_inshell_spec map_s N rim Hin1 HN) as Hmark.
    cbv zeta in Hmark. cbv zeta.
    set (rim1 := for_nat 0 N _ rim) in *.
    destruct Hmark as (M1 & M2 & M3 & M4 & M5 & M6 & M7).
    destruct (Nmaxshells rim1 <=? shell + 1)%nat eqn:Elast.
    + (* innermost shell *)
      apply Nat.leb_le in Elast. rewrite M4 in Elast.
      change (ri_mercurana (set_rim r rim1)) with rim1.
      change (particles (set_rim r rim1)) with (particles r).
      assert (Hsub : shell_members rim1 (shell + 1) = []).
      { unfold shell_members, shellN_at. rewrite M2.
        rewrite nth_overflow by lia. reflexivity. }
      split; [reflexivity|].
      split; [unfold map_row; rewrite M1; reflexivity|].
      split; [unfold shellN_at; rewrite M2; reflexivity|].
      rewrite Hsub.
      split; [intros m []|]. split; [constructor|].
      intros m Hm. split; [intros []|]. intros _. apply M7. exact Hm.
    + (* a sub-shell exists *)
      apply Nat.leb_gt in Elast. rewrite M4 in Elast.
      set (rim2 := set_shellN rim1 (upd_nat (shell + 1) 0%nat (shellN rim1))).
      set (rim3 := set_shellN_active rim2
                     (upd_nat (shell + 1) 0%nat (shellN_active rim2))).
      assert (Hmap3 : rim_map rim3 = rim_map rim) by exact M1.
      assert (HlN3 : List.length (shellN rim3) = List.length (shellN rim))
        by (unfold rim3, rim2; cbn -[upd_nat]; rewrite upd_nat_length, M2; reflexivity).
      assert (Hrow3 : forall s, map_row rim3 s = map_row rim s)
        by (intros s; unfold map_row; rewrite Hmap3; reflexivity).
      assert (Hin3 : List.length (inshell rim3) = List.length (inshell rim)) by exact M6.
      assert (Hcnt3 : shellN_at rim3 (shell + 1) = 0%nat).
      { change (shellN_at rim3 (shell + 1)) with (shellN_at rim2 (shell + 1)).
        unfold rim2. apply shellN_at_upd_same. rewrite M2. lia. }
      assert (HN3 : shellN_at rim3 shell = N).
      { change (shellN_at rim3 shell) with (shellN_at rim2 shell).
        unfold rim2. rewrite shellN_at_upd_other by lia.
        unfold shellN_at. rewrite M2. reflexivity. }
      assert (Hok3 : promoted_ok shell map_s N 0 rim3).
      { unfold promoted_ok, shell_members. rewrite Hcnt3. simpl firstn.
        split; [lia|]. split; [intros m []|]. split; [constructor|].
        intros m Hm. split; [intros []|]. intros _. apply M7. exact Hm. }
      match goal with
      | |- context [for_nat 0 (shellN_active_at rim shell) ?body rim3] =>
          pose proof (@promote_loop_spec shell map_s N 0 (shellN_active_at rim shell)
                        rim3 rim3 body) as HA
      end.
      specialize (HA ltac:(intros i s; apply encounter_loop_body_active)
                     ltac:(lia) Hact HN Hnd ltac:(rewrite Hmap3; lia)
                     ltac:(rewrite HlN3; lia)
                     ltac:(rewrite Hrow3; apply Hrow; lia)
                     ltac:(intros m Hm; rewrite Hin3; apply Hin1; exact Hm)
                     (predict_frame_refl shell rim3) Hok3).
      set (rim4 := for_nat 0 (shellN_active_at rim shell) _ rim3) in *.
      destruct HA as [HfA HokA].
      set (rim5 := set_shellN_active rim4
                     (upd_nat (shell + 1) (shellN_at rim4 (shell + 1))
                        (shellN_active rim4))).
      match goal with
      | |- context [for_nat (shellN_active_at rim shell) N ?body rim5] =>
          pose proof (@promote_loop_spec shell map_s N (shellN_active_at rim shell) N
                        rim3 rim5 body) as HB
      end.
      specialize (HB ltac:(intros i s; apply encounter_loop_body_passive)
                     Hact ltac:(lia) HN Hnd ltac:(rewrite Hmap3; lia)
                     ltac:(rewrite HlN3; lia)
                     ltac:(rewrite Hrow3; apply Hrow; lia)
                     ltac:(intros m Hm; rewrite Hin3; apply Hin1; exact Hm)
                     HfA HokA).
      set (rim6 := for_nat (shellN_active_at rim shell) N _ rim5) in *.
      destruct HB as [HfB HokB].
      destruct HfB as (F1 & F2 & F3 & F4 & F5 & F6 & F7 & F8).
      destruct HokB as (K1 & K2 & K3 & K4).
      change (ri_mercurana (set_rim r rim6)) with rim6.
      change (particles (set_rim r rim6)) with (particles r).
      split; [reflexivity|].
      split; [rewrite F6; apply Hrow3|].
      split; [rewrite F7; exact HN3|].
      unfold shell_members at 2 4. fold rim. fold N. fold map_s.
      split; [exact K2|]. split; [exact K3|]. exact K4.
Qed.

Lemma particle_at_upd_same (ps : list reb_particle) (m : nat) (p : reb_particle) :
  (m < List.length ps)%nat -> particle_at (upd_nat m p ps) m = p.
Proof. intros H. unfold particle_at. apply upd_nat_nth_same. exact H. Qed.

Lemma particle_at_upd_other (ps : list reb_particle) (m m' : nat) (p : reb_particle) :
  m <> m' -> particle_at (upd_nat m p ps) m' = particle_at ps m'.
Proof. intros H. unfold particle_at. apply upd_nat_nth_other. exact H. Qed.

(** The position loop of the drift step moves the in-shell particles of the
    shell, each once, and nothing else. *)
Lemma drift_positions_spec (r : reb_simulation) (a : R) (shell : nat) :
  let rim := ri_mercurana r in
  let N := shellN_at rim shell in
  let map_s := map_row rim shell in
  (N <= List.length map_s)%nat ->
  NoDup (firstn N map_s) ->
  (forall m, In m (firstn N map_s) -> (m < List.length (particles r))%nat) ->
  let r' := drift_positions r a shell in
  ri_mercurana r' = rim /\
  forall m,
    (In m (firstn N map_s) -> nonzero (nth m (inshell rim) 0%nat) = true ->
     particle_at (particles r') m = drifted a (particle_at (particles r) m)) /\
    (~ In m (firstn N map_s) \/ nonzero (nth m (inshell rim) 0%nat) = false ->
     particle_at (particles r') m = particle_at (particles r) m).
Proof.
  intros rim N map_s HN Hnd Hlen r'. subst r'. unfold drift_positions.
  fold rim. fold N. fold map_s.
  pose (P := fun (i : nat) (s : reb_simulation) =>
    ri_mercurana s = rim /\
    List.length (particles s) = List.length (particles r) /\
    forall m,
      (In m (firstn i map_s) -> nonzero (nth m (inshell rim) 0%nat) = true ->
       particle_at (particles s) m = drifted a (particle_at (particles r) m)) /\
      (~ In m (firstn i map_s) \/ nonzero (nth m (inshell rim) 0%nat) = false ->
       particle_at (particles s) m = particle_at (particles r) m)).
  assert (HP : P N (for_nat 0 N (fun i r0 =>
     let mi := nth i map_s 0%nat in
     if nonzero (nth mi (inshell rim) 0%nat) then
       let p := particle_at (particles r0) mi in
       set_particles r0
         (upd_nat mi (set_pos p (p_x p + a * p_vx p) (p_y p + a * p_vy p)
                                (p_z p + a * p_vz p))%R (particles r0))
     else r0) r)).
  { apply for_nat_inv; [lia| |].
    - unfold P. repeat (split; [reflexivity|]).
      intros m. split; [intros Hm; simpl in Hm; contradiction | reflexivity].
    - intros i s Hi (Hrim & Hl & Hps). unfold P. cbv zeta.
      assert (Hpre : firstn (Datatypes.S i) map_s
                     = firstn i map_s ++ [nth i map_s 0%nat])
        by (apply firstn_S_nth; lia).
      assert (Hfresh : ~ In (nth i map_s 0%nat) (firstn i map_s)).
      { apply NoDup_firstn_nth; [lia|]. eapply NoDup_firstn_le; [|exact Hnd]. lia. }
      assert (HmiN : In (nth i map_s 0%nat) (firstn N map_s)).
      { eapply In_firstn_le with (n := Datatypes.S i); [lia|].
        rewrite Hpre. apply in_or_app. right. left. reflexivity. }
      destruct (nonzero (nth (nth i map_s 0%nat) (inshell rim) 0%nat)) eqn:Enz.
      + split; [exact Hrim|].
        split; [simpl; rewrite upd_nat_length; exact Hl|].
        intros m. simpl particles.
        destruct (Nat.eq_dec m (nth i map_s 0%nat)) as [->|Hne].
        * rewrite particle_at_upd_same by (rewrite Hl; apply Hlen; exact HmiN).
          split.
          -- intros _ _. destruct (Hps (nth i map_s 0%nat)) as [_ Hsame].
             rewrite Hsame by (left; exact Hfresh). reflexivity.
          -- intros [Hn|Hn]; [|congruence].
             exfalso. apply Hn. rewrite Hpre. apply in_or_app. right. left. reflexivity.
        * rewrite particle_at_upd_other by congruence.
          destruct (Hps m) as [Hmoved Hsame]. split.
          -- intros Hm Hz. apply Hmoved; [|exact Hz].
             rewrite Hpre in Hm. apply in_app_or in Hm.
             destruct Hm as [Hm|[Hm|[]]]; [exact Hm | congruence].
          -- intros [Hn|Hn]; apply Hsame; [left|right; exact Hn].
             intros Hm. apply Hn. rewrite Hpre. apply in_or_app. left. exact Hm.
      + split; [exact Hrim|]. split; [exact Hl|].
        intros m. destruct (Hps m) as [Hmoved Hsame]. split.
        * intros Hm Hz. apply Hmoved; [|exact Hz].
          rewrite Hpre in Hm. apply in_app_or in Hm.
          destruct Hm as [Hm|[Hm|[]]]; [exact Hm | congruence].
        * intros [Hn|Hn]; apply Hsame; [left|right; exact Hn].
          intros Hm. apply Hn. rewrite Hpre. apply in_or_app. left. exact Hm. }
  destruct HP as (H1 & _ & H3). split; assumption.
Qed.

(** C4, with "subset" in place of "strict subset". After
    [reb_mercurana_encounter_predict] at shell [s], shell [s] is as before,
    every particle of shell [s+1] is a particle of shell [s] and occurs once
    in shell [s+1], a particle of shell [s] has [inshell = 1] if and only if
    it was not promoted (and [inshell = 0] if and only if it was), and the
    position loop of the drift step that follows moves exactly the particles
    of shell [s] with [inshell = 1]. *)
Theorem encounter_predict_shell_containment :
  forall (r : reb_simulation) (dt : R) (shell : nat),
    shell_ok r shell ->
    let r' := reb_mercurana_encounter_predict r dt shell in
    let rim := ri_mercurana r in
    let rim' := ri_mercurana r' in
    let members := shell_members rim shell in
    let sub := shell_members rim' (shell + 1) in
    shell_members rim' shell = members /\
    incl sub members /\
    NoDup sub /\
    (forall m, In m members ->
       (nth m (inshell rim') 0%nat = 1%nat <-> ~ In m sub) /\
       (nth m (inshell rim') 0%nat = 0%nat <-> In m sub)) /\
    (forall (a : R) (m : nat),
       let ps' := particles (drift_positions r' a shell) in
       (In m members -> nth m (inshell rim') 0%nat = 1%nat ->
        particle_at ps' m = drifted a (particle_at (particles r) m)) /\
       (~ (In m members /\ nth m (inshell rim') 0%nat = 1%nat) ->
        particle_at ps' m = particle_at (particles r) m)).
Proof.
  intros r dt shell Hok r' rim rim' members sub.
  pose proof (@encounter_predict_spec r dt shell Hok) as Hspec.
  cbv zeta in Hspec. fold r' in Hspec. fold rim in Hspec. fold rim' in Hspec.
  fold sub in Hspec. fold members in Hspec.
  destruct Hspec as (Hps & Hrow & HN & Hincl & Hnd & Hin).
  destruct Hok as (Hsh & Hlmap & HlN & HNle & Hact & Hrow1 & Hlen & Hnd0 & Hwh).
  cbv zeta in Hsh, Hlmap, HlN, HNle, Hact, Hrow1, Hlen, Hnd0, Hwh.
  fold rim in Hsh, Hlmap, HlN, HNle, Hact, Hrow1, Hlen, Hnd0, Hwh.
  assert (Hmem : shell_members rim' shell = members)
    by (unfold members, shell_members; rewrite Hrow, HN; reflexivity).
  assert (Hiff : forall m, In m members ->
            (nth m (inshell rim') 0%nat = 1%nat <-> ~ In m sub) /\
            (nth m (inshell rim') 0%nat = 0%nat <-> In m sub)).
  { intros m Hm. destruct (Hin m Hm) as [H0 H1].
    destruct (in_dec Nat.eq_dec m sub) as [Hs|Hs].
    - specialize (H0 Hs).
      split; split; intros H; try congruence; try contradiction; auto.
    - specialize (H1 Hs).
      split; split; intros H; try congruence; try contradiction; auto. }
  split; [exact Hmem|]. split; [exact Hincl|]. split; [exact Hnd|].
  split; [exact Hiff|].
  intros a m ps'.
  pose proof (@drift_positions_spec r' a shell) as Hdrift. cbv zeta in Hdrift.
  fold rim' in Hdrift. rewrite Hrow, HN, Hps in Hdrift.
  specialize (Hdrift HNle Hnd0 ltac:(intros x Hx; apply Hlen; exact Hx)).
  destruct Hdrift as [_ Hdrift]. destruct (Hdrift m) as [Hmoved Hsame].
  subst ps'. split.
  - intros Hm H1. apply Hmoved; [exact Hm|]. rewrite H1. reflexivity.
  - intros Hn. apply Hsame.
    destruct (in_dec Nat.eq_dec m members) as [Hm|Hm]; [right | left; exact Hm].
    destruct (Hiff m Hm) as [[_ I1] [_ I0]].
    destruct (in_dec Nat.eq_dec m sub) as [Hs|Hs].
    + rewrite (I0 Hs). reflexivity.
    + exfalso. apply Hn. split; [exact Hm | apply I1; exact Hs].
Qed.

Lemma two_body_shell_ok (wh : nat) : shell_ok (two_body wh) 0.
Proof.
  unfold shell_ok, shell_members, shellN_at, shellN_active_at, map_row. simpl.
  split; [lia|]. split; [reflexivity|]. split; [reflexivity|].
  split; [lia|]. split; [lia|]. split; [intros; lia|].
  split; [intros m [<-|[<-|[]]]; lia|].
  split; [repeat constructor; simpl; intuition lia|].
  intros; lia.
Qed.

Lemma encounter_predict_shell_containment_witness :
  let r' := reb_mercurana_encounter_predict (two_body 0) 1 0 in
  let sub := shell_members (ri_mercurana r') 1 in
  incl sub (shell_members (two_body_rim 0) 0) /\ NoDup sub.
Proof.
  destruct (@encounter_predict_shell_containment (two_body 0) 1%R 0%nat
              (two_body_shell_ok 0)) as (_ & H2 & H3 & _).
  split; assumption.
Defined.

(** C4 as stated fails: under WH splitting the predictor at shell [0]
    forwards every particle, so shell [1] is all of shell [0] and not a strict
    subset of it. *)
Lemma deeper_shell_not_strict_subset :
  let r' := reb_mercurana_encounter_predict (two_body 1) 1 0 in
  let members := shell_members (two_body_rim 1) 0 in
  let sub := shell_members (ri_mercurana r') 1 in
  shell_ok (two_body 1) 0 /\
  members = [0; 1]%nat /\ sub = [0; 1]%nat /\
  ~ (incl sub members /\ ~ incl members sub).
Proof.
  cbv zeta.
  assert (Hsub : shell_members
                   (ri_mercurana (reb_mercurana_encounter_predict (two_body 1) 1 0)) 1
                 = [0; 1]%nat) by reflexivity.
  split; [apply two_body_shell_ok|]. split; [reflexivity|]. split; [exact Hsub|].
  rewrite Hsub. intros [_ Hn]. apply Hn. apply incl_refl.
Qed.

(** ** MERCURANA: the kick conserves the momentum of a fully active shell *)

Local Open Scope R_scope.

Lemma sum_below_update (g g' : nat -> R) (n k : nat) :
  (k < n)%nat ->
  (forall i, (i < n)%nat -> i <> k -> g' i = g i) ->
  sum_below g' n = sum_below g n + (g' k - g k).
Proof.
  induction n as [|n IH]; intros Hk Hsame; [lia|].
  simpl. destruct (Nat.eq_dec k n) as [->|Hne].
  - rewrite (@sum_below_ext g' g n) by (intros; apply Hsame; lia). ring.
  - rewrite IH by (try lia; intros; apply Hsame; lia).
    rewrite (Hsame n) by lia. ring.
Qed.

Lemma sum_below_zero (g : nat -> R) (n : nat) :
  (forall i, (i < n)%nat -> g i = 0) -> sum_below g n = 0.
Proof.
  induction n as [|n IH]; intros H; simpl; [reflexivity|].
  rewrite IH by (intros; apply H; lia). rewrite H by lia. ring.
Qed.

Lemma sum_below_linear (g h k : nat -> R) (y v : R) (n : nat) :
  sum_below (fun i => g i + (y * h i + v * k i)) n
  = sum_below g n + (y * sum_below h n + v * sum_below k n).
Proof. induction n as [|n IH]; simpl; [ring|]. rewrite IH. ring. Qed.

Lemma shell_index_injective (map_s : list nat) (N i j : nat) :
  NoDup (firstn N map_s) -> (N <= List.length map_s)%nat ->
  (i < N)%nat -> (j < N)%nat ->
  nth i map_s 0%nat = nth j map_s 0%nat -> i = j.
Proof.
  intros Hnd HN Hi Hj Heq.
  assert (Hlen : List.length (firstn N map_s) = N) by (rewrite length_firstn; lia).
  apply (proj1 (NoDup_nth (firstn N map_s) 0%nat) Hnd); try lia.
  rewrite !nth_firstn.
  replace (i <? N)%nat with true by (symmetry; apply Nat.ltb_lt; lia).
  replace (j <? N)%nat with true by (symmetry; apply Nat.ltb_lt; lia).
  exact Heq.
Qed.

Lemma shell_index_member (map_s : list nat) (N i : nat) :
  (N <= List.length map_s)%nat -> (i < N)%nat ->
  In (nth i map_s 0%nat) (firstn N map_s).
Proof.
  intros HN Hi. eapply In_firstn_le with (n := Datatypes.S i); [lia|].
  rewrite (firstn_S_nth 0%nat) by lia. apply in_or_app. right. left. reflexivity.
Qed.

Lemma before_kick_refl (r : reb_simulation) : before_kick r r.
Proof. unfold before_kick. repeat split; reflexivity. Qed.

Lemma before_kick_trans (r0 r1 r2 : reb_simulation) :
  before_kick r0 r1 -> before_kick r1 r2 -> before_kick r0 r2.
Proof.
  unfold before_kick.
  intros (A1 & A2 & A3 & A4 & A5 & A6 & A7 & A8) (B1 & B2 & B3 & B4 & B5 & B6 & B7 & B8).
  repeat split; try congruence.
  - rewrite (proj1 (B8 m)). apply A8.
  - intros a. rewrite (proj2 (B8 m)). apply A8.
Qed.

(** Writing a particle of the same mass and velocity. *)
Lemma before_kick_set_particle (r : reb_simulation) (m : nat) (p' : reb_particle) :
  p_m p' = p_m (particle_at (particles r) m) ->
  (forall a, vel_of a p' = vel_of a (particle_at (particles r) m)) ->
  before_kick r (set_particles r (upd_nat m p' (particles r))).
Proof.
  intros Hm Hv. unfold before_kick. simpl.
  repeat split; try reflexivity; try apply upd_nat_length.
  - destruct (Nat.eq_dec m m0) as [<-|Hne].
    + destruct (lt_dec m (List.length (particles r))) as [Hlt|Hge].
      * rewrite particle_at_upd_same by exact Hlt. exact Hm.
      * rewrite upd_nat_out by lia. reflexivity.
    + rewrite particle_at_upd_other by exact Hne. reflexivity.
  - intros a. destruct (Nat.eq_dec m m0) as [<-|Hne].
    + destruct (lt_dec m (List.length (particles r))) as [Hlt|Hge].
      * rewrite particle_at_upd_same by exact Hlt. apply Hv.
      * rewrite upd_nat_out by lia. reflexivity.
    + rewrite particle_at_upd_other by exact Hne. reflexivity.
Qed.

(** Writing the jerk buffer. *)
Lemma before_kick_set_jerk (r : reb_simulation) (jk : list reb_particle) :
  List.length jk = List.length (jerk (ri_mercurana r)) ->
  before_kick r (set_rim r (set_jerk (ri_mercurana r) jk)).
Proof. intros H. unfold before_kick. simpl. repeat split; try reflexivity. exact H. Qed.

Lemma before_kick_map_row (r0 r : reb_simulation) (shell : nat) :
  before_kick r0 r -> map_row (ri_mercurana r) shell = map_row (ri_mercurana r0) shell.
Proof. intros (H & _). unfold map_row. rewrite H. reflexivity. Qed.

Lemma before_kick_shellN (r0 r : reb_simulation) (shell : nat) :
  before_kick r0 r -> shellN_at (ri_mercurana r) shell = shellN_at (ri_mercurana r0) shell.
Proof. intros (_ & H & _). unfold shellN_at. rewrite H. reflexivity. Qed.

Lemma before_kick_shell_wf (r0 r : reb_simulation) (shell : nat) :
  before_kick r0 r -> shell_wf r0 shell -> shell_wf r shell.
Proof.
  intros Hb (W1 & W2 & W3 & W4). unfold shell_wf, shell_members.
  rewrite (before_kick_map_row shell Hb), (before_kick_shellN shell Hb).
  destruct Hb as (_ & _ & _ & _ & _ & B6 & B7 & _). rewrite B6, B7.
  repeat split; assumption.
Qed.

Lemma before_kick_momentum (r0 r : reb_simulation) (shell : nat) (a : axis) :
  before_kick r0 r -> momentum a r shell = momentum a r0 shell.
Proof.
  intros Hb. unfold momentum, shell_sum, shell_particle.
  rewrite (before_kick_map_row shell Hb), (before_kick_shellN shell Hb).
  destruct Hb as (_ & _ & _ & _ & _ & _ & _ & B8).
  apply sum_below_ext. intros i _.
  rewrite (proj1 (B8 _)), (proj2 (B8 _)). reflexivity.
Qed.

(** Writing one particle of the shell changes a weighted sum by the
    difference of its term. *)
Lemma shell_sum_set_particle (f : reb_particle -> R) (r : reb_simulation)
    (shell k : nat) (p' : reb_particle) :
  let m := nth k (map_row (ri_mercurana r) shell) 0%nat in
  let p := particle_at (particles r) m in
  shell_wf r shell ->
  (k < shellN_at (ri_mercurana r) shell)%nat ->
  shell_sum f (set_particles r (upd_nat m p' (particles r))) shell
  = shell_sum f r shell + (p_m p' * f p' - p_m p * f p).
Proof.
  intros m p (W1 & W2 & W3 & W4) Hk. unfold shell_sum, shell_particle. simpl.
  assert (Hm : (m < List.length (particles r))%nat).
  { apply W4. apply shell_index_member; assumption. }
  rewrite (@sum_below_update
             (fun i => p_m (particle_at (particles r)
                                        (nth i (map_row (ri_mercurana r) shell) 0%nat))
                       * f (particle_at (particles r)
                                        (nth i (map_row (ri_mercurana r) shell) 0%nat)))
             _ _ k Hk).
  - fold m. rewrite particle_at_upd_same by exact Hm. reflexivity.
  - intros i Hi Hne. rewrite particle_at_upd_other; [reflexivity|].
    intros Heq. apply Hne. symmetry.
    eapply shell_index_injective; eauto.
Qed.

(** Writing a jerk entry of the shell changes the sum of the jerks by the
    difference of its term. *)
Lemma total_jerk_set_jerk (a : axis) (r : reb_simulation) (shell k : nat)
    (p' : reb_particle) :
  let jk := jerk (ri_mercurana r) in
  shell_wf r shell ->
  (k < shellN_at (ri_mercurana r) shell)%nat ->
  total_jerk a (set_rim r (set_jerk (ri_mercurana r) (upd_nat k p' jk))) shell
  = total_jerk a r shell
    + p_m (shell_particle r shell k) * (acc_of a p' - acc_of a (particle_at jk k)).
Proof.
  intros jk (W1 & W2 & W3 & W4) Hk. unfold total_jerk, shell_particle. simpl.
  change (shellN_at (set_jerk (ri_mercurana r) (upd_nat k p' jk)) shell)
    with (shellN_at (ri_mercurana r) shell).
  change (map_row (set_jerk (ri_mercurana r) (upd_nat k p' jk)) shell)
    with (map_row (ri_mercurana r) shell).
  rewrite (@sum_below_update
             (fun i => p_m (particle_at (particles r)
                                        (nth i (map_row (ri_mercurana r) shell) 0%nat))
                       * acc_of a (particle_at jk i))
             _ _ k Hk).
  - rewrite particle_at_upd_same by (fold jk in W2; lia). fold jk. ring.
  - intros i Hi Hne. rewrite particle_at_upd_other by congruence. reflexivity.
Qed.

(** A weighted sum reads the particles and the map of the shell only. *)
Lemma shell_sum_set_jerk (f : reb_particle -> R) (r : reb_simulation) (shell : nat)
    (jk : list reb_particle) :
  shell_sum f (set_rim r (set_jerk (ri_mercurana r) jk)) shell = shell_sum f r shell.
Proof. reflexivity. Qed.

Lemma shell_wf_set_jerk (r : reb_simulation) (shell : nat) (jk : list reb_particle) :
  List.length jk = List.length (jerk (ri_mercurana r)) ->
  shell_wf r shell -> shell_wf (set_rim r (set_jerk (ri_mercurana r) jk)) shell.
Proof.
  intros H Hwf. eapply before_kick_shell_wf; [|exact Hwf].
  apply before_kick_set_jerk. exact H.
Qed.

(** [particles[m].a += da] for the particle [m = map[k]] of the shell. *)
Lemma add_acc_step (r : reb_simulation) (shell k : nat) (dax day daz : R) :
  let m := nth k (map_row (ri_mercurana r) shell) 0%nat in
  let r' := set_particles r (add_acc (particles r) m dax day daz) in
  shell_wf r shell ->
  (k < shellN_at (ri_mercurana r) shell)%nat ->
  before_kick r r' /\
  forall a, total_force a r' shell
            = total_force a r shell + p_m (particle_at (particles r) m) * pick a dax day daz.
Proof.
  intros m r' Hwf Hk. split.
  - apply before_kick_set_particle; [reflexivity|]. intros []; reflexivity.
  - intros a. unfold r', add_acc, total_force.
    rewrite (shell_sum_set_particle (acc_of a) _ Hwf Hk). fold m.
    destruct a; simpl; ring.
Qed.

(** The force of a pair of active particles: the two contributions cancel in
    the total force. *)
Lemma accel_active_pair_step (r : reb_simulation) (shell i j : nat) :
  shell_wf r shell ->
  (i < shellN_at (ri_mercurana r) shell)%nat ->
  (j < shellN_at (ri_mercurana r) shell)%nat ->
  before_kick r (accel_active_pair shell i j r) /\
  forall a, total_force a (accel_active_pair shell i j r) shell = total_force a r shell.
Proof.
  intros Hwf Hi Hj.
  set (map_s := map_row (ri_mercurana r) shell).
  set (mi := nth i map_s 0%nat). set (mj := nth j map_s 0%nat).
  set (ps := particles r).
  set (dx := p_x (particle_at ps mi) - p_x (particle_at ps mj)).
  set (dy := p_y (particle_at ps mi) - p_y (particle_at ps mj)).
  set (dz := p_z (particle_at ps mi) - p_z (particle_at ps mj)).
  set (dr := sqrt (dx * dx + dy * dy + dz * dz)).
  set (prefact := G r * Lsum_of (ri_mercurana r) shell i dr mi mj / (dr * dr * dr)).
  set (prefactj := - prefact * p_m (particle_at ps mj)).
  set (prefacti := prefact * p_m (particle_at ps mi)).
  set (r1 := set_particles r (add_acc ps mi (prefactj * dx) (prefactj * dy) (prefactj * dz))).
  change (accel_active_pair shell i j r)
    with (set_particles r1 (add_acc (particles r1) (nth j (map_row (ri_mercurana r1) shell) 0%nat)
                                    (prefacti * dx) (prefacti * dy) (prefacti * dz))).
  destruct (@add_acc_step r shell i (prefactj * dx) (prefactj * dy) (prefactj * dz) Hwf Hi)
    as [Hb1 Hf1].
  fold map_s mi ps r1 in Hb1, Hf1.
  assert (Hwf1 : shell_wf r1 shell) by (eapply before_kick_shell_wf; eauto).
  assert (Hj1 : (j < shellN_at (ri_mercurana r1) shell)%nat) by exact Hj.
  destruct (@add_acc_step r1 shell j (prefacti * dx) (prefacti * dy) (prefacti * dz) Hwf1 Hj1)
    as [Hb2 Hf2].
  split; [eapply before_kick_trans; eauto|].
  intros a. rewrite Hf2, Hf1.
  change (nth j (map_row (ri_mercurana r1) shell) 0%nat) with mj.
  destruct Hb1 as (_ & _ & _ & _ & _ & _ & _ & B8).
  rewrite (proj1 (B8 mj)). fold ps.
  unfold prefacti, prefactj. destruct a; simpl; ring.
Qed.

(** [jerk[k].a += da] and [jerk[k].a -= da] for an index [k] of the shell. *)
Lemma add_jerk_step (r : reb_simulation) (shell k : nat) (dax day daz : R) :
  let r' := set_rim r (set_jerk (ri_mercurana r)
                                (add_jerk (jerk (ri_mercurana r)) k dax day daz)) in
  shell_wf r shell ->
  (k < shellN_at (ri_mercurana r) shell)%nat ->
  before_kick r r' /\
  forall a, total_jerk a r' shell
            = total_jerk a r shell + p_m (shell_particle r shell k) * pick a dax day daz.
Proof.
  intros r' Hwf Hk. split.
  - apply before_kick_set_jerk. apply upd_nat_length.
  - intros a. unfold r', add_jerk.
    rewrite (total_jerk_set_jerk a _ Hwf Hk). destruct a; simpl; ring.
Qed.

Lemma sub_jerk_step (r : reb_simulation) (shell k : nat) (dax day daz : R) :
  let r' := set_rim r (set_jerk (ri_mercurana r)
                                (sub_jerk (jerk (ri_mercurana r)) k dax day daz)) in
  shell_wf r shell ->
  (k < shellN_at (ri_mercurana r) shell)%nat ->
  before_kick r r' /\
  forall a, total_jerk a r' shell
            = total_jerk a r shell - p_m (shell_particle r shell k) * pick a dax day daz.
Proof.
  intros r' Hwf Hk. split.
  - apply before_kick_set_jerk. apply upd_nat_length.
  - intros a. unfold r', sub_jerk.
    rewrite (total_jerk_set_jerk a _ Hwf Hk). destruct a; simpl; ring.
Qed.

(** The jerk of a pair of active particles: the four contributions cancel in
    the mass-weighted sum of the jerks, and the particles are not written. *)
Lemma jerk_active_pair_step (r : reb_simulation) (shell i j : nat) :
  shell_wf r shell ->
  (i < shellN_at (ri_mercurana r) shell)%nat ->
  (j < shellN_at (ri_mercurana r) shell)%nat ->
  before_kick r (jerk_active_pair shell i j r) /\
  particles (jerk_active_pair shell i j r) = particles r /\
  forall a, total_jerk a (jerk_active_pair shell i j r) shell = total_jerk a r shell.
Proof.
  intros Hwf Hi Hj.
  set (map_s := map_row (ri_mercurana r) shell).
  set (mi := nth i map_s 0%nat). set (mj := nth j map_s 0%nat).
  set (ps := particles r).
  set (dx := p_x (particle_at ps mj) - p_x (particle_at ps mi)).
  set (dy := p_y (particle_at ps mj) - p_y (particle_at ps mi)).
  set (dz := p_z (particle_at ps mj) - p_z (particle_at ps mi)).
  set (dax := p_ax (particle_at ps mj) - p_ax (particle_at ps mi)).
  set (day := p_ay (particle_at ps mj) - p_ay (particle_at ps mi)).
  set (daz := p_az (particle_at ps mj) - p_az (particle_at ps mi)).
  set (dr := sqrt (dx * dx + dy * dy + dz * dz)).
  set (Lsum := Lsum_of (ri_mercurana r) shell i dr mi mj).
  set (dLdrsum := dLdrsum_of (ri_mercurana r) shell i dr mi mj).
  set (prefact2 := 2 * G r / (dr * dr * dr)).
  set (prefact2i := Lsum * prefact2 * p_m (particle_at ps mi)).
  set (prefact2j := Lsum * prefact2 * p_m (particle_at ps mj)).
  set (prefact1 := (dax * dx + day * dy + daz * dz) * prefact2 / dr * (3 * Lsum / dr - dLdrsum)).
  set (prefact1i := prefact1 * p_m (particle_at ps mi)).
  set (prefact1j := prefact1 * p_m (particle_at ps mj)).
  set (r1 := set_rim r (set_jerk (ri_mercurana r)
               (sub_jerk (jerk (ri_mercurana r)) j
                         (dax * prefact2i) (day * prefact2i) (daz * prefact2i)))).
  set (r2 := set_rim r1 (set_jerk (ri_mercurana r1)
               (add_jerk (jerk (ri_mercurana r1)) i
                         (dax * prefact2j) (day * prefact2j) (daz * prefact2j)))).
  set (r3 := set_rim r2 (set_jerk (ri_mercurana r2)
               (add_jerk (jerk (ri_mercurana r2)) j
                         (dx * prefact1i) (dy * prefact1i) (dz * prefact1i)))).
  set (r4 := set_rim r3 (set_jerk (ri_mercurana r3)
               (sub_jerk (jerk (ri_mercurana r3)) i
                         (dx * prefact1j) (dy * prefact1j) (dz * prefact1j)))).
  change (jerk_active_pair shell i j r) with r4.
  destruct (@sub_jerk_step r shell j (dax * prefact2i) (day * prefact2i) (daz * prefact2i)
                           Hwf Hj) as [Hb1 Hf1].
  fold r1 in Hb1, Hf1.
  assert (Hwf1 : shell_wf r1 shell) by (eapply before_kick_shell_wf; eauto).
  destruct (@add_jerk_step r1 shell i (dax * prefact2j) (day * prefact2j) (daz * prefact2j)
                           Hwf1 Hi) as [Hb2 Hf2].
  fold r2 in Hb2, Hf2.
  assert (Hwf2 : shell_wf r2 shell) by (eapply before_kick_shell_wf; eauto).
  destruct (@add_jerk_step r2 shell j (dx * prefact1i) (dy * prefact1i) (dz * prefact1i)
                           Hwf2 Hj) as [Hb3 Hf3].
  fold r3 in Hb3, Hf3.
  assert (Hwf3 : shell_wf r3 shell) by (eapply before_kick_shell_wf; eauto).
  destruct (@sub_jerk_step r3 shell i (dx * prefact1j) (dy * prefact1j) (dz * prefact1j)
                           Hwf3 Hi) as [Hb4 Hf4].
  fold r4 in Hb4, Hf4.
  split; [|split; [reflexivity|]].
  - eapply before_kick_trans; [|exact Hb4].
    eapply before_kick_trans; [|exact Hb3].
    eapply before_kick_trans; eauto.
  - intros a. rewrite Hf4, Hf3, Hf2, Hf1.
    change (shell_particle r3 shell i) with (particle_at ps mi).
    change (shell_particle r2 shell j) with (particle_at ps mj).
    change (shell_particle r1 shell i) with (particle_at ps mi).
    change (shell_particle r shell j) with (particle_at ps mj).
    unfold prefact1i, prefact1j, prefact2i, prefact2j. destruct a; simpl; ring.
Qed.

(** A loop that can [return] keeps an invariant of its body, whichever way it
    is left. *)
Lemma for_ret_iter_inv (S : Type) (I : S -> Prop) (body : nat -> S -> S + S) :
  forall (cnt lo : nat) (s : S),
    I s ->
    (forall i s', (lo <= i < lo + cnt)%nat -> I s' -> I (returned (body i s'))) ->
    I (returned (for_ret_iter cnt lo body s)).
Proof.
  induction cnt as [|cnt IH]; intros lo s H0 Hstep; simpl; [exact H0|].
  pose proof (Hstep lo s ltac:(lia) H0) as H1.
  destruct (body lo s) as [s'|s']; simpl in H1; [exact H1|].
  apply IH; [exact H1|]. intros i s'' Hi. apply Hstep. lia.
Qed.

Lemma pair_loop_inv (I : reb_simulation -> Prop) (lo hi : nat) (jlo : nat -> nat)
    (jhi : nat) (body : nat -> nat -> reb_simulation -> reb_simulation)
    (r : reb_simulation) :
  I r ->
  (forall i j s, (lo <= i < hi)%nat -> (jlo i <= j < jhi)%nat -> I s -> I (body i j s)) ->
  I (returned (pair_loop lo hi jlo jhi body r)).
Proof.
  intros H0 Hstep. unfold pair_loop, for_ret.
  apply for_ret_iter_inv; [exact H0|].
  intros i s Hi Hs. destruct (reb_sigint s); simpl; [exact Hs|].
  destruct (le_lt_dec (jlo i) jhi) as [Hle|Hgt].
  - apply (@for_nat_inv _ (fun _ s => I s)); [exact Hle|exact Hs|].
    intros j s' Hj Hs'. apply Hstep; [lia|lia|exact Hs'].
  - unfold for_nat. replace (jhi - jlo i)%nat with 0%nat by lia. exact Hs.
Qed.

(** A pair loop over no particle goes on with the state it got. *)
Lemma pair_loop_empty (lo : nat) (jlo : nat -> nat) (jhi : nat)
    (body : nat -> nat -> reb_simulation -> reb_simulation) (r : reb_simulation) :
  pair_loop lo lo jlo jhi body r = inr r.
Proof. unfold pair_loop, for_ret. rewrite Nat.sub_diag. reflexivity. Qed.

(** The accelerations of the shell are zeroed: no force is left. *)
Lemma zero_accelerations_spec (r : reb_simulation) (shell : nat) :
  shell_wf r shell ->
  before_kick r (zero_accelerations shell r) /\
  forall a, total_force a (zero_accelerations shell r) shell = 0.
Proof.
  intros Hwf. unfold zero_accelerations. cbv zeta.
  set (N := shellN_at (ri_mercurana r) shell).
  set (map_s := map_row (ri_mercurana r) shell).
  assert (H : (fun i s => before_kick r s /\
                 forall k a, (k < i)%nat -> acc_of a (shell_particle s shell k) = 0)
              N (for_nat 0 N (fun i r0 =>
                   set_particles r0
                     (upd_nat (nth i map_s 0%nat)
                              (set_acc (particle_at (particles r0) (nth i map_s 0%nat)) 0 0 0)
                              (particles r0))) r)).
  { apply for_nat_inv; [lia| |].
    - split; [apply before_kick_refl|]. intros; lia.
    - intros i s Hi [Hb Hz].
      set (mi := nth i map_s 0%nat).
      assert (Hb' : before_kick s (set_particles s
                 (upd_nat mi (set_acc (particle_at (particles s) mi) 0 0 0) (particles s)))).
      { apply before_kick_set_particle; [reflexivity|]. intros []; reflexivity. }
      split; [eapply before_kick_trans; eauto|].
      intros k a Hk. unfold shell_particle. simpl.
      assert (Hwfs : shell_wf s shell) by (eapply before_kick_shell_wf; eauto).
      destruct Hwfs as (W1 & _ & _ & W4).
      rewrite (before_kick_map_row shell Hb) in *.
      rewrite (before_kick_shellN shell Hb) in *. fold map_s N in W1, W4 |- *.
      destruct (Nat.eq_dec (nth k map_s 0%nat) mi) as [->|Hne].
      + rewrite particle_at_upd_same; [destruct a; reflexivity|].
        apply W4. unfold shell_members.
        rewrite (before_kick_map_row shell Hb), (before_kick_shellN shell Hb).
        apply shell_index_member; [exact W1|lia].
      + rewrite particle_at_upd_other by congruence.
        assert (Hki : (k < i)%nat).
        { destruct (Nat.eq_dec k i) as [->|]; [exfalso; apply Hne; reflexivity|lia]. }
        specialize (Hz k a Hki). unfold shell_particle in Hz.
        rewrite (before_kick_map_row shell Hb) in Hz. exact Hz. }
  destruct H as [Hb Hz]. split; [exact Hb|].
  intros a. unfold total_force, shell_sum.
  rewrite (before_kick_shellN shell Hb). fold N.
  apply sum_below_zero. intros i Hi. rewrite (Hz i a Hi). ring.
Qed.

(** The jerk buffer of the shell is zeroed. *)
Lemma zero_jerk_spec (r : reb_simulation) (shell : nat) :
  shell_wf r shell ->
  before_kick r (zero_jerk shell r) /\
  particles (zero_jerk shell r) = particles r /\
  forall a, total_jerk a (zero_jerk shell r) shell = 0.
Proof.
  intros Hwf. unfold zero_jerk. cbv zeta.
  set (N := shellN_at (ri_mercurana r) shell).
  assert (H : (fun i s => before_kick r s /\ particles s = particles r /\
                 forall k a, (k < i)%nat ->
                             acc_of a (particle_at (jerk (ri_mercurana s)) k) = 0)
              N (for_nat 0 N (fun j r0 =>
                   set_rim r0 (set_jerk (ri_mercurana r0)
                     (upd_nat j (set_acc (particle_at (jerk (ri_mercurana r0)) j) 0 0 0)
                              (jerk (ri_mercurana r0))))) r)).
  { apply for_nat_inv; [lia| |].
    - split; [apply before_kick_refl|]. split; [reflexivity|]. intros; lia.
    - intros i s Hi (Hb & Hp & Hz).
      split; [|split; [exact Hp|]].
      + eapply before_kick_trans; [exact Hb|].
        apply before_kick_set_jerk. apply upd_nat_length.
      + intros k a Hk. simpl.
        destruct (before_kick_shell_wf Hb Hwf) as (_ & W2 & _).
        rewrite (before_kick_shellN shell Hb) in W2. fold N in W2.
        destruct (Nat.eq_dec k i) as [->|Hne].
        * rewrite particle_at_upd_same by lia. destruct a; reflexivity.
        * rewrite particle_at_upd_other by congruence. apply Hz. lia. }
  destruct H as (Hb & Hp & Hz). split; [exact Hb|]. split; [exact Hp|].
  intros a. unfold total_jerk.
  rewrite (before_kick_shellN shell Hb). fold N.
  apply sum_below_zero. intros i Hi. rewrite (Hz i a Hi). ring.
Qed.

(** The velocity update adds [y] times the total force and [v] times the sum
    of the jerks to the momentum of the shell. *)
Lemma kick_with_jerk_spec (r : reb_simulation) (y v : R) (shell : nat) :
  shell_wf r shell ->
  forall a, momentum a (kick_with_jerk y v shell r) shell
            = momentum a r shell + (y * total_force a r shell + v * total_jerk a r shell).
Proof.
  intros Hwf. unfold kick_with_jerk. cbv zeta.
  set (N := shellN_at (ri_mercurana r) shell).
  set (map_s := map_row (ri_mercurana r) shell).
  set (jk := jerk (ri_mercurana r)).
  pose (P := fun (i : nat) (s : reb_simulation) =>
                 ri_mercurana s = ri_mercurana r /\
                 List.length (particles s) = List.length (particles r) /\
                 forall k, (k < N)%nat ->
                   p_m (shell_particle s shell k) = p_m (shell_particle r shell k) /\
                   (forall a, acc_of a (shell_particle s shell k)
                              = acc_of a (shell_particle r shell k)) /\
                   forall a, vel_of a (shell_particle s shell k)
                             = if (k <? i)%nat
                               then vel_of a (shell_particle r shell k)
                                    + (y * acc_of a (shell_particle r shell k)
                                       + v * acc_of a (particle_at jk k))
                               else vel_of a (shell_particle r shell k)).
  assert (H : P N (for_nat 0 N (fun i r0 =>
                   set_particles r0
                     (upd_nat (nth i map_s 0%nat)
                        (set_vel (particle_at (particles r0) (nth i map_s 0%nat))
                           (p_vx (particle_at (particles r0) (nth i map_s 0%nat))
                            + (y * p_ax (particle_at (particles r0) (nth i map_s 0%nat))
                               + v * p_ax (particle_at (jerk (ri_mercurana r0)) i)))
                           (p_vy (particle_at (particles r0) (nth i map_s 0%nat))
                            + (y * p_ay (particle_at (particles r0) (nth i map_s 0%nat))
                               + v * p_ay (particle_at (jerk (ri_mercurana r0)) i)))
                           (p_vz (particle_at (particles r0) (nth i map_s 0%nat))
                            + (y * p_az (particle_at (particles r0) (nth i map_s 0%nat))
                               + v * p_az (particle_at (jerk (ri_mercurana r0)) i))))
                        (particles r0))) r)).
  { apply (@for_nat_inv _ P); [lia| |]; unfold P.
    - split; [reflexivity|]. split; [reflexivity|]. intros k Hk.
      split; [reflexivity|]. split; [reflexivity|]. reflexivity.
    - intros i s Hi (Hrim & Hlen & Hk).
      split; [exact Hrim|]. split; [simpl; rewrite upd_nat_length; exact Hlen|].
      intros k HkN. unfold shell_particle at 1 3 5. simpl. rewrite Hrim.
      fold map_s jk.
      destruct Hwf as (W1 & W2 & W3 & W4). fold N map_s in W1, W3, W4.
      assert (Hmi : (nth i map_s 0%nat < List.length (particles s))%nat).
      { rewrite Hlen. apply W4. apply shell_index_member; [exact W1|lia]. }
      pose proof (Hk i ltac:(lia)) as (Hm_i & Ha_i & Hv_i).
      unfold shell_particle in Hm_i, Ha_i, Hv_i. rewrite Hrim in Hm_i, Ha_i, Hv_i.
      fold map_s in Hm_i, Ha_i, Hv_i.
      destruct (Nat.eq_dec k i) as [->|Hne].
      + rewrite particle_at_upd_same by exact Hmi.
        replace (i <? Datatypes.S i)%nat with true by (symmetry; apply Nat.ltb_lt; lia).
        split; [exact Hm_i|]. split.
        * intros a. rewrite <- Ha_i. destruct a; reflexivity.
        * intros a. pose proof (Hv_i a) as Hv. rewrite Nat.ltb_irrefl in Hv.
          unfold shell_particle. fold map_s.
          rewrite <- Hv, <- Ha_i. destruct a; reflexivity.
      + rewrite particle_at_upd_other.
        2:{ intros Heq. apply Hne. symmetry.
            apply (@shell_index_injective map_s N i k);
              [exact W3|exact W1|lia|exact HkN|exact Heq]. }
        pose proof (Hk k HkN) as (Hm_k & Ha_k & Hv_k).
        unfold shell_particle in Hm_k, Ha_k, Hv_k |- *. rewrite Hrim in Hm_k, Ha_k, Hv_k.
        fold map_s in Hm_k, Ha_k, Hv_k |- *.
        split; [exact Hm_k|]. split; [exact Ha_k|].
        intros a. rewrite Hv_k.
        replace (k <? Datatypes.S i)%nat with (k <? i)%nat; [reflexivity|].
        destruct (Nat.ltb_spec k i), (Nat.ltb_spec k (Datatypes.S i)); try reflexivity; lia. }
  destruct H as (Hrim & _ & Hk). intros a.
  unfold momentum, total_force, total_jerk, shell_sum. rewrite Hrim. fold N jk.
  rewrite <- sum_below_linear. apply sum_below_ext. intros k HkN.
  destruct (Hk k HkN) as (Hm & _ & Hv). rewrite Hm, Hv.
  replace (k <? N)%nat with true by (symmetry; apply Nat.ltb_lt; lia). ring.
Qed.

Lemma for_nat_ext (S : Type) (body body' : nat -> S -> S) (lo hi : nat) (s : S) :
  (forall i s', body i s' = body' i s') ->
  for_nat lo hi body s = for_nat lo hi body' s.
Proof.
  intros H. unfold for_nat. generalize (hi - lo)%nat as cnt. intros cnt. revert lo s.
  induction cnt as [|cnt IH]; intros lo s; simpl; [reflexivity|].
  rewrite H. apply IH.
Qed.

(** The velocity update without jerk is the one with jerk at [v = 0]. *)
Lemma kick_no_jerk_eq (y : R) (shell : nat) (r : reb_simulation) :
  kick_no_jerk y shell r = kick_with_jerk y 0 shell r.
Proof.
  unfold kick_no_jerk, kick_with_jerk. cbv zeta. apply for_nat_ext.
  intros i s. f_equal. f_equal. unfold set_vel. f_equal; ring.
Qed.

(** C10.  In a shell all of whose particles are active (with its arrays
    allocated and its particles listed once), the kick
    [reb_integrator_mercurana_interaction_step] leaves the three components
    of the momentum [sum m v] of the shell unchanged, whatever [y], [v] and
    the first index of the pair loops are, and also when it returns early on
    [reb_sigint].  The reason is stated with it: the two acceleration
    contributions of every pair cancel in the total force [sum m a], and the
    four jerk contributions of every pair cancel in the mass-weighted sum of
    the jerks. *)
Theorem interaction_step_conserves_momentum (r : reb_simulation) (y v : R) (shell : nat) :
  active_shell_ok r shell ->
  (forall a, momentum a (reb_integrator_mercurana_interaction_step r y v shell) shell
             = momentum a r shell) /\
  (forall s i j,
      shell_wf s shell ->
      (i < shellN_at (ri_mercurana s) shell)%nat ->
      (j < shellN_at (ri_mercurana s) shell)%nat ->
      forall a,
        total_force a (accel_active_pair shell i j s) shell = total_force a s shell /\
        total_jerk a (jerk_active_pair shell i j s) shell = total_jerk a s shell).
Proof.
  intros [Hact Hwf]. split.
  2:{ intros s i j Hs Hi Hj a. split.
      - apply (proj2 (accel_active_pair_step Hs Hi Hj)).
      - apply (proj2 (proj2 (jerk_active_pair_step Hs Hi Hj))). }
  intros a. unfold reb_integrator_mercurana_interaction_step. cbv zeta.
  rewrite Hact.
  set (N := shellN_at (ri_mercurana r) shell).
  set (starti := mercurana_starti (ri_mercurana r) shell).
  destruct (zero_accelerations_spec Hwf) as [Hb0 Hf0].
  set (r1 := zero_accelerations shell r) in *.
  pose (I1 := fun s => before_kick r s /\ forall a, total_force a s shell = 0).
  assert (H1 : I1 (returned (pair_loop starti N (fun i => (i + 1)%nat) N
                               (accel_active_pair shell) r1))).
  { apply pair_loop_inv; [split; assumption|].
    intros i j s Hi Hj [Hb Hf].
    pose proof (before_kick_shell_wf Hb Hwf) as Hs.
    pose proof (before_kick_shellN shell Hb) as HN. fold N in HN.
    destruct (@accel_active_pair_step s shell i j Hs) as [Hb' Hf']; try lia.
    split; [eapply before_kick_trans; eauto|].
    intros a'. rewrite Hf'. apply Hf. }
  destruct (pair_loop starti N (fun i => (i + 1)%nat) N (accel_active_pair shell) r1)
    as [s1|s1]; simpl in H1 |- *; destruct H1 as [Hb1 Hf1].
  { apply before_kick_momentum. exact Hb1. }
  rewrite pair_loop_empty. simpl.
  pose proof (before_kick_shell_wf Hb1 Hwf) as Hwf1.
  destruct (negb (Reqb v 0)).
  - destruct (zero_jerk_spec Hwf1) as (Hb2 & Hp2 & Hj2).
    set (r2 := zero_jerk shell s1) in *.
    pose (I2 := fun s => before_kick r s /\ (forall a, total_force a s shell = 0) /\
                         forall a, total_jerk a s shell = 0).
    assert (H2 : I2 (returned (pair_loop starti N (fun i => (i + 1)%nat) N
                                 (jerk_active_pair shell) r2))).
    { apply pair_loop_inv.
      - split; [eapply before_kick_trans; eauto|]. split; [|exact Hj2].
        intros a'. unfold total_force, shell_sum, shell_particle.
        rewrite Hp2, (before_kick_map_row shell Hb2), (before_kick_shellN shell Hb2).
        apply Hf1.
      - intros i j s Hi Hj (Hb & Hf & HJ).
        pose proof (before_kick_shell_wf Hb Hwf) as Hs.
        pose proof (before_kick_shellN shell Hb) as HN. fold N in HN.
        destruct (@jerk_active_pair_step s shell i j Hs) as (Hb' & Hp' & HJ'); try lia.
        split; [eapply before_kick_trans; eauto|]. split.
        + intros a'. unfold total_force, shell_sum, shell_particle.
          rewrite Hp', (before_kick_map_row shell Hb'), (before_kick_shellN shell Hb').
          apply Hf.
        + intros a'. rewrite HJ'. apply HJ. }
    destruct (pair_loop starti N (fun i => (i + 1)%nat) N (jerk_active_pair shell) r2)
      as [s2|s2]; simpl in H2 |- *; destruct H2 as (Hb3 & Hf3 & Hj3).
    { apply before_kick_momentum. exact Hb3. }
    rewrite pair_loop_empty. simpl.
    rewrite (kick_with_jerk_spec y v (before_kick_shell_wf Hb3 Hwf)).
    rewrite Hf3, Hj3, (before_kick_momentum shell a Hb3). ring.
  - rewrite kick_no_jerk_eq.
    rewrite (kick_with_jerk_spec y 0 Hwf1).
    rewrite Hf1, (before_kick_momentum shell a Hb1). ring.
Qed.

Lemma two_body_active_shell_ok (wh : nat) : active_shell_ok (two_body wh) 0.
Proof.
  unfold active_shell_ok, shell_wf, shell_members, shellN_at, shellN_active_at, map_row.
  simpl. split; [reflexivity|]. split; [lia|]. split; [lia|]. split.
  - repeat constructor; simpl; intuition lia.
  - intros m [<-|[<-|[]]]; lia.
Qed.

Lemma interaction_step_conserves_momentum_witness :
  active_shell_ok (two_body 0) 0 /\
  forall a, momentum a (reb_integrator_mercurana_interaction_step (two_body 0) 1 1 0) 0
            = momentum a (two_body 0) 0.
Proof.
  split; [apply two_body_active_shell_ok|].
  apply (proj1 (@interaction_step_conserves_momentum (two_body 0) 1 1 0%nat
                  (two_body_active_shell_ok 0))).
Defined.

(** ** MERCURANA: the distance predictor *)

Lemma copysign1_Rabs (dt : R) : copysign1 dt * Rabs dt = dt.
Proof.
  unfold copysign1. destruct (Rlt_dec dt 0) as [H|H].
  - rewrite Rabs_left by exact H. ring.
  - rewrite Rabs_right by lra. ring.
Qed.

Lemma RMIN_Rmin (a b : R) : RMIN a b = Rmin a b.
Proof.
  unfold RMIN, Rmin. destruct (Rgt_dec a b), (Rle_dec a b); try reflexivity; lra.
Qed.

(** The point that the predictor takes for the closest approach is never
    nearer than the starting point. *)
Lemma closest_candidate_not_nearer (dx dy dz ux uy uz : R) :
  let t := (dx * ux + dy * uy + dz * uz) / (ux * ux + uy * uy + uz * uz) in
  dx * dx + dy * dy + dz * dz
  <= (dx + t * ux) * (dx + t * ux) + (dy + t * uy) * (dy + t * uy)
     + (dz + t * uz) * (dz + t * uz).
Proof.
  intros t.
  set (u2 := ux * ux + uy * uy + uz * uz).
  set (du := dx * ux + dy * uy + dz * uz).
  assert (Hu2 : 0 <= u2) by (unfold u2; nra).
  assert (Ht : t * u2 = du \/ t = 0).
  { unfold t. fold u2 du. destruct (Req_dec u2 0) as [H0|Hn].
    - right. rewrite H0. unfold Rdiv. rewrite Rinv_0. ring.
    - left. field. exact Hn. }
  replace ((dx + t * ux) * (dx + t * ux) + (dy + t * uy) * (dy + t * uy)
           + (dz + t * uz) * (dz + t * uz))
    with (dx * dx + dy * dy + dz * dz + 2 * t * du + t * t * u2)
    by (unfold du, u2; ring).
  destruct Ht as [Ht|Ht].
  - rewrite <- Ht. assert (0 <= t * t) by nra. nra.
  - rewrite Ht. lra.
Qed.

(** X1.  In exact real arithmetic, both outputs of
    [reb_mercurana_predict_rmin2] are the smaller of the squared distance at
    the beginning and at the end of the free flight of duration [dt]: the
    closest-approach candidate [r3] is not below the initial distance, so
    [rmin2_abc] is [rmin2_ab] whatever branch is taken, and the result does
    not depend on the order of the two particles.  (The code rounds every
    operation, so its [r3] can come out an ulp below [r1].) *)
Theorem predict_rmin2_is_endpoint_minimum (p1 p2 : reb_particle) (dt : R) :
  reb_mercurana_predict_rmin2 p1 p2 dt
  = (Rmin (dist2 p1 p2) (dist2_after p1 p2 dt), Rmin (dist2 p1 p2) (dist2_after p1 p2 dt))
  /\ reb_mercurana_predict_rmin2 p2 p1 dt = reb_mercurana_predict_rmin2 p1 p2 dt.
Proof.
  assert (Hmain : forall q1 q2,
    reb_mercurana_predict_rmin2 q1 q2 dt
    = (Rmin (dist2 q1 q2) (dist2_after q1 q2 dt),
       Rmin (dist2 q1 q2) (dist2_after q1 q2 dt))).
  { intros q1 q2. unfold reb_mercurana_predict_rmin2. cbv zeta.
    set (dts := copysign1 dt).
    set (dx1 := p_x q1 - p_x q2). set (dy1 := p_y q1 - p_y q2).
    set (dz1 := p_z q1 - p_z q2).
    set (ux := dts * (p_vx q1 - p_vx q2)). set (uy := dts * (p_vy q1 - p_vy q2)).
    set (uz := dts * (p_vz q1 - p_vz q2)).
    set (r1 := dx1 * dx1 + dy1 * dy1 + dz1 * dz1).
    set (r2 := (dx1 + Rabs dt * ux) * (dx1 + Rabs dt * ux)
               + (dy1 + Rabs dt * uy) * (dy1 + Rabs dt * uy)
               + (dz1 + Rabs dt * uz) * (dz1 + Rabs dt * uz)).
    set (t := (dx1 * ux + dy1 * uy + dz1 * uz) / (ux * ux + uy * uy + uz * uz)).
    set (r3 := (dx1 + t * ux) * (dx1 + t * ux) + (dy1 + t * uy) * (dy1 + t * uy)
               + (dz1 + t * uz) * (dz1 + t * uz)).
    assert (H1 : r1 = dist2 q1 q2) by reflexivity.
    assert (H2 : r2 = dist2_after q1 q2 dt).
    { unfold r2, dist2_after, dist2, drifted, ux, uy, uz, dx1, dy1, dz1, dts. simpl.
      pose proof (copysign1_Rabs dt) as Hs.
      replace (Rabs dt * (copysign1 dt * (p_vx q1 - p_vx q2)))
        with (copysign1 dt * Rabs dt * (p_vx q1 - p_vx q2)) by ring.
      replace (Rabs dt * (copysign1 dt * (p_vy q1 - p_vy q2)))
        with (copysign1 dt * Rabs dt * (p_vy q1 - p_vy q2)) by ring.
      replace (Rabs dt * (copysign1 dt * (p_vz q1 - p_vz q2)))
        with (copysign1 dt * Rabs dt * (p_vz q1 - p_vz q2)) by ring.
      rewrite Hs. ring. }
    assert (H3 : r1 <= r3) by apply closest_candidate_not_nearer.
    rewrite !RMIN_Rmin, <- H1, <- H2.
    assert (Hmin : Rmin (Rmin r1 r2) r3 = Rmin r1 r2).
    { apply Rmin_left. eapply Rle_trans; [apply Rmin_l|exact H3]. }
    rewrite Hmin. destruct (Rleb 0 (t / Rabs dt) && Rleb (t / Rabs dt) 1); reflexivity. }
  split; [apply Hmain|].
  rewrite (Hmain p2 p1), (Hmain p1 p2).
  assert (Hd : dist2 p2 p1 = dist2 p1 p2) by (unfold dist2; ring).
  assert (Hd' : dist2_after p2 p1 dt = dist2_after p1 p2 dt)
    by (unfold dist2_after, dist2; ring).
  rewrite Hd, Hd'. reflexivity.
Qed.

(** ** MERCURANA: the default switching function and the cube root *)

Lemma f_pos (x : R) : 0 < x -> f x = exp (- 1 / x) /\ 0 < f x.
Proof.
  intros Hx. unfold f. destruct (Rlt_dec x 0); [lra|].
  destruct (Req_dec_T x 0); [lra|]. split; [reflexivity|apply exp_pos].
Qed.

Lemma f_zero : f 0 = 0.
Proof.
  unfold f. destruct (Rlt_dec 0 0); [reflexivity|].
  destruct (Req_dec_T 0 0) as [_|H]; [reflexivity|]. exfalso. apply H. reflexivity.
Qed.

Lemma f_nonneg (x : R) : 0 <= f x.
Proof.
  unfold f. destruct (Rlt_dec x 0); [lra|]. destruct (Req_dec_T x 0); [lra|].
  left. apply exp_pos.
Qed.

Lemma f_increasing (x y : R) : 0 < x -> x <= y -> f x <= f y.
Proof.
  intros Hx Hxy. rewrite (proj1 (f_pos Hx)), (proj1 (@f_pos y ltac:(lra))).
  destruct (Req_dec x y) as [->|Hne]; [lra|]. left. apply exp_increasing.
  unfold Rdiv. apply Rmult_lt_gt_compat_neg_l; [lra|].
  apply Rinv_lt_contravar; [nra|lra].
Qed.

Lemma unit_position (d ri ro : R) :
  ri < ro ->
  let y := (d - ri) / (ro - ri) in
  (d < ri <-> y < 0) /\ (ro < d <-> 1 < y) /\ (ri < d <-> 0 < y) /\ (d < ro <-> y < 1).
Proof.
  intros H y.
  assert (Hc : 0 < ro - ri) by lra.
  assert (Hy : y * (ro - ri) = d - ri) by (unfold y; field; lra).
  repeat split; intros; nra.
Qed.

(** The switching function in the unit coordinate [y]. *)
Lemma L_infinity_unit (d ri ro : R) :
  ri < ro ->
  let y := (d - ri) / (ro - ri) in
  (y <= 0 -> reb_integrator_mercurana_L_infinity d ri ro = 0) /\
  (1 <= y -> reb_integrator_mercurana_L_infinity d ri ro = 1) /\
  (0 < y < 1 ->
   reb_integrator_mercurana_L_infinity d ri ro = f y / (f y + f (1 - y)) /\
   0 < f y /\ 0 < f (1 - y)).
Proof.
  intros Hr y. unfold reb_integrator_mercurana_L_infinity. cbv zeta. fold y.
  split; [|split].
  - intros Hy. destruct (Rlt_dec y 0); [reflexivity|].
    destruct (Rgt_dec y 1); [lra|].
    assert (E : y = 0) by lra. rewrite E, f_zero. unfold Rdiv. ring.
  - intros Hy. destruct (Rlt_dec y 0); [lra|].
    destruct (Rgt_dec y 1); [reflexivity|].
    assert (E : y = 1) by lra. rewrite E.
    replace (1 - 1) with 0 by ring. rewrite f_zero.
    destruct (@f_pos 1 ltac:(lra)) as [_ H1]. field. lra.
  - intros [Hy0 Hy1]. destruct (Rlt_dec y 0); [lra|]. destruct (Rgt_dec y 1); [lra|].
    split; [reflexivity|]. split; [apply f_pos; lra|apply f_pos; lra].
Qed.

(** X2.  In exact real arithmetic and for [ri < ro], the default switching
    function [reb_integrator_mercurana_L_infinity] is [0] up to and at [ri],
    [1] from [ro] on, strictly between [0] and [1] inside, where it satisfies
    [L(d) + L(ri + ro - d) = 1], and it never decreases with [d].  (The values
    of the code are rounded: its [exp] underflows to [0] just above [ri].) *)
Theorem L_infinity_is_a_switch (d ri ro : R) :
  ri < ro ->
  (d <= ri -> reb_integrator_mercurana_L_infinity d ri ro = 0) /\
  (ro <= d -> reb_integrator_mercurana_L_infinity d ri ro = 1) /\
  (ri < d < ro ->
   0 < reb_integrator_mercurana_L_infinity d ri ro < 1 /\
   reb_integrator_mercurana_L_infinity d ri ro
   + reb_integrator_mercurana_L_infinity (ri + ro - d) ri ro = 1) /\
  0 <= reb_integrator_mercurana_L_infinity d ri ro <= 1 /\
  forall d', d <= d' ->
    reb_integrator_mercurana_L_infinity d ri ro
    <= reb_integrator_mercurana_L_infinity d' ri ro.
Proof.
  intros Hr.
  assert (Hin : forall z, ri < z < ro ->
            0 < reb_integrator_mercurana_L_infinity z ri ro < 1).
  { intros z [Hz1 Hz2]. destruct (unit_position z Hr) as (_ & _ & P3 & P4).
    destruct (L_infinity_unit z Hr) as (_ & _ & U3). cbv zeta in U3.
    destruct U3 as (E & Ha & Hb); [split; [apply P3|apply P4]; assumption|].
    rewrite E. set (a := f ((z - ri) / (ro - ri))) in *.
    set (b := f (1 - (z - ri) / (ro - ri))) in *.
    split.
    - apply Rmult_lt_0_compat; [exact Ha|]. apply Rinv_0_lt_compat. lra.
    - apply (Rmult_lt_reg_r (a + b)); [lra|].
      unfold Rdiv. rewrite Rmult_assoc, Rinv_l by lra. lra. }
  assert (Hlo : forall z, z <= ri -> reb_integrator_mercurana_L_infinity z ri ro = 0).
  { intros z Hz. destruct (unit_position z Hr) as (_ & _ & P3 & _).
    apply (L_infinity_unit z Hr). cbv zeta in P3.
    destruct (Rle_or_lt ((z - ri) / (ro - ri)) 0) as [H|H]; [exact H|].
    apply P3 in H. lra. }
  assert (Hhi : forall z, ro <= z -> reb_integrator_mercurana_L_infinity z ri ro = 1).
  { intros z Hz. destruct (unit_position z Hr) as (_ & _ & _ & P4).
    apply (L_infinity_unit z Hr). cbv zeta in P4.
    destruct (Rle_or_lt 1 ((z - ri) / (ro - ri))) as [H|H]; [exact H|].
    apply P4 in H. lra. }
  assert (Hrange : forall z, 0 <= reb_integrator_mercurana_L_infinity z ri ro <= 1).
  { intros z. destruct (Rle_or_lt z ri) as [H1|H1]; [rewrite (Hlo z H1); lra|].
    destruct (Rle_or_lt ro z) as [H2|H2]; [rewrite (Hhi z H2); lra|].
    destruct (Hin z (conj H1 H2)). lra. }
  split; [apply Hlo|]. split; [apply Hhi|]. split; [|split; [apply Hrange|]].
  - intros [Hd1 Hd2]. split; [apply Hin; lra|].
    destruct (unit_position d Hr) as (_ & _ & P3 & P4).
    destruct (L_infinity_unit d Hr) as (_ & _ & U3).
    destruct (L_infinity_unit (ri + ro - d) Hr) as (_ & _ & V3).
    cbv zeta in P3, P4, U3, V3.
    set (y := (d - ri) / (ro - ri)) in *.
    assert (Hy : 0 < y < 1) by (split; [apply P3|apply P4]; assumption).
    replace ((ri + ro - d - ri) / (ro - ri)) with (1 - y) in V3
      by (unfold y; field; lra).
    replace (1 - (1 - y)) with y in V3 by ring.
    destruct (U3 Hy) as (E1 & Ha & Hb). destruct V3 as (E2 & _); [lra|].
    rewrite E1, E2. field. lra.
  - intros d' Hdd.
    destruct (Rle_or_lt d ri) as [H1|H1]; [rewrite (Hlo d H1); apply Hrange|].
    destruct (Rle_or_lt ro d') as [H2|H2]; [rewrite (Hhi d' H2); apply Hrange|].
    destruct (unit_position d Hr) as (_ & _ & P3 & P4).
    destruct (unit_position d' Hr) as (_ & _ & Q3 & Q4).
    destruct (L_infinity_unit d Hr) as (_ & _ & U3).
    destruct (L_infinity_unit d' Hr) as (_ & _ & V3).
    cbv zeta in P3, P4, Q3, Q4, U3, V3.
    set (y := (d - ri) / (ro - ri)) in *. set (y' := (d' - ri) / (ro - ri)) in *.
    assert (Hy : 0 < y < 1) by (split; [apply P3|apply P4]; lra).
    assert (Hy' : 0 < y' < 1) by (split; [apply Q3|apply Q4]; lra).
    assert (Hyy : y <= y').
    { unfold y, y'. unfold Rdiv. apply Rmult_le_compat_r; [|lra].
      left. apply Rinv_0_lt_compat. lra. }
    destruct (U3 Hy) as (E1 & Ha & Hb). destruct (V3 Hy') as (E2 & Ha' & Hb').
    rewrite E1, E2.
    pose proof (@f_increasing y y' ltac:(lra) Hyy) as Hm1.
    pose proof (@f_increasing (1 - y') (1 - y) ltac:(lra) ltac:(lra)) as Hm2.
    apply (Rmult_le_reg_r ((f y + f (1 - y)) * (f y' + f (1 - y')))); [nra|].
    replace (f y / (f y + f (1 - y)) * ((f y + f (1 - y)) * (f y' + f (1 - y'))))
      with (f y * (f y' + f (1 - y'))) by (field; lra).
    replace (f y' / (f y' + f (1 - y')) * ((f y + f (1 - y)) * (f y' + f (1 - y'))))
      with (f y' * (f y + f (1 - y))) by (field; lra).
    nra.
Qed.

Lemma L_infinity_is_a_switch_witness :
  reb_integrator_mercurana_L_infinity 0 0 1 = 0 /\
  reb_integrator_mercurana_L_infinity 1 0 1 = 1 /\
  reb_integrator_mercurana_L_infinity (1 / 2) 0 1
  + reb_integrator_mercurana_L_infinity (0 + 1 - 1 / 2) 0 1 = 1.
Proof.
  destruct (@L_infinity_is_a_switch 0 0 1 ltac:(lra)) as (H0 & _).
  destruct (@L_infinity_is_a_switch 1 0 1 ltac:(lra)) as (_ & H1 & _).
  destruct (@L_infinity_is_a_switch (1 / 2) 0 1 ltac:(lra)) as (_ & _ & H2 & _).
  split; [apply H0; lra|]. split; [apply H1; lra|].
  destruct (H2 ltac:(lra)) as [_ H3]. exact H3.
Defined.

(** The derivative of [exp (-1/x)] away from [0]. *)
Lemma derivable_pt_lim_exp_inv (x : R) :
  x <> 0 -> derivable_pt_lim (fun x => exp (- 1 / x)) x (exp (- 1 / x) / (x * x)).
Proof.
  intros Hx.
  assert (H1 : derivable_pt_lim (fun x => - 1 / x) x (1 / (x * x))).
  { apply (derivable_pt_lim_ext (fct_cte (- 1) / id)%F); [reflexivity|].
    replace (1 / (x * x)) with ((0 * id x - 1 * fct_cte (- 1) x) / Rsqr (id x))
      by (unfold id, fct_cte, Rsqr; field; exact Hx).
    apply derivable_pt_lim_div;
      [apply derivable_pt_lim_const|apply derivable_pt_lim_id|exact Hx]. }
  apply (derivable_pt_lim_ext (comp exp (fun x => - 1 / x))); [reflexivity|].
  replace (exp (- 1 / x) / (x * x)) with (exp (- 1 / x) * (1 / (x * x)))
    by (field; exact Hx).
  apply derivable_pt_lim_comp; [exact H1|apply derivable_pt_lim_exp].
Qed.

(** The derivative of an affine change of variable. *)
Lemma derivable_pt_lim_affine (a b x : R) :
  derivable_pt_lim (fun x => a * x + b) x a.
Proof.
  apply (derivable_pt_lim_ext (mult_real_fct a id + fct_cte b)%F); [reflexivity|].
  replace a with (a * 1 + 0) at 2 by ring.
  apply derivable_pt_lim_plus;
    [apply derivable_pt_lim_scal, derivable_pt_lim_id|apply derivable_pt_lim_const].
Qed.

(** X3.  Between [ri] and [ro], [reb_integrator_mercurana_dLdr_infinity] is
    the derivative of [reb_integrator_mercurana_L_infinity] with respect to
    the distance [d]. *)
Theorem dLdr_infinity_is_the_derivative (d ri ro : R) :
  ri < d < ro ->
  derivable_pt_lim (fun d => reb_integrator_mercurana_L_infinity d ri ro) d
                   (reb_integrator_mercurana_dLdr_infinity d ri ro).
Proof.
  intros [Hd1 Hd2].
  assert (Hr : ri < ro) by lra.
  set (c := ro - ri). assert (Hc : 0 < c) by (unfold c; lra).
  set (Y := fun z : R => / c * z + - ri / c).
  set (Y' := fun z : R => - / c * z + (1 + ri / c)).
  assert (HY : forall z, Y z = (z - ri) / (ro - ri)) by (intros; unfold Y; fold c; field; lra).
  assert (HY' : forall z, Y' z = 1 - Y z) by (intros; unfold Y, Y'; field; lra).
  assert (Hin : forall z, ri < z < ro -> 0 < Y z < 1).
  { intros z [Hz1 Hz2]. destruct (unit_position z Hr) as (_ & _ & P3 & P4).
    rewrite HY. split; [apply P3|apply P4]; assumption. }
  destruct (Hin d (conj Hd1 Hd2)) as [Hy0 Hy1].
  set (E := fun x : R => exp (- 1 / x)).
  set (A := comp E Y). set (B := comp E Y').
  assert (HA : derivable_pt_lim A d (E (Y d) / (Y d * Y d) * / c)).
  { apply derivable_pt_lim_comp; [apply derivable_pt_lim_affine|].
    apply derivable_pt_lim_exp_inv. lra. }
  assert (HB : derivable_pt_lim B d (E (Y' d) / (Y' d * Y' d) * - / c)).
  { apply derivable_pt_lim_comp; [apply derivable_pt_lim_affine|].
    apply derivable_pt_lim_exp_inv. rewrite HY'. lra. }
  assert (HAB : derivable_pt_lim (A + B)%F d
                  (E (Y d) / (Y d * Y d) * / c + E (Y' d) / (Y' d * Y' d) * - / c))
    by (apply derivable_pt_lim_plus; assumption).
  assert (Hpos : forall z, 0 < E z) by (intros; apply exp_pos).
  assert (Hsum : (A + B)%F d <> 0).
  { unfold plus_fct, A, B, comp. pose proof (Hpos (Y d)). pose proof (Hpos (Y' d)). lra. }
  pose proof (derivable_pt_lim_div A (A + B)%F d _ _ HA HAB Hsum) as Hdiv.
  apply (derivable_pt_lim_locally_ext (A / (A + B))%F _ d ri ro); [lra| |].
  - intros z Hz. destruct (Hin z Hz) as [Hz0 Hz1].
    unfold reb_integrator_mercurana_L_infinity. cbv zeta. rewrite <- HY.
    destruct (Rlt_dec (Y z) 0); [lra|]. destruct (Rgt_dec (Y z) 1); [lra|].
    rewrite (proj1 (@f_pos (Y z) Hz0)), (proj1 (@f_pos (1 - Y z) ltac:(lra))).
    unfold div_fct, plus_fct, A, B, comp, E. rewrite HY'. reflexivity.
  - replace (reb_integrator_mercurana_dLdr_infinity d ri ro)
      with ((E (Y d) / (Y d * Y d) * / c * (A + B)%F d
             - (E (Y d) / (Y d * Y d) * / c + E (Y' d) / (Y' d * Y' d) * - / c) * A d)
            / Rsqr ((A + B)%F d)); [exact Hdiv|].
    unfold reb_integrator_mercurana_dLdr_infinity. cbv zeta. rewrite <- HY.
    destruct (Rlt_dec (Y d) 0); [lra|]. destruct (Rgt_dec (Y d) 1); [lra|].
    unfold dfdy.
    destruct (Rlt_dec (Y d) 0); [lra|]. destruct (Rlt_dec (1 - Y d) 0); [lra|].
    rewrite (proj1 (@f_pos (Y d) Hy0)), (proj1 (@f_pos (1 - Y d) ltac:(lra))).
    unfold plus_fct, A, B, comp, E, Rsqr. rewrite HY'. fold c.
    pose proof (Hpos (Y d)) as P1. pose proof (Hpos (1 - Y d)) as P2. unfold E in P1, P2.
    field. repeat split; lra.
Qed.

Lemma dLdr_infinity_is_the_derivative_witness :
  derivable_pt_lim (fun d => reb_integrator_mercurana_L_infinity d 0 1) (1 / 2)
                   (reb_integrator_mercurana_dLdr_infinity (1 / 2) 0 1).
Proof. apply dLdr_infinity_is_the_derivative. lra. Defined.

(** One Newton step for [x^3 = a]. *)
Lemma newton_step_above (a x : R) :
  0 <= a -> 0 < x ->
  let x' := x + (a / (x * x) - x) / 3 in
  0 < x' /\ a <= x' * x' * x'.
Proof.
  intros Ha Hx x'.
  set (b := a / (x * x)).
  assert (Hb : b * (x * x) = a) by (unfold b; field; lra).
  assert (Hb0 : 0 <= b).
  { unfold b. apply Rmult_le_pos; [exact Ha|]. left. apply Rinv_0_lt_compat. nra. }
  assert (Hx' : x' = (2 * x + b) / 3) by (unfold x'; fold b; field).
  clearbody b x'. subst x' a.
  split; [lra|].
  assert (H : 0 <= (x - b) * (x - b) * (8 * x + b)).
  { apply Rmult_le_pos; [|lra]. apply Rle_0_sqr. }
  replace ((2 * x + b) / 3 * ((2 * x + b) / 3) * ((2 * x + b) / 3))
    with (b * (x * x) + (x - b) * (x - b) * (8 * x + b) / 27) by field.
  lra.
Qed.

Lemma newton_step_below (a x : R) :
  0 <= a -> 0 < x -> a <= x * x * x -> x + (a / (x * x) - x) / 3 <= x.
Proof.
  intros Ha Hx Hax.
  set (b := a / (x * x)).
  assert (Hb : b * (x * x) = a) by (unfold b; field; lra).
  assert (Hbx : b <= x).
  { apply (Rmult_le_reg_r (x * x)); [nra|]. rewrite Hb. lra. }
  lra.
Qed.

Lemma newton_step_monotone (a b x y : R) :
  0 <= a -> a <= b -> 0 < x -> x <= y -> a <= x * x * x ->
  x + (a / (x * x) - x) / 3 <= y + (b / (y * y) - y) / 3.
Proof.
  intros Ha Hab Hx Hxy Hax.
  set (p := a / (x * x)). set (q := a / (y * y)). set (s := b / (y * y)).
  assert (Hp : p * (x * x) = a) by (unfold p; field; lra).
  assert (Hq : q * (y * y) = a) by (unfold q; field; lra).
  assert (Hs : s * (y * y) = b) by (unfold s; field; lra).
  assert (Hqs : q <= s).
  { apply (Rmult_le_reg_r (y * y)); [nra|]. rewrite Hq, Hs. exact Hab. }
  assert (Hpx : p <= x).
  { apply (Rmult_le_reg_r (x * x)); [nra|]. rewrite Hp. lra. }
  assert (Hp0 : 0 <= p).
  { unfold p. apply Rmult_le_pos; [exact Ha|]. left. apply Rinv_0_lt_compat. nra. }
  assert (Hpq : p - q <= 2 * (y - x)).
  { apply (Rmult_le_reg_r (y * y)); [nra|].
    replace ((p - q) * (y * y)) with (p * (y * y) - a) by (rewrite <- Hq; ring).
    rewrite <- Hp.
    replace (p * (y * y) - p * (x * x)) with (p * ((y - x) * (y + x))) by ring.
    assert (H1 : p * ((y - x) * (y + x)) <= x * ((y - x) * (y + x))).
    { apply Rmult_le_compat_r; [|exact Hpx]. apply Rmult_le_pos; lra. }
    assert (H2 : x * (y + x) <= 2 * (y * y)) by nra.
    assert (H3 : x * ((y - x) * (y + x)) <= 2 * (y - x) * (y * y)).
    { replace (x * ((y - x) * (y + x))) with ((y - x) * (x * (y + x))) by ring.
      replace (2 * (y - x) * (y * y)) with ((y - x) * (2 * (y * y))) by ring.
      apply Rmult_le_compat_l; lra. }
    lra. }
  lra.
Qed.

(** Two Newton iterations run side by side from ordered starting points. *)
Lemma newton_iterations_ordered (a b : R) (cnt i : nat) :
  0 <= a -> a <= b ->
  forall x y, 0 < x -> x <= y -> a <= x * x * x ->
    let xa := for_nat_iter cnt i (fun _ x => let x2 := x * x in x + (a / x2 - x) / 3) x in
    let xb := for_nat_iter cnt i (fun _ x => let x2 := x * x in x + (b / x2 - x) / 3) y in
    0 < xa /\ xa <= xb /\ a <= xa * xa * xa /\ xa <= x.
Proof.
  intros Ha Hab. revert i.
  induction cnt as [|cnt IH]; intros i x y Hx Hxy Hax; cbv zeta; simpl.
  - repeat split; try assumption; lra.
  - destruct (newton_step_above Ha Hx) as [Hx' Hax'].
    pose proof (newton_step_monotone Ha Hab Hx Hxy Hax) as Hm.
    pose proof (newton_step_below Ha Hx Hax) as Hd.
    specialize (IH (Datatypes.S i) _ _ Hx' Hm Hax'). cbv zeta in IH.
    destruct IH as (I1 & I2 & I3 & I4).
    repeat split; try assumption. lra.
Qed.

(** The iteration over the reals is monotone in [a] and stays positive. *)
Lemma sqrt3_monotone (a b : R) :
  0 <= a -> a <= b -> 0 < sqrt3 a /\ sqrt3 a <= sqrt3 b.
Proof.
  intros Ha Hab. unfold sqrt3, for_nat.
  replace (200 - 0)%nat with (Datatypes.S 199) by reflexivity.
  generalize 199%nat. intros c.
  cbn [for_nat_iter]. cbv zeta.
  destruct (@newton_step_above a 1 Ha ltac:(lra)) as [H1 H2]. cbv zeta in H1, H2.
  assert (Hle : 1 + (a / (1 * 1) - 1) / 3 <= 1 + (b / (1 * 1) - 1) / 3)
    by (unfold Rdiv; rewrite Rmult_1_r, Rinv_1, !Rmult_1_r; lra).
  pose proof (@newton_iterations_ordered a b c 1 Ha Hab _ _ H1 Hle H2) as H.
  cbv zeta in H. destruct H as (I1 & I2 & _). split; assumption.
Qed.

(** X4.  In exact real arithmetic and for [a >= 0], the Newton iteration
    [sqrt3] ends at or above the cube root: its result is positive, its cube
    is at least [a], it is at most the first iterate [(2 + a)/3], and it does
    not decrease with [a].  (The code rounds every operation, so its result
    can end an ulp below the cube root.) *)
Theorem sqrt3_ends_above_the_cube_root (a b : R) :
  0 <= a -> a <= b ->
  0 < sqrt3 a /\ a <= sqrt3 a * sqrt3 a * sqrt3 a /\
  sqrt3 a <= (2 + a) / 3 /\ sqrt3 a <= sqrt3 b.
Proof.
  intros Ha Hab. unfold sqrt3, for_nat.
  replace (200 - 0)%nat with (Datatypes.S 199) by reflexivity.
  generalize 199%nat. intros c.
  cbn [for_nat_iter]. cbv zeta.
  destruct (@newton_step_above a 1 Ha ltac:(lra)) as [H1 H2]. cbv zeta in H1, H2.
  assert (Hle : 1 + (a / (1 * 1) - 1) / 3 <= 1 + (b / (1 * 1) - 1) / 3)
    by (unfold Rdiv; rewrite Rmult_1_r, Rinv_1, !Rmult_1_r; lra).
  pose proof (@newton_iterations_ordered a b c 1 Ha Hab _ _ H1 Hle H2) as H.
  cbv zeta in H. destruct H as (I1 & I2 & I3 & I4).
  repeat split; try assumption.
  eapply Rle_trans; [exact I4|].
  unfold Rdiv. rewrite Rmult_1_r, Rinv_1, Rmult_1_r. lra.
Qed.

Lemma sqrt3_ends_above_the_cube_root_witness :
  0 < sqrt3 8 /\ 8 <= sqrt3 8 * sqrt3 8 * sqrt3 8.
Proof.
  destruct (@sqrt3_ends_above_the_cube_root 8 8 ltac:(lra) ltac:(lra)) as (H1 & H2 & _).
  split; assumption.
Defined.

(** ** MERCURANA: what the force kernel writes *)

Lemma set_jerk_own (rim : reb_simulation_integrator_mercurana) :
  set_jerk rim (jerk rim) = rim.
Proof. destruct rim; reflexivity. Qed.

Lemma kernel_frame_refl (r : reb_simulation) : kernel_frame r r.
Proof.
  unfold kernel_frame. split; [apply set_jerk_own|]. repeat split; reflexivity.
Qed.

Lemma kernel_frame_trans (r0 r1 r2 : reb_simulation) :
  kernel_frame r0 r1 -> kernel_frame r1 r2 -> kernel_frame r0 r2.
Proof.
  unfold kernel_frame.
  intros (A1 & A2 & A3 & A4 & A5 & A6 & A7) (B1 & B2 & B3 & B4 & B5 & B6 & B7).
  split.
  { change (set_jerk (ri_mercurana r2) (jerk (ri_mercurana r0)))
      with (set_jerk (set_jerk (ri_mercurana r2) (jerk (ri_mercurana r1)))
                     (jerk (ri_mercurana r0))).
    rewrite B1. exact A1. }
  repeat split; try congruence.
  - rewrite (proj1 (B7 m)). apply A7.
  - rewrite (proj1 (proj2 (B7 m))). apply A7.
  - rewrite (proj1 (proj2 (proj2 (B7 m)))). apply A7.
  - rewrite (proj2 (proj2 (proj2 (B7 m)))). apply A7.
Qed.

Lemma kernel_frame_rim (r0 r : reb_simulation) :
  kernel_frame r0 r ->
  rim_map (ri_mercurana r) = rim_map (ri_mercurana r0) /\
  shellN (ri_mercurana r) = shellN (ri_mercurana r0) /\
  shellN_active (ri_mercurana r) = shellN_active (ri_mercurana r0) /\
  inshell (ri_mercurana r) = inshell (ri_mercurana r0) /\
  Nmaxshells (ri_mercurana r) = Nmaxshells (ri_mercurana r0) /\
  whsplitting (ri_mercurana r) = whsplitting (ri_mercurana r0) /\
  Nmaxshellused (ri_mercurana r) = Nmaxshellused (ri_mercurana r0) /\
  rim_n (ri_mercurana r) = rim_n (ri_mercurana r0) /\
  phi1 (ri_mercurana r) = phi1 (ri_mercurana r0) /\
  dcrit (ri_mercurana r) = dcrit (ri_mercurana r0).
Proof.
  intros (H & _).
  repeat split;
    [apply (f_equal rim_map) in H | apply (f_equal shellN) in H
    | apply (f_equal shellN_active) in H | apply (f_equal inshell) in H
    | apply (f_equal Nmaxshells) in H | apply (f_equal whsplitting) in H
    | apply (f_equal Nmaxshellused) in H | apply (f_equal rim_n) in H
    | apply (f_equal phi1) in H | apply (f_equal dcrit) in H]; exact H.
Qed.

Lemma kernel_frame_members (r0 r : reb_simulation) (shell : nat) :
  kernel_frame r0 r ->
  map_row (ri_mercurana r) shell = map_row (ri_mercurana r0) shell /\
  shellN_at (ri_mercurana r) shell = shellN_at (ri_mercurana r0) shell /\
  shellN_active_at (ri_mercurana r) shell = shellN_active_at (ri_mercurana r0) shell /\
  shell_members (ri_mercurana r) shell = shell_members (ri_mercurana r0) shell.
Proof.
  intros H. destruct (kernel_frame_rim H) as (H1 & H2 & H3 & _).
  unfold shell_members, map_row, shellN_at, shellN_active_at. rewrite H1, H2, H3.
  repeat split; reflexivity.
Qed.

Lemma shell_touch_refl (shell : nat) (r : reb_simulation) : shell_touch shell r r.
Proof. split; [apply kernel_frame_refl|]. intros; reflexivity. Qed.

Lemma shell_touch_trans (shell : nat) (r0 r1 r2 : reb_simulation) :
  shell_touch shell r0 r1 -> shell_touch shell r1 r2 -> shell_touch shell r0 r2.
Proof.
  intros [A1 A2] [B1 B2]. split; [eapply kernel_frame_trans; eauto|].
  intros m Hm. rewrite B2; [apply A2; exact Hm|].
  destruct (kernel_frame_members shell A1) as (_ & _ & _ & E). rewrite E. exact Hm.
Qed.

(** Writing a particle of the shell, mass and position kept. *)
Lemma shell_touch_particle (shell : nat) (r : reb_simulation) (m : nat)
    (p' : reb_particle) :
  In m (shell_members (ri_mercurana r) shell) ->
  p_m p' = p_m (particle_at (particles r) m) ->
  p_x p' = p_x (particle_at (particles r) m) ->
  p_y p' = p_y (particle_at (particles r) m) ->
  p_z p' = p_z (particle_at (particles r) m) ->
  shell_touch shell r (set_particles r (upd_nat m p' (particles r))).
Proof.
  intros Hin Hm Hx Hy Hz.
  assert (Hcase : forall m', particle_at (upd_nat m p' (particles r)) m'
                             = particle_at (particles r) m'
                             \/ (m' = m /\ particle_at (upd_nat m p' (particles r)) m' = p')).
  { intros m'. destruct (Nat.eq_dec m m') as [<-|Hne].
    - destruct (lt_dec m (List.length (particles r))) as [Hlt|Hge].
      + right. split; [reflexivity|]. apply particle_at_upd_same. exact Hlt.
      + left. rewrite upd_nat_out by lia. reflexivity.
    - left. apply particle_at_upd_other. exact Hne. }
  split.
  - unfold kernel_frame. simpl. split; [apply set_jerk_own|].
    repeat split; try reflexivity; try apply upd_nat_length;
      destruct (Hcase m0) as [E|[-> E]]; rewrite E; congruence.
  - intros m' Hm'. simpl. destruct (Hcase m') as [E|[-> E]]; [exact E|contradiction].
Qed.

(** Writing the jerk buffer. *)
Lemma shell_touch_jerk (shell : nat) (r : reb_simulation) (jk : list reb_particle) :
  List.length jk = List.length (jerk (ri_mercurana r)) ->
  shell_touch shell r (set_rim r (set_jerk (ri_mercurana r) jk)).
Proof.
  intros H. split; [|intros; reflexivity].
  unfold kernel_frame. split; [exact (set_jerk_own (ri_mercurana r))|].
  simpl. repeat split; try reflexivity. exact H.
Qed.

Lemma shell_touch_add_acc (shell : nat) (r : reb_simulation) (m : nat) (dax day daz : R) :
  In m (shell_members (ri_mercurana r) shell) ->
  shell_touch shell r (set_particles r (add_acc (particles r) m dax day daz)).
Proof. intros H. unfold add_acc. apply shell_touch_particle; auto. Qed.

Lemma add_jerk_length (jk : list reb_particle) (i : nat) (a b c : R) :
  List.length (add_jerk jk i a b c) = List.length jk.
Proof. apply upd_nat_length. Qed.

Lemma sub_jerk_length (jk : list reb_particle) (i : nat) (a b c : R) :
  List.length (sub_jerk jk i a b c) = List.length jk.
Proof. apply upd_nat_length. Qed.

Section Kernel_frame.

Variable shell : nat.
Variable r0 : reb_simulation.
Hypothesis Hrow :
  (shellN_at (ri_mercurana r0) shell <= List.length (map_row (ri_mercurana r0) shell))%nat.

Let N := shellN_at (ri_mercurana r0) shell.

Lemma touched_member (r : reb_simulation) (i : nat) :
  shell_touch shell r0 r -> (i < N)%nat ->
  In (nth i (map_row (ri_mercurana r) shell) 0%nat) (shell_members (ri_mercurana r) shell).
Proof.
  intros [Hk _] Hi. destruct (kernel_frame_members shell Hk) as (E1 & E2 & _ & _).
  unfold shell_members. rewrite E1, E2. apply shell_index_member; [exact Hrow|exact Hi].
Qed.

Lemma accel_active_pair_touch (r : reb_simulation) (i j : nat) :
  shell_touch shell r0 r -> (i < N)%nat -> (j < N)%nat ->
  shell_touch shell r0 (accel_active_pair shell i j r).
Proof.
  intros Hr Hi Hj. unfold accel_active_pair. cbv zeta.
  match goal with
  | |- shell_touch _ _ (set_particles _ (add_acc (add_acc ?ps ?mi ?a ?b ?c) ?mj ?d ?e ?f)) =>
      set (r1 := set_particles r (add_acc ps mi a b c));
      change (shell_touch shell r0
                (set_particles r1 (add_acc (particles r1) mj d e f)))
  end.
  assert (H1 : shell_touch shell r r1)
    by (apply shell_touch_add_acc, touched_member; assumption).
  eapply shell_touch_trans; [exact Hr|]. eapply shell_touch_trans; [exact H1|].
  apply shell_touch_add_acc.
  change (map_row (ri_mercurana r) shell) with (map_row (ri_mercurana r1) shell).
  apply touched_member; [eapply shell_touch_trans; eauto|exact Hj].
Qed.

Lemma accel_passive_pair_touch (r : reb_simulation) (i j : nat) :
  shell_touch shell r0 r -> (i < N)%nat -> (j < N)%nat ->
  shell_touch shell r0 (accel_passive_pair shell i j r).
Proof.
  intros Hr Hi Hj. unfold accel_passive_pair. cbv zeta.
  destruct (nonzero (testparticle_type r)).
  - match goal with
    | |- shell_touch _ _ (set_particles _ (add_acc (add_acc ?ps ?mi ?a ?b ?c) ?mj ?d ?e ?f)) =>
        set (r1 := set_particles r (add_acc ps mi a b c));
        change (shell_touch shell r0
                  (set_particles r1 (add_acc (particles r1) mj d e f)))
    end.
    assert (H1 : shell_touch shell r r1)
      by (apply shell_touch_add_acc, touched_member; assumption).
    eapply shell_touch_trans; [exact Hr|]. eapply shell_touch_trans; [exact H1|].
    apply shell_touch_add_acc.
    change (map_row (ri_mercurana r) shell) with (map_row (ri_mercurana r1) shell).
    apply touched_member; [eapply shell_touch_trans; eauto|exact Hj].
  - eapply shell_touch_trans; [exact Hr|].
    apply shell_touch_add_acc, touched_member; assumption.
Qed.

Lemma jerk_active_pair_touch (r : reb_simulation) (i j : nat) :
  shell_touch shell r0 r -> shell_touch shell r0 (jerk_active_pair shell i j r).
Proof.
  intros Hr. eapply shell_touch_trans; [exact Hr|].
  unfold jerk_active_pair. cbv zeta. apply shell_touch_jerk.
  rewrite sub_jerk_length, add_jerk_length, add_jerk_length, sub_jerk_length. reflexivity.
Qed.

Lemma jerk_passive_pair_touch (r : reb_simulation) (i j : nat) :
  shell_touch shell r0 r -> shell_touch shell r0 (jerk_passive_pair shell i j r).
Proof.
  intros Hr. eapply shell_touch_trans; [exact Hr|].
  unfold jerk_passive_pair. cbv zeta. apply shell_touch_jerk.
  destruct (nonzero (testparticle_type r)); cbv iota;
    repeat (rewrite sub_jerk_length || rewrite add_jerk_length); reflexivity.
Qed.

Lemma zero_accelerations_touch (r : reb_simulation) :
  shell_touch shell r0 r -> shell_touch shell r0 (zero_accelerations shell r).
Proof.
  intros Hr. unfold zero_accelerations. cbv zeta.
  destruct (kernel_frame_members shell (proj1 Hr)) as (E1 & E2 & _ & _).
  rewrite E1, E2. fold N.
  apply (@for_nat_inv _ (fun _ s => shell_touch shell r0 s)); [lia|exact Hr|].
  intros i s Hi Hs. eapply shell_touch_trans; [exact Hs|].
  apply shell_touch_particle; try reflexivity.
  destruct (kernel_frame_members shell (proj1 Hs)) as (F1 & _).
  rewrite <- F1. apply touched_member; [exact Hs|lia].
Qed.

Lemma zero_jerk_touch (r : reb_simulation) :
  shell_touch shell r0 r -> shell_touch shell r0 (zero_jerk shell r).
Proof.
  intros Hr. unfold zero_jerk. cbv zeta.
  apply for_nat_preserves; [exact Hr|].
  intros i s Hs. eapply shell_touch_trans; [exact Hs|].
  apply shell_touch_jerk. apply upd_nat_length.
Qed.

Lemma kick_with_jerk_touch (r : reb_simulation) (y v : R) :
  shell_touch shell r0 r -> shell_touch shell r0 (kick_with_jerk y v shell r).
Proof.
  intros Hr. unfold kick_with_jerk. cbv zeta.
  destruct (kernel_frame_members shell (proj1 Hr)) as (E1 & E2 & _ & _).
  rewrite E1, E2. fold N.
  apply (@for_nat_inv _ (fun _ s => shell_touch shell r0 s)); [lia|exact Hr|].
  intros i s Hi Hs. eapply shell_touch_trans; [exact Hs|].
  apply shell_touch_particle; try reflexivity.
  destruct (kernel_frame_members shell (proj1 Hs)) as (F1 & _).
  rewrite <- F1. apply touched_member; [exact Hs|lia].
Qed.

End Kernel_frame.

Lemma and_then_inv (S : Type) (I : S -> Prop) (x : S + S) (k : S -> S + S) :
  I (returned x) -> (forall s, I s -> I (returned (k s))) -> I (returned (and_then x k)).
Proof. destruct x as [s|s]; simpl; intros H Hk; [exact H|apply Hk; exact H]. Qed.

(** The kernel at [shell] writes only particles of the shell and the jerk
    buffer. *)
Lemma interaction_step_touch (r : reb_simulation) (y v : R) (shell : nat) :
  (shellN_at (ri_mercurana r) shell <= List.length (map_row (ri_mercurana r) shell))%nat ->
  (shellN_active_at (ri_mercurana r) shell <= shellN_at (ri_mercurana r) shell)%nat ->
  shell_touch shell r (reb_integrator_mercurana_interaction_step r y v shell).
Proof.
  intros Hrow Hact.
  unfold reb_integrator_mercurana_interaction_step. cbv zeta.
  set (N := shellN_at (ri_mercurana r) shell) in *.
  set (Na := shellN_active_at (ri_mercurana r) shell) in *.
  pose proof (@zero_accelerations_touch shell r Hrow r (shell_touch_refl shell r)) as H0.
  apply and_then_inv.
  { apply pair_loop_inv; [exact H0|]. intros i j s Hi Hj Hs.
    apply accel_active_pair_touch; try assumption; fold N; lia. }
  intros s1 H1. apply and_then_inv.
  { apply pair_loop_inv; [exact H1|]. intros i j s Hi Hj Hs.
    apply accel_passive_pair_touch; try assumption; fold N; lia. }
  intros s2 H2. destruct (negb (Reqb v 0)).
  - apply and_then_inv.
    { apply pair_loop_inv; [apply zero_jerk_touch; exact H2|]. intros i j s Hi Hj Hs.
      apply jerk_active_pair_touch; assumption. }
    intros s3 H3. apply and_then_inv.
    { apply pair_loop_inv; [exact H3|]. intros i j s Hi Hj Hs.
      apply jerk_passive_pair_touch; assumption. }
    intros s4 H4. simpl. apply kick_with_jerk_touch; assumption.
  - simpl. rewrite kick_no_jerk_eq. apply kick_with_jerk_touch; assumption.
Qed.

(** X5.  [reb_integrator_mercurana_interaction_step] at [shell] writes
    nothing but the velocities and accelerations of the particles of that
    shell and the contents of the jerk buffer: the rest of the integrator
    (so the particle list of every shell), the mass and the position of every
    particle, and every particle outside the shell are as before.  The shell
    has at most as many active as listed particles, and no more than its map
    row holds. *)
Theorem interaction_step_writes_only_its_shell (r : reb_simulation) (y v : R)
    (shell : nat) :
  (shellN_at (ri_mercurana r) shell <= List.length (map_row (ri_mercurana r) shell))%nat ->
  (shellN_active_at (ri_mercurana r) shell <= shellN_at (ri_mercurana r) shell)%nat ->
  let r' := reb_integrator_mercurana_interaction_step r y v shell in
  kernel_frame r r' /\
  (forall s, shell_members (ri_mercurana r') s = shell_members (ri_mercurana r) s) /\
  forall m, ~ In m (shell_members (ri_mercurana r) shell) ->
            particle_at (particles r') m = particle_at (particles r) m.
Proof.
  intros Hrow Hact r'.
  destruct (@interaction_step_touch r y v shell Hrow Hact) as [Hk Hout].
  split; [exact Hk|]. split; [|exact Hout].
  intros s. destruct (kernel_frame_members s Hk) as (_ & _ & _ & E). exact E.
Qed.

Lemma two_body_rows (wh : nat) :
  (shellN_at (ri_mercurana (two_body wh)) 0
   <= List.length (map_row (ri_mercurana (two_body wh)) 0))%nat /\
  (shellN_active_at (ri_mercurana (two_body wh)) 0
   <= shellN_at (ri_mercurana (two_body wh)) 0)%nat.
Proof. unfold shellN_at, shellN_active_at, map_row. simpl. lia. Qed.

Lemma interaction_step_writes_only_its_shell_witness :
  kernel_frame (two_body 0) (reb_integrator_mercurana_interaction_step (two_body 0) 1 1 0).
Proof.
  apply (@interaction_step_writes_only_its_shell (two_body 0) 1 1 0%nat
           (proj1 (two_body_rows 0)) (proj2 (two_body_rows 0))).
Defined.

(** ** MERCURANA: what the encounter predictor writes *)

Local Close Scope R_scope.

Lemma four_arrays_own (rim : reb_simulation_integrator_mercurana) :
  set_inshell (set_shellN_active (set_shellN (set_map rim (rim_map rim)) (shellN rim))
                                 (shellN_active rim)) (inshell rim) = rim.
Proof. destruct rim; reflexivity. Qed.

Lemma predict_touch_refl (shell : nat) (rim : reb_simulation_integrator_mercurana) :
  predict_touch shell rim rim.
Proof.
  unfold predict_touch. split; [apply four_arrays_own|].
  repeat split; reflexivity.
Qed.

Lemma predict_touch_trans (shell : nat) (a b c : reb_simulation_integrator_mercurana) :
  predict_touch shell a b -> predict_touch shell b c -> predict_touch shell a c.
Proof.
  unfold predict_touch.
  intros (A1 & A2 & A3 & A4 & A5 & A6 & A7) (B1 & B2 & B3 & B4 & B5 & B6 & B7).
  split.
  { rewrite <- A1 at 5. rewrite <- B1 at 1. reflexivity. }
  split; [congruence|]. split; [congruence|]. split; [congruence|].
  split; [congruence|]. split; [intros s; rewrite B6; apply A6|].
  intros s Hs. destruct (A7 s Hs) as (E1 & E2 & E3). destruct (B7 s Hs) as (F1 & F2 & F3).
  repeat split; congruence.
Qed.

Lemma predict_touch_inshell (shell : nat) (rim : reb_simulation_integrator_mercurana)
    (m v : nat) :
  predict_touch shell rim (set_inshell rim (upd_nat m v (inshell rim))).
Proof.
  unfold predict_touch. split; [exact (four_arrays_own rim)|].
  split; [reflexivity|]. split; [reflexivity|]. split; [reflexivity|].
  split; [apply upd_nat_length|]. split; [reflexivity|].
  intros s _. repeat split; reflexivity.
Qed.

Lemma predict_touch_map (shell : nat) (rim : reb_simulation_integrator_mercurana)
    (row : list nat) :
  List.length row = List.length (map_row rim (shell + 1)) ->
  predict_touch shell rim (set_map rim (upd_nat (shell + 1) row (rim_map rim))).
Proof.
  intros Hlen. unfold predict_touch. split; [exact (four_arrays_own rim)|].
  split; [apply upd_nat_length|].
  split; [reflexivity|]. split; [reflexivity|]. split; [reflexivity|]. split.
  - intros s. destruct (Nat.eq_dec s (shell + 1)) as [->|Hne].
    + destruct (Nat.lt_ge_cases (shell + 1) (List.length (rim_map rim))) as [Hlt|Hge].
      * rewrite map_row_upd_same by exact Hlt. exact Hlen.
      * unfold map_row. simpl. rewrite upd_nat_out by exact Hge. reflexivity.
    + rewrite map_row_upd_other by congruence. reflexivity.
  - intros s Hs. split; [apply map_row_upd_other; congruence|].
    split; reflexivity.
Qed.

Lemma predict_touch_shellN (shell : nat) (rim : reb_simulation_integrator_mercurana)
    (v : nat) :
  predict_touch shell rim (set_shellN rim (upd_nat (shell + 1) v (shellN rim))).
Proof.
  unfold predict_touch. split; [exact (four_arrays_own rim)|].
  split; [reflexivity|]. split; [apply upd_nat_length|].
  split; [reflexivity|]. split; [reflexivity|]. split; [reflexivity|].
  intros s Hs. split; [reflexivity|].
  split; [apply shellN_at_upd_other; congruence|reflexivity].
Qed.

Lemma shellN_active_at_upd_same (rim : reb_simulation_integrator_mercurana) (s v : nat) :
  (s < List.length (shellN_active rim))%nat ->
  shellN_active_at (set_shellN_active rim (upd_nat s v (shellN_active rim))) s = v.
Proof. intros H. unfold shellN_active_at. simpl. apply upd_nat_nth_same. exact H. Qed.

Lemma shellN_active_at_upd_other (rim : reb_simulation_integrator_mercurana)
    (s s' v : nat) :
  s <> s' ->
  shellN_active_at (set_shellN_active rim (upd_nat s v (shellN_active rim))) s'
  = shellN_active_at rim s'.
Proof. intros H. unfold shellN_active_at. simpl. apply upd_nat_nth_other. exact H. Qed.

Lemma predict_touch_shellN_active (shell : nat)
    (rim : reb_simulation_integrator_mercurana) (v : nat) :
  predict_touch shell rim
    (set_shellN_active rim (upd_nat (shell + 1) v (shellN_active rim))).
Proof.
  unfold predict_touch. split; [exact (four_arrays_own rim)|].
  split; [reflexivity|]. split; [reflexivity|]. split; [apply upd_nat_length|].
  split; [reflexivity|]. split; [reflexivity|].
  intros s Hs. split; [reflexivity|]. split; [reflexivity|].
  apply shellN_active_at_upd_other. congruence.
Qed.

Lemma predict_touch_promote (shell mi : nat) (rim : reb_simulation_integrator_mercurana) :
  predict_touch shell rim (promote shell mi rim).
Proof.
  unfold promote. cbv zeta.
  eapply predict_touch_trans; [apply predict_touch_inshell|].
  eapply predict_touch_trans; [apply predict_touch_map|apply predict_touch_shellN].
  apply upd_nat_length.
Qed.

(** The active count of the sub-shell is not written by [promote]. *)
Lemma promote_shellN_active (shell mi : nat) (rim : reb_simulation_integrator_mercurana) :
  shellN_active (promote shell mi rim) = shellN_active rim.
Proof. reflexivity. Qed.

Lemma predict_touch_loop (shell : nat) (lo hi : nat)
    (rim0 rim : reb_simulation_integrator_mercurana)
    (body : nat -> reb_simulation_integrator_mercurana
            -> reb_simulation_integrator_mercurana)
    (pick : nat -> nat) :
  (forall i s, body i s = s \/ body i s = promote shell (pick i) s) ->
  predict_touch shell rim0 rim ->
  predict_touch shell rim0 (for_nat lo hi body rim) /\
  shellN_active (for_nat lo hi body rim) = shellN_active rim.
Proof.
  intros Hbody H0.
  apply (@for_nat_preserves _ (fun s => predict_touch shell rim0 s
                                        /\ shellN_active s = shellN_active rim));
    [split; [exact H0|reflexivity]|].
  intros i s [Hs Ha]. destruct (Hbody i s) as [E|E]; rewrite E; [split; assumption|].
  split; [eapply predict_touch_trans; [exact Hs|apply predict_touch_promote]|exact Ha].
Qed.

Lemma promote_shellN_ge (shell mi : nat) (rim : reb_simulation_integrator_mercurana) :
  (shellN_at rim (shell + 1) <= shellN_at (promote shell mi rim) (shell + 1))%nat.
Proof.
  unfold promote, shellN_at. simpl.
  destruct (Nat.lt_ge_cases (shell + 1) (List.length (shellN rim))) as [Hlt|Hge].
  - rewrite upd_nat_nth_same by exact Hlt. lia.
  - rewrite upd_nat_out by exact Hge. lia.
Qed.

Lemma promote_loop_shellN_ge (shell : nat) (lo hi : nat)
    (rim : reb_simulation_integrator_mercurana)
    (body : nat -> reb_simulation_integrator_mercurana
            -> reb_simulation_integrator_mercurana)
    (pick : nat -> nat) :
  (forall i s, body i s = s \/ body i s = promote shell (pick i) s) ->
  (shellN_at rim (shell + 1) <= shellN_at (for_nat lo hi body rim) (shell + 1))%nat.
Proof.
  intros Hbody.
  apply (@for_nat_preserves _ (fun s => (shellN_at rim (shell + 1)
                                         <= shellN_at s (shell + 1))%nat)); [lia|].
  intros i s Hs. destruct (Hbody i s) as [E|E]; rewrite E; [exact Hs|].
  pose proof (promote_shellN_ge shell (pick i) s). lia.
Qed.

(** The predictor at [shell] writes only [inshell] and the entries
    [shell + 1] of [map], [shellN] and [shellN_active]; the counts of the
    sub-shell it ends with. *)
Lemma encounter_predict_touch (r : reb_simulation) (dt : R)
    (shell : nat) :
  shell_ok r shell ->
  List.length (shellN_active (ri_mercurana r)) = Nmaxshells (ri_mercurana r) ->
  let r' := reb_mercurana_encounter_predict r dt shell in
  let rim := ri_mercurana r in
  let rim' := ri_mercurana r' in
  set_rim r' rim = r /\
  predict_touch shell rim rim' /\
  ((shell + 1 < Nmaxshells rim)%nat ->
   (shellN_active_at rim' (shell + 1) <= shellN_at rim' (shell + 1))%nat /\
   (shellN_at rim' (shell + 1) <= shellN_at rim shell)%nat /\
   (shellN_active_at rim shell = shellN_at rim shell ->
    shellN_active_at rim' (shell + 1) = shellN_at rim' (shell + 1))).
Proof.
  intros (Hsh & Hlmap & HlN & HN & Hact & Hrow & Hin & Hnd & Hwh) HlA.
  cbv zeta in Hsh, Hlmap, HlN, HN, Hact, Hrow, Hin, Hnd, Hwh.
  unfold shell_members in Hin, Hnd.
  cbv zeta.
  set (rim := ri_mercurana r) in *.
  set (N := shellN_at rim shell) in *.
  set (map_s := map_row rim shell) in *.
  assert (Hin1 : forall m, In m (firstn N map_s) -> (m < List.length (inshell rim))%nat)
    by (intros m Hm; apply Hin; exact Hm).
  assert (Hset : forall x, set_rim (set_rim r x) rim = r)
    by (intros x; unfold rim; destruct r; reflexivity).
  unfold reb_mercurana_encounter_predict. fold rim. fold N. fold map_s.
  destruct ((shell =? 0)%nat && nonzero (whsplitting rim)) eqn:Ewh.
  - (* WH splitting at shell 0 *)
    cbv zeta.
    set (rim1 := for_nat 0 N _ rim).
    assert (H1 : predict_touch shell rim rim1).
    { unfold rim1. apply for_nat_preserves; [apply predict_touch_refl|].
      intros i s Hs. eapply predict_touch_trans; [exact Hs|].
      eapply predict_touch_trans; [apply predict_touch_inshell|].
      apply predict_touch_map. apply upd_nat_length. }
    set (rim2 := set_shellN rim1 (upd_nat (shell + 1) N (shellN rim1))).
    set (rimf := set_shellN_active rim2 _).
    change (ri_mercurana (set_rim r rimf)) with rimf.
    assert (H2 : predict_touch shell rim rim2)
      by (eapply predict_touch_trans; [exact H1|apply predict_touch_shellN]).
    assert (Hf : predict_touch shell rim rimf)
      by (eapply predict_touch_trans; [exact H2|apply predict_touch_shellN_active]).
    split; [apply Hset|]. split; [exact Hf|].
    intros Hsub.
    destruct H1 as (_ & _ & L3 & L4 & _). destruct H2 as (_ & _ & _ & L4' & _).
    assert (EN : shellN_at rimf (shell + 1) = N).
    { change (shellN_at rimf (shell + 1)) with (shellN_at rim2 (shell + 1)).
      unfold rim2. apply shellN_at_upd_same. rewrite L3, HlN. lia. }
    assert (EA : shellN_active_at rimf (shell + 1) = shellN_active_at rim shell).
    { unfold rimf. apply shellN_active_at_upd_same.
      rewrite L4', HlA. exact Hsub. }
    rewrite EN, EA. split; [exact Hact|]. split; [apply Nat.le_refl|]. intros E. exact E.
  - (* no WH splitting at this shell *)
    pose proof (@mark_inshell_spec map_s N rim Hin1 HN) as Hmark.
    cbv zeta in Hmark. cbv zeta.
    set (rim1 := for_nat 0 N _ rim) in *.
    assert (H1 : predict_touch shell rim rim1).
    { unfold rim1. apply for_nat_preserves; [apply predict_touch_refl|].
      intros i s Hs. eapply predict_touch_trans; [exact Hs|apply predict_touch_inshell]. }
    destruct Hmark as (M1 & M2 & M3 & M4 & M5 & M6 & M7).
    destruct (Nmaxshells rim1 <=? shell + 1)%nat eqn:Elast.
    + apply Nat.leb_le in Elast. rewrite M4 in Elast.
      change (ri_mercurana (set_rim r rim1)) with rim1.
      split; [apply Hset|]. split; [exact H1|]. intros; lia.
    + apply Nat.leb_gt in Elast. rewrite M4 in Elast.
      set (rim2 := set_shellN rim1 (upd_nat (shell + 1) 0%nat (shellN rim1))).
      set (rim3 := set_shellN_active rim2
                     (upd_nat (shell + 1) 0%nat (shellN_active rim2))).
      assert (H3 : predict_touch shell rim rim3).
      { eapply predict_touch_trans; [exact H1|].
        eapply predict_touch_trans;
          [apply predict_touch_shellN|apply predict_touch_shellN_active]. }
      assert (Hmap3 : rim_map rim3 = rim_map rim) by exact M1.
      assert (HlN3 : List.length (shellN rim3) = List.length (shellN rim))
        by (unfold rim3, rim2; cbn -[upd_nat]; rewrite upd_nat_length, M2; reflexivity).
      assert (Hrow3 : forall s, map_row rim3 s = map_row rim s)
        by (intros s; unfold map_row; rewrite Hmap3; reflexivity).
      assert (Hin3 : List.length (inshell rim3) = List.length (inshell rim)) by exact M6.
      assert (Hcnt3 : shellN_at rim3 (shell + 1) = 0%nat).
      { change (shellN_at rim3 (shell + 1)) with (shellN_at rim2 (shell + 1)).
        unfold rim2. apply shellN_at_upd_same. rewrite M2. lia. }
      assert (Hok3 : promoted_ok shell map_s N 0 rim3).
      { unfold promoted_ok, shell_members. rewrite Hcnt3. simpl firstn.
        split; [lia|]. split; [intros m []|]. split; [constructor|].
        intros m Hm. split; [intros []|]. intros _. apply M7. exact Hm. }
      match goal with
      | |- context [for_nat 0 (shellN_active_at rim shell) ?body rim3] =>
          pose proof (@promote_loop_spec shell map_s N 0 (shellN_active_at rim shell)
                        rim3 rim3 body) as HA;
          pose proof (@predict_touch_loop shell 0 (shellN_active_at rim shell)
                        rim rim3 body (fun i => nth i map_s 0%nat)) as TA
      end.
      specialize (HA ltac:(intros i s; apply encounter_loop_body_active)
                     ltac:(lia) Hact HN Hnd ltac:(rewrite Hmap3; lia)
                     ltac:(rewrite HlN3; lia)
                     ltac:(rewrite Hrow3; apply Hrow; lia)
                     ltac:(intros m Hm; rewrite Hin3; apply Hin1; exact Hm)
                     (predict_frame_refl shell rim3) Hok3).
      specialize (TA ltac:(intros i s; apply encounter_loop_body_active) H3).
      set (rim4 := for_nat 0 (shellN_active_at rim shell) _ rim3) in *.
      destruct HA as [HfA HokA]. destruct TA as [T4 _].
      set (rim5 := set_shellN_active rim4
                     (upd_nat (shell + 1) (shellN_at rim4 (shell + 1))
                        (shellN_active rim4))).
      assert (T5 : predict_touch shell rim rim5)
        by (eapply predict_touch_trans; [exact T4|apply predict_touch_shellN_active]).
      match goal with
      | |- context [for_nat (shellN_active_at rim shell) N ?body rim5] =>
          pose proof (@promote_loop_spec shell map_s N (shellN_active_at rim shell) N
                        rim3 rim5 body) as HB;
          pose proof (@predict_touch_loop shell (shellN_active_at rim shell) N
                        rim rim5 body (fun i => nth i map_s 0%nat)) as TB;
          pose proof (@promote_loop_shellN_ge shell (shellN_active_at rim shell) N
                        rim5 body (fun i => nth i map_s 0%nat)) as GB
      end.
      specialize (HB ltac:(intros i s; apply encounter_loop_body_passive)
                     Hact ltac:(lia) HN Hnd ltac:(rewrite Hmap3; lia)
                     ltac:(rewrite HlN3; lia)
                     ltac:(rewrite Hrow3; apply Hrow; lia)
                     ltac:(intros m Hm; rewrite Hin3; apply Hin1; exact Hm)
                     HfA HokA).
      specialize (TB ltac:(intros i s; apply encounter_loop_body_passive) T5).
      specialize (GB ltac:(intros i s; apply encounter_loop_body_passive)).
      set (rim6 := for_nat (shellN_active_at rim shell) N _ rim5) in *.
      destruct HB as [_ (K1 & _)]. destruct TB as [T6 A6].
      change (ri_mercurana (set_rim r rim6)) with rim6.
      split; [apply Hset|]. split; [exact T6|]. intros _.
      assert (E5 : shellN_active_at rim5 (shell + 1) = shellN_at rim4 (shell + 1)).
      { unfold rim5. apply shellN_active_at_upd_same.
        destruct T4 as (_ & _ & _ & L4 & _). rewrite L4, HlA. exact Elast. }
      assert (E56 : shellN_active_at rim6 (shell + 1) = shellN_active_at rim5 (shell + 1))
        by (unfold shellN_active_at; rewrite A6; reflexivity).
      change (shellN_at rim5 (shell + 1)) with (shellN_at rim4 (shell + 1)) in GB.
      rewrite E56, E5. split; [exact GB|]. split; [exact K1|].
      intros Eall. unfold rim6. rewrite Eall. unfold for_nat.
      rewrite Nat.sub_diag. reflexivity.
Qed.

(** X6.  [reb_mercurana_encounter_predict] at [shell] leaves the particles
    alone and writes, in the integrator, only [inshell] and the entries
    [shell + 1] of [map], [shellN] and [shellN_active], no array changing its
    size; so the particle list of every shell other than [shell + 1] is as
    before.  When the sub-shell exists, it ends with at most as many active
    as listed particles, at most as many listed particles as [shell] has,
    and, if all particles of [shell] are active, with all of its own
    active. *)
Theorem encounter_predict_writes_only_the_subshell (r : reb_simulation) (dt : R)
    (shell : nat) :
  shell_ok r shell ->
  List.length (shellN_active (ri_mercurana r)) = Nmaxshells (ri_mercurana r) ->
  let r' := reb_mercurana_encounter_predict r dt shell in
  let rim := ri_mercurana r in
  let rim' := ri_mercurana r' in
  set_rim r' rim = r /\
  predict_touch shell rim rim' /\
  (forall s, s <> (shell + 1)%nat -> shell_members rim' s = shell_members rim s) /\
  ((shell + 1 < Nmaxshells rim)%nat ->
   (shellN_active_at rim' (shell + 1) <= shellN_at rim' (shell + 1))%nat /\
   (shellN_at rim' (shell + 1) <= shellN_at rim shell)%nat /\
   (shellN_active_at rim shell = shellN_at rim shell ->
    shellN_active_at rim' (shell + 1) = shellN_at rim' (shell + 1))).
Proof.
  intros Hok HlA r' rim rim'.
  destruct (@encounter_predict_touch r dt shell Hok HlA) as (H1 & H2 & H3).
  split; [exact H1|]. split; [exact H2|]. split; [|exact H3].
  intros s Hs. destruct H2 as (_ & _ & _ & _ & _ & _ & H7).
  destruct (H7 s Hs) as (E1 & E2 & _).
  unfold shell_members, rim', r', rim. rewrite E1, E2. reflexivity.
Qed.

Lemma encounter_predict_writes_only_the_subshell_witness :
  let r' := reb_mercurana_encounter_predict (two_body 0) 1%R 0 in
  set_rim r' (ri_mercurana (two_body 0)) = two_body 0 /\
  predict_touch 0 (ri_mercurana (two_body 0)) (ri_mercurana r').
Proof.
  destruct (@encounter_predict_writes_only_the_subshell (two_body 0) 1%R 0%nat
              (two_body_shell_ok 0) eq_refl) as (H1 & H2 & _).
  split; assumption.
Defined.

(** ** MERCURANA: the momentum of all particles *)

Local Open Scope R_scope.

(** Writing one particle changes the momentum by the difference of its
    term; outside the array nothing is written and the term is zero. *)
Lemma total_momentum_set_particle (a : axis) (r : reb_simulation) (m : nat)
    (p' : reb_particle) :
  (List.length (particles r) <= m)%nat \/
  total_momentum a (set_particles r (upd_nat m p' (particles r)))
  = total_momentum a r
    + (p_m p' * vel_of a p'
       - p_m (particle_at (particles r) m) * vel_of a (particle_at (particles r) m)).
Proof.
  destruct (Nat.lt_ge_cases m (List.length (particles r))) as [Hlt|Hge];
    [right|left; exact Hge].
  unfold total_momentum. simpl. rewrite upd_nat_length.
  rewrite (@sum_below_update
             (fun k => p_m (particle_at (particles r) k)
                       * vel_of a (particle_at (particles r) k)) _ _ m Hlt).
  - rewrite particle_at_upd_same by exact Hlt. reflexivity.
  - intros i _ Hne. rewrite particle_at_upd_other by congruence. reflexivity.
Qed.

Lemma before_kick_total_momentum (r0 r : reb_simulation) (a : axis) :
  before_kick r0 r -> total_momentum a r = total_momentum a r0.
Proof.
  intros (_ & _ & _ & _ & _ & _ & Hlen & Hp). unfold total_momentum. rewrite Hlen.
  apply sum_below_ext. intros i _.
  rewrite (proj1 (Hp i)), (proj2 (Hp i)). reflexivity.
Qed.

(** The velocity update adds [y] times the total force and [v] times the
    mass-weighted sum of the jerks of the shell to the momentum of all
    particles. *)
Lemma kick_with_jerk_total (r : reb_simulation) (y v : R) (shell : nat) (a : axis) :
  shell_wf r shell ->
  total_momentum a (kick_with_jerk y v shell r)
  = total_momentum a r + (y * total_force a r shell + v * total_jerk a r shell).
Proof.
  intros (W1 & W2 & W3 & W4). unfold kick_with_jerk. cbv zeta.
  set (N := shellN_at (ri_mercurana r) shell) in *.
  set (map_s := map_row (ri_mercurana r) shell) in *.
  set (jk := jerk (ri_mercurana r)).
  set (term := fun k : nat =>
                 p_m (shell_particle r shell k)
                 * (y * acc_of a (shell_particle r shell k)
                    + v * acc_of a (particle_at jk k))).
  pose (P := fun (i : nat) (s : reb_simulation) =>
               ri_mercurana s = ri_mercurana r /\
               List.length (particles s) = List.length (particles r) /\
               (forall m, p_m (particle_at (particles s) m)
                          = p_m (particle_at (particles r) m) /\
                          forall b, acc_of b (particle_at (particles s) m)
                                    = acc_of b (particle_at (particles r) m)) /\
               total_momentum a s = total_momentum a r + sum_below term i).
  assert (H : P N (for_nat 0 N (fun i r0 =>
                   set_particles r0
                     (upd_nat (nth i map_s 0%nat)
                        (set_vel (particle_at (particles r0) (nth i map_s 0%nat))
                           (p_vx (particle_at (particles r0) (nth i map_s 0%nat))
                            + (y * p_ax (particle_at (particles r0) (nth i map_s 0%nat))
                               + v * p_ax (particle_at (jerk (ri_mercurana r0)) i)))
                           (p_vy (particle_at (particles r0) (nth i map_s 0%nat))
                            + (y * p_ay (particle_at (particles r0) (nth i map_s 0%nat))
                               + v * p_ay (particle_at (jerk (ri_mercurana r0)) i)))
                           (p_vz (particle_at (particles r0) (nth i map_s 0%nat))
                            + (y * p_az (particle_at (particles r0) (nth i map_s 0%nat))
                               + v * p_az (particle_at (jerk (ri_mercurana r0)) i))))
                        (particles r0))) r)).
  { apply (@for_nat_inv _ P); [lia| |]; unfold P.
    - split; [reflexivity|]. split; [reflexivity|].
      split; [intros m; split; [reflexivity|intros b; reflexivity]|]. simpl. ring.
    - intros i s Hi (Hrim & Hlen & Hp & Hs).
      set (mi := nth i map_s 0%nat).
      assert (Hmi : (mi < List.length (particles s))%nat).
      { rewrite Hlen. apply W4. apply shell_index_member; [exact W1|lia]. }
      split; [exact Hrim|]. split; [simpl; rewrite upd_nat_length; exact Hlen|].
      split.
      + intros m. simpl. destruct (Nat.eq_dec mi m) as [<-|Hne].
        * rewrite particle_at_upd_same by exact Hmi. simpl.
          split; [apply Hp|]. intros b. rewrite <- (proj2 (Hp mi) b).
          destruct b; reflexivity.
        * rewrite particle_at_upd_other by exact Hne. apply Hp.
      + match goal with
        | |- total_momentum a (set_particles s (upd_nat mi ?p' (particles s))) = _ =>
            destruct (@total_momentum_set_particle a s mi p') as [Hout|Hin]
        end; [lia|].
        assert (Et : term i = p_m (particle_at (particles s) mi)
                              * (y * acc_of a (particle_at (particles s) mi)
                                 + v * acc_of a (particle_at jk i))).
        { unfold term, shell_particle. fold map_s mi.
          rewrite (proj1 (Hp mi)), (proj2 (Hp mi) a). reflexivity. }
        rewrite Hin, Hs. simpl sum_below. rewrite Et, Hrim. fold jk.
        destruct a; simpl; ring. }
  destruct H as (_ & _ & _ & Hs). rewrite Hs.
  unfold total_force, total_jerk, shell_sum. fold N jk.
  rewrite <- (Rplus_0_l (y * _ + v * _)) at 1.
  replace 0 with (sum_below (fun _ => 0) N) by (apply sum_below_zero; reflexivity).
  rewrite <- sum_below_linear. f_equal. apply sum_below_ext. intros k _.
  unfold term. ring.
Qed.

(** The state in which the kernel updates the velocities: either it returned
    early, or it kicks a state without net force and without net jerk. *)
Lemma interaction_step_shape (r : reb_simulation) (y v : R) (shell : nat) :
  active_shell_ok r shell ->
  exists s,
    before_kick r s /\
    (reb_integrator_mercurana_interaction_step r y v shell = s \/
     exists v',
       (forall a, total_force a s shell = 0) /\
       (v' = 0 \/ forall a, total_jerk a s shell = 0) /\
       reb_integrator_mercurana_interaction_step r y v shell
       = kick_with_jerk y v' shell s).
Proof.
  intros [Hact Hwf].
  unfold reb_integrator_mercurana_interaction_step. cbv zeta.
  rewrite Hact.
  set (N := shellN_at (ri_mercurana r) shell).
  set (starti := mercurana_starti (ri_mercurana r) shell).
  destruct (zero_accelerations_spec Hwf) as [Hb0 Hf0].
  set (r1 := zero_accelerations shell r) in *.
  pose (I1 := fun s => before_kick r s /\ forall a, total_force a s shell = 0).
  assert (H1 : I1 (returned (pair_loop starti N (fun i => (i + 1)%nat) N
                               (accel_active_pair shell) r1))).
  { apply pair_loop_inv; [split; assumption|].
    intros i j s Hi Hj [Hb Hf].
    pose proof (before_kick_shell_wf Hb Hwf) as Hs.
    pose proof (before_kick_shellN shell Hb) as HN. fold N in HN.
    destruct (@accel_active_pair_step s shell i j Hs) as [Hb' Hf']; try lia.
    split; [eapply before_kick_trans; eauto|].
    intros a'. rewrite Hf'. apply Hf. }
  destruct (pair_loop starti N (fun i => (i + 1)%nat) N (accel_active_pair shell) r1)
    as [s1|s1]; simpl in H1 |- *; destruct H1 as [Hb1 Hf1].
  { exists s1. split; [exact Hb1|left; reflexivity]. }
  rewrite pair_loop_empty. simpl.
  pose proof (before_kick_shell_wf Hb1 Hwf) as Hwf1.
  destruct (negb (Reqb v 0)).
  - destruct (zero_jerk_spec Hwf1) as (Hb2 & Hp2 & Hj2).
    set (r2 := zero_jerk shell s1) in *.
    pose (I2 := fun s => before_kick r s /\ (forall a, total_force a s shell = 0) /\
                         forall a, total_jerk a s shell = 0).
    assert (H2 : I2 (returned (pair_loop starti N (fun i => (i + 1)%nat) N
                                 (jerk_active_pair shell) r2))).
    { apply pair_loop_inv.
      - split; [eapply before_kick_trans; eauto|]. split; [|exact Hj2].
        intros a'. unfold total_force, shell_sum, shell_particle.
        rewrite Hp2, (before_kick_map_row shell Hb2), (before_kick_shellN shell Hb2).
        apply Hf1.
      - intros i j s Hi Hj (Hb & Hf & HJ).
        pose proof (before_kick_shell_wf Hb Hwf) as Hs.
        pose proof (before_kick_shellN shell Hb) as HN. fold N in HN.
        destruct (@jerk_active_pair_step s shell i j Hs) as (Hb' & Hp' & HJ'); try lia.
        split; [eapply before_kick_trans; eauto|]. split.
        + intros a'. unfold total_force, shell_sum, shell_particle.
          rewrite Hp', (before_kick_map_row shell Hb'), (before_kick_shellN shell Hb').
          apply Hf.
        + intros a'. rewrite HJ'. apply HJ. }
    destruct (pair_loop starti N (fun i => (i + 1)%nat) N (jerk_active_pair shell) r2)
      as [s2|s2]; simpl in H2 |- *; destruct H2 as (Hb3 & Hf3 & Hj3).
    { exists s2. split; [exact Hb3|left; reflexivity]. }
    rewrite pair_loop_empty. simpl.
    exists s2. split; [exact Hb3|]. right. exists v.
    split; [exact Hf3|]. split; [right; exact Hj3|reflexivity].
  - exists s1. split; [exact Hb1|]. right. exists 0.
    split; [exact Hf1|]. split; [left; reflexivity|apply kick_no_jerk_eq].
Qed.

(** A kick of a fully active shell conserves the momentum of all particles. *)
Lemma interaction_step_total_momentum (r : reb_simulation) (y v : R) (shell : nat)
    (a : axis) :
  active_shell_ok r shell ->
  total_momentum a (reb_integrator_mercurana_interaction_step r y v shell)
  = total_momentum a r.
Proof.
  intros Hok. destruct (interaction_step_shape y v Hok) as (s & Hb & [E|(v' & Hf & Hj & E)]);
    rewrite E.
  - apply before_kick_total_momentum. exact Hb.
  - rewrite (@kick_with_jerk_total s y v' shell a
               (before_kick_shell_wf Hb (proj2 Hok))).
    rewrite Hf, (before_kick_total_momentum a Hb).
    destruct Hj as [->|Hj]; [ring|rewrite Hj; ring].
Qed.

(** ** MERCURANA: the recursion over the shells *)

Local Close Scope R_scope.

Lemma level_frame_refl (s : nat) (r : reb_simulation) : level_frame s r r.
Proof. unfold level_frame. repeat split; reflexivity. Qed.

Lemma level_frame_trans (s : nat) (r0 r1 r2 : reb_simulation) :
  level_frame s r0 r1 -> level_frame s r1 r2 -> level_frame s r0 r2.
Proof.
  unfold level_frame.
  intros (A1 & A2 & A3 & A4 & A5 & A6 & A7 & A8 & A9 & A10 & A11)
         (B1 & B2 & B3 & B4 & B5 & B6 & B7 & B8 & B9 & B10 & B11).
  split; [congruence|]. split; [congruence|]. split; [congruence|].
  split; [congruence|]. split; [congruence|]. split; [congruence|].
  split; [congruence|]. split; [congruence|].
  split; [intros s'; rewrite B9; apply A9|].
  split; [|intros m; rewrite B11; apply A11].
  intros s' Hs. destruct (A10 s' Hs) as (E1 & E2 & E3).
  destruct (B10 s' Hs) as (F1 & F2 & F3). repeat split; congruence.
Qed.

Lemma level_frame_weaken (s s' : nat) (r0 r : reb_simulation) :
  (s' <= s)%nat -> level_frame s r0 r -> level_frame s' r0 r.
Proof.
  unfold level_frame.
  intros Hle (A1 & A2 & A3 & A4 & A5 & A6 & A7 & A8 & A9 & A10 & A11).
  repeat (split; [assumption|]). split; [|exact A11].
  intros s'' Hs. apply A10. lia.
Qed.

(** The force kernel keeps every level. *)
Lemma kernel_frame_level (s : nat) (r0 r : reb_simulation) :
  kernel_frame r0 r -> level_frame s r0 r.
Proof.
  intros Hk. destruct (kernel_frame_rim Hk) as (R1 & R2 & R3 & R4 & R5 & R6 & _).
  destruct Hk as (_ & K2 & _ & _ & _ & K6 & K7).
  unfold level_frame, map_row, shellN_at, shellN_active_at.
  rewrite R1, R2, R3, R4, R5, R6.
  repeat split; try reflexivity; try assumption. apply K7.
Qed.

(** The predictor at [s] keeps the levels up to [s]. *)
Lemma predict_touch_level (s : nat) (r : reb_simulation)
    (rim' : reb_simulation_integrator_mercurana) :
  predict_touch s (ri_mercurana r) rim' -> level_frame s r (set_rim r rim').
Proof.
  intros (P1 & P2 & P3 & P4 & P5 & P6 & P7).
  unfold level_frame. simpl.
  split; [apply (f_equal Nmaxshells) in P1; exact P1|].
  split; [apply (f_equal whsplitting) in P1; exact P1|].
  repeat (split; [assumption|]).
  split; [apply (f_equal jerk) in P1; simpl in P1; rewrite P1; reflexivity|].
  split; [reflexivity|]. split; [exact P6|]. split; [|reflexivity].
  intros s' Hs. apply P7. lia.
Qed.

(** A state reached within a level is allocated and has its shell ready as
    the state it came from. *)
Lemma level_frame_allocated (s : nat) (r0 r : reb_simulation) :
  level_frame s r0 r -> mercurana_allocated r0 -> mercurana_allocated r.
Proof.
  unfold level_frame, mercurana_allocated.
  intros (A1 & A2 & A3 & A4 & A5 & A6 & A7 & A8 & A9 & A10 & A11)
         (M1 & M2 & M3 & M4 & M5 & M6 & M7).
  rewrite A1, A2, A3, A4, A5, A6, A7, A8.
  repeat (split; [assumption|]). split; [|assumption].
  intros s' Hs. rewrite A9. apply M6. exact Hs.
Qed.

Lemma level_frame_shell (s s' : nat) (r0 r : reb_simulation) :
  (s' <= s)%nat -> level_frame s r0 r -> shell_all_active r0 s' -> shell_all_active r s'.
Proof.
  unfold level_frame, shell_all_active, shell_members.
  intros Hle (A1 & A2 & A3 & A4 & A5 & A6 & A7 & A8 & A9 & A10 & A11)
         (S1 & S2 & S3 & S4 & S5).
  destruct (A10 s' Hle) as (E1 & E2 & E3).
  rewrite A1, A8, E1, E2, E3. repeat split; assumption.
Qed.

Lemma allocated_shell_ok (r : reb_simulation) (s : nat) :
  mercurana_allocated r -> shell_all_active r s ->
  shell_ok r s /\ active_shell_ok r s.
Proof.
  intros (M1 & M2 & M3 & M4 & M5 & M6 & M7) (S1 & S2 & S3 & S4 & S5).
  cbv zeta in *.
  split.
  - unfold shell_ok. cbv zeta.
    split; [exact S1|]. split; [exact M1|]. split; [exact M2|].
    split; [specialize (M6 s S1); lia|]. split; [lia|].
    split; [intros Hs; specialize (M6 (s + 1)%nat Hs); lia|].
    split; [intros m Hm; specialize (S5 m Hm); lia|].
    split; [exact S4|]. intros Hwh _. apply M7. exact Hwh.
  - unfold active_shell_ok, shell_wf. cbv zeta.
    split; [exact S3|]. split; [specialize (M6 s S1); lia|].
    split; [lia|]. split; [exact S4|exact S5].
Qed.

(** The position loop of the drift step keeps the integrator and the mass
    and velocity of every particle. *)
Lemma drift_positions_keeps (r : reb_simulation) (a : R) (shell : nat) :
  ri_mercurana (drift_positions r a shell) = ri_mercurana r /\
  before_kick r (drift_positions r a shell).
Proof.
  unfold drift_positions. cbv zeta.
  apply (@for_nat_preserves _ (fun s => ri_mercurana s = ri_mercurana r
                                        /\ before_kick r s));
    [split; [reflexivity|apply before_kick_refl]|].
  intros i s [Hrim Hb]. destruct (nonzero _); [|split; assumption].
  split; [exact Hrim|]. eapply before_kick_trans; [exact Hb|].
  apply before_kick_set_particle; [reflexivity|]. intros []; reflexivity.
Qed.

Lemma before_kick_same_rim_level (s : nat) (r0 r : reb_simulation) :
  ri_mercurana r = ri_mercurana r0 -> before_kick r0 r -> level_frame s r0 r.
Proof.
  intros Hrim (_ & _ & _ & _ & _ & _ & Hlen & Hp).
  unfold level_frame. rewrite Hrim.
  repeat split; try reflexivity; try assumption. apply Hp.
Qed.

(** The predictor makes the sub-shell ready. *)
Lemma predict_subshell_ready (r : reb_simulation) (dt : R) (s : nat) :
  mercurana_allocated r -> shell_all_active r s ->
  let r1 := reb_mercurana_encounter_predict r dt s in
  particles r1 = particles r /\
  level_frame s r r1 /\
  ((s + 1 < Nmaxshells (ri_mercurana r))%nat -> shell_all_active r1 (s + 1)).
Proof.
  intros Hal Hsh r1.
  destruct (allocated_shell_ok Hal Hsh) as [Hok _].
  pose proof Hal as (M1 & M2 & M3 & _).
  destruct (@encounter_predict_touch r dt s Hok M3) as (T1 & T2 & T3).
  destruct (@encounter_predict_spec r dt s Hok) as (E1 & E2 & E3 & E4 & E5 & _).
  fold r1 in T1, T2, T3, E1, E2, E3, E4, E5.
  assert (Er1 : r1 = set_rim r (ri_mercurana r1)).
  { revert T1. destruct r1, r. simpl. intros H. injection H as -> -> -> ->.
    reflexivity. }
  split; [exact E1|].
  split; [rewrite Er1; apply predict_touch_level; exact T2|].
  intros Hsub. destruct (T3 Hsub) as (C1 & C2 & C3).
  destruct Hsh as (S1 & S2 & S3 & S4 & S5). cbv zeta in *.
  unfold shell_all_active. cbv zeta.
  destruct T2 as (P1 & _). apply (f_equal Nmaxshells) in P1. simpl in P1.
  rewrite P1, E1.
  split; [exact Hsub|]. split; [lia|]. split; [apply C3; exact S3|].
  split; [exact E5|]. intros m Hm. apply S5. apply E4. exact Hm.
Qed.

(** Two drift operations that agree on the states of an invariant kept by
    both operations of a scheduler give the same runs. *)
Section Scheduler_invariant.

Context {eos : EosTables}.
Variable S : Type.
Variable I : S -> Prop.
Variables d1 d2 : S -> R -> nat -> S.
Variable k : S -> R -> R -> nat -> S.
Variable shell : nat.
Hypothesis Hd : forall r a, I r -> d1 r a shell = d2 r a shell /\ I (d1 r a shell).
Hypothesis Hk : forall r y v, I r -> I (k r y v shell).

Lemma run_calls_agree (cs : list call) :
  forall r, I r ->
    run_calls d1 k shell cs r = run_calls d2 k shell cs r /\ I (run_calls d1 k shell cs r).
Proof.
  unfold run_calls. induction cs as [|c cs IH]; intros r Hr; simpl; [split; auto|].
  destruct c as [a|y v]; simpl.
  - destruct (Hd a Hr) as [E Hi]. rewrite <- E. apply IH. exact Hi.
  - apply IH. apply Hk. exact Hr.
Qed.

Lemma step_agree (r : S) (dt : R) (type : REB_EOS_TYPE) :
  I r ->
  reb_integrator_mercurana_step d1 k r dt shell type
  = reb_integrator_mercurana_step d2 k r dt shell type
  /\ I (reb_integrator_mercurana_step d1 k r dt shell type).
Proof.
  intros Hr. destruct type; unfold reb_integrator_mercurana_step;
    apply run_calls_agree; exact Hr.
Qed.

Lemma preprocessor_agree (r : S) (dt : R) (type : REB_EOS_TYPE) :
  I r ->
  reb_integrator_mercurana_preprocessor d1 k r dt shell type
  = reb_integrator_mercurana_preprocessor d2 k r dt shell type
  /\ I (reb_integrator_mercurana_preprocessor d1 k r dt shell type).
Proof.
  intros Hr. rewrite !preprocessor_runs_its_calls. apply run_calls_agree. exact Hr.
Qed.

Lemma postprocessor_agree (r : S) (dt : R) (type : REB_EOS_TYPE) :
  I r ->
  reb_integrator_mercurana_postprocessor d1 k r dt shell type
  = reb_integrator_mercurana_postprocessor d2 k r dt shell type
  /\ I (reb_integrator_mercurana_postprocessor d1 k r dt shell type).
Proof.
  intros Hr. rewrite !postprocessor_runs_its_calls. apply run_calls_agree. exact Hr.
Qed.

(** The [n] steps between the two processors. *)
Lemma steps_agree (n : nat) (r : S) (dt : R) (type : REB_EOS_TYPE) :
  I r ->
  for_nat 0 n (fun _ r => reb_integrator_mercurana_step d1 k r dt shell type) r
  = for_nat 0 n (fun _ r => reb_integrator_mercurana_step d2 k r dt shell type) r
  /\ I (for_nat 0 n (fun _ r => reb_integrator_mercurana_step d1 k r dt shell type) r).
Proof.
  unfold for_nat. generalize (n - 0)%nat as cnt. generalize 0%nat as i.
  intros i cnt. revert i r.
  induction cnt as [|cnt IH]; intros i r Hr; simpl; [split; auto|].
  destruct (step_agree dt type Hr) as [E Hi]. rewrite <- E. apply IH. exact Hi.
Qed.

End Scheduler_invariant.

Section Levels.

Context {eos : EosTables}.

Local Open Scope R_scope.

(** The invariant of the work below a shell whose particles are all active:
    arrays allocated, shell lists kept, momentum kept. *)
Lemma drift_step_levels (depth : nat) :
  forall (r : reb_simulation) (a : R) (s : nat),
    mercurana_allocated r -> shell_all_active r s ->
    level_frame s r (reb_integrator_mercurana_drift_step depth r a s) /\
    forall ax, total_momentum ax (reb_integrator_mercurana_drift_step depth r a s)
               = total_momentum ax r.
Proof.
  induction depth as [|depth IH]; intros r a s Hal Hsh.
  all: destruct (@predict_subshell_ready r a s Hal Hsh) as (P1 & P2 & P3).
  all: set (r1 := reb_mercurana_encounter_predict r a s) in *.
  all: destruct (drift_positions_keeps r1 a s) as [D1 D2].
  all: set (r2 := drift_positions r1 a s) in *.
  all: assert (L2 : level_frame s r r2)
         by (eapply level_frame_trans;
             [exact P2|apply before_kick_same_rim_level; assumption]).
  all: assert (M2 : forall ax, total_momentum ax r2 = total_momentum ax r)
         by (intros ax; rewrite (before_kick_total_momentum ax D2);
             unfold total_momentum; rewrite P1; reflexivity).
  all: cbn [reb_integrator_mercurana_drift_step]; fold r1; fold r2.
  all: destruct ((s + 1 <? Nmaxshells (ri_mercurana r2))%nat
                 && (0 <? shellN_at (ri_mercurana r2) (s + 1))%nat) eqn:Eg;
         [|split; assumption].
  - split; assumption.
  - apply andb_prop in Eg. destruct Eg as [Eg1 _]. apply Nat.ltb_lt in Eg1.
    assert (EN : Nmaxshells (ri_mercurana r2) = Nmaxshells (ri_mercurana r))
      by (destruct L2 as (E & _); exact E).
    assert (Hsub : shell_all_active r2 (s + 1)).
    { apply (@level_frame_shell (s + 1) (s + 1) r1 r2); [lia| |apply P3; lia].
      apply before_kick_same_rim_level; assumption. }
    assert (Hal2 : mercurana_allocated r2) by (eapply level_frame_allocated; eauto).
    set (rim2 := ri_mercurana r2) in *.
    set (r3 := set_rim r2 (set_Nmaxshellused rim2
                             (Nat.max (Nmaxshellused rim2) (s + 2)))).
    assert (L3 : level_frame (s + 1) r2 r3)
      by (unfold level_frame, r3; simpl; fold rim2; repeat split; reflexivity).
    assert (M3 : forall ax, total_momentum ax r3 = total_momentum ax r2)
      by (intros ax; reflexivity).
    pose (J := fun r' => level_frame (s + 1) r3 r' /\
                         forall ax, total_momentum ax r' = total_momentum ax r3).
    assert (Hal3 : mercurana_allocated r3) by (eapply level_frame_allocated; eauto).
    assert (Hsub3 : shell_all_active r3 (s + 1))
      by (eapply level_frame_shell; [|exact L3|exact Hsub]; lia).
    assert (HJd : forall r' a', J r' ->
              reb_integrator_mercurana_drift_step depth r' a' (s + 1)
              = reb_integrator_mercurana_drift_step depth r' a' (s + 1)
              /\ J (reb_integrator_mercurana_drift_step depth r' a' (s + 1))).
    { intros r' a' [J1 J2]. split; [reflexivity|].
      destruct (IH r' a' (s + 1)%nat) as [I1 I2].
      - eapply level_frame_allocated; eauto.
      - eapply level_frame_shell; [|exact J1|exact Hsub3]. lia.
      - split; [eapply level_frame_trans; eauto|].
        intros ax. rewrite I2. apply J2. }
    assert (HJk : forall r' y v, J r' ->
              J (reb_integrator_mercurana_interaction_step r' y v (s + 1))).
    { intros r' y v [J1 J2].
      assert (Hal' : mercurana_allocated r') by (eapply level_frame_allocated; eauto).
      assert (Hsh' : shell_all_active r' (s + 1))
        by (eapply level_frame_shell; [|exact J1|exact Hsub3]; lia).
      destruct (allocated_shell_ok Hal' Hsh') as [Hok Hact].
      pose proof Hact as [Ha1 (Hw1 & _)].
      destruct (@interaction_step_touch r' y v (s + 1)%nat Hw1 ltac:(rewrite Ha1; lia))
        as [Hk _].
      split; [eapply level_frame_trans; [exact J1|apply kernel_frame_level; exact Hk]|].
      intros ax. rewrite (@interaction_step_total_momentum r' y v (s + 1)%nat ax Hact).
      apply J2. }
    assert (J3 : J r3) by (split; [apply level_frame_refl|reflexivity]).
    destruct (@preprocessor_agree eos _ J _ _ _ (s + 1)%nat HJd HJk r3
                (a / INR (rim_n rim2)) (phi1 rim2) J3) as [_ J4].
    destruct (@steps_agree eos _ J _ _ _ (s + 1)%nat HJd HJk (rim_n rim2) _
                (a / INR (rim_n rim2)) (phi1 rim2) J4) as [_ J5].
    destruct (@postprocessor_agree eos _ J _ _ _ (s + 1)%nat HJd HJk _
                (a / INR (rim_n rim2)) (phi1 rim2) J5) as [_ [J6 J7]].
    split.
    + eapply level_frame_trans; [exact L2|].
      eapply level_frame_weaken with (s := (s + 1)%nat); [lia|].
      eapply level_frame_trans; [exact L3|exact J6].
    + intros ax. rewrite J7, M3. apply M2.
Qed.

End Levels.

(** X7.  With the arrays allocated and all particles of shell [s] active,
    each of [reb_integrator_mercurana_drift_step],
    [reb_integrator_mercurana_preprocessor], [reb_integrator_mercurana_step]
    and [reb_integrator_mercurana_postprocessor] at shell [s], for every
    scheme and with all the recursion into sub-shells, conserves the three
    components of the linear momentum of all particles, and leaves the sizes
    of the arrays, the masses and the lists and counts of the shells
    [0 .. s] as they were. *)
Theorem mercurana_step_conserves_total_momentum {eos : EosTables} (depth : nat)
    (r : reb_simulation) (dt : R) (s : nat) (type : REB_EOS_TYPE) :
  mercurana_allocated r -> shell_all_active r s ->
  let drift := reb_integrator_mercurana_drift_step depth in
  let kick := reb_integrator_mercurana_interaction_step in
  forall r',
    r' = drift r dt s \/
    r' = reb_integrator_mercurana_preprocessor drift kick r dt s type \/
    r' = reb_integrator_mercurana_step drift kick r dt s type \/
    r' = reb_integrator_mercurana_postprocessor drift kick r dt s type ->
    level_frame s r r' /\
    forall ax, total_momentum ax r' = total_momentum ax r.
Proof.
  intros Hal Hsh drift kick.
  pose (J := fun r' => level_frame s r r' /\
                       forall ax, total_momentum ax r' = total_momentum ax r).
  assert (HJd : forall r' a', J r' -> drift r' a' s = drift r' a' s /\ J (drift r' a' s)).
  { intros r' a' [J1 J2]. split; [reflexivity|].
    destruct (@drift_step_levels eos depth r' a' s) as [I1 I2].
    - eapply level_frame_allocated; eauto.
    - eapply level_frame_shell; [|exact J1|exact Hsh]. lia.
    - split; [eapply level_frame_trans; eauto|].
      intros ax. fold drift in I2. rewrite I2. apply J2. }
  assert (HJk : forall r' y v, J r' -> J (kick r' y v s)).
  { intros r' y v [J1 J2].
    assert (Hal' : mercurana_allocated r') by (eapply level_frame_allocated; eauto).
    assert (Hsh' : shell_all_active r' s)
      by (eapply level_frame_shell; [|exact J1|exact Hsh]; lia).
    destruct (allocated_shell_ok Hal' Hsh') as [Hok Hact].
    pose proof Hact as [Ha1 (Hw1 & _)].
    destruct (@interaction_step_touch r' y v s Hw1 ltac:(rewrite Ha1; lia)) as [Hk _].
    split; [eapply level_frame_trans; [exact J1|apply kernel_frame_level; exact Hk]|].
    intros ax. unfold kick.
    rewrite (@interaction_step_total_momentum r' y v s ax Hact). apply J2. }
  assert (J0 : J r) by (split; [apply level_frame_refl|reflexivity]).
  intros r' [ -> | [ -> | [ -> | -> ] ] ].
  - apply (HJd r dt J0).
  - apply (@preprocessor_agree eos _ J drift drift kick s HJd HJk r dt type J0).
  - apply (@step_agree eos _ J drift drift kick s HJd HJk r dt type J0).
  - apply (@postprocessor_agree eos _ J drift drift kick s HJd HJk r dt type J0).
Qed.

Lemma two_body_allocated (wh : nat) :
  wh = 0%nat -> mercurana_allocated (two_body wh) /\ shell_all_active (two_body wh) 0.
Proof.
  intros ->. unfold mercurana_allocated, shell_all_active, shell_members, shellN_at,
    shellN_active_at, map_row. simpl. split.
  - split; [reflexivity|]. split; [reflexivity|]. split; [reflexivity|].
    split; [lia|]. split; [lia|]. split.
    + intros [ | [ | [ | s ] ] ] Hs; simpl; lia.
    + intros H. discriminate H.
  - split; [lia|]. split; [lia|]. split; [reflexivity|]. split.
    + repeat constructor; simpl; intuition lia.
    + intros m [<-|[<-|[]]]; lia.
Qed.

Lemma mercurana_step_conserves_total_momentum_witness :
  total_momentum AX
    (reb_integrator_mercurana_step (eos := unused_tables)
       (reb_integrator_mercurana_drift_step (eos := unused_tables) 3)
       reb_integrator_mercurana_interaction_step (two_body 0) 1%R 0 REB_EOS_LF)
  = total_momentum AX (two_body 0).
Proof.
  apply (@mercurana_step_conserves_total_momentum unused_tables 3 (two_body 0) 1%R 0%nat
           REB_EOS_LF (proj1 (two_body_allocated eq_refl))
           (proj2 (two_body_allocated eq_refl))).
  right. right. left. reflexivity.
Defined.

(** *** The recursion is bounded by the number of shells *)

Lemma predict_touch_loop1 (shell : nat) (lo hi : nat)
    (rim0 rim : reb_simulation_integrator_mercurana)
    (body : nat -> reb_simulation_integrator_mercurana
            -> reb_simulation_integrator_mercurana)
    (pick : nat -> nat) :
  (forall i s, body i s = s \/ body i s = promote shell (pick i) s) ->
  predict_touch shell rim0 rim ->
  predict_touch shell rim0 (for_nat lo hi body rim).
Proof.
  intros Hb H. exact (proj1 (@predict_touch_loop shell lo hi rim0 rim body pick Hb H)).
Qed.

Lemma encounter_predict_touch_only (r : reb_simulation) (dt : R) (shell : nat) :
  predict_touch shell (ri_mercurana r)
                (ri_mercurana (reb_mercurana_encounter_predict r dt shell)).
Proof.
  unfold reb_mercurana_encounter_predict. cbv zeta.
  set (rim := ri_mercurana r).
  destruct ((shell =? 0)%nat && nonzero (whsplitting rim)).
  - match goal with
    | |- predict_touch _ _ (ri_mercurana (set_rim _ ?x)) =>
        change (predict_touch shell rim x)
    end.
    eapply predict_touch_trans; [|apply predict_touch_shellN_active].
    eapply predict_touch_trans; [|apply predict_touch_shellN].
    apply for_nat_preserves; [apply predict_touch_refl|].
    intros i s Hs. eapply predict_touch_trans; [exact Hs|].
    eapply predict_touch_trans; [apply predict_touch_inshell|].
    apply predict_touch_map. apply upd_nat_length.
  - match goal with
    | |- context [Nat.leb (Nmaxshells ?x) _] => set (rim1 := x)
    end.
    assert (H1 : predict_touch shell rim rim1).
    { unfold rim1. apply for_nat_preserves; [apply predict_touch_refl|].
      intros i s Hs. eapply predict_touch_trans; [exact Hs|apply predict_touch_inshell]. }
    destruct (Nmaxshells rim1 <=? shell + 1)%nat; [exact H1|].
    match goal with
    | |- predict_touch _ _ (ri_mercurana (set_rim _ ?x)) =>
        change (predict_touch shell rim x)
    end.
    apply predict_touch_loop1 with (pick := fun i => nth i (map_row rim shell) 0%nat);
      [intros i s; apply encounter_loop_body_passive|].
    eapply predict_touch_trans; [|apply predict_touch_shellN_active].
    apply predict_touch_loop1 with (pick := fun i => nth i (map_row rim shell) 0%nat);
      [intros i s; apply encounter_loop_body_active|].
    eapply predict_touch_trans; [exact H1|].
    eapply predict_touch_trans;
      [apply predict_touch_shellN|apply predict_touch_shellN_active].
Qed.

Lemma interaction_step_Nmaxshells (r : reb_simulation) (y v : R) (shell : nat) :
  Nmaxshells (ri_mercurana (reb_integrator_mercurana_interaction_step r y v shell))
  = Nmaxshells (ri_mercurana r).
Proof.
  unfold reb_integrator_mercurana_interaction_step. cbv zeta.
  set (I := fun s => Nmaxshells (ri_mercurana s) = Nmaxshells (ri_mercurana r)).
  assert (Hloop : forall lo hi (body : nat -> reb_simulation -> reb_simulation) s,
            (forall i s', I s' -> I (body i s')) -> I s -> I (for_nat lo hi body s))
    by (intros lo hi body s Hb Hs; apply for_nat_preserves; assumption).
  assert (H0 : I (zero_accelerations shell r))
    by (unfold zero_accelerations; apply Hloop; [intros i s' Hs'; exact Hs'|reflexivity]).
  match goal with
  | |- Nmaxshells (ri_mercurana ?x) = _ => change (I x)
  end.
  apply and_then_inv.
  { apply pair_loop_inv; [exact H0|]. intros i j s _ _ Hs. exact Hs. }
  intros s1 H1. apply and_then_inv.
  { apply pair_loop_inv; [exact H1|]. intros i j s _ _ Hs. exact Hs. }
  intros s2 H2. destruct (negb (Reqb v 0)).
  - apply and_then_inv.
    { apply pair_loop_inv.
      - unfold zero_jerk. apply Hloop; [intros i s' Hs'; exact Hs'|exact H2].
      - intros i j s _ _ Hs. exact Hs. }
    intros s3 H3. apply and_then_inv.
    { apply pair_loop_inv; [exact H3|]. intros i j s _ _ Hs. exact Hs. }
    intros s4 H4. simpl. unfold kick_with_jerk.
    apply Hloop; [intros i s' Hs'; exact Hs'|exact H4].
  - simpl. unfold kick_no_jerk. apply Hloop; [intros i s' Hs'; exact Hs'|exact H2].
Qed.

Section Depth.

Context {eos : EosTables}.

Local Open Scope R_scope.

Lemma drift_step_Nmaxshells (depth : nat) :
  forall (r : reb_simulation) (a : R) (s : nat),
    Nmaxshells (ri_mercurana (reb_integrator_mercurana_drift_step depth r a s))
    = Nmaxshells (ri_mercurana r).
Proof.
  induction depth as [|depth IH]; intros r a s.
  all: pose proof (encounter_predict_touch_only r a s) as (P1 & _).
  all: apply (f_equal Nmaxshells) in P1; simpl in P1.
  all: set (r1 := reb_mercurana_encounter_predict r a s) in *.
  all: destruct (drift_positions_keeps r1 a s) as [D1 _].
  all: set (r2 := drift_positions r1 a s) in *.
  all: assert (E2 : Nmaxshells (ri_mercurana r2) = Nmaxshells (ri_mercurana r))
         by (rewrite D1; exact P1).
  all: cbn [reb_integrator_mercurana_drift_step]; fold r1; fold r2.
  all: destruct ((s + 1 <? Nmaxshells (ri_mercurana r2))%nat
                 && (0 <? shellN_at (ri_mercurana r2) (s + 1))%nat);
         [|exact E2].
  - exact E2.
  - set (rim2 := ri_mercurana r2) in *.
    set (r3 := set_rim r2 _).
    pose (J := fun r' => Nmaxshells (ri_mercurana r') = Nmaxshells (ri_mercurana r)).
    assert (HJd : forall r' a', J r' ->
              reb_integrator_mercurana_drift_step depth r' a' (s + 1)
              = reb_integrator_mercurana_drift_step depth r' a' (s + 1)
              /\ J (reb_integrator_mercurana_drift_step depth r' a' (s + 1)))
      by (intros r' a' Hr'; split; [reflexivity|unfold J; rewrite IH; exact Hr']).
    assert (HJk : forall r' y v, J r' ->
              J (reb_integrator_mercurana_interaction_step r' y v (s + 1)))
      by (intros r' y v Hr'; unfold J; rewrite interaction_step_Nmaxshells; exact Hr').
    assert (J3 : J r3) by exact E2.
    destruct (@preprocessor_agree eos _ J _ _ _ (s + 1)%nat HJd HJk r3
                (a / INR (rim_n rim2)) (phi1 rim2) J3) as [_ J4].
    destruct (@steps_agree eos _ J _ _ _ (s + 1)%nat HJd HJk (rim_n rim2) _
                (a / INR (rim_n rim2)) (phi1 rim2) J4) as [_ J5].
    destruct (@postprocessor_agree eos _ J _ _ _ (s + 1)%nat HJd HJk _
                (a / INR (rim_n rim2)) (phi1 rim2) J5) as [_ J6].
    exact J6.
Qed.

(** X8.  The recursion of [reb_integrator_mercurana_drift_step] into the
    sub-shells ends after at most [Nmaxshells - shell - 1] nested levels: with
    at least that depth allowed, the result does not depend on the bound, and
    the number of shells is never changed. *)
Theorem drift_step_recursion_is_bounded (depth1 : nat) :
  forall (depth2 : nat) (r : reb_simulation) (a : R) (s : nat),
    (Nmaxshells (ri_mercurana r) - s - 1 <= depth1)%nat ->
    (Nmaxshells (ri_mercurana r) - s - 1 <= depth2)%nat ->
    reb_integrator_mercurana_drift_step depth1 r a s
    = reb_integrator_mercurana_drift_step depth2 r a s
    /\ Nmaxshells (ri_mercurana (reb_integrator_mercurana_drift_step depth1 r a s))
       = Nmaxshells (ri_mercurana r).
Proof.
  induction depth1 as [|depth1 IH]; intros depth2 r a s H1 H2.
  all: split; [|apply drift_step_Nmaxshells].
  all: pose proof (encounter_predict_touch_only r a s) as (P1 & _).
  all: apply (f_equal Nmaxshells) in P1; simpl in P1.
  all: set (r1 := reb_mercurana_encounter_predict r a s) in *.
  all: destruct (drift_positions_keeps r1 a s) as [D1 _].
  all: set (r2 := drift_positions r1 a s) in *.
  all: assert (E2 : Nmaxshells (ri_mercurana r2) = Nmaxshells (ri_mercurana r))
         by (rewrite D1; exact P1).
  all: destruct depth2 as [|depth2].
  all: cbn [reb_integrator_mercurana_drift_step]; fold r1; fold r2.
  all: destruct ((s + 1 <? Nmaxshells (ri_mercurana r2))%nat
                 && (0 <? shellN_at (ri_mercurana r2) (s + 1))%nat) eqn:Eg;
         [|reflexivity].
  all: apply andb_prop in Eg; destruct Eg as [Eg _]; apply Nat.ltb_lt in Eg.
  all: try (exfalso; lia).
  set (rim2 := ri_mercurana r2) in *.
  set (r3 := set_rim r2 _).
  pose (J := fun r' => Nmaxshells (ri_mercurana r') = Nmaxshells (ri_mercurana r)).
  assert (HJd : forall r' a', J r' ->
            reb_integrator_mercurana_drift_step depth1 r' a' (s + 1)
            = reb_integrator_mercurana_drift_step depth2 r' a' (s + 1)
            /\ J (reb_integrator_mercurana_drift_step depth1 r' a' (s + 1))).
  { intros r' a' Hr'. unfold J in Hr'. split.
    - apply IH; rewrite Hr'; lia.
    - unfold J. rewrite drift_step_Nmaxshells. exact Hr'. }
  assert (HJk : forall r' y v, J r' ->
            J (reb_integrator_mercurana_interaction_step r' y v (s + 1)))
    by (intros r' y v Hr'; unfold J; rewrite interaction_step_Nmaxshells; exact Hr').
  assert (J3 : J r3) by exact E2.
  destruct (@preprocessor_agree eos _ J _ _ _ (s + 1)%nat HJd HJk r3
              (a / INR (rim_n rim2)) (phi1 rim2) J3) as [E4 J4].
  rewrite <- E4.
  destruct (@steps_agree eos _ J _ _ _ (s + 1)%nat HJd HJk (rim_n rim2) _
              (a / INR (rim_n rim2)) (phi1 rim2) J4) as [E5 J5].
  rewrite <- E5.
  destruct (@postprocessor_agree eos _ J _ _ _ (s + 1)%nat HJd HJk _
              (a / INR (rim_n rim2)) (phi1 rim2) J5) as [E6 _].
  exact E6.
Qed.

End Depth.

Lemma drift_step_recursion_is_bounded_witness :
  reb_integrator_mercurana_drift_step (eos := unused_tables) 2 (two_body 0) 1%R 0
  = reb_integrator_mercurana_drift_step (eos := unused_tables) 7 (two_body 0) 1%R 0.
Proof.
  apply (@drift_step_recursion_is_bounded unused_tables 2 7 (two_body 0) 1%R 0%nat);
    simpl; lia.
Defined.

(** ** BS: what an accepted step commits *)

Local Close Scope R_scope.
Local Open Scope Z_scope.

Section BS_accept.

Context {libm : LibM}.

Lemma check_convergence_dt (error : Q) (lv : loop_vars) :
  post (fun lv' =>
          optimalStep (lv_ri lv') = optimalStep (lv_ri lv) /\
          lv_k lv' = lv_k lv /\
          (truthy (lv_reject lv') = false ->
           lv_dt lv' = lv_dt lv /\ truthy (lv_reject lv) = false))
       (check_convergence error lv).
Proof.
  unfold check_convergence, reject_lower_order.
  repeat post_step; simpl.
  all: split; [reflexivity|].
  all: split; [reflexivity|].
  all: intros Hr; first [discriminate Hr | split; [reflexivity|exact Hr]].
Qed.

Lemma step_control_dt (error : Q) (lv : loop_vars) :
  post (fun lv' =>
          (exists v : Q,
              (0 <= v)%Q /\ 0 <= lv_k lv < Z.of_nat (List.length (optimalStep (lv_ri lv))) /\
              optimalStep (lv_ri lv') = upd (lv_k lv) v (optimalStep (lv_ri lv))) /\
          lv_k lv' = lv_k lv /\
          (truthy (lv_reject lv') = false ->
           lv_dt lv' = lv_dt lv /\ truthy (lv_reject lv) = false))
       (step_control error lv).
Proof.
  unfold step_control.
  apply post_bind, post_wr. intros Hk. cbv zeta.
  repeat post_step.
  eapply post_mono; [apply check_convergence_dt|].
  intros lv' (E1 & E2 & E3).
  split; [|split; [exact E2|exact E3]].
  eexists. split; [|split; [exact Hk|exact E1]].
  apply Qabs_nonneg.
Qed.

Lemma steps_written_upd (lv lv' : loop_vars) (v : Q) :
  (0 <= v)%Q ->
  0 <= lv_k lv' < Z.of_nat (List.length (optimalStep (lv_ri lv))) ->
  optimalStep (lv_ri lv') = upd (lv_k lv') v (optimalStep (lv_ri lv)) ->
  lv_k lv' = lv_k lv + 1 ->
  steps_written lv -> steps_written lv'.
Proof.
  intros Hv Hk E Ek Hw i Hi. rewrite E.
  destruct (Z.eq_dec i (lv_k lv')) as [->|Hne].
  - rewrite getd_upd_same; [exact Hv|exact Hk].
  - rewrite getd_upd_other; [|congruence]. apply Hw. lia.
Qed.

Lemma loop_body_dt (t : Q) (lv : loop_vars) :
  truthy (lv_loop lv) = true ->
  post (fun lv' =>
          (truthy (lv_reject lv') = false ->
           lv_dt lv' = lv_dt lv /\ truthy (lv_reject lv) = false /\
           (steps_written lv -> steps_written lv')) /\
          (truthy (lv_loop lv') = false -> truthy (lv_reject lv') = false ->
           1 <= lv_k lv'))
       (loop_body t lv).
Proof.
  intros Hloop. unfold loop_body.
  apply post_bind, post_rd. intros Hk. apply post_bind.
  destruct (tryStep _ _ _ _ _ _) as [[ret sts']| | |]; try exact I.
  cbv beta. simpl fst. simpl snd.
  repeat post_step.
  - split; [intros Hr; discriminate Hr|]. intros _ Hr. discriminate Hr.
  - split; [intros Hr; discriminate Hr|]. intros _ Hr. discriminate Hr.
  - eapply post_mono; [apply step_control_dt|].
    intros lv' ((v & Hv & Hb & E1) & E2 & E3).
    cbn [lv_ri lv_k lv_dt lv_reject optimalStep set_states] in Hb, E1, E2, E3.
    split.
    + intros Hr. destruct (E3 Hr) as [Ed Er].
      split; [exact Ed|]. split; [exact Er|].
      apply steps_written_upd with (v := v); try assumption.
      * rewrite E2. exact Hb.
      * rewrite E2. exact E1.
    + intros _ _. rewrite E2. lia.
  - split.
    + intros Hr. cbn [lv_reject] in Hr. cbn [lv_dt]. split; [reflexivity|].
      split; [exact Hr|].
      intros _ i Hi. cbn [lv_k] in Hi. lia.
    + cbn [lv_loop]. intros Hl. congruence.
Qed.

Lemma convergence_loop_dt (t : Q) :
  forall (fuel : nat) (lv : loop_vars),
    truthy (lv_loop lv) = true ->
    post (fun lv' =>
            truthy (lv_reject lv') = false ->
            lv_dt lv' = lv_dt lv /\ truthy (lv_reject lv) = false /\
            (steps_written lv -> steps_written lv') /\ 1 <= lv_k lv')
         (convergence_loop fuel t lv).
Proof.
  induction fuel as [|fuel IH]; intros lv Hloop; simpl; [exact I|].
  apply post_bind.
  eapply post_mono; [apply loop_body_dt; exact Hloop|].
  intros lv' (E1 & E2). cbv beta.
  destruct (truthy (lv_loop lv')) eqn:Hl.
  - eapply post_mono; [apply IH; exact Hl|].
    intros lv'' G Hr. destruct (G Hr) as (Gd & Gr & Gw & Gk).
    destruct (E1 Gr) as (Hd & Hr0 & Hw).
    split; [congruence|]. split; [exact Hr0|]. split; [|exact Gk].
    intros H. apply Gw, Hw, H.
  - simpl. intros Hr. destruct (E1 Hr) as (Hd & Hr0 & Hw).
    split; [exact Hd|]. split; [exact Hr0|]. split; [exact Hw|].
    apply E2; [reflexivity|exact Hr].
Qed.

Lemma run_convergence_loop_dt (ri : reb_simulation_integrator_bs) (t dt : Q) :
  post (fun lv =>
          truthy (lv_reject lv) = false ->
          lv_dt lv = dt /\ steps_written lv /\ 1 <= lv_k lv)
       (run_convergence_loop ri t dt).
Proof.
  unfold run_convergence_loop.
  eapply post_mono; [apply convergence_loop_dt; reflexivity|].
  intros lv H Hr. destruct (H Hr) as (Hd & _ & Hw & Hk).
  split; [exact Hd|]. split; [|exact Hk].
  apply Hw. intros i Hi. cbn [loop_entry lv_k] in Hi. lia.
Qed.

Lemma select_optimalIter_positive (ri : reb_simulation_integrator_bs) (k : Z) :
  1 <= k -> post (fun o => 1 <= o) (select_optimalIter ri k).
Proof.
  intros Hk. unfold select_optimalIter.
  assert (Hs : 1 <= sequence_length - 2) by (vm_compute; discriminate).
  repeat post_step; unfold MINZ;
    repeat match goal with
           | |- context [if ?c then _ else _] => destruct c eqn:?
           end; lia.
Qed.

Lemma accept_step_commit (lv : loop_vars) :
  1 <= lv_k lv -> steps_written lv ->
  post (fun lv' =>
          states (lv_ri lv')
          = map (fun st => set_y1 (set_y st (ode_y1 st)) (ode_y st)) (states (lv_ri lv)) /\
          (truthy (previousRejected (lv_ri lv)) = true ->
           (0 <= lv_dt lv' <= Qabs (lv_dt lv))%Q /\
           1 <= targetIter (lv_ri lv') <= lv_k lv))
       (accept_step lv).
Proof.
  intros Hk Hw. unfold accept_step. cbv zeta. apply post_bind.
  eapply post_mono; [apply select_optimalIter_positive; exact Hk|].
  intros o Ho. cbv beta.
  cbn [previousRejected set_states].
  destruct (truthy (previousRejected (lv_ri lv))) eqn:Hp.
  - apply post_bind, post_rd. intros Hb.
    change (post ?Q (Ok ?a)) with (Q a). cbv beta.
    cbn [lv_ri lv_dt set_lv_dt set_lv_ri states set_targetIter set_states targetIter
         optimalStep] in *.
    split; [reflexivity|]. intros _.
    assert (Ht : 1 <= MINZ o (lv_k lv) <= lv_k lv).
    { unfold MINZ. destruct (o <? lv_k lv) eqn:E; lia. }
    split; [|exact Ht].
    specialize (Hw _ Ht).
    unfold MIN, fabs. pose proof (Qabs_nonneg (lv_dt lv)) as Hn.
    destruct (Qlt_le_dec _ _) as [Hlt|Hle]; split;
      first [assumption | apply Qle_refl].
  - repeat post_step; cbn [lv_ri set_lv_dt set_lv_ri states set_targetIter set_states];
      (split; [reflexivity|]); intros Hr; discriminate Hr.
Qed.

Lemma swapped_keeps_old_y (sts sl : list reb_ode_state) :
  states_fixed sts sl ->
  Forall2 (fun st st' => ode_y1 st' = ode_y st) sts
          (map (fun st => set_y1 (set_y st (ode_y1 st)) (ode_y st)) sl).
Proof.
  intros H. induction H as [|a b l l' Hab Hl IH]; simpl; constructor; [|exact IH].
  simpl. apply Hab.
Qed.

Lemma swapped_takes_new_y (sl : list reb_ode_state) :
  Forall2 (fun s st' => ode_y st' = ode_y1 s) sl
          (map (fun st => set_y1 (set_y st (ode_y1 st)) (ode_y st)) sl).
Proof. induction sl as [|a l IH]; simpl; constructor; [reflexivity|exact IH]. Qed.

Lemma finish_step_commit (fwd : bool) (lv : loop_vars) (ret : Z)
      (ri' : reb_simulation_integrator_bs) :
  finish_step fwd lv = Ok (ret, ri') -> truthy (lv_reject lv) = false ->
  previousRejected ri' = 0 /\ firstOrLastStep ri' = 0 /\
  states ri' = states (lv_ri lv) /\ targetIter ri' = targetIter (lv_ri lv) /\
  (Qabs (dt_proposed ri') == Qabs (lv_dt lv))%Q.
Proof.
  unfold finish_step. intros H Hr. rewrite Hr in H.
  destruct (Qlt_le_dec _ _); [discriminate H|].
  destruct (_ && _); [discriminate H|].
  injection H as _ <-. cbn.
  repeat (split; [reflexivity|]).
  pose proof (Qabs_nonneg (lv_dt lv)) as Hn. unfold fabs.
  destruct fwd; cbn [negb].
  - apply Qabs_pos. exact Hn.
  - rewrite Qabs_opp. apply Qabs_pos. exact Hn.
Qed.

(** X9. What [reb_integrator_bs_step] commits when it returns [1]: the flags
    [previousRejected] and [firstOrLastStep] are cleared, every state keeps in
    [y1] the values that [y] held on entry and takes as [y] the buffer [y1] of
    the end of the convergence loop, which accepted in a column [k >= 1].  If
    the step before had been rejected, the proposed step size is not larger in
    magnitude than the one just used, and the new target column is between [1]
    and [k]. *)
Theorem accepted_step_commits :
  forall (ri : reb_simulation_integrator_bs) (t dt : Q)
         (ri' : reb_simulation_integrator_bs),
    reb_integrator_bs_step ri t dt = Ok (1, ri') ->
    previousRejected ri' = 0 /\ firstOrLastStep ri' = 0 /\
    Forall2 (fun st st' => ode_y1 st' = ode_y st) (states ri) (states ri') /\
    exists lv,
      run_convergence_loop ri t dt = Ok lv /\
      truthy (lv_reject lv) = false /\ 1 <= lv_k lv /\
      Forall2 (fun sl st' => ode_y st' = ode_y1 sl) (states (lv_ri lv)) (states ri') /\
      (truthy (previousRejected ri) = true ->
       (Qabs (dt_proposed ri') <= Qabs dt)%Q /\ 1 <= targetIter ri' <= lv_k lv).
Proof.
  intros ri t dt ri' Hstep. unfold reb_integrator_bs_step in Hstep.
  destruct (run_convergence_loop ri t dt) as [lv| | |] eqn:Hloop;
    simpl in Hstep; try discriminate.
  pose proof (post_elim _ (run_convergence_loop_post ri t dt) Hloop) as (Hfix & _).
  pose proof (post_elim _ (run_convergence_loop_dt ri t dt) Hloop) as Hdt.
  destruct (truthy (lv_reject lv)) eqn:Hrej; simpl in Hstep.
  - (* a rejecting loop makes [finish_step] return 0 *)
    unfold finish_step in Hstep. rewrite Hrej in Hstep.
    destruct (Qlt_le_dec _ _); [discriminate Hstep|].
    destruct (_ && _); discriminate Hstep.
  - destruct (Hdt Hrej) as (Hd & Hw & Hk).
    destruct (accept_step lv) as [lv2| | |] eqn:Hacc; simpl in Hstep; try discriminate.
    pose proof (post_elim _ (accept_step_post lv) Hacc) as (Hr2 & _).
    pose proof (post_elim _ (accept_step_commit Hk Hw) Hacc) as (Hsw & Hprev).
    assert (Hrej2 : truthy (lv_reject lv2) = false) by (rewrite Hr2; exact Hrej).
    destruct (finish_step_commit _ _ Hstep Hrej2) as (F1 & F2 & F3 & F4 & F5).
    split; [exact F1|]. split; [exact F2|].
    destruct Hfix as (Hsts & _ & _ & _ & _ & _ & _ & _ & _ & _ & Hpr & _).
    split.
    { rewrite F3, Hsw. apply swapped_keeps_old_y. exact Hsts. }
    exists lv. split; [reflexivity|]. split; [exact Hrej|]. split; [exact Hk|].
    split.
    { rewrite F3, Hsw. apply swapped_takes_new_y. }
    intros Hp. rewrite <- Hpr in Hp.
    destruct (Hprev Hp) as ((Hlo & Hhi) & Ht).
    split; [|rewrite F4; exact Ht].
    rewrite F5, <- Hd. rewrite (Qabs_pos _ Hlo). exact Hhi.
Qed.

End BS_accept.

Lemma accepted_step_commits_witness :
  let ri := set_targetIter (set_previousRejected (fresh_integrator ode_decay) 1) 1 in
  exists ri',
    @reb_integrator_bs_step rational_libm ri 0 (1 # 10) = Ok (1, ri')
    /\ previousRejected ri' = 0 /\ firstOrLastStep ri' = 0
    /\ Forall2 (fun st st' => ode_y1 st' = ode_y st) (states ri) (states ri')
    /\ (Qabs (dt_proposed ri') <= Qabs (1 # 10))%Q.
Proof.
  intros ri.
  assert (Hret : returned_value (@reb_integrator_bs_step rational_libm ri 0 (1 # 10))
                 = Some 1) by (vm_compute; reflexivity).
  destruct (@reb_integrator_bs_step rational_libm ri 0 (1 # 10))
    as [[ret ri']| | |] eqn:Hstep; simpl in Hret; try discriminate Hret.
  assert (Hz : ret = 1) by congruence. subst ret.
  exists ri'. split; [reflexivity|].
  destruct (@accepted_step_commits rational_libm _ _ _ _ Hstep)
    as (H1 & H2 & H3 & lv & _ & _ & _ & _ & H4).
  split; [exact H1|]. split; [exact H2|]. split; [exact H3|].
  apply H4. reflexivity.
Defined.

(** ** MERCURANA: the tables that [part1] builds *)

Local Close Scope Z_scope.
Local Open Scope R_scope.

(** The 200 Newton steps of [sqrt3] are never run in what follows. *)
Local Opaque sqrt3.

Lemma realloc_length (A : Type) (fresh : nat -> A) (n : nat) (old : list A) :
  List.length (realloc fresh n old) = n.
Proof. unfold realloc. rewrite length_map, length_seq. reflexivity. Qed.

Lemma fresh_rows_length (A : Type) (fresh : nat -> nat -> A) (N M : nat) :
  List.length (map (fun s => map (fresh s) (seq 0 N)) (seq 0 M)) = M.
Proof. rewrite length_map, length_seq. reflexivity. Qed.

Lemma fresh_rows_row (A : Type) (fresh : nat -> nat -> A) (N M s : nat) :
  (s < M)%nat ->
  List.length (nth s (map (fun s => map (fresh s) (seq 0 N)) (seq 0 M)) []) = N.
Proof.
  intros Hs.
  rewrite (nth_indep _ [] (map (fresh 0%nat) (seq 0 N)))
    by (rewrite fresh_rows_length; exact Hs).
  rewrite (map_nth (fun s => map (fresh s) (seq 0 N)) (seq 0 M) 0%nat s).
  rewrite length_map, length_seq. reflexivity.
Qed.

Lemma mercurana_allocate_sized (mem : fresh_memory) (N : nat)
      (rim : reb_simulation_integrator_mercurana) :
  tables_sized N (mercurana_allocate mem N rim) /\
  same_settings rim (mercurana_allocate mem N rim).
Proof.
  unfold tables_sized, same_settings, mercurana_allocate, dcrit_row, map_row. cbn.
  rewrite !fresh_rows_length, !realloc_length.
  split; [|repeat split].
  repeat (split; [first [reflexivity | apply length_seq
                         | rewrite length_map; apply length_seq]|]).
  split; intros s Hs; apply fresh_rows_row; exact Hs.
Qed.

(** Filling the first [N] entries of row [s] of a table, one by one. *)
Lemma fill_row (A : Type) (d0 : A) (f : nat -> A) (s N : nat) (rows : list (list A)) :
  (s < List.length rows)%nat -> (N <= List.length (nth s rows []))%nat ->
  let rows' :=
    for_nat 0 N (fun i rows => upd_nat s (upd_nat i (f i) (nth s rows [])) rows) rows in
  List.length rows' = List.length rows /\
  (forall s', List.length (nth s' rows' []) = List.length (nth s' rows [])) /\
  (forall s', s' <> s -> nth s' rows' [] = nth s' rows []) /\
  (forall i, (i < N)%nat -> nth i (nth s rows' []) d0 = f i) /\
  (forall i, (N <= i)%nat -> nth i (nth s rows' []) d0 = nth i (nth s rows []) d0).
Proof.
  intros Hs HN.
  pose (P := fun (k : nat) (rows' : list (list A)) =>
    List.length rows' = List.length rows /\
    (forall s', List.length (nth s' rows' []) = List.length (nth s' rows [])) /\
    (forall s', s' <> s -> nth s' rows' [] = nth s' rows []) /\
    (forall i, (i < k)%nat -> nth i (nth s rows' []) d0 = f i) /\
    (forall i, (k <= i)%nat -> nth i (nth s rows' []) d0 = nth i (nth s rows []) d0)).
  apply (@for_nat_inv _ P); [lia| |].
  - unfold P. repeat split; auto. intros i Hi. lia.
  - intros k rows1 Hk (I1 & I2 & I3 & I4 & I5). unfold P.
    assert (Hs1 : (s < List.length rows1)%nat) by (rewrite I1; exact Hs).
    assert (Hk1 : (k < List.length (nth s rows1 []))%nat) by (rewrite I2; lia).
    split; [rewrite upd_nat_length; exact I1|].
    split.
    { intros s'. destruct (Nat.eq_dec s' s) as [->|Hne].
      - rewrite upd_nat_nth_same by exact Hs1. rewrite upd_nat_length. apply I2.
      - rewrite upd_nat_nth_other by congruence. apply I2. }
    split.
    { intros s' Hne. rewrite upd_nat_nth_other by congruence. apply I3. exact Hne. }
    rewrite upd_nat_nth_same by exact Hs1.
    split.
    { intros i Hi. destruct (Nat.eq_dec i k) as [->|Hne].
      - apply upd_nat_nth_same. exact Hk1.
      - rewrite upd_nat_nth_other by congruence. apply I4. lia. }
    intros i Hi. rewrite upd_nat_nth_other by lia. apply I5. lia.
Qed.

Lemma for_nat_set_dcrit (g : nat -> list (list R) -> list (list R)) (lo hi : nat)
      (rim : reb_simulation_integrator_mercurana) :
  for_nat lo hi (fun i rim => set_dcrit rim (g i (dcrit rim))) rim
  = set_dcrit rim (for_nat lo hi g (dcrit rim)).
Proof.
  unfold for_nat. generalize (hi - lo)%nat as cnt. intros cnt. revert lo rim.
  induction cnt as [|cnt IH]; intros lo rim; simpl.
  - destruct rim; reflexivity.
  - rewrite IH. reflexivity.
Qed.

Lemma for_nat_set_map (g : nat -> list (list nat) -> list (list nat)) (lo hi : nat)
      (rim : reb_simulation_integrator_mercurana) :
  for_nat lo hi (fun i rim => set_map rim (g i (rim_map rim))) rim
  = set_map rim (for_nat lo hi g (rim_map rim)).
Proof.
  unfold for_nat. generalize (hi - lo)%nat as cnt. intros cnt. revert lo rim.
  induction cnt as [|cnt IH]; intros lo rim; simpl.
  - destruct rim; reflexivity.
  - rewrite IH. reflexivity.
Qed.

Lemma recalculate_dcrit_tables (r : reb_simulation) (dt frac : R) :
  let N := List.length (particles r) in
  let rim0 := ri_mercurana r in
  tables_sized N rim0 ->
  let r' := recalculate_dcrit r dt frac in
  let rim' := ri_mercurana r' in
  r' = set_rim r rim' /\
  set_map (set_shellN_active (set_shellN (set_dcrit rim' (dcrit rim0)) (shellN rim0))
             (shellN_active rim0)) (rim_map rim0) = rim0 /\
  tables_sized N rim' /\
  (forall s, shellN_at rim' s = 0%nat /\ shellN_active_at rim' s = 0%nat) /\
  (forall i, (0 < Nmaxshells rim0)%nat -> (i < N)%nat -> nth i (map_row rim' 0) 0%nat = i) /\
  (forall s, s <> 0%nat -> map_row rim' s = map_row rim0 s) /\
  (forall s i, (s < Nmaxshells rim0)%nat -> (i < N)%nat ->
     nth i (dcrit_row rim' s) 0 = critical_radius r dt frac s i).
Proof.
  intros N rim0 (Z1 & Z2 & Z3 & Z4 & Z5 & Z6 & Z7 & Z8) r' rim'.
  unfold rim', r', recalculate_dcrit. fold N. fold rim0. cbv zeta.
  match goal with
  | |- context [for_nat 0 (Nmaxshells rim0) ?b (rim0, dt)] =>
      set (body := b); set (st1 := for_nat 0 (Nmaxshells rim0) body (rim0, dt))
  end.
  pose (Q := fun (k : nat) (st : reb_simulation_integrator_mercurana * R) =>
    snd st = shell_dt dt (rim_n rim0) k /\
    set_shellN_active (set_shellN (set_dcrit (fst st) (dcrit rim0)) (shellN rim0))
      (shellN_active rim0) = rim0 /\
    List.length (dcrit (fst st)) = List.length (dcrit rim0) /\
    (forall s', List.length (dcrit_row (fst st) s') = List.length (dcrit_row rim0 s')) /\
    List.length (shellN (fst st)) = List.length (shellN rim0) /\
    List.length (shellN_active (fst st)) = List.length (shellN_active rim0) /\
    forall s, (s < k)%nat ->
      (forall i, (i < N)%nat -> nth i (dcrit_row (fst st) s) 0 = critical_radius r dt frac s i) /\
      shellN_at (fst st) s = 0%nat /\ shellN_active_at (fst st) s = 0%nat).
  assert (HQ : Q (Nmaxshells rim0) st1).
  { apply (@for_nat_inv _ Q); [lia| |].
    - unfold Q. simpl. split; [reflexivity|]. split; [destruct rim0; reflexivity|].
      repeat (split; [reflexivity|]). intros s Hs. lia.
    - intros k [rim1 dts] Hk (Q1 & Q2 & Q3 & Q4 & Q5 & Q6 & Q7).
      simpl in Q1, Q2, Q3, Q4, Q5, Q6, Q7. subst dts.
      assert (En : rim_n rim1 = rim_n rim0) by (rewrite <- Q2; reflexivity).
      pose (fk := fun i : nat =>
        sqrt3 (shell_dt dt (rim_n rim0) k / (frac * 2 * PI)
               * (shell_dt dt (rim_n rim0) k / (frac * 2 * PI)) * G r
               * p_m (particle_at (particles r) i))).
      pose (g := fun (i : nat) (rows : list (list R)) =>
        upd_nat k (upd_nat i (fk i) (nth k rows [])) rows).
      assert (Hin : for_nat 0 N (fun i rim =>
                      set_dcrit rim (upd_nat k (upd_nat i (fk i) (dcrit_row rim k))
                                       (dcrit rim))) rim1
                    = set_dcrit rim1 (for_nat 0 N g (dcrit rim1)))
        by exact (for_nat_set_dcrit g 0 N rim1).
      destruct (@fill_row R 0 fk k N (dcrit rim1)) as (F1 & F2 & F3 & F4 & _).
      { rewrite Q3, Z1. lia. }
      { change (nth k (dcrit rim1) []) with (dcrit_row rim1 k). rewrite Q4, Z7; lia. }
      fold g in F1, F2, F3, F4.
      unfold body. cbv zeta. cbn [fst snd].
      change (fun (i : nat) (rim : reb_simulation_integrator_mercurana) =>
                set_dcrit rim
                  (upd_nat k
                     (upd_nat i
                        (sqrt3
                           (shell_dt dt (rim_n rim0) k / (frac * 2 * PI)
                            * (shell_dt dt (rim_n rim0) k / (frac * 2 * PI)) * G r
                            * p_m (particle_at (particles r) i)))
                        (dcrit_row rim k)) (dcrit rim)))
        with (fun (i : nat) (rim : reb_simulation_integrator_mercurana) =>
                set_dcrit rim (upd_nat k (upd_nat i (fk i) (dcrit_row rim k)) (dcrit rim))).
      rewrite Hin. set (rows' := for_nat 0 N g (dcrit rim1)) in *.
      unfold Q. cbn [fst snd].
      split.
      { change (shell_dt dt (rim_n rim0) k * 0.5 / INR (rim_n rim1)
                = shell_dt dt (rim_n rim0) (Datatypes.S k)).
        rewrite En. reflexivity. }
      split; [exact Q2|].
      split; [change (List.length rows' = List.length (dcrit rim0)); rewrite F1; exact Q3|].
      split.
      { intros s'.
        change (List.length (nth s' rows' []) = List.length (dcrit_row rim0 s')).
        rewrite F2. apply Q4. }
      split.
      { change (List.length (upd_nat k 0%nat (shellN rim1)) = List.length (shellN rim0)).
        rewrite upd_nat_length; exact Q5. }
      split.
      { change (List.length (upd_nat k 0%nat (shellN_active rim1))
                = List.length (shellN_active rim0)).
        rewrite upd_nat_length; exact Q6. }
      intros s Hs.
      match goal with
      | |- (forall i, _ -> nth i (dcrit_row ?x s) 0 = _) /\ shellN_at ?x s = _ /\ _ =>
          change ((forall i, (i < N)%nat -> nth i (nth s rows' []) 0
                                          = critical_radius r dt frac s i) /\
                  nth s (upd_nat k 0%nat (shellN rim1)) 0%nat = 0%nat /\
                  nth s (upd_nat k 0%nat (shellN_active rim1)) 0%nat = 0%nat)
      end.
      destruct (Nat.eq_dec s k) as [->|Hne].
      + split; [intros i Hi; rewrite F4 by exact Hi; reflexivity|].
        split; apply upd_nat_nth_same; [rewrite Q5, Z3|rewrite Q6, Z4]; lia.
      + destruct (Q7 s ltac:(lia)) as (A1 & A2 & A3).
        split; [intros i Hi; rewrite F3 by exact Hne; apply A1; exact Hi|].
        split; (rewrite upd_nat_nth_other by congruence); assumption. }
  destruct st1 as [rim1 dts]. destruct HQ as (Q1 & Q2 & Q3 & Q4 & Q5 & Q6 & Q7).
  cbn [fst snd] in *.
  pose (h := fun (i : nat) (rows : list (list nat)) =>
    upd_nat 0 (upd_nat i i (nth 0 rows [])) rows).
  assert (Hmap : for_nat 0 N (fun i rim =>
                   set_map rim (upd_nat 0 (upd_nat i i (map_row rim 0)) (rim_map rim))) rim1
                 = set_map rim1 (for_nat 0 N h (rim_map rim1)))
    by exact (for_nat_set_map h 0 N rim1).
  rewrite Hmap. set (rows' := for_nat 0 N h (rim_map rim1)).
  assert (Em : rim_map rim1 = rim_map rim0) by (rewrite <- Q2; reflexivity).
  assert (EN : Nmaxshells rim1 = Nmaxshells rim0) by (rewrite <- Q2; reflexivity).
  assert (Ei : inshell rim1 = inshell rim0) by (rewrite <- Q2; reflexivity).
  assert (Ej : jerk rim1 = jerk rim0) by (rewrite <- Q2; reflexivity).
  assert (Hrows :
    List.length rows' = List.length (rim_map rim0) /\
    (forall s', List.length (nth s' rows' []) = List.length (map_row rim0 s')) /\
    (forall s', s' <> 0%nat -> nth s' rows' [] = map_row rim0 s') /\
    (forall i, (0 < Nmaxshells rim0)%nat -> (i < N)%nat -> nth i (nth 0%nat rows' []) 0%nat = i)).
  { destruct (Nat.eq_dec (Nmaxshells rim0) 0) as [E0|Hpos].
    - (* no shell: the table has no row and the loop changes nothing *)
      assert (Hnil : rim_map rim1 = []).
      { rewrite Em. destruct (rim_map rim0); [reflexivity|]. simpl in Z2. lia. }
      assert (Erows : rows' = []).
      { unfold rows'. rewrite Hnil. apply for_nat_preserves; [reflexivity|].
        intros i s' ->. reflexivity. }
      rewrite Erows. unfold map_row. rewrite <- Em, Hnil.
      repeat split; auto. intros i Hi. lia.
    - destruct (@fill_row nat 0%nat (fun i => i) 0 N (rim_map rim1)) as (F1 & F2 & F3 & F4 & _).
      { rewrite Em, Z2. lia. }
      { rewrite Em. change (nth 0 (rim_map rim0) []) with (map_row rim0 0).
        rewrite Z8; lia. }
      fold h in F1, F2, F3, F4. fold rows' in F1, F2, F3, F4.
      unfold map_row. rewrite <- Em.
      split; [exact F1|]. split; [exact F2|]. split; [exact F3|].
      intros i _ Hi. apply F4. exact Hi. }
  destruct Hrows as (R1 & R2 & R3 & R4).
  cbn [ri_mercurana set_rim].
  split; [reflexivity|].
  split.
  { rewrite <- Em. exact Q2. }
  split.
  { unfold tables_sized.
    cbn [set_map dcrit rim_map shellN shellN_active inshell jerk Nmaxshells dcrit_row map_row].
    rewrite EN, Q3, R1, Q5, Q6, Ei, Ej.
    repeat (split; [assumption|]).
    split.
    - intros s Hs. transitivity (List.length (dcrit_row rim0 s)); [apply Q4|].
      apply Z7. exact Hs.
    - intros s Hs. transitivity (List.length (map_row rim0 s)); [apply R2|].
      apply Z8. exact Hs. }
  split.
  { intros s. unfold shellN_at, shellN_active_at. cbn [set_map shellN shellN_active].
    destruct (Nat.lt_ge_cases s (Nmaxshells rim0)) as [Hs|Hs].
    - destruct (Q7 s Hs) as (_ & A2 & A3). split; assumption.
    - split; apply nth_overflow; [rewrite Q5, Z3|rewrite Q6, Z4]; exact Hs. }
  split.
  { intros i Hp Hi. unfold map_row. cbn [set_map rim_map]. apply R4; assumption. }
  split.
  { intros s Hs. unfold map_row at 1. cbn [set_map rim_map]. apply R3. exact Hs. }
  intros s i Hs Hi. destruct (Q7 s Hs) as (A1 & _).
  unfold dcrit_row. cbn [set_map dcrit]. apply A1. exact Hi.
Qed.

Lemma identity_row_members (N : nat) (row : list nat) :
  (N <= List.length row)%nat -> (forall i, (i < N)%nat -> nth i row 0%nat = i) ->
  firstn N row = seq 0 N.
Proof.
  intros Hlen Hid. apply (nth_ext _ _ 0%nat 0%nat).
  - rewrite firstn_length_le by exact Hlen. rewrite length_seq. reflexivity.
  - intros i Hi. rewrite firstn_length_le in Hi by exact Hlen.
    rewrite nth_firstn. replace (i <? N)%nat with true by (symmetry; apply Nat.ltb_lt; exact Hi).
    rewrite seq_nth by exact Hi. apply Hid. exact Hi.
Qed.

(** The critical radius of a particle shrinks from a shell to the next. *)
Lemma critical_radius_shrinks (r : reb_simulation) (dt frac : R) (s i : nat) :
  0 <= G r -> 0 <= p_m (particle_at (particles r) i) ->
  (1 <= rim_n (ri_mercurana r))%nat ->
  0 < critical_radius r dt frac (Datatypes.S s) i
  /\ critical_radius r dt frac (Datatypes.S s) i <= critical_radius r dt frac s i.
Proof.
  intros HG Hm Hn. unfold critical_radius. cbv zeta. cbn [shell_dt].
  set (d := shell_dt dt (rim_n (ri_mercurana r)) s).
  set (c := frac * 2 * PI). set (n := INR (rim_n (ri_mercurana r))).
  set (m := p_m (particle_at (particles r) i)) in *.
  assert (Hn1 : 1 <= n) by (unfold n; replace 1 with (INR 1) by reflexivity; apply le_INR; exact Hn).
  set (q := 0.5 / n).
  assert (Hq : 0 <= q * q <= 1).
  { assert (H0 : 0 < q) by (unfold q; apply Rdiv_lt_0_compat; lra).
    assert (H1 : q <= 0.5).
    { unfold q. apply (Rmult_le_reg_r n); [lra|].
      unfold Rdiv. rewrite Rmult_assoc, Rinv_l by lra. lra. }
    split; nra. }
  assert (E : d * 0.5 / n / c = d / c * q) by (unfold q, Rdiv; ring).
  rewrite E. set (T := d / c).
  assert (Hbase : 0 <= T * T * G r * m).
  { apply Rmult_le_pos; [|exact Hm]. apply Rmult_le_pos; [|exact HG]. nra. }
  apply sqrt3_monotone.
  - replace (T * q * (T * q) * G r * m) with ((T * T * G r * m) * (q * q)) by ring.
    apply Rmult_le_pos; [exact Hbase|lra].
  - replace (T * q * (T * q) * G r * m) with ((T * T * G r * m) * (q * q)) by ring.
    rewrite <- (Rmult_1_r (T * T * G r * m)) at 2.
    apply Rmult_le_compat_l; [exact Hbase|lra].
Qed.

Ltac iface_simpl :=
  cbn [sim sim_t sim_dt sim_dt_last_done sim_N_active var_config_N gravity collision
       allocatedN recalculate_dcrit_this_timestep is_synchronized safe_mode dt_frac
       L_is_null warnings set_sim set_time set_gravity set_allocatedN
       set_recalculate_dcrit_this_timestep set_is_synchronized set_L_is_null reb_warning
       particles G ri_mercurana set_rim].

Section Interface_properties.

Context {eos : EosTables}.
Variable depth : nat.

(** What [part1] leaves of a simulation whose tables are too small: the
    tables of [recalculate_dcrit] on fresh memory, with the default switching
    function installed when there was none. *)
Lemma part1_allocates (mem : fresh_memory) (st : mercurana_sim) :
  let r := sim st in
  let N := List.length (particles r) in
  (allocatedN st < N)%nat -> is_synchronized st <> 0%nat ->
  let tb := recalculate_dcrit
              (set_rim r (mercurana_allocate mem N (ri_mercurana r)))
              (sim_dt st) (dt_frac st) in
  let st' := reb_integrator_mercurana_part1 depth mem st in
  sim st' = (if L_is_null st
             then set_rim tb (set_switching (ri_mercurana tb)
                                reb_integrator_mercurana_L_infinity
                                reb_integrator_mercurana_dLdr_infinity)
             else tb) /\
  sim_t st' = sim_t st /\ sim_dt st' = sim_dt st /\
  sim_dt_last_done st' = sim_dt_last_done st /\
  sim_N_active st' = sim_N_active st /\ safe_mode st' = safe_mode st /\
  dt_frac st' = dt_frac st /\
  allocatedN st' = N /\ recalculate_dcrit_this_timestep st' = 0%nat /\
  is_synchronized st' = is_synchronized st /\
  gravity st' = REB_GRAVITY_NONE /\ L_is_null st' = false.
Proof.
  intros r N Hlt Hsync tb st'. unfold st', reb_integrator_mercurana_part1.
  apply Nat.ltb_lt in Hlt. apply Nat.eqb_neq in Hsync.
  destruct (nonzero (var_config_N st)); cbv zeta; iface_simpl.
  all: fold r; fold N; rewrite Hlt; iface_simpl.
  all: cbn [nonzero Nat.eqb negb]; iface_simpl; rewrite Hsync; iface_simpl.
  all: destruct (collision st); iface_simpl.
  all: destruct (gravity st); iface_simpl.
  all: unfold default_switching; iface_simpl.
  all: destruct (L_is_null st) eqn:EL; iface_simpl; rewrite ?EL.
  all: repeat split.
Qed.

Lemma part1_tables (mem : fresh_memory) (st : mercurana_sim) :
  let r := sim st in
  let N := List.length (particles r) in
  let rim := ri_mercurana r in
  (allocatedN st < N)%nat -> is_synchronized st <> 0%nat ->
  let r' := sim (reb_integrator_mercurana_part1 depth mem st) in
  let rim' := ri_mercurana r' in
  particles r' = particles r /\ G r' = G r /\
  tables_sized N rim' /\ same_settings rim rim' /\
  (forall s, shellN_at rim' s = 0%nat /\ shellN_active_at rim' s = 0%nat) /\
  (forall i, (0 < Nmaxshells rim)%nat -> (i < N)%nat -> nth i (map_row rim' 0) 0%nat = i) /\
  (forall s i, (s < Nmaxshells rim)%nat -> (i < N)%nat ->
     nth i (dcrit_row rim' s) 0
     = critical_radius r (sim_dt st) (dt_frac st) s i).
Proof.
  intros r N rim Hlt Hsync r' rim'.
  destruct (@part1_allocates mem st Hlt Hsync) as (Esim & _).
  fold r in Esim. fold N in Esim. fold rim in Esim.
  set (r0 := set_rim r (mercurana_allocate mem N rim)) in *.
  destruct (mercurana_allocate_sized mem N rim) as [Hsz Hset].
  pose proof (@recalculate_dcrit_tables r0 (sim_dt st) (dt_frac st)) as Htb.
  cbv zeta in Htb.
  change (List.length (particles r0)) with N in Htb.
  change (ri_mercurana r0) with (mercurana_allocate mem N rim) in Htb.
  specialize (Htb Hsz).
  set (tb := recalculate_dcrit r0 (sim_dt st) (dt_frac st)) in *.
  destruct Htb as (T1 & T2 & T3 & T4 & T5 & T6 & T7).
  destruct Hset as (S1 & S2 & S3 & S4 & S5).
  assert (Hcfg : same_settings rim (ri_mercurana tb)).
  { unfold same_settings. rewrite <- S1, <- S2, <- S3, <- S4, <- S5.
    rewrite <- T2. repeat split. }
  assert (Hcrit : forall s i,
            critical_radius r0 (sim_dt st) (dt_frac st) s i
            = critical_radius r (sim_dt st) (dt_frac st) s i).
  { intros s i. unfold critical_radius. cbv zeta. unfold r0.
    cbn [ri_mercurana set_rim particles G]. fold rim. rewrite S3. reflexivity. }
  assert (Hall :
    particles tb = particles r /\ G tb = G r /\
    tables_sized N (ri_mercurana tb) /\ same_settings rim (ri_mercurana tb) /\
    (forall s, shellN_at (ri_mercurana tb) s = 0%nat
               /\ shellN_active_at (ri_mercurana tb) s = 0%nat) /\
    (forall i, (0 < Nmaxshells rim)%nat -> (i < N)%nat ->
       nth i (map_row (ri_mercurana tb) 0) 0%nat = i) /\
    (forall s i, (s < Nmaxshells rim)%nat -> (i < N)%nat ->
       nth i (dcrit_row (ri_mercurana tb) s) 0
       = critical_radius r (sim_dt st) (dt_frac st) s i)).
  { split; [rewrite T1; reflexivity|]. split; [rewrite T1; reflexivity|].
    split; [exact T3|]. split; [exact Hcfg|]. split; [exact T4|].
    split.
    - intros i Hp Hi. apply T5; [rewrite S5; exact Hp|exact Hi].
    - intros s i Hs Hi. rewrite <- Hcrit. apply T7; [rewrite S5; exact Hs|exact Hi]. }
  unfold rim', r'. rewrite Esim. destruct (L_is_null st); exact Hall.
Qed.

(** The invariant of the schedulers at a shell whose particles are all
    active: the frame of the levels and the total momentum. *)
Lemma level_ops_keep (r : reb_simulation) (s : nat) :
  mercurana_allocated r -> shell_all_active r s ->
  let drift := reb_integrator_mercurana_drift_step depth in
  let kick := reb_integrator_mercurana_interaction_step in
  let J := fun r' => level_frame s r r' /\
                     forall ax, total_momentum ax r' = total_momentum ax r in
  J r /\
  forall r' dt type, J r' ->
    J (reb_integrator_mercurana_preprocessor drift kick r' dt s type) /\
    J (reb_integrator_mercurana_step drift kick r' dt s type) /\
    J (reb_integrator_mercurana_postprocessor drift kick r' dt s type).
Proof.
  intros Hal Hsh drift kick J.
  assert (HJd : forall r' a', J r' -> drift r' a' s = drift r' a' s /\ J (drift r' a' s)).
  { intros r' a' [J1 J2]. split; [reflexivity|].
    destruct (@drift_step_levels eos depth r' a' s) as [I1 I2].
    - eapply level_frame_allocated; eauto.
    - eapply level_frame_shell; [|exact J1|exact Hsh]. lia.
    - split; [eapply level_frame_trans; eauto|].
      intros ax. fold drift in I2. rewrite I2. apply J2. }
  assert (HJk : forall r' y v, J r' -> J (kick r' y v s)).
  { intros r' y v [J1 J2].
    assert (Hal' : mercurana_allocated r') by (eapply level_frame_allocated; eauto).
    assert (Hsh' : shell_all_active r' s)
      by (eapply level_frame_shell; [|exact J1|exact Hsh]; lia).
    destruct (allocated_shell_ok Hal' Hsh') as [Hok Hact].
    pose proof Hact as [Ha1 (Hw1 & _)].
    destruct (@interaction_step_touch r' y v s Hw1 ltac:(rewrite Ha1; lia)) as [Hk _].
    split; [eapply level_frame_trans; [exact J1|apply kernel_frame_level; exact Hk]|].
    intros ax. unfold kick.
    rewrite (@interaction_step_total_momentum r' y v s ax Hact). apply J2. }
  split; [split; [apply level_frame_refl|reflexivity]|].
  intros r' dt type Hr'. split; [|split].
  - apply (@preprocessor_agree eos _ J drift drift kick s HJd HJk r' dt type Hr').
  - apply (@step_agree eos _ J drift drift kick s HJd HJk r' dt type Hr').
  - apply (@postprocessor_agree eos _ J drift drift kick s HJd HJk r' dt type Hr').
Qed.

(** The simulation on entry to the schedulers of [part2]: shell [0] holds all
    the particles, all of them active. *)
Lemma part2_entry (r : reb_simulation) :
  let N := List.length (particles r) in
  let rim := ri_mercurana r in
  mercurana_allocated r -> (0 < Nmaxshells rim)%nat ->
  (forall i, (i < N)%nat -> nth i (map_row rim 0) 0%nat = i) ->
  let r1 := set_rim r (set_shellN_active (set_shellN rim (upd_nat 0 N (shellN rim)))
                         (upd_nat 0 N (shellN_active rim))) in
  mercurana_allocated r1 /\ shell_all_active r1 0 /\
  shellN_at (ri_mercurana r1) 0 = N /\ shellN_active_at (ri_mercurana r1) 0 = N.
Proof.
  intros N rim (A1 & A2 & A3 & A4 & A5 & A6 & A7) Hpos Hid r1.
  assert (HsN : shellN_at (ri_mercurana r1) 0 = N).
  { unfold r1, shellN_at. cbn [ri_mercurana set_rim set_shellN_active set_shellN shellN].
    apply upd_nat_nth_same. fold rim in A2. rewrite A2. exact Hpos. }
  assert (HsA : shellN_active_at (ri_mercurana r1) 0 = N).
  { unfold r1, shellN_active_at.
    cbn [ri_mercurana set_rim set_shellN_active set_shellN shellN_active].
    apply upd_nat_nth_same. fold rim in A3. rewrite A3. exact Hpos. }
  assert (Hmem : shell_members (ri_mercurana r1) 0 = seq 0 N).
  { unfold shell_members. rewrite HsN.
    change (map_row (ri_mercurana r1) 0) with (map_row rim 0).
    apply identity_row_members; [|exact Hid]. apply A6. exact Hpos. }
  split; [|split; [|split; [exact HsN|exact HsA]]].
  - unfold mercurana_allocated, r1.
    cbn [ri_mercurana set_rim set_shellN_active set_shellN shellN shellN_active
         rim_map Nmaxshells inshell jerk whsplitting particles map_row].
    rewrite !upd_nat_length. fold rim. fold N.
    repeat (split; [assumption|]). assumption.
  - unfold shell_all_active. rewrite HsN, HsA, Hmem.
    change (Nmaxshells (ri_mercurana r1)) with (Nmaxshells rim).
    change (List.length (particles r1)) with N.
    split; [exact Hpos|]. split; [lia|]. split; [reflexivity|].
    split; [apply seq_NoDup|]. intros m Hm. apply in_seq in Hm. lia.
Qed.

Lemma part2_step (st : mercurana_sim) :
  let r := sim st in
  let N := List.length (particles r) in
  let rim := ri_mercurana r in
  mercurana_allocated r -> (0 < Nmaxshells rim)%nat ->
  (forall i, (i < N)%nat -> nth i (map_row rim 0) 0%nat = i) ->
  sim_N_active st = (-1)%Z -> L_is_null st = false ->
  let st' := reb_integrator_mercurana_part2 depth st in
  let r' := sim st' in
  sim_t st' = sim_t st + sim_dt st /\ sim_dt_last_done st' = sim_dt st /\
  sim_dt st' = sim_dt st /\
  is_synchronized st' = (if nonzero (safe_mode st) then 1 else 0)%nat /\
  L_is_null st' = false /\ sim_N_active st' = (-1)%Z /\
  mercurana_allocated r' /\
  List.length (particles r') = N /\
  (forall m, p_m (particle_at (particles r') m) = p_m (particle_at (particles r) m)) /\
  shellN_at (ri_mercurana r') 0 = N /\ shellN_active_at (ri_mercurana r') 0 = N /\
  map_row (ri_mercurana r') 0 = map_row rim 0 /\
  forall ax, total_momentum ax r' = total_momentum ax r.
Proof.
  intros r N rim Hal Hpos Hid Hact HL st' r'.
  destruct (@part2_entry r Hal Hpos Hid) as (Hal1 & Hsh1 & HsN & HsA).
  fold N in Hal1, Hsh1, HsN, HsA. fold rim in Hal1, Hsh1, HsN, HsA.
  set (r1 := set_rim r (set_shellN_active (set_shellN rim (upd_nat 0 N (shellN rim)))
                          (upd_nat 0 N (shellN_active rim)))) in *.
  destruct (@level_ops_keep r1 0%nat Hal1 Hsh1) as [J0 Hops]. cbv zeta in J0, Hops.
  set (J := fun x => level_frame 0 r1 x /\
                     forall ax, total_momentum ax x = total_momentum ax r1) in *.
  assert (Hfin : forall x, J x ->
            mercurana_allocated x /\ List.length (particles x) = N /\
            (forall m, p_m (particle_at (particles x) m) = p_m (particle_at (particles r) m)) /\
            shellN_at (ri_mercurana x) 0 = N /\ shellN_active_at (ri_mercurana x) 0 = N /\
            map_row (ri_mercurana x) 0 = map_row rim 0 /\
            forall ax, total_momentum ax x = total_momentum ax r).
  { intros x [J1 J2].
    split; [eapply level_frame_allocated; eauto|].
    destruct J1 as (_ & _ & _ & _ & _ & _ & _ & L8 & _ & L10 & L11).
    destruct (L10 0%nat (Nat.le_refl 0)) as (M1 & M2 & M3).
    split; [exact L8|]. split; [exact L11|].
    split; [rewrite M2; exact HsN|]. split; [rewrite M3; exact HsA|].
    split; [exact M1|]. intros ax. rewrite J2. reflexivity. }
  subst r' st'. unfold reb_integrator_mercurana_part2. cbv zeta.
  fold r. fold N. fold rim. rewrite Hact.
  change ((-1 =? -1)%Z) with true. cbv iota. fold r1.
  set (ra := if nonzero (is_synchronized st)
             then reb_integrator_mercurana_preprocessor
                    (reb_integrator_mercurana_drift_step depth)
                    reb_integrator_mercurana_interaction_step r1 (sim_dt st) 0
                    (phi0 (ri_mercurana r1))
             else r1).
  assert (Ja : J ra).
  { unfold ra. destruct (nonzero (is_synchronized st)); [|exact J0].
    apply (Hops r1 (sim_dt st) (phi0 (ri_mercurana r1)) J0). }
  set (rb := reb_integrator_mercurana_step (reb_integrator_mercurana_drift_step depth)
               reb_integrator_mercurana_interaction_step ra (sim_dt st) 0
               (phi0 (ri_mercurana ra))).
  assert (Jb : J rb) by (apply (Hops ra (sim_dt st) (phi0 (ri_mercurana ra)) Ja)).
  iface_simpl.
  destruct (nonzero (safe_mode st)); iface_simpl.
  - unfold reb_integrator_mercurana_synchronize. iface_simpl.
    change ((0 =? 0)%nat) with true. cbv iota.
    unfold default_switching. iface_simpl. rewrite HL. iface_simpl.
    set (rc := reb_integrator_mercurana_postprocessor
                 (reb_integrator_mercurana_drift_step depth)
                 reb_integrator_mercurana_interaction_step rb (sim_dt st) 0
                 (phi0 (ri_mercurana rb))).
    assert (Jc : J rc) by (apply (Hops rb (sim_dt st) (phi0 (ri_mercurana rb)) Jb)).
    repeat (split; [first [reflexivity | exact HL | exact Hact]|]).
    apply (Hfin rc Jc).
  - repeat (split; [first [reflexivity | exact HL | exact Hact]|]).
    apply (Hfin rb Jb).
Qed.

Lemma tables_sized_allocated (r : reb_simulation) :
  tables_sized (List.length (particles r)) (ri_mercurana r) ->
  (nonzero (whsplitting (ri_mercurana r)) = true -> (1 < Nmaxshells (ri_mercurana r))%nat) ->
  mercurana_allocated r.
Proof.
  intros (T1 & T2 & T3 & T4 & T5 & T6 & T7 & T8) Hwh. unfold mercurana_allocated.
  cbv zeta. rewrite T5, T6.
  split; [exact T2|]. split; [exact T3|]. split; [exact T4|].
  split; [apply Nat.le_refl|]. split; [apply Nat.le_refl|].
  split; [|exact Hwh]. intros s Hs. rewrite (T8 s Hs). apply Nat.le_refl.
Qed.

(** X10.  Called on a synchronized simulation whose tables are smaller than
    the number [N] of particles (as after [reb_integrator_mercurana_reset]),
    [reb_integrator_mercurana_part1] leaves the particles, the time and the
    time step alone and builds the tables for [N] particles, whatever the
    fresh memory holds: [dcrit] and [map] have [Nmaxshells] rows of [N]
    entries, [inshell] and [jerk] have [N] entries, the shell counts have
    [Nmaxshells] entries and are all [0], [map[0]] is the identity,
    [dcrit[s][i]] is [sqrt3(T*T*G*m_i)] for the time scale
    [T = dt_s / (dt_frac*2*pi)] of the shell with [dt_0 = dt] and
    [dt_(s+1) = dt_s * 0.5 / n], the settings are unchanged, [allocatedN] is
    [N], the flag [recalculate_dcrit_this_timestep] is cleared, [gravity] is
    [REB_GRAVITY_NONE] and a switching function is set.  These are the sizes
    that the steps assume. *)
Theorem part1_builds_the_tables (mem : fresh_memory) (st : mercurana_sim) :
  let r := sim st in
  let N := List.length (particles r) in
  let rim := ri_mercurana r in
  (allocatedN st < N)%nat -> is_synchronized st <> 0%nat ->
  let st' := reb_integrator_mercurana_part1 depth mem st in
  let rim' := ri_mercurana (sim st') in
  particles (sim st') = particles r /\
  sim_t st' = sim_t st /\ sim_dt st' = sim_dt st /\
  allocatedN st' = N /\ recalculate_dcrit_this_timestep st' = 0%nat /\
  is_synchronized st' = is_synchronized st /\
  gravity st' = REB_GRAVITY_NONE /\ L_is_null st' = false /\
  tables_sized N rim' /\ same_settings rim rim' /\
  (forall s, shellN_at rim' s = 0%nat /\ shellN_active_at rim' s = 0%nat) /\
  (forall i, (0 < Nmaxshells rim)%nat -> (i < N)%nat -> nth i (map_row rim' 0) 0%nat = i) /\
  (forall s i, (s < Nmaxshells rim)%nat -> (i < N)%nat ->
     nth i (dcrit_row rim' s) 0 = critical_radius r (sim_dt st) (dt_frac st) s i) /\
  ((nonzero (whsplitting rim) = true -> (1 < Nmaxshells rim)%nat) ->
   mercurana_allocated (sim st')).
Proof.
  intros r N rim Hlt Hsync st' rim'.
  destruct (@part1_allocates mem st Hlt Hsync)
    as (_ & E2 & E3 & _ & _ & _ & _ & E8 & E9 & E10 & E11 & E12).
  destruct (@part1_tables mem st Hlt Hsync) as (P1 & P2 & P3 & P4 & P5 & P6 & P7).
  fold st' in E2, E3, E8, E9, E10, E11, E12, P1, P2, P3, P4, P5, P6, P7.
  fold rim' in P3, P4, P5, P6, P7. fold r in P1, P2, P7. fold N in P3, P6, P7, E8.
  fold rim in P4, P6, P7.
  split; [exact P1|]. split; [exact E2|]. split; [exact E3|]. split; [exact E8|].
  split; [exact E9|]. split; [exact E10|]. split; [exact E11|]. split; [exact E12|].
  split; [exact P3|]. split; [exact P4|]. split; [exact P5|]. split; [exact P6|].
  split; [exact P7|].
  intros Hwh. apply tables_sized_allocated.
  - rewrite P1. exact P3.
  - fold rim'. destruct P4 as (_ & _ & _ & S4 & S5). rewrite S4, S5. exact Hwh.
Qed.

(** X11.  In exact real arithmetic, the critical radii that
    [reb_integrator_mercurana_part1] computes are positive and do not grow
    from a shell to the next one inward, [0 < dcrit[s+1][i] <= dcrit[s][i]],
    when [G] and the masses are not negative, [n >= 1] and [dt_frac] is not
    zero. *)
Theorem critical_radii_shrink_inward (mem : fresh_memory) (st : mercurana_sim) :
  let r := sim st in
  let N := List.length (particles r) in
  let rim := ri_mercurana r in
  (allocatedN st < N)%nat -> is_synchronized st <> 0%nat ->
  0 <= G r -> (forall i, 0 <= p_m (particle_at (particles r) i)) ->
  (1 <= rim_n rim)%nat -> dt_frac st <> 0 ->
  let rim' := ri_mercurana (sim (reb_integrator_mercurana_part1 depth mem st)) in
  forall s i, (Datatypes.S s < Nmaxshells rim)%nat -> (i < N)%nat ->
    0 < nth i (dcrit_row rim' (Datatypes.S s)) 0 <= nth i (dcrit_row rim' s) 0.
Proof.
  intros r N rim Hlt Hsync HG Hm Hn Hfrac rim' s i Hs Hi.
  destruct (@part1_tables mem st Hlt Hsync) as (_ & _ & _ & _ & _ & _ & P7).
  fold rim' in P7. fold r in P7. fold rim in P7. fold N in P7.
  rewrite (P7 (Datatypes.S s) i Hs Hi), (P7 s i ltac:(lia) Hi).
  apply critical_radius_shrinks; [exact HG|apply Hm|exact Hn].
Qed.

(** X12.  In exact real arithmetic, one call of
    [reb_integrator_mercurana_part2] on allocated tables with [map[0]] the
    identity, all particles active ([N_active == -1]) and a switching function
    set, conserves the three components of the total linear momentum, for
    every scheme and with all the recursion into sub-shells.  It advances
    [t] by [dt], records [dt] in [dt_last_done], leaves [dt], the number of
    particles and their masses alone, puts all [N] particles into shell [0]
    and leaves the simulation synchronized exactly in safe mode. *)
Theorem part2_is_a_conserving_step (st : mercurana_sim) :
  let r := sim st in
  let N := List.length (particles r) in
  let rim := ri_mercurana r in
  mercurana_allocated r -> (0 < Nmaxshells rim)%nat ->
  (forall i, (i < N)%nat -> nth i (map_row rim 0) 0%nat = i) ->
  sim_N_active st = (-1)%Z -> L_is_null st = false ->
  let st' := reb_integrator_mercurana_part2 depth st in
  let r' := sim st' in
  sim_t st' = sim_t st + sim_dt st /\ sim_dt_last_done st' = sim_dt st /\
  sim_dt st' = sim_dt st /\
  is_synchronized st' = (if nonzero (safe_mode st) then 1 else 0)%nat /\
  List.length (particles r') = N /\
  (forall m, p_m (particle_at (particles r') m) = p_m (particle_at (particles r) m)) /\
  shellN_at (ri_mercurana r') 0 = N /\ shellN_active_at (ri_mercurana r') 0 = N /\
  forall ax, total_momentum ax r' = total_momentum ax r.
Proof.
  intros r N rim Hal Hpos Hid Hact HL st' r'.
  destruct (@part2_step st Hal Hpos Hid Hact HL)
    as (H1 & H2 & H3 & H4 & _ & _ & _ & H8 & H9 & H10 & H11 & _ & H13).
  fold st' in H1, H2, H3, H4, H8, H9, H10, H11, H13.
  fold r' in H8, H9, H10, H11, H13.
  repeat (split; [assumption|]). exact H13.
Qed.

(** X13.  In exact real arithmetic, the first time step after
    [reb_integrator_mercurana_reset], that is [part1] followed by [part2] on
    a simulation of at least one particle with all particles active,
    conserves the total linear momentum, advances [t] by [dt] and ends
    synchronized: the tables that [part1] builds, whatever the fresh memory
    holds, are those that [part2] needs. *)
Theorem first_step_after_reset (mem : fresh_memory) (st0 : mercurana_sim) :
  let N := List.length (particles (sim st0)) in
  (0 < N)%nat -> sim_N_active st0 = (-1)%Z ->
  let st3 := reb_integrator_mercurana_part2 depth
               (reb_integrator_mercurana_part1 depth mem
                  (reb_integrator_mercurana_reset st0)) in
  sim_t st3 = sim_t st0 + sim_dt st0 /\ sim_dt_last_done st3 = sim_dt st0 /\
  is_synchronized st3 = 1%nat /\
  List.length (particles (sim st3)) = N /\
  (forall m, p_m (particle_at (particles (sim st3)) m)
             = p_m (particle_at (particles (sim st0)) m)) /\
  forall ax, total_momentum ax (sim st3) = total_momentum ax (sim st0).
Proof.
  intros N HN Hact st3.
  set (st1 := reb_integrator_mercurana_reset st0) in *.
  assert (Hlt : (allocatedN st1 < List.length (particles (sim st1)))%nat) by exact HN.
  assert (Hsync : is_synchronized st1 <> 0%nat) by (intros E; discriminate E).
  destruct (@part1_allocates mem st1 Hlt Hsync)
    as (_ & E2 & E3 & _ & E5 & E6 & _ & _ & _ & _ & _ & E12).
  destruct (@part1_tables mem st1 Hlt Hsync) as (P1 & _ & P3 & P4 & _ & P6 & _).
  set (st2 := reb_integrator_mercurana_part1 depth mem st1) in *.
  change (particles (sim st1)) with (particles (sim st0)) in P1, P3, P6.
  fold N in P3, P6.
  destruct P4 as (_ & _ & _ & S4 & S5).
  change (whsplitting (ri_mercurana (sim st1))) with 1%nat in S4.
  change (Nmaxshells (ri_mercurana (sim st1))) with 10%nat in S5, P6.
  assert (HN2 : List.length (particles (sim st2)) = N) by (rewrite P1; reflexivity).
  assert (Hal : mercurana_allocated (sim st2)).
  { apply tables_sized_allocated; [rewrite HN2; exact P3|]. rewrite S5. lia. }
  destruct (@part2_step st2 Hal) as (H1 & H2 & _ & H4 & _ & _ & _ & H8 & H9 & _ & _ & _ & H13).
  - rewrite S5. lia.
  - rewrite HN2. intros i Hi. apply P6; [lia|exact Hi].
  - rewrite E5. exact Hact.
  - exact E12.
  - fold st3 in H1, H2, H4, H8, H9, H13.
    rewrite E2, E3 in H1. rewrite E3 in H2. rewrite E6 in H4. rewrite HN2 in H8.
    change (sim_t st1) with (sim_t st0) in H1. change (sim_dt st1) with (sim_dt st0) in H1, H2.
    change (safe_mode st1) with 1%nat in H4.
    split; [exact H1|]. split; [exact H2|]. split; [exact H4|]. split; [exact H8|].
    split.
    + intros m. rewrite H9, P1. reflexivity.
    + intros ax. rewrite H13. unfold total_momentum. rewrite P1. reflexivity.
Qed.

End Interface_properties.

Lemma reset_two_body_ready :
  (allocatedN (reb_integrator_mercurana_reset two_body_run)
   < List.length (particles (sim (reb_integrator_mercurana_reset two_body_run))))%nat /\
  is_synchronized (reb_integrator_mercurana_reset two_body_run) <> 0%nat.
Proof. split; [cbn; lia|intros E; discriminate E]. Qed.

Lemma part1_builds_the_tables_witness :
  let st' := reb_integrator_mercurana_part1 (eos := unused_tables) 3 zero_memory
               (reb_integrator_mercurana_reset two_body_run) in
  allocatedN st' = 2%nat /\ L_is_null st' = false /\
  nth 1 (map_row (ri_mercurana (sim st')) 0) 0%nat = 1%nat.
Proof.
  destruct (@part1_builds_the_tables unused_tables 3 zero_memory
              (reb_integrator_mercurana_reset two_body_run)
              (proj1 reset_two_body_ready) (proj2 reset_two_body_ready))
    as (_ & _ & _ & H4 & _ & _ & _ & H8 & _ & _ & _ & H12 & _).
  split; [exact H4|]. split; [exact H8|]. apply H12; cbn; lia.
Defined.

Lemma critical_radii_shrink_inward_witness :
  let rim' := ri_mercurana (sim (reb_integrator_mercurana_part1 (eos := unused_tables) 3
                                   zero_memory
                                   (reb_integrator_mercurana_reset two_body_run))) in
  0 < nth 0 (dcrit_row rim' 1) 0 <= nth 0 (dcrit_row rim' 0) 0.
Proof.
  apply (@critical_radii_shrink_inward unused_tables 3 zero_memory
           (reb_integrator_mercurana_reset two_body_run)
           (proj1 reset_two_body_ready) (proj2 reset_two_body_ready)).
  - cbn. lra.
  - intros [ | [ | i ] ]; cbn; try lra. destruct i; cbn; lra.
  - cbn. lia.
  - cbn. lra.
  - cbn. lia.
  - cbn. lia.
Defined.

Lemma part2_is_a_conserving_step_witness :
  let st' := reb_integrator_mercurana_part2 (eos := unused_tables) 3 two_body_run in
  sim_t st' = 0 + 1 /\ is_synchronized st' = 1%nat /\
  total_momentum AX (sim st') = total_momentum AX (two_body 0).
Proof.
  destruct (@part2_is_a_conserving_step unused_tables 3 two_body_run
              (proj1 (two_body_allocated eq_refl)))
    as (H1 & _ & _ & H4 & _ & _ & _ & _ & H9).
  - cbn. lia.
  - intros [ | [ | i ] ] Hi; cbn in *; try reflexivity; lia.
  - reflexivity.
  - reflexivity.
  - split; [exact H1|]. split; [exact H4|]. apply H9.
Defined.

Lemma first_step_after_reset_witness :
  let st3 := reb_integrator_mercurana_part2 (eos := unused_tables) 3
               (reb_integrator_mercurana_part1 (eos := unused_tables) 3 zero_memory
                  (reb_integrator_mercurana_reset two_body_run)) in
  sim_t st3 = 0 + 1 /\ is_synchronized st3 = 1%nat /\
  total_momentum AX (sim st3) = total_momentum AX (two_body 0).
Proof.
  destruct (@first_step_after_reset unused_tables 3 zero_memory two_body_run)
    as (H1 & _ & H3 & _ & _ & H6).
  - cbn. lia.
  - reflexivity.
  - split; [exact H1|]. split; [exact H3|]. apply H6.
Defined.
